(** * The for-each executor, its abort handler and the worklist family

    A shallow embedding of [AbortHandler] and [ForEachExecutor]
    (katana/ExecutorForEach.h) and of the worklists of WorkList.h
    ([LIFO], [sFIFO], [FIFO], [ChunkedFIFO], [OrderedByIntegerMetric],
    [StealingLocalWL]), with the properties the specification states
    about them. *)

From Stdlib Require Import ZArith List Lia Bool Sorted Permutation.
From stdpp Require Import base tactics option list functions sorting gmap.
Import ListNotations.

(** ** Machine integers

    [unsigned] is a 32-bit value kept in [Z] and reduced modulo 2^32 after
    each subtraction or addition; [int] is reduced to the two's-complement
    range (what the compiled code does where the C++ standard leaves signed
    overflow undefined). *)

Module MachineInt.
Local Open Scope Z_scope.

Definition wrap_unsigned (z : Z) : Z := z mod 2 ^ 32.

Definition wrap_int (z : Z) : Z := (z + 2 ^ 31) mod 2 ^ 32 - 2 ^ 31.

End MachineInt.

(** ** The abort handler *)

Module AbortHandler.
Import MachineInt.
Local Open Scope Z_scope.

(** Modelled from the spec: the thread pool (katana/ThreadPool.h is not part
    of the sources), as the calling worker sees it: "per-worker identifiers
    (TID, socket, leader-for-socket)" and the number of sockets of the
    machine.  All of them are [unsigned]. *)
Record ThreadPool := {
  getTID : Z;
  getSocket : Z;
  getLeader : Z;
  getLeaderForSocket : Z -> Z;
  getMaxSockets : Z
}.

Section WithValue.
Context {value_type : Type}.

(** [struct Item { value_type val; int retries; }] *)
Record Item := { val : value_type; retries : Z }.

(** Modelled from the spec: [GFIFO<Item>] (not part of the sources), the
    "per-worker queue of retry records" behind [typedef GFIFO<Item>
    AbortedList]: first in, first out; [push] appends at the back. *)
Definition AbortedList := list Item.

(** Modelled from the spec: [PerThreadStorage<AbortedList>], "an array
    indexed by worker id": one queue per worker; [getLocal()] is the slot of
    the calling worker and [getRemote(n)] the slot of worker [n]. *)
Local Abbreviation Queues := (Z -> AbortedList).

Definition push_remote (n : Z) (item : Item) (queues : Queues) : Queues :=
  <[ n := queues n ++ [item] ]> queues.

Definition push_local (tp : ThreadPool) (item : Item) (queues : Queues)
  : Queues :=
  push_remote (getTID tp) item queues.

Record AbortHandler := {
  queues : Queues;
  useBasicPolicy : bool
}.

(** [basicPolicy]: serialize via tree over sockets. *)
Definition basicPolicy (tp : ThreadPool) (item : Item) (qs : Queues)
  : Queues :=
  let socket := getSocket tp in
  push_remote (getLeaderForSocket tp (socket / 2)) item qs.

(** [doublePolicy]: retry work 2X locally, then serialize via tree on socket
    (trying twice at each level), then serialize via tree over sockets. *)
Definition doublePolicy (tp : ThreadPool) (item : Item) (qs : Queues)
  : Queues :=
  let retries' := wrap_int (retries item - 1) in
  if Z.land retries' 1 =? 1 then push_local tp item qs
  else
    let tid := getTID tp in
    let socket := getSocket tp in
    let leader := getLeader tp in
    if negb (tid =? leader) then
      let next := wrap_unsigned (leader + wrap_unsigned (tid - leader) / 2) in
      push_remote next item qs
    else push_remote (getLeaderForSocket tp (socket / 2)) item qs.

(** [boundedPolicy]: retry work 2X locally, then serialize via tree on
    socket but try at most 3 levels, then serialize via tree over sockets. *)
Definition boundedPolicy (tp : ThreadPool) (item : Item) (qs : Queues)
  : Queues :=
  let retries' := wrap_int (retries item - 1) in
  if retries' <? 2 then push_local tp item qs
  else
    let tid := getTID tp in
    let socket := getSocket tp in
    let leader := getLeaderForSocket tp socket in
    if (retries' <? 5) && negb (tid =? leader) then
      let next := wrap_unsigned (leader + wrap_unsigned (tid - leader) / 2) in
      push_remote next item qs
    else push_remote (getLeaderForSocket tp (socket / 2)) item qs.

(** [eagerPolicy]: retry locally only. *)
Definition eagerPolicy (tp : ThreadPool) (item : Item) (qs : Queues)
  : Queues :=
  push_local tp item qs.

(** [AbortHandler() { useBasicPolicy = GetThreadPool().getMaxSockets() > 2; }]
    Every per-thread queue starts empty. *)
Definition new (tp : ThreadPool) : AbortHandler :=
  {| queues := fun _ => []; useBasicPolicy := getMaxSockets tp >? 2 |}.

(** [void push(const value_type& val)] *)
Definition push_value (tp : ThreadPool) (v : value_type) (h : AbortHandler)
  : AbortHandler :=
  let item := {| val := v; retries := 1 |} in
  {| queues := push_local tp item (queues h);
     useBasicPolicy := useBasicPolicy h |}.

(** [void push(const Item& item)] *)
Definition push_item (tp : ThreadPool) (item : Item) (h : AbortHandler)
  : AbortHandler :=
  let newitem := {| val := val item; retries := wrap_int (retries item + 1) |} in
  {| queues := if useBasicPolicy h then basicPolicy tp newitem (queues h)
               else doublePolicy tp newitem (queues h);
     useBasicPolicy := useBasicPolicy h |}.

(** [AbortedList* getQueue() { return queues.getLocal(); }] *)
Definition getQueue (tp : ThreadPool) (h : AbortHandler) : AbortedList :=
  queues h (getTID tp).

(** [value_type& value(Item& item)] *)
Definition value (item : Item) : value_type := val item.

(** The destination of a re-pushed record under the double policy, in the
    words of the specification: a function of the retry count [k] the record
    carries when it is handed back, of the current worker and of the socket
    topology. *)
Definition double_destination (tp : ThreadPool) (k : Z) : Z :=
  if Z.odd k then getTID tp
  else if negb (getTID tp =? getLeader tp)
       then wrap_unsigned
              (getLeader tp + wrap_unsigned (getTID tp - getLeader tp) / 2)
       else getLeaderForSocket tp (getSocket tp / 2).

End WithValue.

Arguments Item : clear implicits.
Arguments AbortHandler : clear implicits.
Arguments AbortedList : clear implicits.

(** A machine with two sockets of two workers each, seen from worker 1
    (socket 0, led by worker 0). *)
Definition two_sockets : ThreadPool :=
  {| getTID := 1; getSocket := 0; getLeader := 0;
     getLeaderForSocket := fun s => 2 * s; getMaxSockets := 2 |}.

(** A machine with four sockets of two workers each, seen from worker 7
    (socket 3, led by worker 6). *)
Definition four_sockets : ThreadPool :=
  {| getTID := 7; getSocket := 3; getLeader := 6;
     getLeaderForSocket := fun s => 2 * s; getMaxSockets := 4 |}.

End AbortHandler.

(** ** The worklist family *)

Module WorkList.

(** Modelled from the spec: [PerCPU<X>] (Galois/Runtime/PerCPU.h is not part
    of the sources), "an array indexed by worker id": [data.get()] is the
    slot of the calling worker, [data.get(i)] the slot of worker [i]. *)
Abbreviation PerCPU X := (nat -> X) (only parsing).

(** The interface every worklist conforms to ([AbstractWorkList]).  The
    calling worker is an explicit argument; [pair<bool, value_type>] is an
    [option]; [empty()] returns the state too, since some implementations
    tidy up while they look.  The locks are always free: one worker runs at
    a time. *)
Class WorkList (Q T : Type) := {
  wl_new : Q;
  wl_push : nat -> T -> Q -> Q;
  wl_pop : nat -> Q -> option T * Q;
  wl_try_pop : nat -> Q -> option T * Q;
  wl_empty : nat -> Q -> bool * Q
}.
Global Hint Mode WorkList ! - : typeclass_instances.

(** *** One worker at work

    What the properties of the specification quantify over: a sequence of
    [push] and [pop] calls made by one worker, and "pop repeated until it
    reports failure". *)

Inductive Op (T : Type) := Push (v : T) | Pop.
Arguments Push {T}.
Arguments Pop {T}.

Section Sequential.
Context {Q T : Type} {W : WorkList Q T}.

(** The items pushed by a sequence of calls, in order. *)
Fixpoint pushed (ops : list (Op T)) : list T :=
  match ops with
  | [] => []
  | Push v :: ops => v :: pushed ops
  | Pop :: ops => pushed ops
  end.

(** Runs the calls; returns the items of the successful pops, in order, and
    the worklist. *)
Fixpoint run_ops (tid : nat) (ops : list (Op T)) (q : Q) : list T * Q :=
  match ops with
  | [] => ([], q)
  | Push v :: ops => run_ops tid ops (wl_push tid v q)
  | Pop :: ops =>
      let (r, q) := wl_pop tid q in
      let (out, q) := run_ops tid ops q in
      (match r with Some v => v :: out | None => out end, q)
  end.

(** Pops until [pop] fails; returns the items popped, in order, or [None]
    when the fuel ends before [pop] fails. *)
Fixpoint drain (tid : nat) (fuel : nat) (q : Q) : option (list T) * Q :=
  match fuel with
  | 0 => (None, q)
  | S fuel' =>
      match wl_pop tid q with
      | (None, q) => (Some [], q)
      | (Some v, q) =>
          let (out, q) := drain tid fuel' q in
          (cons v <$> out, q)
      end
  end.

(** Pushes the items in order. *)
Definition push_all (tid : nat) (items : list T) (q : Q) : Q :=
  foldl (fun q v => wl_push tid v q) q items.

(** "The multiset popped equals the multiset pushed once the worklist
    becomes empty": after the calls [ops] on a fresh worklist, popping until
    [pop] fails does end, and the items of all the successful pops are, up
    to their order, the items pushed. *)
Definition conserves (tid : nat) (ops : list (Op T)) : Prop :=
  exists out,
    fst (drain tid (S (length (pushed ops)))
           (snd (run_ops tid ops (wl_new : Q)))) = Some out /\
    fst (run_ops tid ops (wl_new : Q)) ++ out ≡ₚ pushed ops.

(** The contract of a worklist used by the one worker [tid]: an invariant
    of its states and the items it holds for that worker; a push adds its
    item, a successful pop removes the item it returns, and a pop fails
    only on a worklist that holds nothing. *)
Record Lawful (tid : nat) (inv : Q -> Prop) (items : Q -> list T) : Prop := {
  law_new : inv wl_new /\ items wl_new = [];
  law_push : forall v q,
    inv q -> inv (wl_push tid v q) /\ items (wl_push tid v q) ≡ₚ v :: items q;
  law_pop : forall q,
    inv q ->
    inv (snd (wl_pop tid q)) /\
    match fst (wl_pop tid q) with
    | Some v => items q ≡ₚ v :: items (snd (wl_pop tid q))
    | None => items q = [] /\ items (snd (wl_pop tid q)) = []
    end;
  law_try_pop : forall q,
    inv q ->
    inv (snd (wl_try_pop tid q)) /\
    match fst (wl_try_pop tid q) with
    | Some v => items q ≡ₚ v :: items (snd (wl_try_pop tid q))
    | None => items q = [] /\ items (snd (wl_try_pop tid q)) = []
    end
}.

(** "First in, first out": after the calls [ops] on a fresh worklist,
    popping until [pop] fails ends, and the items of all the successful
    pops are the items pushed, in the order they were pushed. *)
Definition first_in_first_out (tid : nat) (ops : list (Op T)) : Prop :=
  exists out,
    fst (drain tid (S (length (pushed ops)))
           (snd (run_ops tid ops (wl_new : Q)))) = Some out /\
    fst (run_ops tid ops (wl_new : Q)) ++ out = pushed ops.

(** The contract of [empty()] for the one worker [tid]: it answers true
    exactly on a worklist that holds nothing, and loses nothing while it
    looks. *)
Record LawfulEmpty (tid : nat) (inv : Q -> Prop) (items : Q -> list T)
  : Prop := {
  law_empty : forall q,
    inv q ->
    inv (snd (wl_empty tid q)) /\
    items (snd (wl_empty tid q)) = items q /\
    (fst (wl_empty tid q) = true <-> items q = [])
}.

End Sequential.

(** *** Chunks of fixed capacity *)

Module FixedSizeRing.
Section Ring.
Context {T : Type} (capacity : nat).

(** Modelled from the spec: [FixedSizeRing<T, capacity>] (WorkListHelpers.h
    is not part of the sources), a chunk "of fixed capacity": the items in
    the order they were pushed; [push_back] fails on a full chunk and
    [pop_front] on an empty one. *)
Definition ring := list T.

Definition empty (r : ring) : bool :=
  match r with [] => true | _ :: _ => false end.

Definition full (r : ring) : bool := capacity <=? length r.

Definition push_back (v : T) (r : ring) : bool * ring :=
  if full r then (false, r) else (true, r ++ [v]).

Definition pop_front (r : ring) : option T * ring :=
  match r with
  | [] => (None, [])
  | v :: r' => (Some v, r')
  end.

End Ring.
End FixedSizeRing.

(** *** [LIFO]: a locked [std::vector] *)

Module LIFO.
Section LIFO.
Context {T : Type}.

(** [std::vector<T> wl], its back at the end of the list. *)
Record t := { wl : list T }.

Definition new : t := {| wl := [] |}.

Definition push (val : T) (s : t) : t := {| wl := wl s ++ [val] |}.

Definition pop (s : t) : option T * t :=
  match last (wl s) with
  | None => (None, s)
  | Some retval => (Some retval, {| wl := removelast (wl s) |})
  end.

Definition try_pop (s : t) : option T * t := pop s.

Definition empty (s : t) : bool * t :=
  (match wl s with [] => true | _ :: _ => false end, s).

(** The items the worklist holds. *)
Definition items (s : t) : list T := wl s.

End LIFO.
Arguments t : clear implicits.

#[global] Instance worklist {T} : WorkList (t T) T := {|
  wl_new := new;
  wl_push := fun _ => push;
  wl_pop := fun _ => pop;
  wl_try_pop := fun _ => try_pop;
  wl_empty := fun _ => empty
|}.
End LIFO.

(** *** [sFIFO]: a locked [std::deque] *)

Module sFIFO.
Section sFIFO.
Context {T : Type}.

(** [std::deque<T> wl], its front at the head of the list. *)
Record t := { wl : list T }.

Definition new : t := {| wl := [] |}.

Definition push (val : T) (s : t) : t := {| wl := wl s ++ [val] |}.

Definition pop (s : t) : option T * t :=
  match wl s with
  | [] => (None, s)
  | retval :: wl' => (Some retval, {| wl := wl' |})
  end.

Definition try_pop (s : t) : option T * t := pop s.

Definition empty (s : t) : bool * t :=
  (match wl s with [] => true | _ :: _ => false end, s).

(** The items the worklist holds, the next to pop first. *)
Definition items (s : t) : list T := wl s.

End sFIFO.
Arguments t : clear implicits.

#[global] Instance worklist {T} : WorkList (t T) T := {|
  wl_new := new;
  wl_push := fun _ => push;
  wl_pop := fun _ => pop;
  wl_try_pop := fun _ => try_pop;
  wl_empty := fun _ => empty
|}.
End sFIFO.

(** *** [FIFO]: a linked list of chunks of 128 items *)

Module FIFO.
Section FIFO.
Context {T : Type}.

Definition Chunk := @FixedSizeRing.ring T.

(** The chunks from [head] to [tail], linked by their [next] pointers: the
    first of the list is [head], the last is [tail].  "head shall always be
    not null", "tail shall always be not null": the list is never empty. *)
Record t := { chunks : list Chunk }.

(** [FIFO()]: one empty chunk, which is both head and tail. *)
Definition new : t := {| chunks := [ [] ] |}.

(** [while (head->empty() && head->next) head = head->next;] *)
Fixpoint popEmptyChunksLocked (cs : list Chunk) : list Chunk :=
  match cs with
  | old :: (_ :: _) as rest =>
      if FixedSizeRing.empty old then popEmptyChunksLocked rest else cs
  | _ => cs
  end.

(** The push on the tail chunk; when it "didn't work, append a new
    element". *)
Fixpoint push_tail (val : T) (cs : list Chunk) : list Chunk :=
  match cs with
  | [] => []
  | [tail] =>
      let (worked, tail') := FixedSizeRing.push_back 128 val tail in
      if worked then [tail']
      else
        let (_, nc) := FixedSizeRing.push_back 128 val [] in
        [tail; nc]
  | c :: rest => c :: push_tail val rest
  end.

Definition push (val : T) (s : t) : t :=
  {| chunks := push_tail val (chunks s) |}.

Definition pop (s : t) : option T * t :=
  match popEmptyChunksLocked (chunks s) with
  | [] => (None, s)
  | head :: rest =>
      let (retval, head') := FixedSizeRing.pop_front head in
      (retval, {| chunks := head' :: rest |})
  end.

Definition try_pop (s : t) : option T * t := pop s.

Definition empty (s : t) : bool * t :=
  let cs := popEmptyChunksLocked (chunks s) in
  (match cs with
   | [] => true
   | head :: _ => FixedSizeRing.empty head
   end, {| chunks := cs |}).

(** The items the worklist holds, the next to pop first, and its
    invariant: head and tail are not null. *)
Definition items (s : t) : list T := concat (chunks s).

Definition inv (s : t) : Prop := chunks s <> [].

End FIFO.
Arguments t : clear implicits.

#[global] Instance worklist {T} : WorkList (t T) T := {|
  wl_new := new;
  wl_push := fun _ => push;
  wl_pop := fun _ => pop;
  wl_try_pop := fun _ => try_pop;
  wl_empty := fun _ => empty
|}.
End FIFO.

(** *** [ChunkedFIFO]: a producer and a consumer chunk per worker, and a
    shared list of full chunks *)

Module ChunkedFIFO.
Section ChunkedFIFO.
Context {T : Type} (chunksize : nat).

Definition Chunk := @FixedSizeRing.ring T.

(** [struct p { Chunk* cur; Chunk* next; }]: a null pointer is [None]. *)
Record p := { cur : option Chunk; next : option Chunk }.

(** [PerCPU<p> data] and, for [PtrLock<Chunk*> head] with the [next] links
    of the chunks it reaches, the list of the shared chunks ([head] null is
    the empty list). *)
Record t := { data : PerCPU p; head : list Chunk }.

(** [ChunkedFIFO()]: every slot holds two null pointers. *)
Definition new : t :=
  {| data := fun _ => {| cur := None; next := None |}; head := [] |}.

(** [pushChunk(C)]: walk to the last chunk and link [C] behind it, or make
    [C] the head.  A null [C] changes nothing. *)
Definition pushChunk (C : option Chunk) (hd : list Chunk) : list Chunk :=
  match C with
  | None => hd
  | Some c => hd ++ [c]
  end.

(** [popChunk()] *)
Definition popChunk (hd : list Chunk) : option Chunk * list Chunk :=
  match hd with
  | [] => (None, [])
  | r :: rest => (Some r, rest)
  end.

(** The body of [push] on the slot [n] of the calling worker. *)
Definition push_slot (val : T) (n : p) (hd : list Chunk)
  : bool * p * list Chunk :=
  let '(n, hd) :=
    match next n with
    | Some c =>
        if FixedSizeRing.full chunksize c
        then ({| cur := cur n; next := None |}, pushChunk (next n) hd)
        else (n, hd)
    | None => (n, hd)
    end in
  let n :=
    match next n with
    | None => {| cur := cur n; next := Some [] |}
    | Some _ => n
    end in
  match next n with
  | Some c =>
      let (retval, c') := FixedSizeRing.push_back chunksize val c in
      (retval, {| cur := cur n; next := Some c' |}, hd)
  | None => (false, n, hd)
  end.

(** The body of [pop] on the slot [n] of the calling worker. *)
Definition pop_slot (n : p) (hd : list Chunk) : option T * p * list Chunk :=
  let n :=
    match cur n with
    | Some c =>
        if FixedSizeRing.empty c then {| cur := None; next := next n |} else n
    | None => n
    end in
  let '(n, hd) :=
    match cur n with
    | Some _ => (n, hd)
    | None =>
        match popChunk hd with
        | (Some r, hd') => ({| cur := Some r; next := next n |}, hd')
        | (None, hd') => ({| cur := next n; next := None |}, hd')
        end
    end in
  match cur n with
  | None => (None, n, hd)
  | Some c =>
      let (retval, c') := FixedSizeRing.pop_front c in
      (retval, {| cur := Some c'; next := next n |}, hd)
  end.

(** [C && !C->empty()] *)
Definition holds_items (C : option Chunk) : bool :=
  match C with
  | Some c => negb (FixedSizeRing.empty c)
  | None => false
  end.

(** The body of [empty] on the slot [n] of the calling worker. *)
Definition empty_slot (n : p) (hd : list Chunk) : bool :=
  if holds_items (cur n) then false
  else if holds_items (next n) then false
  else if match hd with [] => true | _ :: _ => false end then false
  else true.

Definition push' (tid : nat) (val : T) (s : t) : bool * t :=
  let '(retval, n, hd) := push_slot val (data s tid) (head s) in
  (retval, {| data := <[ tid := n ]> (data s); head := hd |}).

Definition push (tid : nat) (val : T) (s : t) : t := snd (push' tid val s).

Definition pop (tid : nat) (s : t) : option T * t :=
  let '(retval, n, hd) := pop_slot (data s tid) (head s) in
  (retval, {| data := <[ tid := n ]> (data s); head := hd |}).

Definition try_pop (tid : nat) (s : t) : option T * t := pop tid s.

Definition empty (tid : nat) (s : t) : bool * t :=
  (empty_slot (data s tid) (head s), s).

(** [fill_initial(ii, ee)]: push every item, then hand the producer chunk
    over to the shared list. *)
Definition fill_initial (tid : nat) (range : list T) (s : t) : t :=
  let s := foldl (fun s val => push tid val s) s range in
  let n := data s tid in
  {| data := <[ tid := {| cur := cur n; next := None |} ]> (data s);
     head := pushChunk (next n) (head s) |}.

(** The items worker [tid] reaches: those of its consumer chunk, then those
    of the shared chunks, then those of its producer chunk. *)
Definition chunk_items (C : option Chunk) : list T := default [] C.

Definition slot_items (n : p) (hd : list Chunk) : list T :=
  chunk_items (cur n) ++ concat hd ++ chunk_items (next n).

Definition items (tid : nat) (s : t) : list T :=
  slot_items (data s tid) (head s).

(** The invariant of the states one worker produces: no chunk of the shared
    list is empty, and neither is the producer chunk when there is one. *)
Definition slot_inv (n : p) (hd : list Chunk) : Prop :=
  Forall (fun c => c <> []) hd /\ next n <> Some [].

Definition inv (tid : nat) (s : t) : Prop := slot_inv (data s tid) (head s).

(** The states in which worker [a] alone has pushed, and has pushed [xs]:
    every chunk of the shared list is full, the producer chunk of [a] holds
    the rest, and nobody has a consumer chunk. *)
Definition pushed_by (a : nat) (s : t) (xs : list T) : Prop :=
  cur (data s a) = None /\
  (forall j, j <> a -> data s j = {| cur := None; next := None |}) /\
  Forall (fun c => length c = chunksize) (head s) /\
  match next (data s a) with
  | None => head s = [] /\ xs = []
  | Some c => 0 < length c <= chunksize /\ concat (head s) ++ c = xs
  end.

End ChunkedFIFO.
Arguments t : clear implicits.
Arguments p : clear implicits.

Definition worklist {T} (chunksize : nat) : WorkList (t T) T := {|
  wl_new := new;
  wl_push := push chunksize;
  wl_pop := pop;
  wl_try_pop := try_pop;
  wl_empty := empty
|}.
End ChunkedFIFO.

(** *** [OrderedByIntegerMetric]: an array of buckets and a cursor per
    worker *)

Module OrderedByIntegerMetric.
Section OBIM.
Context {T CTy : Type} {W : WorkList CTy T}.
Context (Indexer : T -> nat) (concurrent : bool).

(** [CTy* data; unsigned int size; PerCPU<unsigned int> cursor].  Bucket
    numbers are [unsigned]; [push] and [pop] only compare them, take their
    minimum and count up to [size], so they are kept in [nat]. *)
Record t := { data : list CTy; size : nat; cursor : PerCPU nat }.

(** [OrderedByIntegerMetric(range)]: [size(range+1)] in [unsigned]
    arithmetic, [size] fresh buckets, every cursor 0. *)
Definition new (range : nat) : t :=
  let size := N.to_nat ((N.of_nat range + 1) mod 2 ^ 32) in
  {| data := replicate size wl_new; size := size; cursor := fun _ => 0 |}.

(** [concurrent ? cursor.get() : cursor.get(0)] *)
Definition cursor_slot (tid : nat) : nat := if concurrent then tid else 0.

(** [data[i]], for [i < size]. *)
Definition bucket (s : t) (i : nat) : CTy := default wl_new (data s !! i).

Definition push (tid : nat) (val : T) (s : t) : t :=
  let index := Indexer val in
  let index := Nat.min index (size s - 1) in
  let data' := <[ index := wl_push tid val (bucket s index) ]> (data s) in
  let cur := cursor s (cursor_slot tid) in
  {| data := data'; size := size s;
     cursor := if index <? cur then <[ cursor_slot tid := index ]> (cursor s)
               else cursor s |}.

(** [for (cur = 0; cur < size; ++cur) { ret = data[cur].try_pop(); if
    (ret.first) return ret; }], with [n] the number of buckets still to
    visit.  The result is the item found, the final [cur] and the
    buckets. *)
Fixpoint scan (tid : nat) (n cur : nat) (data : list CTy)
  : option T * nat * list CTy :=
  match n with
  | 0 => (None, cur, data)
  | S n' =>
      let (ret, b') := wl_try_pop tid (default wl_new (data !! cur)) in
      let data' := <[ cur := b' ]> data in
      match ret with
      | Some v => (Some v, cur, data')
      | None => scan tid n' (S cur) data'
      end
  end.

Definition pop (tid : nat) (s : t) : option T * t :=
  let cur := cursor s (cursor_slot tid) in
  let (ret, b') := wl_try_pop tid (bucket s cur) in
  let data' := <[ cur := b' ]> (data s) in
  match ret with
  | Some v => (Some v, {| data := data'; size := size s; cursor := cursor s |})
  | None =>
      match scan tid (size s) 0 data' with
      | (Some v, cur', data'') =>
          (Some v, {| data := data''; size := size s;
                      cursor := <[ cursor_slot tid := cur' ]> (cursor s) |})
      | (None, _, data'') =>
          (None, {| data := data''; size := size s;
                    cursor := <[ cursor_slot tid := 0 ]> (cursor s) |})
      end
  end.

Definition try_pop (tid : nat) (s : t) : option T * t := pop tid s.

(** [empty()]: [for (i = 0; i < size; ++i) if (!data[i].empty()) return
    false; return true;], with [n] the number of buckets still to visit. *)
Fixpoint empty_scan (tid : nat) (n i : nat) (data : list CTy)
  : bool * list CTy :=
  match n with
  | 0 => (true, data)
  | S n' =>
      let (e, b') := wl_empty tid (default wl_new (data !! i)) in
      let data' := <[ i := b' ]> data in
      if negb e then (false, data') else empty_scan tid n' (S i) data'
  end.

Definition empty (tid : nat) (s : t) : bool * t :=
  let (r, data') := empty_scan tid (size s) 0 (data s) in
  (r, {| data := data'; size := size s; cursor := cursor s |}).

(** [fill_initial(ii, ee)] *)
Definition fill_initial (tid : nat) (range : list T) (s : t) : t :=
  foldl (fun s val => push tid val s) s range.

(** The bucket an item goes to. *)
Definition bucket_of (s : t) (val : T) : nat :=
  Nat.min (Indexer val) (size s - 1).

(** The items worker [tid] finds in bucket [i], for [items] the items of
    the container, and all the items of the buckets. *)
Definition bucket_items (items : CTy -> list T) (data : list CTy) (i : nat)
  : list T :=
  items (default wl_new (data !! i)).

Definition all_items (items : CTy -> list T) (data : list CTy) : list T :=
  concat (items <$> data).

(** The states [push] and [pop] are meant for: [size] buckets, each in a
    state its own invariant [inv] allows, and the cursor of the calling
    worker inside the array ([assert(cur < size)]). *)
Definition well_formed (inv : CTy -> Prop) (tid : nat) (s : t) : Prop :=
  length (data s) = size s /\ Forall inv (data s) /\
  cursor s (cursor_slot tid) < size s.

(** Every item lies in the bucket [push] chooses for it. *)
Definition keyed (items : CTy -> list T) (s : t) : Prop :=
  forall i, i < size s ->
    Forall (fun v => bucket_of s v = i) (bucket_items items (data s) i).

(** No bucket below the cursor of the calling worker holds an item. *)
Definition nothing_below_cursor (items : CTy -> list T) (tid : nat) (s : t)
  : Prop :=
  forall i, i < cursor s (cursor_slot tid) ->
    bucket_items items (data s) i = [].

(** The invariant of the states one worker produces. *)
Definition inv (inv_c : CTy -> Prop) (items : CTy -> list T) (tid : nat)
    (s : t) : Prop :=
  well_formed inv_c tid s /\ keyed items s /\ nothing_below_cursor items tid s.

End OBIM.
Arguments t : clear implicits.

(** The worklist of range [range]. *)
Definition worklist {T CTy} {W : WorkList CTy T} (Indexer : T -> nat)
    (concurrent : bool) (range : nat) : WorkList (t CTy) T := {|
  wl_new := new range;
  wl_push := push Indexer concurrent;
  wl_pop := pop concurrent;
  wl_try_pop := try_pop concurrent;
  wl_empty := empty
|}.
End OrderedByIntegerMetric.

(** *** Arrays of containers

    [LogOrderByIntegerMetric], [ApproxOrderByIntegerMetric] and
    [MP_SC_FIFO] keep an array of containers and look for an item slot
    after slot.  [all_items] is what
    the first [size] slots hold, for [items] the items of a container. *)

Module Slots.
Definition all_items {T CTy : Type} (items : CTy -> list T) (size : nat)
    (data : nat -> CTy) : list T :=
  concat (map (fun i => items (data i)) (seq 0 size)).
End Slots.

(** *** [LogOrderByIntegerMetric]: a bin for every bit length of the index *)

Module LogOrderByIntegerMetric.
Local Open Scope Z_scope.

(** The compiler's [__builtin_clz] on a 32-bit [unsigned] that is not 0: the
    number of 0 bits above its highest 1 bit.  [clz_from n i] counts them
    from bit [n - 1] downwards. *)
Fixpoint clz_from (n : nat) (i : Z) : Z :=
  match n with
  | O => 0
  | S n' => if Z.testbit i (Z.of_nat n') then 0 else 1 + clz_from n' i
  end.

Definition builtin_clz (i : Z) : Z := clz_from 32 i.

(** [num()]: [sizeof(unsigned int)*8 + 1] bins. *)
Definition num : Z := 4 * 8 + 1.

(** [getBin(i)] *)
Definition getBin (i : Z) : Z :=
  if i =? 0 then 0 else 4 * 8 - builtin_clz i.

Section LogOBIM.
Context {T CTy : Type} {W : WorkList CTy T}.

(** [Indexer I], whose result is converted to [unsigned int], and the
    template parameter [concurrent]. *)
Context (Indexer : T -> Z) (concurrent : bool).

(** [ContainerTy data[sizeof(unsigned int)*8 + 1]; PerCPU<unsigned int>
    cursor]; [data[i]] is [data (slot i)]. *)
Record t := { data : nat -> CTy; cursor : PerCPU Z }.

Definition slot (index : Z) : nat := Z.to_nat index.

Definition new : t := {| data := fun _ => wl_new; cursor := fun _ => 0 |}.

Definition cursor_slot (tid : nat) : nat := if concurrent then tid else 0%nat.

(** The bin an item goes to. *)
Definition bin_of (val : T) : Z :=
  getBin (MachineInt.wrap_unsigned (Indexer val)).

Definition push (tid : nat) (val : T) (s : t) : t :=
  let index := MachineInt.wrap_unsigned (Indexer val) in
  let index := getBin index in
  {| data := <[ slot index := wl_push tid val (data s (slot index)) ]> (data s);
     cursor := cursor s |}.

(** [for (cur = 0; cur < num(); ++cur) { ret = data[cur].pop(); if
    (ret.first) return ret; }], with [n] the number of bins still to visit.
    The result is the item found, the final [cur] and the bins. *)
Fixpoint scan (tid : nat) (n : nat) (cur : Z) (data : nat -> CTy)
  : option T * Z * (nat -> CTy) :=
  match n with
  | O => (None, cur, data)
  | S n' =>
      let (ret, b') := wl_pop tid (data (slot cur)) in
      let data := <[ slot cur := b' ]> data in
      match ret with
      | Some v => (Some v, cur, data)
      | None => scan tid n' (cur + 1) data
      end
  end.

Definition pop (tid : nat) (s : t) : option T * t :=
  let cur := cursor s (cursor_slot tid) in
  let (ret, b') := wl_pop tid (data s (slot cur)) in
  let data' := <[ slot cur := b' ]> (data s) in
  match ret with
  | Some v => (Some v, {| data := data'; cursor := cursor s |})
  | None =>
      match scan tid (Z.to_nat num) 0 data' with
      | (Some v, cur', data'') =>
          (Some v, {| data := data'';
                      cursor := <[ cursor_slot tid := cur' ]> (cursor s) |})
      | (None, _, data'') =>
          (None, {| data := data'';
                    cursor := <[ cursor_slot tid := 0 ]> (cursor s) |})
      end
  end.

Definition try_pop (tid : nat) (s : t) : option T * t := pop tid s.

(** [empty()] *)
Fixpoint empty_scan (tid : nat) (n : nat) (i : Z) (data : nat -> CTy)
  : bool * (nat -> CTy) :=
  match n with
  | O => (true, data)
  | S n' =>
      let (e, b') := wl_empty tid (data (slot i)) in
      let data := <[ slot i := b' ]> data in
      if negb e then (false, data) else empty_scan tid n' (i + 1) data
  end.

Definition empty (tid : nat) (s : t) : bool * t :=
  let (r, data') := empty_scan tid (Z.to_nat num) 0 (data s) in
  (r, {| data := data'; cursor := cursor s |}).

Definition aborted (tid : nat) (val : T) (s : t) : t := push tid val s.

Definition fill_initial (tid : nat) (range : list T) (s : t) : t :=
  foldl (fun s val => push tid val s) s range.

(** The states one worker produces: every bin in a state its own invariant
    allows, every item in the bin [push] chooses for it, and the cursor of
    the calling worker inside the array. *)
Definition inv (inv_c : CTy -> Prop) (items : CTy -> list T) (tid : nat)
    (s : t) : Prop :=
  (forall i, (i < Z.to_nat num)%nat -> inv_c (data s i)) /\
  (forall i, (i < Z.to_nat num)%nat ->
     Forall (fun v => slot (bin_of v) = i) (items (data s i))) /\
  0 <= cursor s (cursor_slot tid) < num.

Definition items (items_c : CTy -> list T) (s : t) : list T :=
  Slots.all_items items_c (Z.to_nat num) (data s).

End LogOBIM.
Arguments t : clear implicits.

Definition worklist {T CTy} {W : WorkList CTy T} (Indexer : T -> Z)
    (concurrent : bool) : WorkList (t CTy) T := {|
  wl_new := new;
  wl_push := push Indexer;
  wl_pop := pop concurrent;
  wl_try_pop := try_pop concurrent;
  wl_empty := empty
|}.

End LogOrderByIntegerMetric.

(** *** [StealingLocalWL]: a queue per worker, and the next worker's queue
    to steal from *)

Module StealingLocalWL.
Section Stealing.
Context {T ContainerTy : Type} {W : WorkList ContainerTy T}.

(** [PerCPU<ContainerTy> data], with the number of workers it serves. *)
Record t := { data : PerCPU ContainerTy; workers : nat }.

Definition new (workers : nat) : t :=
  {| data := fun _ => wl_new; workers := workers |}.

(** Modelled from the spec: [data.getNext()] (PerCPU.h is not part of the
    sources) is the slot of "the rotating next worker". *)
Definition getNext (s : t) (tid : nat) : nat := (tid + 1) mod workers s.

Definition push (tid : nat) (val : T) (s : t) : t :=
  {| data := <[ tid := wl_push tid val (data s tid) ]> (data s);
     workers := workers s |}.

Definition pop (tid : nat) (s : t) : option T * t :=
  let (ret, q) := wl_pop tid (data s tid) in
  let s := {| data := <[ tid := q ]> (data s); workers := workers s |} in
  match ret with
  | Some v => (Some v, s)
  | None =>
      let nxt := getNext s tid in
      let (ret', q') := wl_pop tid (data s nxt) in
      (ret', {| data := <[ nxt := q' ]> (data s); workers := workers s |})
  end.

Definition empty (tid : nat) (s : t) : bool * t :=
  let (r, q) := wl_empty tid (data s tid) in
  (r, {| data := <[ tid := q ]> (data s); workers := workers s |}).

Definition try_pop (tid : nat) (s : t) : option T * t :=
  let (ret, q) := wl_try_pop tid (data s tid) in
  let s := {| data := <[ tid := q ]> (data s); workers := workers s |} in
  match ret with
  | Some v => (Some v, s)
  | None =>
      let nxt := getNext s tid in
      let (ret', q') := wl_try_pop tid (data s nxt) in
      (ret', {| data := <[ nxt := q' ]> (data s); workers := workers s |})
  end.

(** The items worker [tid] reaches: those of its own queue, then those of
    the next worker's queue, which is its own when it is the only
    worker. *)
Definition items (items_c : ContainerTy -> list T) (tid : nat) (s : t)
  : list T :=
  items_c (data s tid)
  ++ (if decide (getNext s tid = tid) then []
      else items_c (data s (getNext s tid))).

Definition inv (inv_c : ContainerTy -> Prop) (tid : nat) (s : t) : Prop :=
  inv_c (data s tid) /\ inv_c (data s (getNext s tid)).

End Stealing.
Arguments t : clear implicits.

(** The worklist for [workers] workers. *)
Definition worklist {T ContainerTy : Type} {W : WorkList ContainerTy T}
    (workers : nat) : WorkList (t ContainerTy) T := {|
  wl_new := new workers;
  wl_push := push;
  wl_pop := pop;
  wl_try_pop := try_pop;
  wl_empty := empty
|}.

(** Two workers; worker 1 has pushed 42 on its queue, worker 0 nothing. *)
Definition stolen_from : t (FIFO.t nat) := push 1 42 (new 2).
End StealingLocalWL.

(** *** [LocalQueues]: a queue per worker and a shared global queue *)

Module LocalQueues.
Section LocalQueues.
Context {T GlobalQueueTy LocalQueueTy : Type}.
Context {WG : WorkList GlobalQueueTy T} {WL : WorkList LocalQueueTy T}.

(** [PerCPU<LocalQueueTy::rethread<false>::WL> local; GlobalQueueTy
    global;] *)
Record t := { local : PerCPU LocalQueueTy; global : GlobalQueueTy }.

Definition new : t := {| local := fun _ => wl_new; global := wl_new |}.

Definition push (tid : nat) (val : T) (s : t) : t :=
  {| local := <[ tid := wl_push tid val (local s tid) ]> (local s);
     global := global s |}.

Definition aborted (tid : nat) (val : T) (s : t) : t :=
  {| local := local s; global := wl_push tid val (global s) |}.

Definition pop (tid : nat) (s : t) : option T * t :=
  let (ret, q) := wl_pop tid (local s tid) in
  let s := {| local := <[ tid := q ]> (local s); global := global s |} in
  match ret with
  | Some v => (Some v, s)
  | None =>
      let (ret, g) := wl_pop tid (global s) in
      (ret, {| local := local s; global := g |})
  end.

Definition try_pop (tid : nat) (s : t) : option T * t := pop tid s.

Definition empty (tid : nat) (s : t) : bool * t :=
  let (e, q) := wl_empty tid (local s tid) in
  let s := {| local := <[ tid := q ]> (local s); global := global s |} in
  if negb e then (false, s)
  else
    let (e, g) := wl_empty tid (global s) in
    (e, {| local := local s; global := g |}).

(** [fillInitial(begin, end)]: every item goes to the global queue. *)
Definition fillInitial (tid : nat) (range : list T) (s : t) : t :=
  {| local := local s;
     global := foldl (fun g val => wl_push tid val g) (global s) range |}.

(** The items worker [tid] reaches: those of its own queue, then those of
    the global queue. *)
Definition items (items_l : LocalQueueTy -> list T)
    (items_g : GlobalQueueTy -> list T) (tid : nat) (s : t) : list T :=
  items_l (local s tid) ++ items_g (global s).

Definition inv (inv_l : LocalQueueTy -> Prop) (inv_g : GlobalQueueTy -> Prop)
    (tid : nat) (s : t) : Prop :=
  inv_l (local s tid) /\ inv_g (global s).

End LocalQueues.
Arguments t : clear implicits.

Definition worklist {T GlobalQueueTy LocalQueueTy : Type}
    {WG : WorkList GlobalQueueTy T} {WL : WorkList LocalQueueTy T}
  : WorkList (t GlobalQueueTy LocalQueueTy) T := {|
  wl_new := new;
  wl_push := push;
  wl_pop := pop;
  wl_try_pop := try_pop;
  wl_empty := empty
|}.
End LocalQueues.

(** *** [ApproxOrderByIntegerMetric]: 2048 buckets, visited in a circle *)

Module ApproxOrderByIntegerMetric.
Section Approx.
Context {T CTy : Type} {W : WorkList CTy T}.

(** [Indexer I], whose result is converted to [unsigned int], and the
    template parameter [concurrent]. *)
Context (Indexer : T -> Z) (concurrent : bool).

(** [num()] *)
Definition num : Z := 2048.

(** [ContainerTy data[2048]; PerCPU<unsigned int> cursor]; [data[i]] is
    [data (slot i)]. *)
Record t := { data : nat -> CTy; cursor : PerCPU Z }.

Definition slot (index : Z) : nat := Z.to_nat index.

(** The constructor sets every cursor to 0. *)
Definition new : t := {| data := fun _ => wl_new; cursor := fun _ => 0%Z |}.

(** [concurrent ? cursor.get() : cursor.get(0)] *)
Definition cursor_slot (tid : nat) : nat := if concurrent then tid else 0.

Definition push (tid : nat) (val : T) (s : t) : t :=
  let index := MachineInt.wrap_unsigned (Indexer val) in
  let index := (index mod num)%Z in
  {| data := <[ slot index := wl_push tid val (data s (slot index)) ]> (data s);
     cursor := cursor s |}.

(** [for (int i = 0; i < num(); ++i) { cur = (cur + 1) % num(); ret =
    data[cur].try_pop(); if (ret.first) return ret; }], with [n] the number
    of turns still to make.  The result is the item found, the final [cur]
    and the buckets. *)
Fixpoint scan (tid : nat) (n : nat) (cur : Z) (data : nat -> CTy)
  : option T * Z * (nat -> CTy) :=
  match n with
  | 0 => (None, cur, data)
  | S n' =>
      let cur := (MachineInt.wrap_unsigned (cur + 1) mod num)%Z in
      let (ret, b') := wl_try_pop tid (data (slot cur)) in
      let data := <[ slot cur := b' ]> data in
      match ret with
      | Some v => (Some v, cur, data)
      | None => scan tid n' cur data
      end
  end.

Definition pop (tid : nat) (s : t) : option T * t :=
  let cur := cursor s (cursor_slot tid) in
  let (ret, b') := wl_pop tid (data s (slot cur)) in
  let data' := <[ slot cur := b' ]> (data s) in
  match ret with
  | Some v => (Some v, {| data := data'; cursor := cursor s |})
  | None =>
      let '(ret, cur', data'') := scan tid (Z.to_nat num) cur data' in
      (ret, {| data := data'';
               cursor := <[ cursor_slot tid := cur' ]> (cursor s) |})
  end.

Definition try_pop (tid : nat) (s : t) : option T * t := pop tid s.

(** [empty()]: [for (unsigned int i = 0; i < num(); ++i) if
    (!data[i].empty()) return false; return true;] *)
Fixpoint empty_scan (tid : nat) (n : nat) (i : Z) (data : nat -> CTy)
  : bool * (nat -> CTy) :=
  match n with
  | 0 => (true, data)
  | S n' =>
      let (e, b') := wl_empty tid (data (slot i)) in
      let data := <[ slot i := b' ]> data in
      if negb e then (false, data) else empty_scan tid n' (i + 1)%Z data
  end.

Definition empty (tid : nat) (s : t) : bool * t :=
  let (r, data') := empty_scan tid (Z.to_nat num) 0%Z (data s) in
  (r, {| data := data'; cursor := cursor s |}).

Definition aborted (tid : nat) (val : T) (s : t) : t := push tid val s.

Definition fill_initial (tid : nat) (range : list T) (s : t) : t :=
  foldl (fun s val => push tid val s) s range.

(** The bucket an item goes to. *)
Definition bucket_of (val : T) : nat :=
  slot (MachineInt.wrap_unsigned (Indexer val) mod num).

(** The states one worker produces: every bucket in a state its own
    invariant allows, every item in the bucket [push] chooses for it, and
    the cursor of the calling worker inside the array. *)
Definition inv (inv_c : CTy -> Prop) (items : CTy -> list T) (tid : nat)
    (s : t) : Prop :=
  (forall i, i < Z.to_nat num -> inv_c (data s i)) /\
  (forall i, i < Z.to_nat num ->
     Forall (fun v => bucket_of v = i) (items (data s i))) /\
  (0 <= cursor s (cursor_slot tid) < num)%Z.

Definition items (items_c : CTy -> list T) (s : t) : list T :=
  Slots.all_items items_c (Z.to_nat num) (data s).

End Approx.
Arguments t : clear implicits.

Definition worklist {T CTy} {W : WorkList CTy T} (Indexer : T -> Z)
    (concurrent : bool) : WorkList (t CTy) T := {|
  wl_new := new;
  wl_push := push Indexer;
  wl_pop := pop concurrent;
  wl_try_pop := try_pop concurrent;
  wl_empty := empty
|}.
End ApproxOrderByIntegerMetric.

(** *** [MP_SC_FIFO]: a queue per writer, and a reader that cycles *)

Module MP_SC_FIFO.
Section MP.
Context {T : Type}.

(** [data.size()], the number of workers (PerCPU.h is not part of the
    sources). *)
Context (size : nat).

(** [PerCPU<FIFO<T> > data; int cursor;]; [data.get(cursor)] is
    [data (slot cursor)]. *)
Record t := { data : PerCPU (FIFO.t T); cursor : Z }.

Definition slot (cursor : Z) : nat := Z.to_nat cursor.

Definition new : t := {| data := fun _ => FIFO.new; cursor := 0%Z |}.

Definition push (tid : nat) (val : T) (s : t) : t :=
  {| data := <[ tid := FIFO.push val (data s tid) ]> (data s);
     cursor := cursor s |}.

(** [data.get().aborted(val)], and [FIFO::aborted] is [push]. *)
Definition aborted (tid : nat) (val : T) (s : t) : t := push tid val s.

(** [for (int i = 0; i < data.size(); ++i) { ++cursor; cursor %=
    data.size(); ret = data.get(cursor).pop(); if (ret.first) return ret;
    }], with [n] the number of turns still to make.  [cursor] is an [int];
    it is never negative, so [%] is the same whether [data.size()] is
    signed or not. *)
Fixpoint scan (n : nat) (cursor : Z) (data : PerCPU (FIFO.t T))
  : option T * Z * PerCPU (FIFO.t T) :=
  match n with
  | 0 => (None, cursor, data)
  | S n' =>
      let cursor := MachineInt.wrap_int (cursor + 1) in
      let cursor := Z.rem cursor (Z.of_nat size) in
      let (ret, q) := FIFO.pop (data (slot cursor)) in
      let data := <[ slot cursor := q ]> data in
      match ret with
      | Some v => (Some v, cursor, data)
      | None => scan n' cursor data
      end
  end.

Definition pop (s : t) : option T * t :=
  let (ret, q) := FIFO.pop (data s (slot (cursor s))) in
  let data' := <[ slot (cursor s) := q ]> (data s) in
  match ret with
  | Some v => (Some v, {| data := data'; cursor := cursor s |})
  | None =>
      let '(ret, cursor', data'') := scan size (cursor s) data' in
      (ret, {| data := data''; cursor := cursor' |})
  end.

Definition try_pop (s : t) : option T * t := pop s.

(** [empty()]: [for (int i = 0; i < data.size(); ++i) if
    (!data.get(i).empty()) return false; return true;] *)
Fixpoint empty_scan (n i : nat) (data : PerCPU (FIFO.t T))
  : bool * PerCPU (FIFO.t T) :=
  match n with
  | 0 => (true, data)
  | S n' =>
      let (e, q) := FIFO.empty (data i) in
      let data := <[ i := q ]> data in
      if negb e then (false, data) else empty_scan n' (S i) data
  end.

Definition empty (s : t) : bool * t :=
  let (r, data') := empty_scan size 0 (data s) in
  (r, {| data := data'; cursor := cursor s |}).

(** [fillInitial(begin, end)] *)
Definition fillInitial (tid : nat) (range : list T) (s : t) : t :=
  foldl (fun s val => push tid val s) s range.

(** The states the calls produce: the queues of the workers are what
    [FIFO] allows, and the cursor points at one of them. *)
Definition inv (s : t) : Prop :=
  (forall i, i < size -> FIFO.inv (data s i)) /\
  (0 <= cursor s < Z.of_nat size)%Z.

Definition items (s : t) : list T :=
  Slots.all_items FIFO.items size (data s).

End MP.
Arguments t : clear implicits.

Definition worklist {T} (size : nat) : WorkList (t T) T := {|
  wl_new := new;
  wl_push := push;
  wl_pop := fun _ => pop size;
  wl_try_pop := fun _ => try_pop size;
  wl_empty := fun _ => empty size
|}.
End MP_SC_FIFO.

(** *** [LocalFilter]: a local queue for the items not beyond the last
    one taken from the global queue *)

Module LocalFilter.
Section LocalFilter.
Context {T LocalTy GlobalTy : Type}.
Context {WL : WorkList LocalTy T} {WG : WorkList GlobalTy T}.

(** [Indexer I], whose result is converted to [unsigned int]. *)
Context (Indexer : T -> Z).

(** [struct p { LocalTy::rethread<false>::WL Q; unsigned int current; };
    GlobalTy globalQ; PerCPU<p> localQs;] *)
Record p := { Q : LocalTy; current : Z }.
Record t := { globalQ : GlobalTy; localQs : PerCPU p }.

(** The constructor sets every [current] to 0. *)
Definition new : t :=
  {| globalQ := wl_new;
     localQs := fun _ => {| Q := wl_new; current := 0%Z |} |}.

Definition index_of (val : T) : Z := MachineInt.wrap_unsigned (Indexer val).

Definition push (tid : nat) (val : T) (s : t) : t :=
  let index := index_of val in
  let me := localQs s tid in
  if (index <=? current me)%Z then
    {| globalQ := globalQ s;
       localQs := <[ tid := {| Q := wl_push tid val (Q me);
                               current := current me |} ]> (localQs s) |}
  else
    {| globalQ := wl_push tid val (globalQ s); localQs := localQs s |}.

Definition aborted (tid : nat) (val : T) (s : t) : t := push tid val s.

Definition pop (tid : nat) (s : t) : option T * t :=
  let me := localQs s tid in
  let (r, q) := wl_pop tid (Q me) in
  let s := {| globalQ := globalQ s;
              localQs := <[ tid := {| Q := q; current := current me |} ]>
                           (localQs s) |} in
  match r with
  | Some v => (Some v, s)
  | None =>
      let (r, g) := wl_pop tid (globalQ s) in
      match r with
      | Some v =>
          (Some v,
           {| globalQ := g;
              localQs := <[ tid := {| Q := Q (localQs s tid);
                                      current := index_of v |} ]>
                           (localQs s) |})
      | None => (None, {| globalQ := g; localQs := localQs s |})
      end
  end.

Definition try_pop (tid : nat) (s : t) : option T * t := pop tid s.

Definition empty (tid : nat) (s : t) : bool * t :=
  let me := localQs s tid in
  let (e, q) := wl_empty tid (Q me) in
  let s := {| globalQ := globalQ s;
              localQs := <[ tid := {| Q := q; current := current me |} ]>
                           (localQs s) |} in
  if negb e then (false, s)
  else
    let (e, g) := wl_empty tid (globalQ s) in
    (e, {| globalQ := g; localQs := localQs s |}).

(** The items worker [tid] reaches, and the states it produces: both
    queues in states their own invariants allow, and no item of the local
    queue beyond [current]. *)
Definition items (items_l : LocalTy -> list T) (items_g : GlobalTy -> list T)
    (tid : nat) (s : t) : list T :=
  items_l (Q (localQs s tid)) ++ items_g (globalQ s).

Definition inv (inv_l : LocalTy -> Prop) (items_l : LocalTy -> list T)
    (inv_g : GlobalTy -> Prop) (tid : nat) (s : t) : Prop :=
  inv_l (Q (localQs s tid)) /\ inv_g (globalQ s) /\
  Forall (fun v => (index_of v <= current (localQs s tid))%Z)
         (items_l (Q (localQs s tid))).

End LocalFilter.
Arguments t : clear implicits.
Arguments p : clear implicits.

Definition worklist {T LocalTy GlobalTy : Type}
    {WL : WorkList LocalTy T} {WG : WorkList GlobalTy T} (Indexer : T -> Z)
  : WorkList (t LocalTy GlobalTy) T := {|
  wl_new := new;
  wl_push := push Indexer;
  wl_pop := pop Indexer;
  wl_try_pop := try_pop Indexer;
  wl_empty := empty
|}.
End LocalFilter.

End WorkList.

(** ** The page allocator *)

Module PageAlloc.
Local Open Scope Z_scope.

(** [size_t] arithmetic: 64 bits. *)
Definition wrap_size_t (z : Z) : Z := z mod 2 ^ 64.

(** [size_t size = (len + pageSize - 1) & (~(size_t)(pageSize - 1));], the
    size [largeAlloc] and [largeFree] map and unmap.  [pageSize]
    (Galois/Runtime/mm/Mem.h) is not part of the sources and is a
    parameter. *)
Definition rounded_size (pageSize len : Z) : Z :=
  Z.land (wrap_size_t (len + pageSize - 1))
         (wrap_size_t (Z.lnot (wrap_size_t (pageSize - 1)))).

(** Pages are addresses and threads are numbers.  [heads] is the
    thread-local [head] of every thread: absent while the pointer is null,
    otherwise the free list it points to, the page to hand out next first
    ([FreeNode] links the free pages through their own first word).
    [PAState] is [num] and [ownerMap], the map from a page to the free list
    of the thread that got it from the system.
    Modelled from the spec: the system calls ([mmap], tried with huge
    pages, with [MAP_POPULATE] and plain) are "private-anonymous-mapped
    pages": [os] lists the pages the system still has to give; when it has
    none, every [mmap] fails. *)
Record t := {
  heads : gmap nat (list Z);
  num : Z;
  ownerMap : gmap Z nat;
  os : list Z
}.

Definition init (pages : list Z) : t :=
  {| heads := ∅; num := 0; ownerMap := ∅; os := pages |}.

(** [allocFromOS()]: [None] is [GALOIS_SYS_DIE("Out of Memory")].  [num] is
    [unsigned]. *)
Definition allocFromOS (tid : nat) (s : t) : option (Z * t) :=
  match os s with
  | [] => None
  | ptr :: rest =>
      let hs := match heads s !! tid with
                | None => <[ tid := [] ]> (heads s)
                | Some _ => heads s
                end in
      Some (ptr, {| heads := hs;
                    num := MachineInt.wrap_unsigned (num s + 1);
                    ownerMap := <[ ptr := tid ]> (ownerMap s);
                    os := rest |})
  end.

(** [pageAlloc()] *)
Definition pageAlloc (tid : nat) (s : t) : option (Z * t) :=
  match heads s !! tid with
  | Some (h :: rest) =>
      Some (h, {| heads := <[ tid := rest ]> (heads s); num := num s;
                  ownerMap := ownerMap s; os := os s |})
  | _ => allocFromOS tid s
  end.

(** [pageFree(m)]: [None] is the failure of [assert(phead)], for a page
    that no thread got from the system.  The page is linked in front of its
    owner's chain; the list stands for that chain as long as the page is on
    no free list already ([handed_out] below), which is what the properties
    of [pageFree] assume: a page freed twice would link to itself. *)
Definition pageFree (m : Z) (s : t) : option t :=
  match ownerMap s !! m with
  | None => None
  | Some owner =>
      Some {| heads := <[ owner := m :: default [] (heads s !! owner) ]>
                         (heads s);
              num := num s; ownerMap := ownerMap s; os := os s |}
  end.

(** [pagePreAlloc(numPages)]: [while (numPages--)
    pageFree(allocFromOS());] *)
Fixpoint pagePreAlloc (tid : nat) (numPages : nat) (s : t) : option t :=
  match numPages with
  | O => Some s
  | S n =>
      match allocFromOS tid s with
      | None => None
      | Some (ptr, s) =>
          match pageFree ptr s with
          | None => None
          | Some s => pagePreAlloc tid n s
          end
      end
  end.

(** [pageAllocInfo()] *)
Definition pageAllocInfo (s : t) : Z := num s.

(** The states the allocator produces: every free list is without
    repetition and holds only pages of its own thread; every owner has a
    free list; the system's own pages are without repetition and have no
    owner; [num] is an [unsigned]. *)
Definition inv (s : t) : Prop :=
  (forall tid l, heads s !! tid = Some l ->
     NoDup l /\ forall p, p ∈ l -> ownerMap s !! p = Some tid) /\
  (forall p tid, ownerMap s !! p = Some tid -> is_Some (heads s !! tid)) /\
  NoDup (os s) /\
  (forall p, p ∈ os s -> ownerMap s !! p = None) /\
  0 <= num s < 2 ^ 32.

(** The page is on no free list. *)
Definition handed_out (m : Z) (s : t) : Prop :=
  forall tid l, heads s !! tid = Some l -> m ∉ l.

End PageAlloc.

(** ** The for-each executor *)

Module ForEachExecutor.
Import WorkList.

(** Modelled from the spec: the conflict context ("operations
    [start_iteration], [commit_iteration], [cancel_iteration]") and the
    termination detector ("[signal_worked(bool)] after each batch"), which
    are not part of the sources, as the calls one worker makes on them, in
    program order, together with the bulk pushes it makes on the
    worklist. *)
Inductive Event (value_type : Type) :=
  | StartIteration
  | CommitIteration
  | CancelIteration
  | ClearConflictLock
  | BulkPush (items : list value_type)
  | SignalWorked (didWork : bool).
Arguments StartIteration {value_type}.
Arguments CommitIteration {value_type}.
Arguments CancelIteration {value_type}.
Arguments ClearConflictLock {value_type}.
Arguments BulkPush {value_type}.
Arguments SignalWorked {value_type}.

(** How the user operator leaves: by returning, or by the control transfer
    that reports a conflict ([longjmp] or [throw ConflictFlag]). *)
Inductive Outcome := Returned | Conflict.

(** Why a batch ended: the queue's [pop] failed, the iteration limit was
    reached, an iteration aborted, a conflict left a loop that has no
    handler, or the model ran out of fuel. *)
Inductive Stop := PopFailed | LimitReached | Aborted | Escaped | OutOfFuel.

(** [needsPush], [needsAborts], [needsPia], [needsBreak]: the [static
    constexpr] members read off the argument tuple. *)
Record Traits := {
  needsPush : bool;
  needsAborts : bool;
  needsPia : bool;
  needsBreak : bool
}.

Section Executor.
Context {value_type WorkListTy World : Type} {W : WorkList WorkListTy value_type}.

(** Modelled from the spec: the user context (katana/UserContextAccess.h is
    not part of the sources), which "exposes the per-iteration allocator, a
    push buffer (items the operator wants to enqueue on success), and a
    break flag".  The allocator is "a bump arena": [allocated] is what it
    has handed out since its last reset. *)
Record UserContext := {
  pushBuffer : list value_type;
  allocated : nat;
  breakFlag : bool
}.

(** Modelled from the spec: [LoopStatistics] (not part of the sources),
    "per-worker counters: iterations committed, conflicts, pushes", kept in
    one record with the rest of what a worker works on: its
    [ThreadLocalData] (the user context [facing]), the executor's members
    [aborted] and [wl], the shared data the operator acts on and the calls
    made so far.  The executor's [broke] is the break flag of the user
    context, which holds a pointer to it. *)
Record State := {
  facing : UserContext;
  stat_iterations : nat;
  stat_conflicts : nat;
  stat_pushes : nat;
  aborted : AbortHandler.AbortHandler value_type;
  wl : WorkListTy;
  world : World;
  trace : list (Event value_type)
}.

Definition set_facing (f : UserContext) (s : State) : State :=
  {| facing := f; stat_iterations := stat_iterations s;
     stat_conflicts := stat_conflicts s; stat_pushes := stat_pushes s;
     aborted := aborted s; wl := wl s; world := world s; trace := trace s |}.

Definition set_wl (w : WorkListTy) (s : State) : State :=
  {| facing := facing s; stat_iterations := stat_iterations s;
     stat_conflicts := stat_conflicts s; stat_pushes := stat_pushes s;
     aborted := aborted s; wl := w; world := world s; trace := trace s |}.

Definition set_aborted (a : AbortHandler.AbortHandler value_type) (s : State)
  : State :=
  {| facing := facing s; stat_iterations := stat_iterations s;
     stat_conflicts := stat_conflicts s; stat_pushes := stat_pushes s;
     aborted := a; wl := wl s; world := world s; trace := trace s |}.

Definition set_world (w : World) (s : State) : State :=
  {| facing := facing s; stat_iterations := stat_iterations s;
     stat_conflicts := stat_conflicts s; stat_pushes := stat_pushes s;
     aborted := aborted s; wl := wl s; world := w; trace := trace s |}.

Definition call (e : Event value_type) (s : State) : State :=
  {| facing := facing s; stat_iterations := stat_iterations s;
     stat_conflicts := stat_conflicts s; stat_pushes := stat_pushes s;
     aborted := aborted s; wl := wl s; world := world s;
     trace := trace s ++ [e] |}.

Definition inc_iterations (s : State) : State :=
  {| facing := facing s; stat_iterations := S (stat_iterations s);
     stat_conflicts := stat_conflicts s; stat_pushes := stat_pushes s;
     aborted := aborted s; wl := wl s; world := world s; trace := trace s |}.

Definition inc_conflicts (s : State) : State :=
  {| facing := facing s; stat_iterations := stat_iterations s;
     stat_conflicts := S (stat_conflicts s); stat_pushes := stat_pushes s;
     aborted := aborted s; wl := wl s; world := world s; trace := trace s |}.

Definition inc_pushes (n : nat) (s : State) : State :=
  {| facing := facing s; stat_iterations := stat_iterations s;
     stat_conflicts := stat_conflicts s; stat_pushes := stat_pushes s + n;
     aborted := aborted s; wl := wl s; world := world s; trace := trace s |}.

(** [facing.resetPushBuffer()] and [facing.resetAlloc()] *)
Definition resetPushBuffer (s : State) : State :=
  set_facing {| pushBuffer := []; allocated := allocated (facing s);
                breakFlag := breakFlag (facing s) |} s.

Definition resetAlloc (s : State) : State :=
  set_facing {| pushBuffer := pushBuffer (facing s); allocated := 0;
                breakFlag := breakFlag (facing s) |} s.

(** Modelled from the spec: the bulk [push(range)] of the executor's
    worklist (its [WorkListTy] is a template parameter): the items of the
    range, pushed in order by the calling worker. *)
Definition push_range (tid : nat) (items : list value_type) (w : WorkListTy)
  : WorkListTy :=
  foldl (fun w v => wl_push tid v w) w items.

Context (traits : Traits) (tp : AbortHandler.ThreadPool).

(** The user operator [function(val, facing.data())]: it works on the
    shared data and on the user context and returns, or reports a
    conflict. *)
Context (function : value_type -> World -> UserContext
                    -> Outcome * World * UserContext).

(** The calling worker, as the worklist knows it. *)
Definition tid : nat := Z.to_nat (AbortHandler.getTID tp).

Definition commitIteration (s : State) : State :=
  let s :=
    if needsPush traits then
      let pb := pushBuffer (facing s) in
      let n := length pb in
      if negb (n =? 0) then
        let s := inc_pushes n s in
        let s := call (BulkPush pb) (set_wl (push_range tid pb (wl s)) s) in
        resetPushBuffer s
      else s
    else s in
  let s := if needsPia traits then resetAlloc s else s in
  let s := if needsAborts traits then call CommitIteration s else s in
  s.

(** [abortIteration(item, tld)], which is only reached with [needsAborts]
    ([KATANA_LOG_DEBUG_ASSERT(needsAborts)]); [push_aborted] is the
    overload of [aborted.push] for the type of [item]. *)
Definition abortIteration {Item : Type}
    (push_aborted : Item -> AbortHandler.AbortHandler value_type
                    -> AbortHandler.AbortHandler value_type)
    (item : Item) (s : State) : State :=
  let s := call CancelIteration s in
  let s := inc_conflicts s in
  let s := set_aborted (push_aborted item (aborted s)) s in
  let s := if needsPush traits then resetPushBuffer s else s in
  let s := if needsPia traits then resetAlloc s else s in
  s.

(** [doProcess(val, tld)]; on a conflict, control leaves before
    [commitIteration]. *)
Definition doProcess (val : value_type) (s : State) : Outcome * State :=
  let s := if needsAborts traits then call StartIteration s else s in
  let s := inc_iterations s in
  let '(o, w, f) := function val (world s) (facing s) in
  let s := set_facing f (set_world w s) in
  match o with
  | Returned => (Returned, commitIteration s)
  | Conflict => (Conflict, s)
  end.

(** The queue a batch runs from: its [pop], [aborted.value] on what it
    holds, and the overload of [aborted.push] for it. *)
Record Source (Item : Type) := {
  src_pop : State -> option Item * State;
  src_value : Item -> value_type;
  src_push_aborted : Item -> AbortHandler.AbortHandler value_type
                     -> AbortHandler.AbortHandler value_type
}.
Arguments src_pop {Item}.
Arguments src_value {Item}.
Arguments src_push_aborted {Item}.

(** The main worklist [wl]. *)
Definition main_worklist : Source value_type :=
  {| src_pop := fun s => let (r, w) := wl_pop tid (wl s) in (r, set_wl w s);
     src_value := fun v => v;
     src_push_aborted := AbortHandler.push_value tp |}.

(** The calling worker's queue of the abort handler,
    [*aborted.getQueue()]. *)
Definition abort_queue : Source (AbortHandler.Item value_type) :=
  {| src_pop := fun s =>
       match AbortHandler.getQueue tp (aborted s) with
       | [] => (None, s)
       | item :: rest =>
           (Some item,
            set_aborted
              {| AbortHandler.queues :=
                   <[ AbortHandler.getTID tp := rest ]>
                     (AbortHandler.queues (aborted s));
                 AbortHandler.useBasicPolicy :=
                   AbortHandler.useBasicPolicy (aborted s) |} s)
       end;
     src_value := AbortHandler.value;
     src_push_aborted := AbortHandler.push_item tp |}.

(** [runQueueDispatch<limit>(tld, lwl, s)]:
    [while ((!limit || s.num < limit) && (s.item = lwl.pop())) { ++s.num;
    doProcess(aborted.value( *s.item), tld); }], left on a conflict for
    [clearConflictLock(); abortIteration( *s.item, tld);].  [s.num] is
    [unsigned]. *)
Fixpoint runQueueDispatch {Item : Type} (fuel : nat) (limit : N)
    (lwl : Source Item) (num : N) (s : State) : Stop * N * State :=
  match fuel with
  | 0 => (OutOfFuel, num, s)
  | S fuel' =>
      if ((limit =? 0) || (num <? limit))%N then
        match src_pop lwl s with
        | (None, s) => (PopFailed, num, s)
        | (Some item, s) =>
            let num := (N.succ num mod 2 ^ 32)%N in
            match doProcess (src_value lwl item) s with
            | (Returned, s) => runQueueDispatch fuel' limit lwl num s
            | (Conflict, s) =>
                let s := call ClearConflictLock s in
                (Aborted, num, abortIteration (src_push_aborted lwl) item s)
            end
        end
      else (LimitReached, num, s)
  end.

(** The state in which the loop of [runQueueDispatch] stands after [n]
    iterations that returned, when [lwl] gives it that many items and no
    iteration before reports a conflict. *)
Fixpoint after_iterations {Item : Type} (n : nat) (lwl : Source Item)
    (s : State) : option State :=
  match n with
  | 0 => Some s
  | S n' =>
      match src_pop lwl s with
      | (None, _) => None
      | (Some item, s) =>
          match doProcess (src_value lwl item) s with
          | (Returned, s) => after_iterations n' lwl s
          | (Conflict, _) => None
          end
      end
  end.

(** [runQueue<limit>(tld, lwl)], which returns [s.num > 0]; the model also
    tells why the batch ended and how many iterations it ran. *)
Definition runQueue {Item : Type} (fuel : nat) (limit : N)
    (lwl : Source Item) (s : State) : Stop * N * State :=
  runQueueDispatch fuel limit lwl 0%N s.

Definition didWork_of (r : Stop * N * State) : bool := (0 <? snd (fst r))%N.

(** [handleAborts(tld) { return runQueue<0>(tld, *aborted.getQueue()); }] *)
Definition handleAborts (fuel : nat) (s : State) : Stop * N * State :=
  runQueue fuel 0%N abort_queue s.

(** [runQueueSimple(tld)]: no handler for a conflict. *)
Fixpoint runQueueSimple (fuel : nat) (didWork : bool) (s : State)
  : Stop * bool * State :=
  match fuel with
  | 0 => (OutOfFuel, didWork, s)
  | S fuel' =>
      match wl_pop tid (wl s) with
      | (None, w) => (PopFailed, didWork, set_wl w s)
      | (Some p, w) =>
          match doProcess p (set_wl w s) with
          | (Returned, s) => runQueueSimple fuel' true s
          | (Conflict, s) => (Escaped, true, s)
          end
      end
  end.

(** *** The fast push

    [go()] installs [fastPushBack] in the user context when
    [needsPush && !couldAbort].  The functions above are the executor
    without it: what the operator pushes stays in the push buffer until
    [commitIteration].  The functions below are the executor with it. *)

(** [fastPushBack(x)]: [wl.push(x.begin(), x.end()); x.clear();], for [x]
    the push buffer of the user context. *)
Definition fastPushBack (s : State) : State :=
  let x := pushBuffer (facing s) in
  resetPushBuffer (call (BulkPush x) (set_wl (push_range tid x (wl s)) s)).

(** Modelled from the spec: with the fast push "pushes flow directly into
    the worklist without a buffer" (katana/UserContextAccess.h is not part
    of the sources): at each push of the operator the user context puts the
    item in its push buffer and hands the buffer to [fastPushBack].  The
    operator of the model leaves what it has pushed in the buffer, so the
    calls are made for its items one by one, in order, when it is back,
    whether it has returned or reported a conflict. *)
Definition fast_pushes (s : State) : State :=
  foldl
    (fun s v =>
       fastPushBack
         (set_facing {| pushBuffer := [v]; allocated := allocated (facing s);
                        breakFlag := breakFlag (facing s) |} s))
    (resetPushBuffer s) (pushBuffer (facing s)).

(** [doProcess(val, tld)] with the fast push installed. *)
Definition doProcessFast (val : value_type) (s : State) : Outcome * State :=
  let s := if needsAborts traits then call StartIteration s else s in
  let s := inc_iterations s in
  let '(o, w, f) := function val (world s) (facing s) in
  let s := fast_pushes (set_facing f (set_world w s)) in
  match o with
  | Returned => (Returned, commitIteration s)
  | Conflict => (Conflict, s)
  end.

(** [runQueueDispatch<limit>(tld, lwl, s)] with the fast push installed. *)
Fixpoint runQueueDispatchFast {Item : Type} (fuel : nat) (limit : N)
    (lwl : Source Item) (num : N) (s : State) : Stop * N * State :=
  match fuel with
  | 0 => (OutOfFuel, num, s)
  | S fuel' =>
      if ((limit =? 0) || (num <? limit))%N then
        match src_pop lwl s with
        | (None, s) => (PopFailed, num, s)
        | (Some item, s) =>
            let num := (N.succ num mod 2 ^ 32)%N in
            match doProcessFast (src_value lwl item) s with
            | (Returned, s) => runQueueDispatchFast fuel' limit lwl num s
            | (Conflict, s) =>
                let s := call ClearConflictLock s in
                (Aborted, num, abortIteration (src_push_aborted lwl) item s)
            end
        end
      else (LimitReached, num, s)
  end.

(** [runQueueSimple(tld)] with the fast push installed. *)
Fixpoint runQueueSimpleFast (fuel : nat) (didWork : bool) (s : State)
  : Stop * bool * State :=
  match fuel with
  | 0 => (OutOfFuel, didWork, s)
  | S fuel' =>
      match wl_pop tid (wl s) with
      | (None, w) => (PopFailed, didWork, set_wl w s)
      | (Some p, w) =>
          match doProcessFast p (set_wl w s) with
          | (Returned, s) => runQueueSimpleFast fuel' true s
          | (Conflict, s) => (Escaped, true, s)
          end
      end
  end.

(** [constexpr int __NUM = (needsBreak || isLeader) ? 64 : 0;] *)
Definition NUM (isLeader : bool) : N :=
  if needsBreak traits || isLeader then 64%N else 0%N.

(** The batch from the main worklist, [runQueue<__NUM>(tld, wl)], without
    the fast push and with it. *)
Definition main_batch (fuel : nat) (isLeader : bool) (s : State)
  : Stop * N * State :=
  runQueue fuel (NUM isLeader) main_worklist s.

Definition main_batch_fast (fuel : nat) (isLeader : bool) (s : State)
  : Stop * N * State :=
  runQueueDispatchFast fuel (NUM isLeader) main_worklist 0%N s.

(** One pass through the body of the [do ... while (term.Working() ...)]
    loop of [go<couldAbort, isLeader>()]: run some iterations, check for
    aborts, then [term.SignalWorked(didWork)].  The fast push is in use
    when [go] has installed it before the loop.  The result is [None] when
    the pass does not get to the signal: the fuel does not suffice, or a
    conflict leaves [runQueueSimple], which has no handler for it, and
    with it [go]. *)
Definition go_body (fuel : nat) (couldAbort isLeader : bool) (s : State)
  : option (bool * State) :=
  let fast := needsPush traits && negb couldAbort in
  let didWork := false in
  if couldAbort || needsBreak traits then
    let r := if fast then main_batch_fast fuel isLeader s
             else main_batch fuel isLeader s in
    match fst (fst r) with
    | OutOfFuel => None
    | _ =>
        let b := didWork_of r in
        let didWork := b || didWork in
        let s := snd r in
        if couldAbort then
          let r := handleAborts fuel s in
          match fst (fst r) with
          | OutOfFuel => None
          | _ =>
              let b := didWork_of r in
              let didWork := b || didWork in
              let s := snd r in
              Some (didWork, call (SignalWorked didWork) s)
          end
        else Some (didWork, call (SignalWorked didWork) s)
    end
  else
    let r := if fast then runQueueSimpleFast fuel false s
             else runQueueSimple fuel false s in
    match fst (fst r) with
    | OutOfFuel | Escaped => None
    | _ =>
        let b := snd (fst r) in
        let didWork := b || didWork in
        let s := snd r in
        Some (didWork, call (SignalWorked didWork) s)
    end.

(** [bool couldAbort = needsAborts && activeThreads > 1;] *)
Definition couldAbort (activeThreads : nat) : bool :=
  needsAborts traits && (1 <? activeThreads).

End Executor.

Arguments State : clear implicits.
Arguments UserContext : clear implicits.
Arguments Source : clear implicits.
Arguments src_pop {value_type WorkListTy World Item}.
Arguments src_value {value_type WorkListTy World Item}.
Arguments src_push_aborted {value_type WorkListTy World Item}.

(** The events of a trace that are not signals to the termination
    detector. *)
Definition no_signal {value_type : Type} (evs : list (Event value_type))
  : Prop :=
  Forall (fun e => match e with SignalWorked _ => False | _ => True end) evs.

(** The items of the bulk pushes of a trace, in order. *)
Definition bulk_pushed {value_type : Type} (evs : list (Event value_type))
  : list value_type :=
  concat (map (fun e => match e with BulkPush items => items | _ => [] end)
              evs).

(** What an iteration [proc], which is [doProcess] without the fast push or
    with it, does to the counters, the trace, the push buffer and, when it
    is lawful, the worklist. *)
Definition iteration_summary {value_type WorkListTy World : Type}
    {W : WorkList WorkListTy value_type}
    (traits : Traits) (tp : AbortHandler.ThreadPool)
    (proc : value_type -> State value_type WorkListTy World
            -> Outcome * State value_type WorkListTy World) : Prop :=
  forall val s,
    let r := proc val s in
    stat_iterations (snd r) = S (stat_iterations s) /\
    aborted (snd r) = aborted s /\
    stat_conflicts (snd r) = stat_conflicts s /\
    (fst r = Returned -> needsPush traits = true ->
     pushBuffer (facing (snd r)) = []) /\
    exists evs,
      trace (snd r) = trace s ++ evs /\ no_signal evs /\
      forall inv items,
        Lawful (tid tp) inv items -> inv (wl s) ->
        inv (wl (snd r)) /\
        items (wl (snd r)) ≡ₚ items (wl s) ++ bulk_pushed evs.

(** What the iterations that take a worker from [s] to [s'] keep: no
    signal to the termination detector; with pushes enabled, an empty push
    buffer; and in a lawful worklist the items it held and the items
    pushed in bulk, but for those the iterations have popped. *)
Definition pass_summary {value_type WorkListTy World : Type}
    {W : WorkList WorkListTy value_type}
    (traits : Traits) (tp : AbortHandler.ThreadPool)
    (s s' : State value_type WorkListTy World) : Prop :=
  stat_iterations s <= stat_iterations s' /\
  (needsPush traits = true -> pushBuffer (facing s) = [] ->
   pushBuffer (facing s') = []) /\
  exists evs,
    trace s' = trace s ++ evs /\ no_signal evs /\
    forall inv items,
      Lawful (tid tp) inv items -> inv (wl s) ->
      inv (wl s') /\
      exists popped,
        length popped <= stat_iterations s' - stat_iterations s /\
        items (wl s') ++ popped ≡ₚ items (wl s) ++ bulk_pushed evs.

(** *** A sample loop

    The items are numbers and the worklist is an [sFIFO].  The operator
    allocates, pushes 0 unless its item is 0, and then reports a conflict
    when its item is odd. *)
Definition sample_function (v : nat) (w : unit) (f : UserContext nat)
  : Outcome * unit * UserContext nat :=
  let f' := {| pushBuffer := pushBuffer f ++ (if v =? 0 then [] else [0]);
               allocated := S (allocated f);
               breakFlag := breakFlag f |} in
  (if Nat.odd v then Conflict else Returned, w, f').

(** A worker about to start, on the worklist [w] and with the records
    [retry] on its queue of the abort handler. *)
Definition sample_state (tp : AbortHandler.ThreadPool) (w : list nat)
    (retry : list (AbortHandler.Item nat)) : State nat (sFIFO.t nat) unit :=
  {| facing := {| pushBuffer := []; allocated := 0; breakFlag := false |};
     stat_iterations := 0; stat_conflicts := 0; stat_pushes := 0;
     aborted :=
       {| AbortHandler.queues :=
            <[ AbortHandler.getTID tp := retry ]>
              (AbortHandler.queues (AbortHandler.new tp));
          AbortHandler.useBasicPolicy :=
            AbortHandler.useBasicPolicy
              (AbortHandler.new (value_type := nat) tp) |};
     wl := {| sFIFO.wl := w |};
     world := tt;
     trace := [] |}.

(** Conflict detection, pushes and per-iteration allocation all in use, no
    break; and the loop of the subgraph search of the repository, which
    runs with [no_conflicts], [no_pushes], [parallel_break] and
    [per_iter_alloc]. *)
Definition all_traits : Traits :=
  {| needsPush := true; needsAborts := true; needsPia := true;
     needsBreak := false |}.

Definition search_traits : Traits :=
  {| needsPush := false; needsAborts := false; needsPia := true;
     needsBreak := true |}.

Definition plain_traits : Traits :=
  {| needsPush := false; needsAborts := false; needsPia := false;
     needsBreak := false |}.

End ForEachExecutor.

(** ** The heavy-edge matcher of the graph partitioner *)

Module HEMMatcher.
Local Open Scope Z_scope.

(** Modelled from the spec: the "graph coarsening" application is one of the
    "applications" that "sit atop" the scheduler, and its graph classes
    ([GGraph], [MetisGraph], [MetisNode]) are not part of the sources.  What
    [match] writes is kept as the calls it makes on them, in program order:
    [metisGraph->setMatch(id, node)], [coarseGraph->createNode(MetisNode(
    weight))] followed by [coarseGraph->addNode] of the node created, and
    [metisGraph->setCoarseGraphMap(id, newNode)] with that same node. *)
Inductive Call (GNode : Type) :=
  | SetMatch (node partner : GNode)
  | CreateNode (weight : Z)
  | AddNode
  | SetCoarseGraphMap (node : GNode).
Arguments SetMatch {GNode}.
Arguments CreateNode {GNode}.
Arguments AddNode {GNode}.
Arguments SetCoarseGraphMap {GNode}.

Section Match.
Context {GNode : Type} {GNode_eq : EqDecision GNode}.

(** What [match] reads: [metisGraph->isMatched(n.getData().getNodeId())],
    [n.getData().getWeight()], the neighbours of a node in the order of
    [neighbor_begin .. neighbor_end], each with the [getEdgeData] of its
    edge, and the member [maxVertexWeight].  The weights are [int]s, and
    so are their sums, which wrap round. *)
Variable isMatched : GNode -> bool.
Variable getWeight : GNode -> Z.
Variable neighbors : GNode -> list (GNode * Z).
Variable maxVertexWeight : Z.

(** The loop over the neighbours, from [maxwgt] and [matchNode] as they
    stand. *)
Fixpoint select (node : GNode) (nbrs : list (GNode * Z))
    (maxwgt : Z) (matchNode : GNode) : Z * GNode :=
  match nbrs with
  | [] => (maxwgt, matchNode)
  | (neighbor, edgeData) :: nbrs =>
      if negb (isMatched neighbor) && (maxwgt <? edgeData)
         && (MachineInt.wrap_int (getWeight node + getWeight neighbor)
             <=? maxVertexWeight)
      then select node nbrs edgeData neighbor
      else select node nbrs maxwgt matchNode
  end.

(** [HEMMatcher::match(node)] *)
Definition match_node (node : GNode) : list (Call GNode) :=
  if isMatched node then []
  else
    let matchNode := snd (select node (neighbors node) (-1) node) in
    let calls := [SetMatch node matchNode] in
    let weight := getWeight node in
    let '(calls, weight) :=
      if negb (bool_decide (node = matchNode))
      then (calls ++ [SetMatch matchNode node],
            MachineInt.wrap_int (weight + getWeight matchNode))
      else (calls, weight) in
    let calls := calls ++ [CreateNode weight; AddNode; SetCoarseGraphMap node] in
    if negb (bool_decide (matchNode = node))
    then calls ++ [SetCoarseGraphMap matchNode]
    else calls.

End Match.

(** Two nodes of weight 2^30, joined by an edge of weight 5. *)
Definition heavy_pair_weight (n : bool) : Z := 2 ^ 30.

Definition heavy_pair_neighbors (n : bool) : list (bool * Z) := [(negb n, 5)].

End HEMMatcher.

(** ** The subgraph isomorphism application *)

Module SubgraphIsomorphism.
Local Open Scope Z_scope.

(** Modelled from the spec: "the graph data structures" are "external
    collaborators" (galois/graphs/Graph.h is not part of the sources); a
    graph is what the application reads from it: the nodes in iteration
    order ([for (auto n : g)], [g.begin()], [g.size()]), the [label] of a
    node's data, whether [g.findEdgeSortedByDst(a, b) != g.edge_end(a)], and
    the distances [edge_begin .. edge_end] and [in_edge_begin ..
    in_edge_end]. *)
Record Graph (Node : Type) := {
  nodes : list Node;
  label : Node -> Z;
  has_edge : Node -> Node -> bool;
  num_edges : Node -> Z;
  num_in_edges : Node -> Z
}.

Arguments nodes {Node}.
Arguments label {Node}.
Arguments has_edge {Node}.
Arguments num_edges {Node}.
Arguments num_in_edges {Node}.

Section Ullmann.
Context {QGNode DGNode : Type}.
Context {QGNode_eq : EqDecision QGNode} {DGNode_eq : EqDecision DGNode}.
Variable gD : Graph DGNode.
Variable gQ : Graph QGNode.

(** The command line: [-undirected] and [-kFound] (an [unsigned int]). *)
Variable undirected : bool.
Variable kFound : Z.

(** [struct NodeMatch { QGNode nQ; DGNode nD; }] and
    [typedef std::vector<NodeMatch> Matching] *)
Record NodeMatch := { nQ : QGNode; nD : DGNode }.

Definition Matching := list NodeMatch.

(** [UllmannAlgo::FilterCandidatesInternal::operator()]: the [candidate]
    vector of the data of a query node, empty before the call. *)
Definition candidate (q : QGNode) : list DGNode :=
  List.filter
    (fun d =>
       if negb (label gQ q =? label gD d) then false
       else if has_edge gQ q q && negb (has_edge gD d d) then false
       else true)
    (nodes gD).

(** [filterCandidates]: true if at least one node has an empty set of
    candidates. *)
Definition filterCandidates : bool :=
  existsb (fun q => match candidate q with [] => true | _ => false end)
          (nodes gQ).

(** [UllmannAlgo::SubgraphSearchInternal::nextQueryNode]: [std::advance]
    from [gQ.begin()] by [matching.size()]; [None] when that is past the
    last node. *)
Definition nextQueryNode (matching : Matching) : option QGNode :=
  nodes gQ !! length matching.

(** [UllmannAlgo::SubgraphSearchInternal::refineCandidates] *)
Definition refineCandidates (nQuery : QGNode) : list DGNode :=
  let numNghQ := num_edges gQ nQuery in
  let numInNghQ := num_in_edges gQ nQuery in
  List.filter
    (fun c => (numNghQ <=? num_edges gD c) && (numInNghQ <=? num_in_edges gD c))
    (candidate nQuery).

(** [isJoinable], the same in both algorithms. *)
Fixpoint isJoinable (d : DGNode) (q : QGNode) (matching : Matching) : bool :=
  match matching with
  | [] => true
  | nm :: rest =>
      if bool_decide (d = nD nm) then false
      else if has_edge gQ q (nQ nm) && negb (has_edge gD d (nD nm)) then false
      else if negb undirected
              && (has_edge gQ (nQ nm) q && negb (has_edge gD (nD nm) d))
           then false
      else isJoinable d q rest
  end.

(** What the workers share: the bag [report] and the counter
    [static std::atomic_uint currentlyFound]. *)
Record SearchState := {
  report : list Matching;
  currentlyFound : Z
}.

(** The loop [for (auto r : refined)] of [doSearch], with the recursive
    call as [again]. *)
Fixpoint search_refined
    (again : Matching -> SearchState -> option SearchState)
    (q : QGNode) (matching : Matching) (refined : list DGNode)
    (st : SearchState) : option SearchState :=
  match refined with
  | [] => Some st
  | r :: refined =>
      if negb (isJoinable r q matching)
      then search_refined again q matching refined st
      else
        match again (matching ++ [{| nQ := q; nD := r |}]) st with
        | None => None
        | Some st =>
            if kFound <=? currentlyFound st then Some st
            else search_refined again q matching refined st
        end
  end.

(** [UllmannAlgo::SubgraphSearchInternal::doSearch].  [fuel] bounds the depth
    of the recursion. *)
Fixpoint doSearch (fuel : nat) (matching : Matching) (st : SearchState)
  : option SearchState :=
  match fuel with
  | O => None
  | S fuel =>
      if kFound <=? currentlyFound st then Some st
      else if (length matching =? length (nodes gQ))%nat then
        Some {| report := report st ++ [matching];
                currentlyFound :=
                  MachineInt.wrap_unsigned (currentlyFound st + 1) |}
      else
        match nextQueryNode matching with
        | None => None
        | Some q =>
            search_refined (doSearch fuel) q matching (refineCandidates q) st
        end
  end.

(** [SubgraphSearchInternal::operator()]: the state after the iteration and
    whether it called [ctx.breakLoop()]. *)
Definition search_from (fuel : nat) (seed : NodeMatch) (st : SearchState)
  : option (SearchState * bool) :=
  match doSearch fuel [seed] st with
  | None => None
  | Some st => Some (st, kFound <=? currentlyFound st)
  end.

(** [galois::for_each(works, SubgraphSearchInternal(...), no_conflicts(),
    no_pushes(), parallel_break())] run by one worker: the iterations one
    after the other, none after one that broke the loop. *)
Fixpoint for_each (fuel : nat) (works : list NodeMatch) (st : SearchState)
  : option SearchState :=
  match works with
  | [] => Some st
  | seed :: works =>
      match search_from fuel seed st with
      | None => None
      | Some (st, true) => Some st
      | Some (st, false) => for_each fuel works st
      end
  end.

(** [UllmannAlgo::subgraphSearch]: one work item for each candidate of the
    first query node; [None] for a query graph without nodes. *)
Definition subgraphSearch (fuel : nat) (st : SearchState)
  : option SearchState :=
  match nodes gQ with
  | [] => None
  | q :: _ =>
      for_each fuel (map (fun c => {| nQ := q; nD := c |}) (candidate q)) st
  end.

(** [verifyMatching]: [true] when it returns, [false] for
    [GALOIS_DIE("Verification failed")]. *)
Definition verifyMatching (matching : Matching) : bool :=
  let isFailed :=
    existsb
      (fun nm1 =>
         negb (label gQ (nQ nm1) =? label gD (nD nm1))
         || existsb
              (fun nm2 =>
                 (negb (bool_decide (nQ nm1 = nQ nm2))
                  && bool_decide (nD nm1 = nD nm2))
                 || (bool_decide (nQ nm1 = nQ nm2)
                     && negb (bool_decide (nD nm1 = nD nm2)))
                 || (has_edge gQ (nQ nm1) (nQ nm2)
                     && negb (has_edge gD (nD nm1) (nD nm2))))
              matching)
      matching in
  negb isFailed.

(** A matching of the first query nodes, in the order of the graph, that
    passes the verification: what [doSearch] works on. *)
Definition partial_matching (matching : Matching) : Prop :=
  map nQ matching = take (length matching) (nodes gQ) /\
  verifyMatching matching = true.

(** How [run] ends. *)
Inductive Outcome :=
  | NoCandidates
  | Verified (found : Z) (matchings : list Matching)
  | VerificationFailed.

(** [run<UllmannAlgo>()] once the graphs are read. *)
Definition run (fuel : nat) : option Outcome :=
  if filterCandidates then Some NoCandidates
  else
    match subgraphSearch fuel {| report := []; currentlyFound := 0 |} with
    | None => None
    | Some st =>
        if (currentlyFound st =? 0) || forallb verifyMatching (report st)
        then Some (Verified (currentlyFound st) (report st))
        else Some VerificationFailed
    end.

End Ullmann.

Arguments NodeMatch : clear implicits.
Arguments Matching : clear implicits.

(** *** The VF2 algorithm

    Nodes are numbers ([GraphNode] of an [LC_CSR_Graph]), and a
    [std::set] of nodes is a finite set that is gone through in increasing
    order. *)

Module VF2.
Section Search.
Variable gD gQ : Graph nat.

(** Modelled from the spec: "the graph data structures" are "external
    collaborators"; the destinations [getEdgeDst] of [g.edges(n)] and
    [getInEdgeDst] of [g.in_edges(n)], in the order of the edges, which
    [run] sorts by destination. *)
Variable edgesD in_edgesD edgesQ in_edgesQ : nat -> list nat.

Variable undirected : bool.
Variable kFound : Z.

Local Abbreviation SearchState := (@SearchState nat nat).
Local Abbreviation Outcome := (@Outcome nat nat).

(** [std::set]: its elements from [begin()] to [end()]. *)
Definition in_order (s : gset nat) : list nat := merge_sort (≤)%nat (elements s).

(** [VF2Algo::FilterCandidatesInternal::operator()]: as for Ullmann, and
    then [std::sort]; the [assert] that no candidate comes twice is not
    modelled. *)
Definition candidate (q : nat) : list nat :=
  merge_sort (≤)%nat
    (List.filter
       (fun d =>
          if negb (label gQ q =? label gD d) then false
          else if has_edge gQ q q && negb (has_edge gD d d) then false
          else true)
       (nodes gD)).

Definition filterCandidates : bool :=
  existsb (fun q => match candidate q with [] => true | _ => false end)
          (nodes gQ).

(** [struct LocalState] *)
Record LocalState := {
  qFrontier : gset nat;
  qMatched : gset nat;
  dFrontier : gset nat;
  dMatched : gset nat
}.

(** [LocalState::nextQueryNode]; [None] is [abort()]. *)
Definition nextQueryNode (state : LocalState) (matching : Matching nat nat)
  : option nat :=
  match in_order (qFrontier state) with
  | q :: _ => Some q
  | [] =>
      List.find
        (fun q => negb (existsb (fun mi => bool_decide (q = nQ mi)) matching))
        (nodes gQ)
  end.

(** [std::set_difference] on two sorted ranges. *)
Fixpoint set_difference (l1 l2 : list nat) : list nat :=
  match l1 with
  | [] => []
  | x :: l1' =>
      (fix skip (l2 : list nat) : list nat :=
         match l2 with
         | [] => x :: l1'
         | y :: l2' =>
             if (x <? y)%nat then x :: set_difference l1' l2
             else if (y <? x)%nat then skip l2'
             else set_difference l1' l2'
         end) l2
  end.

(** [countNeighbors] and [countInNeighbors], on the destinations of the
    edges of the node. *)
Definition countNeighbors (nghs : list nat) (sMatched : gset nat) : Z :=
  Z.of_nat (length (set_difference nghs (in_order sMatched))).

(** [std::binary_search] on the sorted vector of candidates. *)
Definition binary_search (l : list nat) (x : nat) : bool :=
  bool_decide (x ∈ l).

(** [VF2Algo::SubgraphSearchInternal::refineCandidates] *)
Definition refineCandidates (nQuery : nat) (state : LocalState) : list nat :=
  let numNghQ := num_edges gQ nQuery in
  let numUnmatchedNghQ := countNeighbors (edgesQ nQuery) (qMatched state) in
  let numInNghQ := if negb undirected then num_in_edges gQ nQuery else 0 in
  let numUnmatchedInNghQ :=
    if negb undirected
    then countNeighbors (in_edgesQ nQuery) (qMatched state) else 0 in
  List.filter
    (fun ii =>
       if negb (binary_search (candidate nQuery) ii) then false
       else if num_edges gD ii <? numNghQ then false
       else if countNeighbors (edgesD ii) (dMatched state)
               <? numUnmatchedNghQ then false
       else if undirected then true
       else if num_in_edges gD ii <? numInNghQ then false
       else if countNeighbors (in_edgesD ii) (dMatched state)
               <? numUnmatchedInNghQ then false
       else true)
    (in_order (dFrontier state)).

(** [insertDstFrontierTracked] and [insertInDstFrontierTracked], on the
    destinations of the edges of the node: the frontier and the nodes added
    to it. *)
Definition insertTracked (sMatched : gset nat) (nghs : list nat)
    (acc : gset nat * list nat) : gset nat * list nat :=
  foldl
    (fun acc ngh =>
       let '(sFrontier, sAdd2F) := acc in
       if negb (bool_decide (ngh ∈ sMatched))
          && negb (bool_decide (ngh ∈ sFrontier))
       then ({[ ngh ]} ∪ sFrontier, sAdd2F ++ [ngh])
       else (sFrontier, sAdd2F))
    acc nghs.

(** [insertDstFrontier] and [insertInDstFrontier] *)
Definition insertUntracked (sMatched : gset nat) (nghs : list nat)
    (sFrontier : gset nat) : gset nat :=
  foldl
    (fun sFrontier ngh =>
       if negb (bool_decide (ngh ∈ sMatched)) then {[ ngh ]} ∪ sFrontier
       else sFrontier)
    sFrontier nghs.

(** [for (auto i : sAdd2F) sFrontier.erase(i);] *)
Definition erase_all (sAdd2F : list nat) (sFrontier : gset nat) : gset nat :=
  foldl (fun s i => s ∖ {[ i ]}) sFrontier sAdd2F.

(** The loop [for (auto r : refined)] of [doSearch], with the recursive
    call as [again].  The flag of the result tells whether the loop was
    left by [return]. *)
Fixpoint search_refined
    (again : Matching nat nat -> SearchState -> LocalState
             -> option (SearchState * LocalState))
    (q : nat) (matching : Matching nat nat) (refined : list nat)
    (st : SearchState) (state : LocalState)
  : option (bool * SearchState * LocalState) :=
  match refined with
  | [] => Some (false, st, state)
  | r :: refined =>
      if negb (isJoinable gD gQ undirected r q matching)
      then search_refined again q matching refined st state
      else
        let matching' := matching ++ [{| nQ := q; nD := r |}] in
        let dM := {[ r ]} ∪ dMatched state in
        let dF := dFrontier state ∖ {[ r ]} in
        let '(dF, dAdd2Frontier) := insertTracked dM (edgesD r) (dF, []) in
        let '(dF, dAdd2Frontier) :=
          if negb undirected
          then insertTracked dM (in_edgesD r) (dF, dAdd2Frontier)
          else (dF, dAdd2Frontier) in
        let state := {| qFrontier := qFrontier state;
                        qMatched := qMatched state;
                        dFrontier := dF; dMatched := dM |} in
        match again matching' st state with
        | None => None
        | Some (st, state) =>
            if kFound <=? currentlyFound st then Some (true, st, state)
            else
              let dM := dMatched state ∖ {[ r ]} in
              let dF := {[ r ]} ∪ dFrontier state in
              let dF := erase_all dAdd2Frontier dF in
              let state := {| qFrontier := qFrontier state;
                              qMatched := qMatched state;
                              dFrontier := dF; dMatched := dM |} in
              search_refined again q matching refined st state
        end
  end.

(** [VF2Algo::SubgraphSearchInternal::doSearch].  [fuel] bounds the depth of
    the recursion. *)
Fixpoint doSearch (fuel : nat) (matching : Matching nat nat)
    (st : SearchState) (state : LocalState)
  : option (SearchState * LocalState) :=
  match fuel with
  | O => None
  | S fuel =>
      if kFound <=? currentlyFound st then Some (st, state)
      else if (length matching =? length (nodes gQ))%nat then
        Some ({| report := report st ++ [matching];
                 currentlyFound :=
                   MachineInt.wrap_unsigned (currentlyFound st + 1) |},
              state)
      else
        match nextQueryNode state matching with
        | None => None
        | Some q =>
            let refined := refineCandidates q state in
            let qM := {[ q ]} ∪ qMatched state in
            let qF := qFrontier state ∖ {[ q ]} in
            let '(qF, qAdd2Frontier) :=
              insertTracked qM (edgesQ q) (qF, []) in
            let '(qF, qAdd2Frontier) :=
              if negb undirected
              then insertTracked qM (in_edgesQ q) (qF, qAdd2Frontier)
              else (qF, qAdd2Frontier) in
            let state := {| qFrontier := qF; qMatched := qM;
                            dFrontier := dFrontier state;
                            dMatched := dMatched state |} in
            match search_refined (doSearch fuel) q matching refined st state
            with
            | None => None
            | Some (true, st, state) => Some (st, state)
            | Some (false, st, state) =>
                let qM := qMatched state ∖ {[ q ]} in
                let qF := {[ q ]} ∪ qFrontier state in
                let qF := erase_all qAdd2Frontier qF in
                Some (st, {| qFrontier := qF; qMatched := qM;
                             dFrontier := dFrontier state;
                             dMatched := dMatched state |})
            end
        end
  end.

(** [SubgraphSearchInternal::operator()]: the shared state after the
    iteration and whether it called [ctx.breakLoop()]. *)
Definition search_from (fuel : nat) (seed : NodeMatch nat nat)
    (st : SearchState) : option (SearchState * bool) :=
  let qM : gset nat := {[ nQ seed ]} in
  let qF := insertUntracked qM (edgesQ (nQ seed)) ∅ in
  let qF := if negb undirected
            then insertUntracked qM (in_edgesQ (nQ seed)) qF else qF in
  let dM : gset nat := {[ nD seed ]} in
  let dF := insertUntracked dM (edgesD (nD seed)) ∅ in
  let dF := if negb undirected
            then insertUntracked dM (in_edgesD (nD seed)) dF else dF in
  let state := {| qFrontier := qF; qMatched := qM;
                  dFrontier := dF; dMatched := dM |} in
  match doSearch fuel [seed] st state with
  | None => None
  | Some (st, _) => Some (st, kFound <=? currentlyFound st)
  end.

(** [galois::for_each] with [parallel_break()], run by one worker. *)
Fixpoint for_each (fuel : nat) (works : list (NodeMatch nat nat))
    (st : SearchState) : option SearchState :=
  match works with
  | [] => Some st
  | seed :: works =>
      match search_from fuel seed st with
      | None => None
      | Some (st, true) => Some st
      | Some (st, false) => for_each fuel works st
      end
  end.

(** [VF2Algo::subgraphSearch] *)
Definition subgraphSearch (fuel : nat) (st : SearchState)
  : option SearchState :=
  match nodes gQ with
  | [] => None
  | q :: _ =>
      for_each fuel (map (fun c => {| nQ := q; nD := c |}) (candidate q)) st
  end.

(** [run<VF2Algo>()] once the graphs are read. *)
Definition run (fuel : nat) : option Outcome :=
  if filterCandidates then Some NoCandidates
  else
    match subgraphSearch fuel {| report := []; currentlyFound := 0 |} with
    | None => None
    | Some st =>
        if (currentlyFound st =? 0)
           || forallb (verifyMatching gD gQ) (report st)
        then Some (Verified (currentlyFound st) (report st))
        else Some VerificationFailed
    end.

(** The edges of the query graph lead to nodes of the query graph. *)
Definition closed : Prop :=
  forall n ngh, ngh ∈ edgesQ n \/ ngh ∈ in_edgesQ n -> In ngh (nodes gQ).

(** What [doSearch] works on: a matching of distinct query nodes, which
    are nodes of the query graph, that passes the verification. *)
Definition matching_inv (matching : Matching nat nat) : Prop :=
  NoDup (map nQ matching) /\
  verifyMatching gD gQ matching = true /\
  (closed -> forall nm, In nm matching -> In (nQ nm) (nodes gQ)).

(** What [doSearch] relies on: the matched query nodes are those of the
    matching, none of them is in the frontier, and the frontier holds
    nodes of the query graph. *)
Definition state_inv (state : LocalState) (matching : Matching nat nat)
  : Prop :=
  qMatched state = list_to_set (map nQ matching) /\
  qFrontier state ## qMatched state /\
  (closed -> forall x, x ∈ qFrontier state -> In x (nodes gQ)).

End Search.
End VF2.

(** A query graph of one edge 0 -> 1 and a data graph that is the path
    0 -> 1 -> 2, every node with label ['A']. *)
Definition sample_query : Graph nat :=
  {| nodes := [0; 1]%nat;
     label := fun _ => 65;
     has_edge := fun a b => (a =? 0)%nat && (b =? 1)%nat;
     num_edges := fun a => if (a =? 0)%nat then 1 else 0;
     num_in_edges := fun a => if (a =? 1)%nat then 1 else 0 |}.

Definition sample_data : Graph nat :=
  {| nodes := [0; 1; 2]%nat;
     label := fun _ => 65;
     has_edge := fun a b => (a <? 2)%nat && (b =? S a)%nat;
     num_edges := fun a => if (a <? 2)%nat then 1 else 0;
     num_in_edges := fun a => if (0 <? a)%nat then 1 else 0 |}.

(** The destinations of their edges and of their in-edges. *)
Definition sample_query_edges (n : nat) : list nat :=
  match n with 0%nat => [1%nat] | _ => [] end.

Definition sample_query_in_edges (n : nat) : list nat :=
  match n with 1%nat => [0%nat] | _ => [] end.

Definition sample_data_edges (n : nat) : list nat :=
  match n with 0%nat => [1%nat] | 1%nat => [2%nat] | _ => [] end.

Definition sample_data_in_edges (n : nat) : list nat :=
  match n with 1%nat => [0%nat] | 2%nat => [1%nat] | _ => [] end.

End SubgraphIsomorphism.

(** * Properties *)

Module MachineIntFacts.
Import MachineInt.
Local Open Scope Z_scope.

Lemma wrap_unsigned_small z : 0 <= z < 2 ^ 32 -> wrap_unsigned z = z.
Proof. intros Hz. unfold wrap_unsigned. now apply Z.mod_small. Qed.

Lemma wrap_int_small z : - 2 ^ 31 <= z < 2 ^ 31 -> wrap_int z = z.
Proof. intros Hz. unfold wrap_int. rewrite Z.mod_small; lia. Qed.

(** Reducing to the range of [int] keeps the parity. *)
Lemma wrap_int_odd z : Z.odd (wrap_int z) = Z.odd z.
Proof.
  unfold wrap_int.
  pose proof (Z.div_mod (z + 2 ^ 31) (2 ^ 32) ltac:(lia)) as E.
  assert (Hw : (z + 2 ^ 31) mod 2 ^ 32 - 2 ^ 31
               = z + 2 * (- 2 ^ 31 * ((z + 2 ^ 31) / 2 ^ 32))) by lia.
  rewrite Hw. apply Z.odd_add_mul_2.
Qed.

(** [(z & 1) == 1] tests the parity, also of a negative [z]. *)
Lemma land_1_odd z : (Z.land z 1 =? 1) = Z.odd z.
Proof.
  change 1 with (Z.ones 1) at 1. rewrite Z.land_ones by lia.
  change (2 ^ 1) with 2. rewrite Zmod_odd.
  destruct (Z.odd z); reflexivity.
Qed.

(** The round trip [retries + 1], then [retries - 1], of [push] and
    [doublePolicy] keeps the parity of the count. *)
Lemma retries_round_trip_odd k :
  Z.odd (wrap_int (wrap_int (k + 1) - 1)) = Z.odd k.
Proof.
  rewrite wrap_int_odd, Z.odd_sub, wrap_int_odd, Z.odd_add.
  destruct (Z.odd k); reflexivity.
Qed.

End MachineIntFacts.

Module AbortHandlerFacts.
Import MachineInt MachineIntFacts AbortHandler.
Local Open Scope Z_scope.

Section WithValue.
Context {value_type : Type}.
Implicit Types (tp : ThreadPool) (item : Item value_type).
Implicit Types (h : AbortHandler value_type).
Implicit Types (qs : Z -> AbortedList value_type).

(** A push on the queue of worker [n] appends to that queue and leaves the
    others alone. *)
Lemma push_remote_lookup n item qs m :
  push_remote n item qs m = if decide (n = m) then qs m ++ [item] else qs m.
Proof.
  unfold push_remote. destruct (decide (n = m)) as [->|Hne].
  - apply fn_lookup_insert.
  - now apply fn_lookup_insert_ne.
Qed.

Lemma doublePolicy_destination tp item k qs :
  Z.odd (wrap_int (retries item - 1)) = Z.odd k ->
  doublePolicy tp item qs = push_remote (double_destination tp k) item qs.
Proof.
  intros Hk. unfold doublePolicy, double_destination, push_local.
  rewrite land_1_odd, Hk.
  destruct (Z.odd k); [reflexivity|].
  destruct (negb (getTID tp =? getLeader tp)); reflexivity.
Qed.

Lemma midpoint_no_wrap leader t :
  0 <= leader <= t -> t < 2 ^ 32 ->
  wrap_unsigned (leader + wrap_unsigned (t - leader) / 2)
  = leader + (t - leader) / 2.
Proof.
  intros Hl Ht.
  rewrite (wrap_unsigned_small (t - leader)) by lia.
  apply wrap_unsigned_small.
  pose proof (Z.div_le_upper_bound (t - leader) 2 (t - leader) ltac:(lia)
                ltac:(lia)).
  pose proof (Z.div_pos (t - leader) 2 ltac:(lia) ltac:(lia)). lia.
Qed.

End WithValue.

(** C1 (as stated, refuted): on a machine with two sockets the handler does
    not choose the basic policy.  Worker 1 hands back a record that was
    retried once: the record stays on worker 1's own queue, where the
    double policy keeps it, while the basic policy would have sent it to
    worker 0, the leader of socket 0. *)
Lemma two_sockets_not_basic :
  let h := new (value_type := nat) two_sockets in
  let item := {| val := 7%nat; retries := 1 |} in
  let newitem := {| val := 7%nat; retries := 2 |} in
  getMaxSockets two_sockets <= 2 /\
  queues (push_item two_sockets item h) 1 = [newitem] /\
  queues (push_item two_sockets item h) 0 = [] /\
  basicPolicy two_sockets newitem (queues h) 0 = [newitem] /\
  queues (push_item two_sockets item h) 0
    <> basicPolicy two_sockets newitem (queues h) 0.
Proof. vm_compute. repeat split; congruence. Qed.

(** C1 (amended): [push(v)] wraps [v] with retries = 1 and enqueues it on
    the calling worker's queue; [push(record)] increments the retries and
    dispatches the new record to the policy fixed when the handler was
    constructed: the basic policy when the machine has more than 2
    sockets, the double policy when it has at most 2. *)
Theorem abort_handler_push {value_type : Type}
    (tp0 tp : ThreadPool) (h : AbortHandler value_type) :
  useBasicPolicy h = useBasicPolicy (new (value_type := value_type) tp0) ->
  (forall v m,
     queues (push_value tp v h) m
     = if decide (getTID tp = m)
       then queues h m ++ [{| val := v; retries := 1 |}]
       else queues h m) /\
  (forall v, useBasicPolicy (push_value tp v h) = useBasicPolicy h) /\
  (forall item, useBasicPolicy (push_item tp item h) = useBasicPolicy h) /\
  (forall item,
     - 2 ^ 31 <= retries item < 2 ^ 31 - 1 ->
     let newitem := {| val := val item; retries := retries item + 1 |} in
     (getMaxSockets tp0 > 2 ->
      queues (push_item tp item h) = basicPolicy tp newitem (queues h)) /\
     (getMaxSockets tp0 <= 2 ->
      queues (push_item tp item h) = doublePolicy tp newitem (queues h))).
Proof.
  intros Hpol. simpl in Hpol.
  split; [|split; [|split]]; try reflexivity.
  - intros v m.
    rewrite <- (push_remote_lookup (getTID tp) _ (queues h) m).
    reflexivity.
  - intros item Hr newitem.
    assert (Hq : queues (push_item tp item h)
                 = if getMaxSockets tp0 >? 2
                   then basicPolicy tp newitem (queues h)
                   else doublePolicy tp newitem (queues h)).
    { unfold push_item. simpl. rewrite Hpol, wrap_int_small by lia.
      reflexivity. }
    rewrite Hq.
    destruct (Z.gtb_spec (getMaxSockets tp0) 2); split; intros; (done || lia).
Qed.

Lemma abort_handler_push_witness :
  let h := new (value_type := nat) four_sockets in
  let item := {| val := 7%nat; retries := 1 |} in
  queues (push_item four_sockets item h)
  = basicPolicy four_sockets {| val := 7%nat; retries := 2 |} (queues h).
Proof.
  intros h item.
  refine (proj1 (proj2 (proj2 (proj2
            (abort_handler_push four_sockets four_sockets h eq_refl)))
            item _) _); vm_compute; [split; congruence | reflexivity].
Defined.

(** C9: under the double policy a record handed back with an odd retry
    count stays on the calling worker's queue; with an even count it goes
    to the worker at [leader + (tid - leader) / 2] when the caller is not
    its socket's leader, and to the leader of socket [socket / 2] when it
    is.  The new record is appended to the queue of exactly that worker,
    [double_destination], a function of the count, the calling worker and
    the topology; no other queue changes. *)
Theorem double_policy_placement {value_type : Type}
    (tp : ThreadPool) (h : AbortHandler value_type)
    (item : Item value_type) :
  useBasicPolicy h = false ->
  let newitem := {| val := val item; retries := wrap_int (retries item + 1) |} in
  let dest := double_destination tp (retries item) in
  queues (push_item tp item h) dest = queues h dest ++ [newitem] /\
  (forall m, m <> dest -> queues (push_item tp item h) m = queues h m) /\
  (Z.odd (retries item) = true -> dest = getTID tp) /\
  (Z.odd (retries item) = false -> getTID tp <> getLeader tp ->
   0 <= getLeader tp <= getTID tp -> getTID tp < 2 ^ 32 ->
   dest = getLeader tp + (getTID tp - getLeader tp) / 2) /\
  (Z.odd (retries item) = false -> getTID tp = getLeader tp ->
   dest = getLeaderForSocket tp (getSocket tp / 2)).
Proof.
  intros Hpol newitem dest.
  assert (Hq : queues (push_item tp item h)
               = push_remote dest newitem (queues h)).
  { unfold push_item. simpl. rewrite Hpol.
    apply doublePolicy_destination. simpl. apply retries_round_trip_odd. }
  split; [|split; [|split; [|split]]].
  - rewrite Hq, push_remote_lookup. now destruct (decide (dest = dest)).
  - intros m Hm. rewrite Hq, push_remote_lookup.
    destruct (decide (dest = m)); [congruence | reflexivity].
  - intros Hodd. subst dest. unfold double_destination. now rewrite Hodd.
  - intros Hodd Hne Hl Ht. subst dest. unfold double_destination.
    rewrite Hodd. destruct (Z.eqb_spec (getTID tp) (getLeader tp)); [done|].
    simpl. apply midpoint_no_wrap; assumption.
  - intros Hodd He. subst dest. unfold double_destination.
    rewrite Hodd, He, Z.eqb_refl. reflexivity.
Qed.

Lemma double_policy_placement_witness :
  let h := new (value_type := nat) two_sockets in
  let item := {| val := 7%nat; retries := 2 |} in
  queues (push_item two_sockets item h) 0
  = [{| val := 7%nat; retries := 3 |}].
Proof.
  intros h item.
  exact (proj1 (double_policy_placement two_sockets h item eq_refl)).
Defined.

End AbortHandlerFacts.

Module SequentialFacts.
Import WorkList.

(** What every worklist that keeps the contract does for one worker. *)
Section Generic.
Context {Q T : Type} {W : WorkList Q T}.
Context (tid : nat) (inv : Q -> Prop) (items : Q -> list T).
Hypothesis laws : Lawful tid inv items.

Lemma push_all_spec xs : forall q,
  inv q -> inv (push_all tid xs q) /\ items (push_all tid xs q) ≡ₚ items q ++ xs.
Proof.
  induction xs as [|x xs IH]; intros q Hq; simpl.
  - now rewrite app_nil_r.
  - destruct (law_push _ _ _ laws x q Hq) as [Hi Hp].
    destruct (IH _ Hi) as [Hi' Hp']. split; [assumption|].
    rewrite Hp', Hp. simpl. apply Permutation_middle.
Qed.

Lemma run_ops_spec ops : forall q,
  inv q ->
  inv (snd (run_ops tid ops q)) /\
  fst (run_ops tid ops q) ++ items (snd (run_ops tid ops q))
    ≡ₚ pushed ops ++ items q.
Proof.
  induction ops as [|[v|] ops IH]; intros q Hq; simpl.
  - split; [assumption | reflexivity].
  - destruct (law_push _ _ _ laws v q Hq) as [Hi Hp].
    destruct (IH _ Hi) as [Hi' Hp']. split; [assumption|].
    rewrite Hp', Hp. symmetry. apply Permutation_middle.
  - pose proof (law_pop _ _ _ laws q Hq) as [Hi Hp].
    destruct (wl_pop tid q) as [r q1]. simpl in Hi, Hp.
    destruct (IH _ Hi) as [Hi' Hp'].
    destruct (run_ops tid ops q1) as [out q2]. simpl in *.
    split; [assumption|].
    destruct r as [v|].
    + simpl. rewrite Hp', Hp. apply Permutation_middle.
    + destruct Hp as [Hp Hq1]. rewrite Hp', Hp, Hq1. reflexivity.
Qed.

(** With more fuel than items, the drain ends on the failure of [pop] and
    has returned every item. *)
Lemma drain_spec fuel : forall q,
  inv q -> length (items q) < fuel ->
  exists out,
    fst (drain tid fuel q) = Some out /\ out ≡ₚ items q /\
    inv (snd (drain tid fuel q)) /\ items (snd (drain tid fuel q)) = [].
Proof.
  induction fuel as [|fuel IH]; intros q Hq Hlen; [lia|]. simpl.
  pose proof (law_pop _ _ _ laws q Hq) as [Hi Hp].
  destruct (wl_pop tid q) as [[v|] q1]; simpl in Hi, Hp.
  - assert (Hl : length (items q1) < fuel).
    { apply Permutation_length in Hp. simpl in Hp. lia. }
    destruct (IH _ Hi Hl) as (out & Ho & Hpo & Hi' & He).
    destruct (drain tid fuel q1) as [o q2]. simpl in *. subst o.
    exists (v :: out). simpl. repeat split; try assumption.
    now rewrite Hp, Hpo.
  - destruct Hp as [Hp Hp']. exists []. simpl.
    rewrite Hp. repeat split; assumption || reflexivity.
Qed.

(** The multiset popped is the multiset pushed, once [pop] has failed. *)
Lemma conservation (ops : list (Op T)) : conserves (W := W) tid ops.
Proof.
  unfold conserves.
  destruct (law_new _ _ _ laws) as [Hi0 He0].
  destruct (run_ops_spec ops wl_new Hi0) as [Hi Hp].
  rewrite He0, app_nil_r in Hp.
  assert (Hl : length (items (snd (run_ops tid ops wl_new)))
               < S (length (pushed ops))).
  { apply Permutation_length in Hp. rewrite length_app in Hp. lia. }
  destruct (drain_spec _ _ Hi Hl) as (out & Ho & Hpo & _).
  exists out. split; [assumption|]. now rewrite Hpo.
Qed.

End Generic.
End SequentialFacts.

(** ** The simple worklists keep the contract *)

Module LIFOFacts.
Import WorkList.

Lemma pop_snoc {T} (l : list T) (v : T) :
  LIFO.pop {| LIFO.wl := l ++ [v] |} = (Some v, {| LIFO.wl := l |}).
Proof.
  unfold LIFO.pop. simpl. rewrite last_snoc, removelast_last. reflexivity.
Qed.

(** The last item pushed is the first popped. *)
Lemma pop_push {T} (v : T) (s : LIFO.t T) :
  LIFO.pop (LIFO.push v s) = (Some v, s).
Proof. destruct s as [l]. apply pop_snoc. Qed.

Lemma lifo_lawful {T} (tid : nat) :
  Lawful (Q := LIFO.t T) tid (fun _ => True) LIFO.items.
Proof.
  split.
  - split; [exact I | reflexivity].
  - intros v [l] _. split; [exact I|]. unfold LIFO.items. simpl.
    symmetry. apply Permutation_cons_append.
  - intros [l] _. split; [exact I|]. simpl.
    destruct l as [|x l'] using rev_ind.
    + simpl. split; reflexivity.
    + rewrite pop_snoc. unfold LIFO.items. simpl.
      symmetry. apply Permutation_cons_append.
  - intros [l] _. split; [exact I|]. simpl. unfold LIFO.try_pop.
    destruct l as [|x l'] using rev_ind.
    + simpl. split; reflexivity.
    + rewrite pop_snoc. unfold LIFO.items. simpl.
      symmetry. apply Permutation_cons_append.
Qed.

End LIFOFacts.

Module sFIFOFacts.
Import WorkList.

Lemma sfifo_lawful {T} (tid : nat) :
  Lawful (Q := sFIFO.t T) tid (fun _ => True) sFIFO.items.
Proof.
  split.
  - split; [exact I | reflexivity].
  - intros v [l] _. split; [exact I|]. unfold sFIFO.items. simpl.
    symmetry. apply Permutation_cons_append.
  - intros [[|x l]] _; (split; [exact I|]); simpl; [split|]; reflexivity.
  - intros [[|x l]] _; (split; [exact I|]); simpl; [split|]; reflexivity.
Qed.

End sFIFOFacts.

Module FIFOFacts.
Import WorkList.

Section WithT.
Context {T : Type}.
Implicit Types (cs : list (@FIFO.Chunk T)).

Lemma push_tail_items (v : T) cs :
  cs <> [] ->
  FIFO.push_tail v cs <> [] /\ concat (FIFO.push_tail v cs) = concat cs ++ [v].
Proof.
  induction cs as [|c cs IH]; [done|]. intros _.
  destruct cs as [|c' cs].
  - simpl. unfold FixedSizeRing.push_back.
    destruct (FixedSizeRing.full 128 c); simpl.
    + split; [done|]. now rewrite !app_nil_r.
    + split; [done|]. now rewrite !app_nil_r.
  - destruct (IH ltac:(done)) as [Hne Hc].
    change (FIFO.push_tail v (c :: c' :: cs))
      with (c :: FIFO.push_tail v (c' :: cs)).
    split; [done|]. rewrite !concat_cons, Hc, concat_cons.
    now rewrite !app_assoc.
Qed.

(** Dropping the empty chunks at the head loses nothing, and leaves a head
    chunk with items unless nothing is left at all. *)
Lemma popEmptyChunksLocked_spec cs :
  cs <> [] ->
  exists hd rest,
    FIFO.popEmptyChunksLocked cs = hd :: rest /\
    concat (hd :: rest) = concat cs /\
    (hd = [] -> rest = []).
Proof.
  induction cs as [|c cs IH]; [done|]. intros _.
  destruct cs as [|c' cs].
  - exists c, []. simpl. auto.
  - destruct c as [|x c].
    + destruct (IH ltac:(done)) as (hd & rest & He & Hc & Hr).
      exists hd, rest. simpl in *. auto.
    + exists (x :: c), (c' :: cs). simpl. repeat split. discriminate.
Qed.

Lemma fifo_pop_spec (s : FIFO.t T) :
  FIFO.inv s ->
  FIFO.inv (snd (FIFO.pop s)) /\
  match fst (FIFO.pop s) with
  | Some v => FIFO.items s = v :: FIFO.items (snd (FIFO.pop s))
  | None => FIFO.items s = [] /\ FIFO.items (snd (FIFO.pop s)) = []
  end.
Proof.
  destruct s as [cs]. unfold FIFO.inv, FIFO.items, FIFO.pop. simpl.
  intros Hne.
  destruct (popEmptyChunksLocked_spec cs Hne) as (hd & rest & He & Hc & Hr).
  rewrite He. destruct hd as [|x hd]; simpl.
  - rewrite (Hr eq_refl) in *. simpl in Hc. rewrite <- Hc. auto.
  - split; [done|]. now rewrite <- Hc.
Qed.

Lemma fifo_lawful (tid : nat) :
  Lawful (Q := FIFO.t T) tid FIFO.inv FIFO.items.
Proof.
  split.
  - split; [done | reflexivity].
  - intros v [cs] Hne. unfold FIFO.inv, FIFO.items in *. simpl in *.
    destruct (push_tail_items v cs Hne) as [Hne' Hc].
    split; [assumption|]. rewrite Hc.
    symmetry. apply Permutation_cons_append.
  - intros s Hs. destruct (fifo_pop_spec s Hs) as [Hi Hp].
    split; [assumption|]. simpl.
    destruct (fst (FIFO.pop s)); [now rewrite Hp | assumption].
  - intros s Hs. destruct (fifo_pop_spec s Hs) as [Hi Hp].
    split; [assumption|]. simpl. unfold FIFO.try_pop.
    destruct (fst (FIFO.pop s)); [now rewrite Hp | assumption].
Qed.

End WithT.
End FIFOFacts.

(** ** The chunked FIFO *)

Module ChunkedFIFOFacts.
Import WorkList.

Section WithT.
Context {T : Type} (chunksize : nat).
Hypothesis chunksize_pos : 0 < chunksize.
Implicit Types (n : ChunkedFIFO.p T) (hd : list (@ChunkedFIFO.Chunk T)).

Lemma fresh_chunk_not_full : FixedSizeRing.full (T := T) chunksize [] = false.
Proof. unfold FixedSizeRing.full. simpl. apply Nat.leb_gt, chunksize_pos. Qed.

(** A push succeeds, keeps the invariant and puts its item behind all the
    others. *)
Lemma push_slot_spec (v : T) n hd :
  ChunkedFIFO.slot_inv n hd ->
  exists n' hd',
    ChunkedFIFO.push_slot chunksize v n hd = (true, n', hd') /\
    ChunkedFIFO.slot_inv n' hd' /\
    ChunkedFIFO.slot_items n' hd' = ChunkedFIFO.slot_items n hd ++ [v].
Proof.
  destruct n as [c [nx|]]; unfold ChunkedFIFO.slot_inv,
    ChunkedFIFO.slot_items, ChunkedFIFO.push_slot; simpl; intros [Hhd Hnx].
  - destruct (FixedSizeRing.full chunksize nx) eqn:Hfull; simpl.
    + unfold FixedSizeRing.push_back. rewrite fresh_chunk_not_full.
      eexists _, _. split; [reflexivity|]. simpl. split.
      * split; [|discriminate]. apply Forall_app. split; [assumption|].
        constructor; [intros ->; now apply Hnx | constructor].
      * rewrite concat_app. simpl. now rewrite !app_nil_r, <- !app_assoc.
    + unfold FixedSizeRing.push_back. rewrite Hfull.
      eexists _, _. split; [reflexivity|]. simpl. split.
      * split; [assumption|]. intros [=]. now destruct nx.
      * now rewrite !app_assoc.
  - unfold FixedSizeRing.push_back. rewrite fresh_chunk_not_full.
    eexists _, _. split; [reflexivity|]. simpl. split.
    + split; [assumption | discriminate].
    + now rewrite !app_nil_r, <- !app_assoc.
Qed.

(** A pop returns the item at the front, and fails only when the worker
    reaches no item at all. *)
Lemma pop_slot_spec n hd :
  ChunkedFIFO.slot_inv n hd ->
  exists r n' hd',
    ChunkedFIFO.pop_slot n hd = (r, n', hd') /\
    ChunkedFIFO.slot_inv n' hd' /\
    match r with
    | Some v => ChunkedFIFO.slot_items n hd = v :: ChunkedFIFO.slot_items n' hd'
    | None => ChunkedFIFO.slot_items n hd = [] /\
              ChunkedFIFO.slot_items n' hd' = []
    end.
Proof.
  unfold ChunkedFIFO.slot_inv, ChunkedFIFO.slot_items, ChunkedFIFO.pop_slot.
  intros [Hhd Hnx].
  destruct n as [[[|x c]|] nx]; simpl in *.
  2: { eexists _, _, _. split; [reflexivity|]. simpl. auto. }
  all: destruct hd as [|r hd]; simpl.
  all: try (inversion Hhd as [|? ? Hr Hhd']; subst; destruct r as [|y r];
            [done|]).
  all: try (destruct nx as [[|y nx]|]; [done | | ]).
  all: eexists _, _, _; (split; [reflexivity|]); simpl; rewrite ?app_nil_r.
  all: repeat split; auto; try discriminate.
  all: now rewrite <- app_assoc.
Qed.

Lemma chunked_fifo_lawful (tid : nat) :
  Lawful (W := ChunkedFIFO.worklist (T := T) chunksize) tid
    (ChunkedFIFO.inv tid) (ChunkedFIFO.items tid).
Proof.
  split.
  - split; [split; [constructor | discriminate] | reflexivity].
  - intros v s Hs. simpl.
    destruct (push_slot_spec v _ _ Hs) as (n' & hd' & He & Hi & Hit).
    unfold ChunkedFIFO.push, ChunkedFIFO.push', ChunkedFIFO.inv,
      ChunkedFIFO.items. rewrite He.
    cbn [fst snd ChunkedFIFO.data ChunkedFIFO.head].
    rewrite fn_lookup_insert.
    split; [assumption|]. rewrite Hit.
    symmetry. apply Permutation_cons_append.
  - intros s Hs. simpl.
    destruct (pop_slot_spec _ _ Hs) as (r & n' & hd' & He & Hi & Hit).
    unfold ChunkedFIFO.pop, ChunkedFIFO.inv, ChunkedFIFO.items.
    rewrite He. cbn [fst snd ChunkedFIFO.data ChunkedFIFO.head].
    rewrite fn_lookup_insert.
    split; [assumption|]. destruct r; [now rewrite Hit | assumption].
  - intros s Hs. simpl.
    destruct (pop_slot_spec _ _ Hs) as (r & n' & hd' & He & Hi & Hit).
    unfold ChunkedFIFO.try_pop, ChunkedFIFO.pop, ChunkedFIFO.inv,
      ChunkedFIFO.items.
    rewrite He. cbn [fst snd ChunkedFIFO.data ChunkedFIFO.head].
    rewrite fn_lookup_insert.
    split; [assumption|]. destruct r; [now rewrite Hit | assumption].
Qed.

(** Whenever [empty()] answers true, the shared list holds a chunk: the
    test of [head] is the wrong way round. *)
Lemma empty_true_head n hd :
  ChunkedFIFO.empty_slot n hd = true -> hd <> [].
Proof.
  unfold ChunkedFIFO.empty_slot.
  destruct (ChunkedFIFO.holds_items (ChunkedFIFO.cur n)); [done|].
  destruct (ChunkedFIFO.holds_items (ChunkedFIFO.next n)); [done|].
  now destruct hd.
Qed.

(** So, on the states one worker produces, a true answer of [empty()] is
    always wrong. *)
Lemma empty_true_items (tid : nat) (s : ChunkedFIFO.t T) :
  ChunkedFIFO.inv tid s ->
  fst (ChunkedFIFO.empty tid s) = true ->
  ChunkedFIFO.items tid s <> [].
Proof.
  unfold ChunkedFIFO.inv, ChunkedFIFO.items, ChunkedFIFO.slot_items,
    ChunkedFIFO.slot_inv, ChunkedFIFO.empty. simpl.
  intros [Hhd _] He%empty_true_head.
  destruct (ChunkedFIFO.head s) as [|[|x c] hd]; [done| |].
  - inversion Hhd; subst. done.
  - simpl. intros Hnil. apply app_eq_nil in Hnil as [_ Hnil]. discriminate.
Qed.

End WithT.

(** C2 (the code departs from it): one worker seeds a [ChunkedFIFO<int>]
    (chunks of 64) with the single item 7 through [fill_initial].  The item
    is on the shared chunk list and the next [pop] returns it, yet
    [empty()] answers true: it returns false for a null [head] and true
    otherwise, where it should do the opposite. *)
Theorem chunked_empty_claims_emptiness :
  let s := ChunkedFIFO.fill_initial 64 0 [7] ChunkedFIFO.new in
  ChunkedFIFO.head s = [[7]] /\
  ChunkedFIFO.items 0 s = [7] /\
  fst (ChunkedFIFO.empty 0 s) = true /\
  fst (ChunkedFIFO.pop 0 s) = Some 7 /\
  fst (ChunkedFIFO.empty 0 (ChunkedFIFO.new (T := nat))) = false.
Proof. vm_compute. repeat split. Qed.

End ChunkedFIFOFacts.

(** ** No item is lost or duplicated *)

Module ConservationFacts.
Import WorkList.

(** C5: for the LIFO, the FIFO deque and the chunked FIFO worked by one
    worker, after any sequence of pushes and pops, popping until [pop]
    fails ends and the multiset of the items returned by all the successful
    pops is the multiset of the items pushed. *)
Theorem worklists_conserve_items {T : Type} (tid chunksize : nat)
    (ops : list (Op T)) :
  0 < chunksize ->
  conserves (W := LIFO.worklist) tid ops /\
  conserves (W := sFIFO.worklist) tid ops /\
  conserves (W := ChunkedFIFO.worklist chunksize) tid ops.
Proof.
  intros Hc. split; [|split].
  - exact (SequentialFacts.conservation tid _ _ (LIFOFacts.lifo_lawful tid) ops).
  - exact (SequentialFacts.conservation tid _ _ (sFIFOFacts.sfifo_lawful tid) ops).
  - exact (SequentialFacts.conservation tid _ _
             (ChunkedFIFOFacts.chunked_fifo_lawful chunksize Hc tid) ops).
Qed.

Lemma worklists_conserve_items_witness :
  conserves (W := ChunkedFIFO.worklist 2) 0
    [Push 1; Push 2; Push 3; Pop; Push 4; Pop; Pop; Pop; Pop; Push 5].
Proof.
  refine (proj2 (proj2 (worklists_conserve_items 0 2 _ _))). lia.
Defined.

(** What the three worklists do on one sequence of calls: the pops made
    during the calls, and those of the drain that follows. *)
Example lifo_order :
  let ops := [Push 1; Push 2; Push 3; Pop; Push 4] in
  fst (run_ops (W := LIFO.worklist) 0 ops wl_new) = [3] /\
  fst (drain 0 5 (snd (run_ops (W := LIFO.worklist) 0 ops wl_new)))
  = Some [4; 2; 1].
Proof. vm_compute. split; reflexivity. Qed.

Example chunked_fifo_order :
  let ops := [Push 1; Push 2; Push 3; Pop; Push 4] in
  let W := ChunkedFIFO.worklist 2 in
  fst (run_ops (W := W) 0 ops wl_new) = [1] /\
  fst (drain (W := W) 0 5 (snd (run_ops (W := W) 0 ops wl_new)))
  = Some [2; 3; 4].
Proof. vm_compute. split; reflexivity. Qed.

End ConservationFacts.

(** ** The worklist ordered by integer metric *)

Module OBIMFacts.
Import WorkList.
Module O := OrderedByIntegerMetric.

(** *** The array of buckets, for any container that keeps the contract *)
Section Buckets.
Context {T CTy : Type} {W : WorkList CTy T}.
Context (tid : nat) (inv_c : CTy -> Prop) (items_c : CTy -> list T).
Hypothesis laws : Lawful tid inv_c items_c.
Implicit Types (data : list CTy).

Local Abbreviation bi := (O.bucket_items items_c).
Local Abbreviation all := (O.all_items items_c).

Lemma bucket_items_insert data i j b :
  i < length data ->
  bi (<[ i := b ]> data) j = if decide (j = i) then items_c b else bi data j.
Proof.
  intros Hi. unfold O.bucket_items. destruct (decide (j = i)) as [->|Hne].
  - now rewrite list_lookup_insert_eq.
  - now rewrite list_lookup_insert_ne.
Qed.

Lemma bucket_inv data i : Forall inv_c data -> inv_c (default wl_new (data !! i)).
Proof.
  intros Hd. destruct (data !! i) as [b|] eqn:Hb; simpl.
  - eapply Forall_lookup_1; eassumption.
  - apply (law_new _ _ _ laws).
Qed.

Lemma all_items_split data i :
  i < length data ->
  all data = concat (items_c <$> take i data) ++ bi data i
             ++ concat (items_c <$> drop (S i) data).
Proof.
  intros Hi. destruct (lookup_lt_is_Some_2 data i Hi) as [b Hb].
  unfold O.all_items, O.bucket_items. rewrite Hb. simpl.
  rewrite <- (take_drop_middle data i b Hb) at 1.
  now rewrite fmap_app, concat_app, fmap_cons, concat_cons.
Qed.

Lemma all_items_insert data i b :
  i < length data ->
  all (<[ i := b ]> data)
  = concat (items_c <$> take i data) ++ items_c b
    ++ concat (items_c <$> drop (S i) data).
Proof.
  intros Hi. unfold O.all_items. rewrite insert_take_drop by assumption.
  now rewrite fmap_app, concat_app, fmap_cons, concat_cons.
Qed.

Lemma all_items_nil data :
  (forall i, i < length data -> bi data i = []) -> all data = [].
Proof.
  induction data as [|b data IH]; intros He; [reflexivity|].
  unfold O.all_items. rewrite fmap_cons, concat_cons.
  rewrite (He 0 ltac:(simpl; lia)) || (pose proof (He 0 ltac:(simpl; lia)) as H0;
    unfold O.bucket_items in H0; simpl in H0; rewrite H0).
  simpl. apply IH. intros i Hi. apply (He (S i)). simpl. lia.
Qed.

Lemma all_items_nil_inv data i :
  all data = [] -> bi data i = [].
Proof.
  intros Ha. unfold O.bucket_items.
  destruct (data !! i) as [b|] eqn:Hb; simpl; [|apply (law_new _ _ _ laws)].
  assert (Hi : i < length data) by (eapply lookup_lt_Some; eassumption).
  rewrite (all_items_split data i Hi) in Ha.
  apply app_eq_nil in Ha as [_ Ha]. apply app_eq_nil in Ha as [Ha _].
  unfold O.bucket_items in Ha. now rewrite Hb in Ha.
Qed.

(** One [try_pop] on bucket [i]. *)
Lemma try_pop_bucket data i :
  Forall inv_c data -> i < length data ->
  let r := wl_try_pop tid (default wl_new (data !! i)) in
  let data' := <[ i := snd r ]> data in
  Forall inv_c data' /\ length data' = length data /\
  (forall j, j <> i -> bi data' j = bi data j) /\
  match fst r with
  | Some v => bi data i ≡ₚ v :: bi data' i /\ all data ≡ₚ v :: all data'
  | None => bi data i = [] /\ bi data' i = [] /\ all data' = all data
  end.
Proof.
  intros Hd Hi r data'.
  pose proof (law_try_pop _ _ _ laws _ (bucket_inv data i Hd)) as [Hinv Hit].
  fold r in Hinv, Hit.
  assert (Hbi : bi data' i = items_c (snd r)).
  { subst data'. rewrite bucket_items_insert by assumption.
    now destruct (decide (i = i)). }
  split; [now apply Forall_insert|].
  split; [apply length_insert|].
  split.
  { intros j Hj. subst data'. rewrite bucket_items_insert by assumption.
    now destruct (decide (j = i)). }
  subst data'. rewrite (all_items_split data i Hi), all_items_insert
    by assumption.
  rewrite Hbi. change (bi data i) with (items_c (default wl_new (data !! i))).
  destruct (fst r) as [v|].
  - split; [assumption|]. rewrite Hit. simpl.
    symmetry. apply Permutation_middle.
  - destruct Hit as [-> ->]. auto.
Qed.

(** The scan from bucket [cur] on: it passes over empty buckets only, and
    stops on the first bucket that gives an item. *)
Lemma scan_spec n : forall cur data,
  Forall inv_c data -> cur + n = length data ->
  exists r cur' data',
    O.scan tid n cur data = (r, cur', data') /\
    Forall inv_c data' /\ length data' = length data /\
    (forall i, cur <= i < cur' -> bi data i = []) /\
    (forall j, j <> cur' -> bi data' j = bi data j) /\
    match r with
    | Some v => cur <= cur' < length data /\
                bi data cur' ≡ₚ v :: bi data' cur' /\
                all data ≡ₚ v :: all data'
    | None => cur' = length data /\ all data' = all data
    end.
Proof.
  induction n as [|n IH]; intros cur data Hd Hn.
  - exists None, cur, data. simpl. repeat split; auto; intros; lia.
  - assert (Hc : cur < length data) by lia.
    destruct (try_pop_bucket data cur Hd Hc) as (Hd1 & Hl1 & Ho1 & Hr1).
    simpl. destruct (wl_try_pop tid (default wl_new (data !! cur)))
      as [[v|] b'] eqn:Hpop; simpl in *.
    + exists (Some v), cur, (<[ cur := b' ]> data).
      destruct Hr1 as [Hb Hp]. repeat split; auto; intros; lia.
    + destruct Hr1 as (He & He' & Ha).
      destruct (IH (S cur) (<[ cur := b' ]> data) Hd1 ltac:(lia))
        as (r & cur' & data' & Hs & Hd' & Hl' & Hemp & Hoth & Hr).
      exists r, cur', data'. rewrite Hs.
      assert (Hsame : forall j, bi (<[ cur := b' ]> data) j = bi data j).
      { intros j. destruct (decide (j = cur)) as [->|Hj]; [congruence|].
        now apply Ho1. }
      repeat split; try assumption.
      * congruence.
      * intros i Hi. destruct (decide (i = cur)) as [->|Hne]; [assumption|].
        rewrite <- Hsame. apply Hemp. lia.
      * intros j Hj. rewrite Hoth by assumption. apply Hsame.
      * destruct r as [v|].
        -- destruct Hr as (Hb & Hp & Hq). rewrite Hsame, Ha in *.
           repeat split; try assumption; lia.
        -- destruct Hr as [-> Hq]. rewrite Hl1, Hq, Ha. auto.
Qed.

End Buckets.

(** *** [push] and [pop] *)
Section Operations.
Context {T CTy : Type} {W : WorkList CTy T}.
Context (Indexer : T -> nat) (concurrent : bool).
Context (tid : nat) (inv_c : CTy -> Prop) (items_c : CTy -> list T).
Hypothesis laws : Lawful tid inv_c items_c.
Implicit Types (s : O.t CTy).

Local Abbreviation bi := (O.bucket_items items_c).
Local Abbreviation all := (O.all_items items_c).
Local Abbreviation slot := (O.cursor_slot concurrent tid).
Local Abbreviation wf := (O.well_formed concurrent inv_c tid).

Lemma obim_push_spec (v : T) s :
  wf s ->
  let k := O.bucket_of Indexer s v in
  let s' := O.push Indexer concurrent tid v s in
  O.size s' = O.size s /\ wf s' /\ k < O.size s /\
  O.data s' = <[ k := wl_push tid v (O.bucket s k) ]> (O.data s) /\
  O.cursor s' slot = Nat.min (O.cursor s slot) k /\
  (forall j, j <> slot -> O.cursor s' j = O.cursor s j) /\
  bi (O.data s') k ≡ₚ v :: bi (O.data s) k /\
  (forall i, i <> k -> bi (O.data s') i = bi (O.data s) i) /\
  all (O.data s') ≡ₚ v :: all (O.data s).
Proof.
  intros (Hlen & Hd & Hc) k s'.
  assert (Hk : k < O.size s) by (unfold k, O.bucket_of; lia).
  assert (Hkl : k < length (O.data s)) by lia.
  destruct (law_push _ _ _ laws v _ (bucket_inv tid inv_c items_c laws
              (O.data s) k Hd)) as [Hinv Hit].
  assert (Hdata : O.data s' = <[ k := wl_push tid v (O.bucket s k) ]> (O.data s))
    by reflexivity.
  assert (Hcur : O.cursor s' = if k <? O.cursor s slot
                               then <[ slot := k ]> (O.cursor s)
                               else O.cursor s) by reflexivity.
  split; [reflexivity|]. split.
  { split; [|split].
    - rewrite Hdata, length_insert. exact Hlen.
    - rewrite Hdata. now apply Forall_insert.
    - rewrite Hcur. change (O.size s') with (O.size s).
      destruct (Nat.ltb_spec k (O.cursor s slot)); [|assumption].
      now rewrite fn_lookup_insert. }
  split; [assumption|]. split; [assumption|]. split.
  { rewrite Hcur. destruct (Nat.ltb_spec k (O.cursor s slot)).
    - rewrite fn_lookup_insert. lia.
    - lia. }
  split.
  { intros j Hj. rewrite Hcur.
    destruct (k <? O.cursor s slot); [|reflexivity].
    now rewrite fn_lookup_insert_ne. }
  split.
  { rewrite Hdata, bucket_items_insert by assumption.
    destruct (decide (k = k)); [|done]. exact Hit. }
  split.
  { intros i Hi. rewrite Hdata, bucket_items_insert by assumption.
    now destruct (decide (i = k)). }
  rewrite Hdata, all_items_insert, (all_items_split items_c (O.data s) k)
    by assumption.
  rewrite Hit. simpl. symmetry. apply Permutation_middle.
Qed.

Lemma obim_pop_spec s :
  wf s ->
  exists r s',
    O.pop concurrent tid s = (r, s') /\
    O.size s' = O.size s /\ wf s' /\
    (forall j, j <> slot -> O.cursor s' j = O.cursor s j) /\
    match r with
    | Some v =>
        let j := O.cursor s' slot in
        bi (O.data s) j ≡ₚ v :: bi (O.data s') j /\
        (forall i, i <> j -> bi (O.data s') i = bi (O.data s) i) /\
        all (O.data s) ≡ₚ v :: all (O.data s') /\
        (j = O.cursor s slot \/
         (bi (O.data s) (O.cursor s slot) = [] /\
          forall i, i < j -> bi (O.data s) i = []))
    | None =>
        O.cursor s' slot = 0 /\
        all (O.data s) = [] /\ all (O.data s') = []
    end.
Proof.
  intros (Hlen & Hd & Hc). unfold O.pop, O.bucket.
  assert (Hcl : O.cursor s slot < length (O.data s)) by lia.
  destruct (try_pop_bucket tid inv_c items_c laws (O.data s) _ Hd Hcl)
    as (Hd1 & Hl1 & Ho1 & Hr1).
  destruct (wl_try_pop tid (default wl_new (O.data s !! O.cursor s slot)))
    as [[v|] b'] eqn:Hpop; cbn [fst snd] in *.
  - destruct Hr1 as [Hb Hp].
    eexists _, _. split; [reflexivity|].
      cbn [O.data O.size O.cursor].
    split; [reflexivity|].
      split; [unfold O.well_formed; cbn [O.data O.size O.cursor];
              rewrite ?fn_lookup_insert;
              split; [|split]; [congruence | assumption | lia] |].
    split; [reflexivity|]. auto.
  - destruct Hr1 as (He & He' & Ha).
    assert (Hsame : forall j, bi (<[ O.cursor s slot := b' ]> (O.data s)) j
                              = bi (O.data s) j).
    { intros j. destruct (decide (j = O.cursor s slot)) as [->|Hj];
        [congruence | now apply Ho1]. }
    destruct (scan_spec tid inv_c items_c laws (O.size s) 0 _ Hd1
                ltac:(lia)) as (r & cur' & data' & Hs & Hd' & Hl' & Hemp
                                & Hoth & Hr).
    rewrite Hs. destruct r as [v|].
    + destruct Hr as (Hb & Hp & Hq).
      eexists _, _. split; [reflexivity|].
      cbn [O.data O.size O.cursor].
      rewrite fn_lookup_insert.
      split; [reflexivity|].
      split; [unfold O.well_formed; cbn [O.data O.size O.cursor];
              rewrite ?fn_lookup_insert;
              split; [|split]; [congruence | assumption | lia] |].
      split; [intros j Hj; now rewrite fn_lookup_insert_ne|].
      rewrite Hsame in Hp. rewrite Ha in Hq.
      split; [assumption|]. split.
      { intros i Hi. rewrite Hoth by assumption. apply Hsame. }
      split; [assumption|]. right. split; [assumption|].
      intros i Hi. rewrite <- Hsame. apply Hemp. lia.
    + destruct Hr as [-> Hq].
      eexists _, _. split; [reflexivity|].
      cbn [O.data O.size O.cursor].
      rewrite fn_lookup_insert.
      split; [reflexivity|].
      split; [unfold O.well_formed; cbn [O.data O.size O.cursor];
              rewrite ?fn_lookup_insert;
              split; [|split]; [congruence | assumption | lia] |].
      split; [intros j Hj; now rewrite fn_lookup_insert_ne|].
      split; [reflexivity|].
      assert (Hnil : all data' = []).
      { apply all_items_nil. intros i Hi. rewrite Hoth by lia.
        apply Hemp. lia. }
      split; [|assumption]. rewrite <- Ha, <- Hq. assumption.
Qed.

End Operations.

(** *** One worker: the invariant, and the order of the drain *)
Section Ordering.
Context {T CTy : Type} {W : WorkList CTy T}.
Context (Indexer : T -> nat) (concurrent : bool).
Context (tid : nat) (inv_c : CTy -> Prop) (items_c : CTy -> list T).
Hypothesis laws : Lawful tid inv_c items_c.
Implicit Types (s : O.t CTy).

Local Abbreviation bi := (O.bucket_items items_c).
Local Abbreviation all := (O.all_items items_c).
Local Abbreviation slot := (O.cursor_slot concurrent tid).
Local Abbreviation oinv := (O.inv Indexer concurrent inv_c items_c tid).
Local Abbreviation key := (O.bucket_of Indexer).

Lemma bucket_of_size s s' v : O.size s' = O.size s -> key s' v = key s v.
Proof. intros Hs. unfold O.bucket_of. now rewrite Hs. Qed.

Lemma push_inv (v : T) s :
  oinv s ->
  let s' := O.push Indexer concurrent tid v s in
  oinv s' /\ O.size s' = O.size s /\ all (O.data s') ≡ₚ v :: all (O.data s).
Proof.
  intros (Hwf & Hkey & Hlow) s'.
  destruct (obim_push_spec Indexer concurrent tid inv_c items_c laws v s Hwf)
    as (Hsz & Hwf' & Hk & _ & Hcur & _ & Hbk & Hoth & Hall).
  fold s' in Hsz, Hwf', Hcur, Hbk, Hoth, Hall.
  split; [|split; assumption]. split; [assumption|]. split.
  - intros i Hi. rewrite Hsz in Hi.
    eapply Forall_impl;
      [|intros x Hx; rewrite (bucket_of_size s s' x Hsz); exact Hx].
    destruct (decide (i = key s v)) as [->|Hne].
    + rewrite Hbk. constructor; [reflexivity | now apply Hkey].
    + rewrite Hoth by assumption. now apply Hkey.
  - intros i Hi. rewrite Hcur in Hi.
    rewrite Hoth by lia. apply Hlow. lia.
Qed.

(** A successful pop returns an item of the bucket the cursor is left on,
    and that bucket is not below the one the cursor was on. *)
Lemma pop_inv s :
  oinv s ->
  exists r s',
    O.pop concurrent tid s = (r, s') /\ oinv s' /\ O.size s' = O.size s /\
    match r with
    | Some v => all (O.data s) ≡ₚ v :: all (O.data s') /\
                key s v = O.cursor s' slot /\
                O.cursor s slot <= key s v
    | None => all (O.data s) = [] /\ all (O.data s') = []
    end.
Proof.
  intros (Hwf & Hkey & Hlow).
  destruct (obim_pop_spec concurrent tid inv_c items_c laws s Hwf)
    as (r & s' & Hpop & Hsz & Hwf' & _ & Hr).
  exists r, s'. split; [assumption|].
  destruct r as [v|].
  - destruct Hr as (Hb & Hoth & Hall & Hj).
    set (j := O.cursor s' slot) in *.
    assert (Hjs : j < O.size s) by (destruct Hwf' as (_ & _ & ?); lia).
    assert (Hv : key s v = j).
    { pose proof (Hkey j Hjs) as Hf. rewrite Hb in Hf.
      now inversion Hf. }
    assert (Hcj : O.cursor s slot <= j).
    { destruct (Nat.le_gt_cases (O.cursor s slot) j) as [|Hlt];
        [assumption|].
      rewrite (Hlow j Hlt) in Hb. now apply Permutation_nil_cons in Hb. }
    assert (Hbelow : forall i, i < j -> bi (O.data s) i = []).
    { destruct Hj as [Hj | [_ Hj]]; [|assumption].
      intros i Hi. apply Hlow. lia. }
    split; [|split; [assumption|]; split; [assumption|]; split; [assumption|];
             lia].
    split; [assumption|]. split.
    + intros i Hi. rewrite Hsz in Hi.
      eapply Forall_impl;
        [|intros x Hx; rewrite (bucket_of_size s s' x Hsz); exact Hx].
      destruct (decide (i = j)) as [->|Hne].
      * pose proof (Hkey j Hjs) as Hf. rewrite Hb in Hf.
        now inversion Hf.
      * rewrite Hoth by assumption. now apply Hkey.
    + intros i Hi. fold j in Hi. rewrite Hoth by lia. now apply Hbelow.
  - destruct Hr as (Hc0 & Ha & Ha').
    split; [|split; [assumption | split; assumption]].
    split; [assumption|]. split.
    + intros i Hi. rewrite (all_items_nil_inv tid inv_c items_c laws _ i Ha').
      constructor.
    + intros i Hi. rewrite Hc0 in Hi. lia.
Qed.


Lemma new_size (range : nat) :
  (N.of_nat range < 2 ^ 32 - 1)%N ->
  O.size (O.new (CTy := CTy) range) = range + 1.
Proof.
  intros Hr. unfold O.new. cbn [O.size].
  rewrite N.mod_small by lia. lia.
Qed.

Lemma new_inv (range : nat) :
  (N.of_nat range < 2 ^ 32 - 1)%N ->
  oinv (O.new range) /\ all (O.data (O.new range)) = [].
Proof.
  intros Hr. pose proof (new_size range Hr) as Hsz.
  destruct (law_new _ _ _ laws) as [Hi0 He0].
  assert (Hb : forall i, bi (O.data (O.new range)) i = []).
  { intros i. unfold O.bucket_items, O.new. cbn [O.data].
    destruct (replicate _ _ !! i) as [b|] eqn:Hb; simpl; [|assumption].
    apply lookup_replicate in Hb as [-> _]. assumption. }
  split; [split; [|split]|].
  - split; [|split].
    + unfold O.new at 1. cbn [O.data]. rewrite length_replicate. reflexivity.
    + unfold O.new. cbn [O.data]. now apply Forall_replicate.
    + rewrite Hsz. unfold O.new. cbn [O.cursor]. lia.
  - intros i _. rewrite Hb. constructor.
  - intros i _. apply Hb.
  - apply all_items_nil. intros i _. apply Hb.
Qed.

(** The worklist keeps the contract itself, so it can in turn serve as a
    container. *)
Lemma obim_lawful (range : nat) :
  (N.of_nat range < 2 ^ 32 - 1)%N ->
  Lawful (W := O.worklist Indexer concurrent range) tid
    (fun s => oinv s /\ O.size s = range + 1)
    (fun s => all (O.data s)).
Proof.
  intros Hr. split.
  - destruct (new_inv range Hr) as [Hi He].
    split; [split; [exact Hi | exact (new_size range Hr)] | exact He].
  - intros v s [Hs Hsz].
    destruct (push_inv v s Hs) as (Hi & Hsz' & Hp).
    split; [split; [exact Hi | exact (eq_trans Hsz' Hsz)] | exact Hp].
  - intros s [Hs Hsz].
    destruct (pop_inv s Hs) as (r & s' & Hpop & Hi & Hsz' & Hr').
    change (wl_pop tid s) with (O.pop concurrent tid s). rewrite Hpop.
    split; [split; [exact Hi | exact (eq_trans Hsz' Hsz)]|]. simpl.
    destruct r; [apply Hr' | exact Hr'].
  - intros s [Hs Hsz].
    destruct (pop_inv s Hs) as (r & s' & Hpop & Hi & Hsz' & Hr').
    change (wl_try_pop tid s) with (O.pop concurrent tid s). rewrite Hpop.
    split; [split; [exact Hi | exact (eq_trans Hsz' Hsz)]|]. simpl.
    destruct r; [apply Hr' | exact Hr'].
Qed.

(** Popping until [pop] fails returns the items bucket by bucket, from the
    cursor's bucket upwards. *)
Lemma drain_sorted (range sz : nat) (fuel : nat) : forall s,
  oinv s -> O.size s = sz -> length (all (O.data s)) < fuel ->
  exists out,
    fst (drain (W := O.worklist Indexer concurrent range) tid fuel s)
    = Some out /\
    out ≡ₚ all (O.data s) /\
    Sorted le ((fun v => Nat.min (Indexer v) (sz - 1)) <$> out) /\
    Forall (fun v => O.cursor s slot <= Nat.min (Indexer v) (sz - 1)) out.
Proof.
  induction fuel as [|fuel IH]; intros s Hs Hsz Hlen; [lia|].
  destruct (pop_inv s Hs) as (r & s' & Hpop & Hi & Hsz' & Hr).
  cbn [drain].
  change (wl_pop tid s) with (O.pop concurrent tid s). rewrite Hpop.
  destruct r as [v|].
  - destruct Hr as (Hp & Hk & Hc).
    unfold O.bucket_of in Hk, Hc. rewrite Hsz in Hk, Hc.
    assert (Hl : length (all (O.data s')) < fuel).
    { apply Permutation_length in Hp. simpl in Hp. lia. }
    destruct (IH s' Hi ltac:(congruence) Hl) as (out & Ho & Hpo & Hso & Hfo).
    destruct (drain tid fuel s') as [o s'']. simpl in Ho. subst o.
    exists (v :: out). simpl. split; [reflexivity|].
    split; [now rewrite Hp, Hpo|]. split.
    + constructor; [assumption|].
      destruct out as [|w out]; simpl; constructor.
      inversion Hfo; subst. lia.
    + constructor; [assumption|].
      eapply Forall_impl; [exact Hfo|]. simpl. intros w Hw. lia.
  - destruct Hr as [Ha Ha']. exists []. simpl. rewrite Ha.
    repeat split; constructor.
Qed.

End Ordering.

(** C3 (as stated, refuted): two items whose indices exceed the range share
    the last bucket and leave it in the order they came.  With range 2
    (three buckets) and the items' values as their indices, pushing 7 and
    then 5 and draining returns 7 before 5. *)
Lemma clamped_indices_leave_unordered :
  let WO := O.worklist (CTy := FIFO.t nat) (fun v => v) true 2 in
  fst (drain (W := WO) 0 3 (push_all (W := WO) 0 [7; 5] wl_new))
  = Some [7; 5] /\
  ~ Sorted le [7; 5].
Proof.
  split; [vm_compute; reflexivity|].
  intros Hs. inversion Hs as [|? ? _ Hh]; subst.
  inversion Hh; subst. lia.
Qed.

(** C3 (amended): for the worklist with its default container, used by one
    worker, when no pushed item has an index above the range given at
    construction, popping until [pop] fails after any sequence of pushes
    returns all the items, their indices in weakly increasing order; items
    with indices [5,3,8,1,4] come back with indices 1,3,4,5,8. *)
Theorem obim_drains_in_index_order {T : Type} (Indexer : T -> nat)
    (concurrent : bool) (tid range : nat) (xs : list T) :
  (N.of_nat range < 2 ^ 32 - 1)%N ->
  Forall (fun x => Indexer x <= range) xs ->
  let WO := O.worklist (CTy := FIFO.t T) Indexer concurrent range in
  exists out,
    fst (drain (W := WO) tid (S (length xs))
           (push_all (W := WO) tid xs wl_new)) = Some out /\
    out ≡ₚ xs /\
    Sorted le (Indexer <$> out) /\
    (Indexer <$> xs = [5; 3; 8; 1; 4] -> Indexer <$> out = [1; 3; 4; 5; 8]).
Proof.
  intros Hr Hxs WO.
  pose proof (FIFOFacts.fifo_lawful (T := T) tid) as Hf.
  pose proof (obim_lawful Indexer concurrent tid _ _ Hf range Hr) as Hlaw.
  destruct (law_new _ _ _ Hlaw) as [Hi0 He0].
  destruct (SequentialFacts.push_all_spec tid _ _ Hlaw xs _ Hi0)
    as [[Hi Hsz] Hp].
  rewrite He0 in Hp. cbv beta in Hp. rewrite app_nil_l in Hp.
  destruct (drain_sorted Indexer concurrent tid _ _ Hf range (range + 1)
              (S (length xs)) _ Hi Hsz) as (out & Ho & Hpo & Hso & _).
  { rewrite (Permutation_length Hp). lia. }
  exists out. split; [exact Ho|].
  assert (Hox : out ≡ₚ xs) by now rewrite Hpo.
  split; [assumption|].
  assert (Hkey : (fun v => Nat.min (Indexer v) (range + 1 - 1)) <$> out
                 = Indexer <$> out).
  { apply Forall_fmap_ext. rewrite Hox.
    eapply Forall_impl; [exact Hxs|]. simpl. intros x Hx. lia. }
  rewrite Hkey in Hso. split; [assumption|].
  intros Hex. apply (Sorted_unique le); [assumption | |].
  - repeat constructor.
  - rewrite Hox, Hex. symmetry. solve_Permutation.
Qed.

Lemma obim_drains_in_index_order_witness :
  let WO := O.worklist (CTy := FIFO.t nat) (fun v => v) true 8 in
  exists out,
    fst (drain (W := WO) 0 6 (push_all (W := WO) 0 [5; 3; 8; 1; 4] wl_new))
    = Some out /\
    out ≡ₚ [5; 3; 8; 1; 4] /\
    Sorted le (id <$> out) /\
    (id <$> [5; 3; 8; 1; 4] = [5; 3; 8; 1; 4]
     -> id <$> out = [1; 3; 4; 5; 8]).
Proof.
  apply (obim_drains_in_index_order (fun v => v) true 0 8 [5; 3; 8; 1; 4]).
  - vm_compute. reflexivity.
  - repeat constructor.
Defined.


(** A push on the default container puts the item behind the others. *)
Lemma fifo_push_items {T : Type} (v : T) (q : FIFO.t T) :
  FIFO.inv q -> FIFO.items (FIFO.push v q) = FIFO.items q ++ [v].
Proof.
  destruct q as [cs]. unfold FIFO.inv, FIFO.items, FIFO.push. cbn [FIFO.chunks].
  intros Hne. exact (proj2 (FIFOFacts.push_tail_items v cs Hne)).
Qed.

(** C4: [push(v)] enqueues [v] into bucket [min(Indexer(v), size-1)], behind
    the items that bucket holds, leaves the other buckets as they are, and
    lowers the calling worker's cursor to that bucket when it is below the
    cursor.  [pop] takes an item from the cursor's bucket when that bucket
    gives one; otherwise it takes one from the first bucket, counting up
    from 0, that gives one, and leaves the cursor there; it returns no item
    exactly when no bucket holds one, and then the cursor is 0. *)
Theorem obim_push_pop {T : Type} (Indexer : T -> nat) (concurrent : bool)
    (tid : nat) (s : O.t (FIFO.t T)) (v : T) :
  O.well_formed concurrent FIFO.inv tid s ->
  let slot := O.cursor_slot concurrent tid in
  let c := O.cursor s slot in
  let bi := O.bucket_items FIFO.items in
  (let k := Nat.min (Indexer v) (O.size s - 1) in
   let s' := O.push Indexer concurrent tid v s in
   O.data s' = <[ k := FIFO.push v (O.bucket s k) ]> (O.data s) /\
   O.cursor s' slot = (if k <? c then k else c) /\
   (forall j, j <> slot -> O.cursor s' j = O.cursor s j) /\
   k < O.size s /\
   bi (O.data s') k = bi (O.data s) k ++ [v] /\
   (forall i, i <> k -> bi (O.data s') i = bi (O.data s) i) /\
   O.well_formed concurrent FIFO.inv tid s') /\
  (let r := fst (O.pop concurrent tid s) in
   let s' := snd (O.pop concurrent tid s) in
   let j := O.cursor s' slot in
   match r with
   | Some w =>
       bi (O.data s) j ≡ₚ w :: bi (O.data s') j /\
       (forall i, i <> j -> bi (O.data s') i = bi (O.data s) i) /\
       (bi (O.data s) c <> [] -> j = c) /\
       (bi (O.data s) c = [] -> forall i, i < j -> bi (O.data s) i = [])
   | None => j = 0
   end /\
   (r = None <-> forall i, i < O.size s -> bi (O.data s) i = [])).
Proof.
  intros Hwf slot c bi.
  pose proof (FIFOFacts.fifo_lawful (T := T) tid) as Hf.
  split.
  - destruct (obim_push_spec Indexer concurrent tid _ _ Hf v s Hwf)
      as (_ & Hwf' & Hk & Hdata & Hcur & Hoth & _ & Hrest & _).
    unfold O.bucket_of in Hk, Hdata, Hrest.
    split; [exact Hdata|]. split.
    { fold slot in Hcur. fold c in Hcur. rewrite Hcur. unfold O.bucket_of.
      destruct (Nat.ltb_spec (Nat.min (Indexer v) (O.size s - 1)) c); lia. }
    split; [exact Hoth|]. split; [exact Hk|]. split; [|split; assumption].
    destruct Hwf as (Hlen & Hd & _).
    unfold bi. rewrite Hdata, (bucket_items_insert FIFO.items) by lia.
    destruct (decide _) as [_|Hne]; [|contradiction].
    apply fifo_push_items.
    exact (bucket_inv tid FIFO.inv FIFO.items Hf (O.data s) _ Hd).
  - destruct (obim_pop_spec concurrent tid _ _ Hf s Hwf)
      as (r & s' & Hpop & Hsz & Hwf' & _ & Hr).
    rewrite Hpop. cbn [fst snd]. destruct r as [w|].
    + destruct Hr as (Hb & Hoth & _ & Hj). fold slot in Hb, Hoth, Hj.
      split; [split; [exact Hb|]; split; [exact Hoth|]; split|].
      * intros Hne. destruct Hj as [Hj | [Hj _]]; [exact Hj | done].
      * intros He. destruct Hj as [Hj | [_ Hj]]; [|exact Hj].
        fold c in Hj. rewrite Hj in Hb. fold bi in He. unfold bi in He.
        rewrite He in Hb. now apply Permutation_nil_cons in Hb.
      * split; [discriminate|]. intros Hall.
        destruct Hwf' as (_ & _ & Hc'). fold slot in Hc'.
        rewrite Hsz in Hc'. unfold bi in Hall.
        rewrite (Hall _ Hc') in Hb. now apply Permutation_nil_cons in Hb.
    + destruct Hr as (Hc0 & Ha & _). split; [exact Hc0|].
      split; [|reflexivity]. intros _ i _.
      exact (all_items_nil_inv tid _ _ Hf _ i Ha).
Qed.

(** Worker 0 has pushed 5 and 7 and popped 5: its cursor stands at bucket
    5, which is empty, and bucket 7 holds 7.  A push of 3 lowers the cursor
    to 3 and a pop finds 7, counting up from 0. *)
Lemma obim_push_pop_witness :
  let s := snd (O.pop true 0
                  (O.push (fun v => v) true 0 7
                     (O.push (fun v => v) true 0 5
                        (O.new (CTy := FIFO.t nat) 8)))) in
  O.cursor s 0 = 5 /\
  O.cursor (O.push (fun v => v) true 0 3 s) 0 = 3 /\
  O.bucket_items FIFO.items (O.data (O.push (fun v => v) true 0 3 s)) 3 = [3] /\
  O.bucket_items FIFO.items (O.data (O.push (fun v => v) true 0 7 s)) 7
  = [7; 7] /\
  fst (O.pop true 0 s) = Some 7 /\
  O.cursor (snd (O.pop true 0 s)) 0 = 7.
Proof.
  intros s.
  assert (Hwf : O.well_formed true FIFO.inv 0 s).
  { split; [reflexivity|]. split; [|vm_compute; lia].
    vm_compute. repeat (constructor; [discriminate|]). constructor. }
  pose proof (obim_push_pop (fun v => v) true 0 s 3 Hwf) as [Hpush3 Hpop].
  pose proof (obim_push_pop (fun v => v) true 0 s 7 Hwf) as [Hpush7 _].
  cbn zeta in Hpush3, Hpush7, Hpop.
  destruct Hpush3 as (_ & Hcur & _ & _ & Hk3 & _).
  destruct Hpush7 as (_ & _ & _ & _ & Hk7 & _).
  split; [reflexivity|].
  split; [exact Hcur|].
  split; [exact Hk3|]. split; [exact Hk7|].
  destruct Hpop as [Hr _].
  destruct (fst (O.pop true 0 s)) as [w|] eqn:E; vm_compute in E;
    [|discriminate E].
  injection E as <-. split; [reflexivity|].
  destruct Hr as (_ & _ & _ & Hscan).
  reflexivity.
Defined.

End OBIMFacts.

(** ** The stealing-local worklist *)

Module StealingLocalWLFacts.
Import WorkList.
Module S := StealingLocalWL.

(** C10: [empty()] looks at the calling worker's own queue only: its answer
    is the answer of that queue's [empty()], and no other queue is touched.
    So it can answer true while the queue of the next worker holds an item
    that the caller's [pop()] obtains by stealing: with two workers and 42
    on worker 1's queue, worker 0 finds its own queue empty, [empty()]
    answers true, and [pop()] returns 42. *)
Theorem stealing_empty_is_local {T ContainerTy : Type}
    {W : WorkList ContainerTy T} (tid : nat) (s : S.t ContainerTy) :
  fst (S.empty tid s) = fst (wl_empty tid (S.data s tid)) /\
  (forall j, j <> tid -> S.data (snd (S.empty tid s)) j = S.data s j) /\
  (fst (S.empty 0 S.stolen_from) = true /\
   fst (wl_pop 0 (S.data S.stolen_from 0)) = None /\
   S.getNext S.stolen_from 0 = 1 /\
   FIFO.items (S.data S.stolen_from 1) = [42] /\
   fst (S.pop 0 S.stolen_from) = Some 42).
Proof.
  split; [|split].
  - unfold S.empty. now destruct (wl_empty tid (S.data s tid)).
  - intros j Hj. unfold S.empty.
    destruct (wl_empty tid (S.data s tid)) as [r q]. simpl.
    now apply fn_lookup_insert_ne.
  - vm_compute. repeat split.
Qed.

End StealingLocalWLFacts.

(** ** The for-each executor *)

Module ForEachExecutorFacts.
Import WorkList ForEachExecutor.

Section Generic.
Context {value_type WorkListTy World : Type} {W : WorkList WorkListTy value_type}.
Context (traits : Traits) (tp : AbortHandler.ThreadPool).
Context (function : value_type -> World -> UserContext value_type
                    -> Outcome * World * UserContext value_type).
Implicit Types (s : State value_type WorkListTy World).

Local Abbreviation commit := (commitIteration traits tp).
Local Abbreviation process := (doProcess traits tp function).
Local Abbreviation dispatch := (runQueueDispatch traits tp function).

(** What [commitIteration] does, field by field. *)
Lemma commitIteration_spec s :
  let s' := commit s in
  let pb := pushBuffer (facing s) in
  wl s' = (if needsPush traits then push_range (tid tp) pb (wl s) else wl s) /\
  pushBuffer (facing s') = (if needsPush traits then [] else pb) /\
  stat_pushes s'
  = (if needsPush traits then stat_pushes s + length pb else stat_pushes s) /\
  allocated (facing s')
  = (if needsPia traits then 0 else allocated (facing s)) /\
  trace s'
  = trace s
    ++ (if needsPush traits && negb (length pb =? 0) then [BulkPush pb] else [])
    ++ (if needsAborts traits then [CommitIteration] else []) /\
  aborted s' = aborted s /\
  stat_iterations s' = stat_iterations s /\
  stat_conflicts s' = stat_conflicts s.
Proof.
  destruct s as [[pb al br] it co pu ab w wo tr].
  unfold commitIteration.
  destruct (needsPush traits), (needsPia traits), (needsAborts traits),
    pb as [|x pb]; cbn; rewrite ?app_nil_r, ?Nat.add_0_r, <- ?app_assoc;
    repeat split.
Qed.

(** What [abortIteration] does, field by field. *)
Lemma abortIteration_spec {Item : Type}
    (push_aborted : Item -> AbortHandler.AbortHandler value_type
                    -> AbortHandler.AbortHandler value_type)
    (item : Item) s :
  let s' := abortIteration traits push_aborted item s in
  trace s' = trace s ++ [CancelIteration] /\
  stat_conflicts s' = S (stat_conflicts s) /\
  aborted s' = push_aborted item (aborted s) /\
  pushBuffer (facing s')
  = (if needsPush traits then [] else pushBuffer (facing s)) /\
  allocated (facing s')
  = (if needsPia traits then 0 else allocated (facing s)) /\
  wl s' = wl s /\
  stat_pushes s' = stat_pushes s /\
  stat_iterations s' = stat_iterations s.
Proof.
  destruct s as [[pb al br] it co pu ab w wo tr].
  unfold abortIteration.
  destruct (needsPush traits), (needsPia traits); cbn; repeat split.
Qed.

(** An iteration counts once, leaves the abort handler alone and makes no
    call on the termination detector; when it ends on a conflict it has
    not touched the worklist. *)
Lemma doProcess_spec (val : value_type) s :
  let s' := snd (process val s) in
  stat_iterations s' = S (stat_iterations s) /\
  aborted s' = aborted s /\
  stat_conflicts s' = stat_conflicts s /\
  (exists evs, trace s' = trace s ++ evs /\ no_signal evs) /\
  (fst (process val s) = Conflict ->
   wl s' = wl s /\ stat_pushes s' = stat_pushes s /\
   trace s' = trace s ++ (if needsAborts traits then [StartIteration] else [])).
Proof.
  unfold doProcess.
  set (s0 := if needsAborts traits then call StartIteration s else s).
  assert (H0 : stat_iterations s0 = stat_iterations s /\
               aborted s0 = aborted s /\ wl s0 = wl s /\
               stat_pushes s0 = stat_pushes s /\
               stat_conflicts s0 = stat_conflicts s /\
               trace s0 = trace s ++ (if needsAborts traits
                                      then [StartIteration] else [])).
  { subst s0. destruct (needsAborts traits); cbn; rewrite ?app_nil_r;
      repeat split. }
  destruct H0 as (Hit & Hab & Hwl & Hpu & Hco & Htr).
  destruct (function val (world (inc_iterations s0))
              (facing (inc_iterations s0))) as [[o w] f].
  destruct o; cbn [fst snd].
  - destruct (commitIteration_spec
                (set_facing f (set_world w (inc_iterations s0))))
      as (_ & _ & _ & _ & Htr' & Hab' & Hit' & Hco').
    cbn zeta in *. rewrite Hit', Hab', Hco', Htr'. cbn. rewrite Htr.
    repeat split; try congruence.
    eexists. rewrite <- !app_assoc. split; [reflexivity|].
    unfold no_signal.
    destruct (needsAborts traits), (needsPush traits && _);
      repeat constructor.
  - cbn. repeat split; try congruence.
    eexists. split; [exact Htr|].
    unfold no_signal. destruct (needsAborts traits); repeat constructor.
Qed.


Lemma no_signal_app (evs evs' : list (Event value_type)) :
  no_signal evs -> no_signal evs' -> no_signal (evs ++ evs').
Proof. intros H1 H2. apply Forall_app. now split. Qed.

Lemma bulk_pushed_app (evs evs' : list (Event value_type)) :
  bulk_pushed (evs ++ evs') = bulk_pushed evs ++ bulk_pushed evs'.
Proof. unfold bulk_pushed. now rewrite map_app, concat_app. Qed.

(** The bulk push of a lawful worklist adds the items of the range. *)
Lemma push_range_lawful (inv : WorkListTy -> Prop)
    (items : WorkListTy -> list value_type) :
  Lawful (tid tp) inv items ->
  forall l w,
    inv w ->
    inv (push_range (tid tp) l w) /\
    items (push_range (tid tp) l w) ≡ₚ items w ++ l.
Proof.
  intros laws l w Hw.
  exact (SequentialFacts.push_all_spec (tid tp) inv items laws l w Hw).
Qed.

(** An iteration whose operator returns is committed. *)
Lemma doProcess_returned (val : value_type) s :
  let s0 := inc_iterations
              (if needsAborts traits then call StartIteration s else s) in
  let r := function val (world s0) (facing s0) in
  fst (fst r) = Returned ->
  process val s
  = (Returned,
     commit (set_facing (snd r) (set_world (snd (fst r)) s0))) /\
  doProcessFast traits tp function val s
  = (Returned,
     commit (fast_pushes tp
               (set_facing (snd r) (set_world (snd (fst r)) s0)))).
Proof.
  intros s0 r Hr. unfold doProcess, doProcessFast. fold s0. fold r.
  destruct r as [[o w] f]. cbn [fst snd] in *. subst o.
  split; reflexivity.
Qed.

(** What the fast pushes do, field by field. *)
Lemma fast_pushes_fold (pb : list value_type) : forall s,
  let s' :=
    foldl
      (fun s v =>
         fastPushBack tp
           (set_facing {| pushBuffer := [v]; allocated := allocated (facing s);
                          breakFlag := breakFlag (facing s) |} s))
      s pb in
  wl s' = push_range (tid tp) pb (wl s) /\
  pushBuffer (facing s')
  = match pb with [] => pushBuffer (facing s) | _ => [] end /\
  allocated (facing s') = allocated (facing s) /\
  breakFlag (facing s') = breakFlag (facing s) /\
  trace s' = trace s ++ map (fun v => BulkPush [v]) pb /\
  world s' = world s /\
  aborted s' = aborted s /\
  stat_iterations s' = stat_iterations s /\
  stat_conflicts s' = stat_conflicts s /\
  stat_pushes s' = stat_pushes s.
Proof.
  induction pb as [|v pb IH]; intros s; cbn [foldl map].
  - cbn zeta. rewrite app_nil_r. repeat split.
  - match goal with
    | |- context [foldl _ ?s1 pb] =>
        destruct (IH s1) as (H1 & H2 & H3 & H4 & H5 & H6 & H7 & H8 & H9 & H10)
    end.
    cbn zeta in *. rewrite H1, H2, H3, H4, H5, H6, H7, H8, H9, H10.
    destruct s as [[pb0 al br] it co pu ab w wo tr]. cbn.
    rewrite <- app_assoc. destruct pb; repeat split.
Qed.

Lemma fast_pushes_spec s :
  let s' := fast_pushes tp s in
  let pb := pushBuffer (facing s) in
  wl s' = push_range (tid tp) pb (wl s) /\
  pushBuffer (facing s') = [] /\
  allocated (facing s') = allocated (facing s) /\
  breakFlag (facing s') = breakFlag (facing s) /\
  trace s' = trace s ++ map (fun v => BulkPush [v]) pb /\
  world s' = world s /\
  aborted s' = aborted s /\
  stat_iterations s' = stat_iterations s /\
  stat_conflicts s' = stat_conflicts s /\
  stat_pushes s' = stat_pushes s.
Proof.
  unfold fast_pushes.
  destruct (fast_pushes_fold (pushBuffer (facing s)) (resetPushBuffer s))
    as (H1 & H2 & H3 & H4 & H5 & H6 & H7 & H8 & H9 & H10).
  cbn zeta in *. rewrite H1, H2, H3, H4, H5, H6, H7, H8, H9, H10.
  destruct s as [[pb al br] it co pu ab w wo tr]. cbn.
  destruct pb; repeat split.
Qed.

Lemma bulk_pushed_singletons (l : list value_type) :
  bulk_pushed (map (fun v => BulkPush [v]) l) = l.
Proof.
  unfold bulk_pushed. induction l as [|v l IH]; [reflexivity|].
  cbn [map concat app]. now rewrite IH.
Qed.

Lemma no_signal_singletons (l : list value_type) :
  no_signal (map (fun v => BulkPush [v]) l).
Proof. unfold no_signal. apply Forall_map, Forall_forall. now intros. Qed.

Lemma commit_summary s :
  exists evs,
    trace (commit s) = trace s ++ evs /\ no_signal evs /\
    bulk_pushed evs
    = (if needsPush traits then pushBuffer (facing s) else []).
Proof.
  destruct (commitIteration_spec s) as (_ & _ & _ & _ & Htr & _).
  cbn zeta in Htr. eexists. split; [exact Htr|].
  destruct (needsPush traits), (needsAborts traits),
    (pushBuffer (facing s)) as [|x pb]; cbn;
    rewrite ?app_nil_r; split; try reflexivity; repeat constructor.
Qed.

Lemma doProcess_summary : iteration_summary (W := W) traits tp process.
Proof.
  intros val s r.
  destruct (doProcess_spec val s) as (Hit & Hab & Hco & _ & _).
  fold r in Hit, Hab, Hco.
  split; [exact Hit|]. split; [exact Hab|]. split; [exact Hco|].
  subst r. unfold doProcess.
  set (s0 := if needsAborts traits then call StartIteration s else s).
  assert (H0 : wl s0 = wl s /\
               trace s0 = trace s ++ (if needsAborts traits
                                      then [StartIteration] else [])).
  { subst s0. destruct (needsAborts traits); cbn; rewrite ?app_nil_r;
      split; reflexivity. }
  destruct H0 as [Hwl0 Htr0].
  destruct (function val (world (inc_iterations s0))
              (facing (inc_iterations s0))) as [[o w] f].
  set (s1 := set_facing f (set_world w (inc_iterations s0))).
  assert (H1 : wl s1 = wl s /\ trace s1 = trace s0 /\
               pushBuffer (facing s1) = pushBuffer f) by (repeat split; assumption).
  destruct H1 as (Hwl1 & Htr1 & Hpb1).
  destruct o; cbn [fst snd].
  - destruct (commitIteration_spec s1) as (Hwl & Hpb & _).
    destruct (commit_summary s1) as (evs & Htr & Hns & Hbp).
    cbn zeta in Hwl, Hpb.
    split.
    { intros _ Hnp. rewrite Hpb, Hnp. reflexivity. }
    exists ((if needsAborts traits then [StartIteration] else []) ++ evs).
    split; [rewrite Htr, Htr1, Htr0, <- app_assoc; reflexivity|].
    split.
    { apply no_signal_app; [|assumption].
      destruct (needsAborts traits); repeat constructor. }
    intros inv items laws Hinv. rewrite bulk_pushed_app.
    assert (Hs : bulk_pushed (if needsAborts traits
                              then [StartIteration (value_type := value_type)]
                              else []) = [])
      by (destruct (needsAborts traits); reflexivity).
    rewrite Hs, Hbp, Hwl, Hwl1. cbn [app].
    destruct (needsPush traits).
    + now apply push_range_lawful.
    + rewrite app_nil_r. split; [assumption|reflexivity].
  - split; [discriminate|].
    exists (if needsAborts traits then [StartIteration] else []).
    split; [rewrite Htr1, Htr0; reflexivity|].
    split; [destruct (needsAborts traits); repeat constructor|].
    intros inv items laws Hinv. rewrite Hwl1.
    assert (Hs : bulk_pushed (if needsAborts traits
                              then [StartIteration (value_type := value_type)]
                              else []) = [])
      by (destruct (needsAborts traits); reflexivity).
    rewrite Hs, app_nil_r. split; [assumption|reflexivity].
Qed.

Lemma doProcessFast_summary :
  iteration_summary (W := W) traits tp (doProcessFast traits tp function).
Proof.
  intros val s r. subst r. unfold doProcessFast.
  set (s0 := if needsAborts traits then call StartIteration s else s).
  assert (H0 : wl s0 = wl s /\ aborted s0 = aborted s /\
               stat_iterations s0 = stat_iterations s /\
               stat_conflicts s0 = stat_conflicts s /\
               trace s0 = trace s ++ (if needsAborts traits
                                      then [StartIteration] else [])).
  { subst s0. destruct (needsAborts traits); cbn; rewrite ?app_nil_r;
      repeat split. }
  destruct H0 as (Hwl0 & Hab0 & Hit0 & Hco0 & Htr0).
  destruct (function val (world (inc_iterations s0))
              (facing (inc_iterations s0))) as [[o w] f].
  set (s1 := set_facing f (set_world w (inc_iterations s0))).
  destruct (fast_pushes_spec s1)
    as (Hwl & Hpb & _ & _ & Htr & _ & Hab & Hit & Hco & _).
  cbn zeta in Hwl, Hpb, Htr, Hab, Hit, Hco.
  set (s2 := fast_pushes tp s1) in *.
  change (pushBuffer (facing s1)) with (pushBuffer f) in *.
  change (wl s1) with (wl s0) in Hwl. change (trace s1) with (trace s0) in Htr.
  change (aborted s1) with (aborted s0) in Hab.
  change (stat_iterations s1) with (S (stat_iterations s0)) in Hit.
  change (stat_conflicts s1) with (stat_conflicts s0) in Hco.
  assert (Hstart : bulk_pushed (if needsAborts traits
                                then [StartIteration (value_type := value_type)]
                                else []) = [])
    by (destruct (needsAborts traits); reflexivity).
  assert (Hlaw : forall inv items,
            Lawful (tid tp) inv items -> inv (wl s) ->
            inv (wl s2) /\ items (wl s2) ≡ₚ items (wl s) ++ pushBuffer f).
  { intros inv items laws Hinv. rewrite Hwl, Hwl0.
    now apply push_range_lawful. }
  destruct o; cbn [fst snd].
  - destruct (commitIteration_spec s2)
      as (Hwl' & Hpb' & _ & _ & Htr' & Hab' & Hit' & Hco').
    cbn zeta in Hwl', Hpb', Htr', Hab', Hit', Hco'.
    rewrite Hpb in Hwl', Hpb', Htr'. cbn [length Nat.eqb negb] in Htr'.
    rewrite andb_false_r in Htr'. cbn [app] in Htr'.
    assert (Hwl'' : wl (commit s2) = wl s2)
      by (rewrite Hwl'; now destruct (needsPush traits)).
    split; [congruence|]. split; [congruence|]. split; [congruence|].
    split.
    { intros _ _. rewrite Hpb'. now destruct (needsPush traits). }
    exists ((if needsAborts traits then [StartIteration] else [])
            ++ map (fun v => BulkPush [v]) (pushBuffer f)
            ++ (if needsAborts traits then [CommitIteration] else [])).
    split; [rewrite Htr', Htr, Htr0, <- !app_assoc; reflexivity|].
    split.
    { apply no_signal_app; [destruct (needsAborts traits); repeat constructor|].
      apply no_signal_app; [apply no_signal_singletons|].
      destruct (needsAborts traits); repeat constructor. }
    intros inv items laws Hinv. rewrite !bulk_pushed_app, Hstart.
    rewrite bulk_pushed_singletons, Hwl''.
    assert (Hc : bulk_pushed (if needsAborts traits
                              then [CommitIteration (value_type := value_type)]
                              else []) = [])
      by (destruct (needsAborts traits); reflexivity).
    rewrite Hc, app_nil_r. cbn [app]. now apply Hlaw.
  - split; [congruence|]. split; [congruence|]. split; [congruence|].
    split; [discriminate|].
    exists ((if needsAborts traits then [StartIteration] else [])
            ++ map (fun v => BulkPush [v]) (pushBuffer f)).
    split; [rewrite Htr, Htr0, <- !app_assoc; reflexivity|].
    split.
    { apply no_signal_app; [destruct (needsAborts traits); repeat constructor|].
      apply no_signal_singletons. }
    intros inv items laws Hinv. rewrite bulk_pushed_app, Hstart.
    rewrite bulk_pushed_singletons. cbn [app]. now apply Hlaw.
Qed.

(** *** A pass of a loop

    What a batch does to the counters, the trace, the push buffer and the
    worklist, for the loops of [runQueueDispatch] and of [runQueueSimple],
    without the fast push and with it. *)

Lemma pass_still s s' :
  stat_iterations s' = stat_iterations s ->
  pushBuffer (facing s') = pushBuffer (facing s) ->
  trace s' = trace s ->
  (forall inv items,
     Lawful (tid tp) inv items -> inv (wl s) ->
     inv (wl s') /\ items (wl s') ≡ₚ items (wl s)) ->
  pass_summary traits tp s s'.
Proof.
  intros Hit Hpb Htr Hwl. split; [lia|]. split; [congruence|].
  exists []. rewrite app_nil_r. split; [assumption|].
  split; [constructor|].
  intros inv items laws Hinv. destruct (Hwl inv items laws Hinv) as [Hi Hp].
  split; [assumption|]. exists []. cbn [length bulk_pushed map concat].
  split; [lia|]. now rewrite !app_nil_r.
Qed.

(** One iteration, from the state [s] before the [pop] that took [taken]
    from the worklist to the state [s2] after it, followed by the rest of
    the pass. *)
Lemma pass_step s s1 s2 s' (taken : list value_type)
    (evs : list (Event value_type)) :
  stat_iterations s1 = stat_iterations s ->
  trace s1 = trace s ->
  length taken <= 1 ->
  (forall inv items,
     Lawful (tid tp) inv items -> inv (wl s) ->
     inv (wl s1) /\ items (wl s) ≡ₚ taken ++ items (wl s1)) ->
  stat_iterations s2 = S (stat_iterations s1) ->
  (needsPush traits = true -> pushBuffer (facing s2) = []) ->
  trace s2 = trace s1 ++ evs -> no_signal evs ->
  (forall inv items,
     Lawful (tid tp) inv items -> inv (wl s1) ->
     inv (wl s2) /\ items (wl s2) ≡ₚ items (wl s1) ++ bulk_pushed evs) ->
  pass_summary traits tp s2 s' ->
  pass_summary traits tp s s'.
Proof.
  intros Hit1 Htr1 Hlen Hpop Hit2 Hpb2 Htr2 Hns Hwl2
    (Hle & Hpb & evs' & Htr & Hns' & Hcons).
  split; [lia|]. split; [auto|].
  exists (evs ++ evs'). split; [rewrite Htr, Htr2, Htr1, app_assoc; reflexivity|].
  split; [now apply no_signal_app|].
  intros inv items laws Hinv.
  destruct (Hpop inv items laws Hinv) as [Hi1 Hp1].
  destruct (Hwl2 inv items laws Hi1) as [Hi2 Hp2].
  destruct (Hcons inv items laws Hi2) as (Hi' & popped & Hlp & Hp').
  split; [assumption|]. exists (taken ++ popped). split.
  - rewrite length_app. lia.
  - rewrite bulk_pushed_app, Hp1.
    rewrite (Permutation_app_swap_app (items (wl s')) taken popped).
    rewrite Hp', Hp2, <- !app_assoc. reflexivity.
Qed.

Lemma abort_step {Item : Type}
    (push_aborted : Item -> AbortHandler.AbortHandler value_type
                    -> AbortHandler.AbortHandler value_type)
    (item : Item) s :
  let s' := abortIteration traits push_aborted item (call ClearConflictLock s) in
  stat_iterations s' = stat_iterations s /\
  (needsPush traits = true -> pushBuffer (facing s') = []) /\
  trace s' = trace s ++ [ClearConflictLock; CancelIteration] /\
  wl s' = wl s.
Proof.
  destruct (abortIteration_spec push_aborted item (call ClearConflictLock s))
    as (Htr & _ & _ & Hpb & _ & Hwl & _ & Hit).
  cbn zeta in *. cbn [call trace wl stat_iterations] in *.
  split; [assumption|]. split; [intros Hnp; now rewrite Hpb, Hnp|].
  split; [now rewrite Htr, <- app_assoc|assumption].
Qed.

Section Loop.
Context {Item : Type} (lwl : Source value_type WorkListTy World Item).
Variable proc : value_type -> State value_type WorkListTy World
                -> Outcome * State value_type WorkListTy World.
Variable loop : nat -> N -> N -> State value_type WorkListTy World
                -> Stop * N * State value_type WorkListTy World.
Hypothesis loop_O : forall limit num s, loop 0 limit num s = (OutOfFuel, num, s).
Hypothesis loop_S : forall fuel limit num s,
  loop (S fuel) limit num s
  = if ((limit =? 0) || (num <? limit))%N then
      match src_pop lwl s with
      | (None, s) => (PopFailed, num, s)
      | (Some item, s) =>
          match proc (src_value lwl item) s with
          | (Returned, s) => loop fuel limit (N.succ num mod 2 ^ 32)%N s
          | (Conflict, s) =>
              (Aborted, (N.succ num mod 2 ^ 32)%N,
               abortIteration traits (src_push_aborted lwl) item
                 (call ClearConflictLock s))
          end
      end
    else (LimitReached, num, s).
Hypothesis proc_summary : iteration_summary (W := W) traits tp proc.
Hypothesis pop_still : forall s,
  trace (snd (src_pop lwl s)) = trace s /\
  stat_iterations (snd (src_pop lwl s)) = stat_iterations s /\
  pushBuffer (facing (snd (src_pop lwl s))) = pushBuffer (facing s).
Hypothesis pop_takes : forall inv items,
  Lawful (tid tp) inv items ->
  forall s, inv (wl s) ->
    inv (wl (snd (src_pop lwl s))) /\
    exists taken,
      length taken <= match fst (src_pop lwl s) with Some _ => 1 | None => 0 end /\
      items (wl s) ≡ₚ taken ++ items (wl (snd (src_pop lwl s))).

Lemma loop_pass fuel limit : forall num s,
  let r := loop fuel limit num s in
  pass_summary traits tp s (snd r) /\
  ((num + N.of_nat (stat_iterations (snd r) - stat_iterations s) < 2 ^ 32)%N ->
   snd (fst r)
   = (num + N.of_nat (stat_iterations (snd r) - stat_iterations s))%N).
Proof.
  assert (Hrefl : forall s, pass_summary traits tp s s).
  { intros s. apply pass_still; try reflexivity.
    intros inv items _ Hinv. split; [assumption|reflexivity]. }
  induction fuel as [|fuel IH]; intros num s; cbn zeta.
  { rewrite loop_O. cbn [fst snd]. split; [apply Hrefl|].
    intros _. rewrite Nat.sub_diag. lia. }
  rewrite loop_S. destruct ((limit =? 0) || (num <? limit))%N.
  2: { cbn [fst snd]. split; [apply Hrefl|].
       intros _. rewrite Nat.sub_diag. lia. }
  destruct (pop_still s) as (Htr1 & Hit1 & Hpb1).
  pose proof (pop_takes) as Htake.
  destruct (src_pop lwl s) as [[item|] s1] eqn:Hpop; cbn [fst snd] in *.
  2: { split.
       - apply pass_still; try assumption.
         intros inv items laws Hinv.
         destruct (Htake inv items laws s Hinv) as (Hi & taken & Hl & Hp).
         rewrite Hpop in Hi, Hl, Hp. cbn [fst snd] in Hi, Hl, Hp.
         destruct taken; [|cbn in Hl; lia].
         split; [assumption|]. now rewrite Hp.
       - intros _. rewrite Hit1, Nat.sub_diag. lia. }
  assert (Htake1 : forall inv items,
            Lawful (tid tp) inv items -> inv (wl s) ->
            inv (wl s1) /\
            exists taken, length taken <= 1 /\
                          items (wl s) ≡ₚ taken ++ items (wl s1)).
  { intros inv items laws Hinv.
    destruct (Htake inv items laws s Hinv) as (Hi & taken & Hl & Hp).
    rewrite Hpop in Hi, Hl, Hp. cbn [fst snd] in Hi, Hl, Hp.
    split; [assumption|]. now exists taken. }
  clear Htake.
  destruct (proc_summary (src_value lwl item) s1)
    as (Hit2 & _ & _ & Hpb2 & evs & Htr2 & Hns & Hwl2).
  destruct (proc (src_value lwl item) s1) as [[|] s2]; cbn [fst snd] in *.
  - destruct (IH (N.succ num mod 2 ^ 32)%N s2) as [Hpass Hcount].
    cbn zeta in Hpass, Hcount.
    set (r := loop fuel limit (N.succ num mod 2 ^ 32)%N s2) in *.
    assert (Hle : stat_iterations s2 <= stat_iterations (snd r))
      by exact (proj1 Hpass).
    split.
    + destruct Hpass as (_ & Hpb & evs' & Htr & Hns' & Hcons).
      split; [lia|]. split; [intros Hnp _; apply Hpb; auto|].
      exists (evs ++ evs').
      split; [rewrite Htr, Htr2, Htr1, app_assoc; reflexivity|].
      split; [now apply no_signal_app|].
      intros inv items laws Hinv.
      destruct (Htake1 inv items laws Hinv) as (Hi1 & taken & Hlt & Hp1).
      destruct (Hwl2 inv items laws Hi1) as [Hi2 Hp2].
      destruct (Hcons inv items laws Hi2) as (Hi' & popped & Hlp & Hp').
      split; [assumption|]. exists (taken ++ popped). split.
      * rewrite length_app. lia.
      * rewrite bulk_pushed_app, Hp1.
        rewrite (Permutation_app_swap_app (items (wl (snd r))) taken popped).
        rewrite Hp', Hp2, <- !app_assoc. reflexivity.
    + intros Hsmall.
      assert (Hs : (N.succ num mod 2 ^ 32 = N.succ num)%N)
        by (apply N.mod_small; lia).
      rewrite Hs in Hcount. rewrite Hcount; lia.
  - destruct (abort_step (src_push_aborted lwl) item s2)
      as (Hit3 & Hpb3 & Htr3 & Hwl3).
    cbn zeta in Hit3, Hpb3, Htr3, Hwl3.
    split.
    + split; [lia|]. split; [intros Hnp _; now apply Hpb3|].
      exists (evs ++ [ClearConflictLock; CancelIteration]).
      split; [rewrite Htr3, Htr2, Htr1, <- app_assoc; reflexivity|].
      split; [apply no_signal_app; [assumption|repeat constructor]|].
      intros inv items laws Hinv.
      destruct (Htake1 inv items laws Hinv) as (Hi1 & taken & Hlt & Hp1).
      destruct (Hwl2 inv items laws Hi1) as [Hi2 Hp2].
      rewrite Hwl3. split; [assumption|]. exists taken.
      split; [lia|].
      rewrite bulk_pushed_app. cbn [bulk_pushed map concat app].
      rewrite app_nil_r, Hp1, Hp2.
      rewrite (Permutation_app_comm taken), <- !app_assoc.
      apply Permutation_app_head, Permutation_app_comm.
    + intros Hsmall. rewrite Hit3, Hit2, Hit1 in *.
      rewrite N.mod_small by lia. lia.
Qed.

End Loop.

Section Simple.
Variable proc : value_type -> State value_type WorkListTy World
                -> Outcome * State value_type WorkListTy World.
Variable loop : nat -> bool -> State value_type WorkListTy World
                -> Stop * bool * State value_type WorkListTy World.
Hypothesis loop_O : forall didWork s, loop 0 didWork s = (OutOfFuel, didWork, s).
Hypothesis loop_S : forall fuel didWork s,
  loop (S fuel) didWork s
  = match wl_pop (tid tp) (wl s) with
    | (None, w) => (PopFailed, didWork, set_wl w s)
    | (Some p, w) =>
        match proc p (set_wl w s) with
        | (Returned, s) => loop fuel true s
        | (Conflict, s) => (Escaped, true, s)
        end
    end.
Hypothesis proc_summary : iteration_summary (W := W) traits tp proc.

Lemma simple_pass fuel : forall didWork s,
  let r := loop fuel didWork s in
  (fst (fst r) <> Escaped -> pass_summary traits tp s (snd r)) /\
  stat_iterations s <= stat_iterations (snd r) /\
  snd (fst r) = didWork || (stat_iterations s <? stat_iterations (snd r)).
Proof.
  assert (Hrefl : forall s, pass_summary traits tp s s).
  { intros s. apply pass_still; try reflexivity.
    intros inv items _ Hinv. split; [assumption|reflexivity]. }
  induction fuel as [|fuel IH]; intros didWork s; cbn zeta.
  { rewrite loop_O. cbn [fst snd]. split; [intros _; apply Hrefl|].
    split; [lia|]. now rewrite Nat.ltb_irrefl, orb_false_r. }
  rewrite loop_S.
  assert (Hpop : forall inv items,
            Lawful (tid tp) inv items -> inv (wl s) ->
            inv (snd (wl_pop (tid tp) (wl s))) /\
            match fst (wl_pop (tid tp) (wl s)) with
            | Some v => items (wl s) ≡ₚ v :: items (snd (wl_pop (tid tp) (wl s)))
            | None => items (wl s) = [] /\
                      items (snd (wl_pop (tid tp) (wl s))) = []
            end).
  { intros inv items laws Hinv. exact (law_pop _ _ _ laws _ Hinv). }
  destruct (wl_pop (tid tp) (wl s)) as [[p|] w]; cbn [fst snd] in *.
  2: { split.
       - intros _. apply pass_still; try reflexivity.
         intros inv items laws Hinv.
         destruct (Hpop inv items laws Hinv) as (Hi & He & He').
         cbn [set_wl wl]. split; [assumption|]. now rewrite He, He'.
       - cbn [set_wl stat_iterations]. split; [lia|].
         now rewrite Nat.ltb_irrefl, orb_false_r. }
  destruct (proc_summary p (set_wl w s))
    as (Hit2 & _ & _ & Hpb2 & evs & Htr2 & Hns & Hwl2).
  destruct (proc p (set_wl w s)) as [[|] s2];
    cbn [fst snd set_wl stat_iterations trace wl] in *.
  - destruct (IH true s2) as (Hpass & Hle & Hb). cbn zeta in Hpass, Hle, Hb.
    split.
    + intros Hne.
      refine (pass_step s (set_wl w s) s2 _ [p] evs eq_refl eq_refl _ _
                Hit2 _ Htr2 Hns Hwl2 _).
      * cbn [length]. lia.
      * intros inv items laws Hinv.
        destruct (Hpop inv items laws Hinv) as (Hi & Hp).
        cbn [set_wl wl]. split; assumption.
      * intros Hnp. now apply Hpb2.
      * now apply Hpass.
    + split; [lia|]. rewrite Hb. cbn [orb].
      symmetry. apply orb_true_iff. right. apply Nat.ltb_lt. lia.
  - split; [intros Hne; now contradiction Hne|].
    split; [lia|].
    symmetry. apply orb_true_iff. right. apply Nat.ltb_lt. lia.
Qed.

End Simple.

(** *** Batches *)
Section Batch.
Context {Item : Type} (lwl : Source value_type WorkListTy World Item).
Hypothesis pop_quiet : forall s,
  trace (snd (src_pop lwl s)) = trace s /\
  stat_iterations (snd (src_pop lwl s)) = stat_iterations s.

(** With a limit, a batch runs at most that many iterations, and [s.num]
    counts them. *)
Lemma dispatch_limit fuel limit :
  (0 < limit < 2 ^ 32)%N ->
  forall num s,
    (num <= limit)%N ->
    let r := dispatch fuel limit lwl num s in
    (num <= snd (fst r) <= limit)%N /\
    stat_iterations (snd r)
    = stat_iterations s + N.to_nat (snd (fst r) - num).
Proof.
  intros Hl. induction fuel as [|fuel IH]; intros num s Hn;
    cbn [runQueueDispatch].
  - cbn. split; lia.
  - destruct (N.eqb_spec limit 0) as [|_]; [lia|]. cbn [orb].
    destruct (N.ltb_spec num limit) as [Hlt|_]; [|cbn; split; lia].
    destruct (pop_quiet s) as [_ Hp].
    destruct (src_pop lwl s) as [[item|] s1]; cbn [snd] in Hp;
      [|cbn; split; lia].
    assert (Hs : (N.succ num mod 2 ^ 32 = N.succ num)%N)
      by (apply N.mod_small; lia).
    rewrite Hs.
    destruct (doProcess_spec (src_value lwl item) s1) as (Hit & _).
    destruct (process (src_value lwl item) s1) as [[|] s2];
      cbn [snd] in Hit.
    + destruct (IH (N.succ num) s2 ltac:(lia)) as [Hb Hc].
      cbn zeta. split; [lia|]. rewrite Hc, Hit, Hp. lia.
    + cbn [fst snd].
      destruct (abortIteration_spec (src_push_aborted lwl) item
                  (call ClearConflictLock s2)) as (_ & _ & _ & _ & _ & _ & _ & Ha).
      cbn zeta in Ha. rewrite Ha. cbn [call stat_iterations].
      split; lia.
Qed.

(** Without a limit, a batch never ends for having run enough. *)
Lemma dispatch_no_limit fuel : forall num s,
  fst (fst (dispatch fuel 0%N lwl num s)) <> LimitReached.
Proof.
  induction fuel as [|fuel IH]; intros num s; cbn [runQueueDispatch];
    [discriminate|].
  cbn [N.eqb orb].
  destruct (src_pop lwl s) as [[item|] s1]; [|discriminate].
  destruct (process (src_value lwl item) s1) as [[|] s2];
    [apply IH | discriminate].
Qed.

End Batch.

Lemma main_worklist_quiet s :
  trace (snd (src_pop (main_worklist tp) s)) = trace s /\
  stat_iterations (snd (src_pop (main_worklist tp) s)) = stat_iterations s.
Proof.
  cbn. destruct (wl_pop (tid tp) (wl s)). cbn. split; reflexivity.
Qed.

(** The drain of the abort queue ends: on the failure of [pop], with the
    queue empty, or on an abort. *)
Lemma drain_ends fuel : forall num s,
  length (AbortHandler.getQueue tp (aborted s)) < fuel ->
  let r := dispatch fuel 0%N (abort_queue tp) num s in
  (fst (fst r) = PopFailed /\
   AbortHandler.getQueue tp (aborted (snd r)) = []) \/
  fst (fst r) = Aborted.
Proof.
  induction fuel as [|fuel IH]; intros num s Hlen; [lia|].
  cbn [runQueueDispatch N.eqb orb].
  cbn [src_pop abort_queue].
  destruct (AbortHandler.getQueue tp (aborted s)) as [|item rest] eqn:Hq.
  - left. cbn. split; [reflexivity | assumption].
  - match goal with
    | |- context [process ?v ?s1] =>
        destruct (doProcess_spec v s1) as (_ & Hab & _);
        destruct (process v s1) as [[|] s2]
    end.
    + cbn [snd] in Hab. apply IH. unfold AbortHandler.getQueue.
      rewrite Hab. cbn [set_aborted aborted AbortHandler.queues].
      rewrite fn_lookup_insert. simpl in Hlen. lia.
    + right. reflexivity.
Qed.


Lemma pass_trans s1 s2 s3 :
  pass_summary traits tp s1 s2 -> pass_summary traits tp s2 s3 ->
  pass_summary traits tp s1 s3.
Proof.
  intros (Hle & Hpb & evs & Htr & Hns & Hcons)
         (Hle' & Hpb' & evs' & Htr' & Hns' & Hcons').
  split; [lia|]. split; [auto|].
  exists (evs ++ evs'). split; [rewrite Htr', Htr, app_assoc; reflexivity|].
  split; [now apply no_signal_app|].
  intros inv items laws Hinv.
  destruct (Hcons inv items laws Hinv) as (Hi & popped & Hl & Hp).
  destruct (Hcons' inv items laws Hi) as (Hi' & popped' & Hl' & Hp').
  split; [assumption|]. exists (popped ++ popped'). split.
  - rewrite length_app. lia.
  - rewrite bulk_pushed_app.
    rewrite (Permutation_app_swap_app (items (wl s3)) popped popped').
    rewrite Hp', (app_assoc popped), (Permutation_app_comm popped), Hp.
    now rewrite <- !app_assoc.
Qed.

Lemma main_worklist_still s :
  trace (snd (src_pop (main_worklist tp) s)) = trace s /\
  stat_iterations (snd (src_pop (main_worklist tp) s)) = stat_iterations s /\
  pushBuffer (facing (snd (src_pop (main_worklist tp) s)))
  = pushBuffer (facing s).
Proof.
  cbn. destruct (wl_pop (tid tp) (wl s)). cbn. repeat split.
Qed.

Lemma main_worklist_takes inv items :
  Lawful (tid tp) inv items ->
  forall s, inv (wl s) ->
    inv (wl (snd (src_pop (main_worklist tp) s))) /\
    exists taken,
      length taken
      <= match fst (src_pop (main_worklist tp) s) with
         | Some _ => 1 | None => 0
         end /\
      items (wl s) ≡ₚ taken ++ items (wl (snd (src_pop (main_worklist tp) s))).
Proof.
  intros laws s Hinv. cbn [src_pop main_worklist].
  destruct (law_pop _ _ _ laws _ Hinv) as [Hi Hp].
  destruct (wl_pop (tid tp) (wl s)) as [[v|] w]; cbn [fst snd set_wl wl] in *.
  - split; [assumption|]. exists [v]. split; [cbn; lia|assumption].
  - split; [assumption|]. exists []. split; [cbn; lia|].
    destruct Hp as [-> ->]. reflexivity.
Qed.

Lemma abort_queue_still s :
  trace (snd (src_pop (abort_queue tp) s)) = trace s /\
  stat_iterations (snd (src_pop (abort_queue tp) s)) = stat_iterations s /\
  pushBuffer (facing (snd (src_pop (abort_queue tp) s)))
  = pushBuffer (facing s).
Proof.
  cbn. destruct (AbortHandler.getQueue tp (aborted s)); cbn; repeat split.
Qed.

Lemma abort_queue_takes inv (items : WorkListTy -> list value_type) :
  Lawful (tid tp) inv items ->
  forall s, inv (wl s) ->
    inv (wl (snd (src_pop (abort_queue tp) s))) /\
    exists taken : list value_type,
      length taken
      <= match fst (src_pop (abort_queue tp) s) with
         | Some _ => 1 | None => 0
         end /\
      items (wl s) ≡ₚ taken ++ items (wl (snd (src_pop (abort_queue tp) s))).
Proof.
  intros _ s Hinv. cbn [src_pop abort_queue].
  destruct (AbortHandler.getQueue tp (aborted s)); cbn [fst snd set_aborted wl];
    (split; [assumption|]); exists []; (split; [cbn; lia|reflexivity]).
Qed.

(** One pass of the loop of [go]: the signal to the termination detector
    comes last, and tells whether the pass ran an iteration. *)
Lemma go_body_pass fuel (couldAbort isLeader : bool) s didWork s' :
  go_body traits tp function fuel couldAbort isLeader s = Some (didWork, s') ->
  exists s1,
    s' = call (SignalWorked didWork) s1 /\
    pass_summary traits tp s s1 /\
    ((N.of_nat (stat_iterations s1 - stat_iterations s) < 2 ^ 32)%N ->
     (didWork = true <-> stat_iterations s < stat_iterations s1)).
Proof.
  unfold go_body.
  set (fast := needsPush traits && negb couldAbort).
  destruct (couldAbort || needsBreak traits).
  - set (r := if fast then main_batch_fast traits tp function fuel isLeader s
              else main_batch traits tp function fuel isLeader s).
    assert (Hmain : pass_summary traits tp s (snd r) /\
              ((0 + N.of_nat (stat_iterations (snd r) - stat_iterations s)
                < 2 ^ 32)%N ->
               snd (fst r)
               = (0 + N.of_nat (stat_iterations (snd r) - stat_iterations s))%N)).
    { subst r. destruct fast.
      - exact (loop_pass (main_worklist tp) (doProcessFast traits tp function)
                 (fun fuel limit num s =>
                    runQueueDispatchFast traits tp function fuel limit
                      (main_worklist tp) num s)
                 (fun _ _ _ => eq_refl) (fun _ _ _ _ => eq_refl)
                 doProcessFast_summary main_worklist_still main_worklist_takes
                 fuel (NUM traits isLeader) 0%N s).
      - exact (loop_pass (main_worklist tp) process
                 (fun fuel limit num s =>
                    dispatch fuel limit (main_worklist tp) num s)
                 (fun _ _ _ => eq_refl) (fun _ _ _ _ => eq_refl)
                 doProcess_summary main_worklist_still main_worklist_takes
                 fuel (NUM traits isLeader) 0%N s). }
    clearbody r. destruct Hmain as [Hpass Hcount].
    pose proof (loop_pass (abort_queue tp) process
                  (fun fuel limit num s =>
                     dispatch fuel limit (abort_queue tp) num s)
                  (fun _ _ _ => eq_refl) (fun _ _ _ _ => eq_refl)
                  doProcess_summary abort_queue_still abort_queue_takes
                  fuel 0%N 0%N (snd r)) as [Hpass' Hcount'].
    cbn zeta in Hpass', Hcount'.
    fold (runQueue traits tp function fuel 0%N (abort_queue tp) (snd r))
      in Hpass', Hcount'.
    fold (handleAborts traits tp function fuel (snd r)) in Hpass', Hcount'.
    set (r' := handleAborts traits tp function fuel (snd r)) in *.
    clearbody r'.
    pose proof (proj1 Hpass) as Hle. pose proof (proj1 Hpass') as Hle'.
    unfold didWork_of.
    destruct couldAbort.
    + destruct (fst (fst r)); try discriminate;
        destruct (fst (fst r')); try discriminate;
        intros [= <- <-]; exists (snd r');
        (split; [reflexivity|]);
        (split; [exact (pass_trans _ _ _ Hpass Hpass')|]);
        intros Hsmall;
        rewrite orb_false_r, orb_true_iff, !N.ltb_lt, Hcount, Hcount' by lia;
        lia.
    + destruct (fst (fst r)); try discriminate;
        intros [= <- <-]; exists (snd r);
        (split; [reflexivity|]); (split; [exact Hpass|]);
        intros Hsmall; rewrite orb_false_r, N.ltb_lt, Hcount by lia; lia.
  - set (r := if fast then runQueueSimpleFast traits tp function fuel false s
              else runQueueSimple traits tp function fuel false s).
    assert (Hsimple :
              (fst (fst r) <> Escaped -> pass_summary traits tp s (snd r)) /\
              stat_iterations s <= stat_iterations (snd r) /\
              snd (fst r)
              = false || (stat_iterations s <? stat_iterations (snd r))).
    { subst r. destruct fast.
      - exact (simple_pass (doProcessFast traits tp function)
                 (runQueueSimpleFast traits tp function)
                 (fun _ _ => eq_refl) (fun _ _ _ => eq_refl)
                 doProcessFast_summary fuel false s).
      - exact (simple_pass process (runQueueSimple traits tp function)
                 (fun _ _ => eq_refl) (fun _ _ _ => eq_refl)
                 doProcess_summary fuel false s). }
    clearbody r. destruct Hsimple as (Hpass & Hle & Hb).
    destruct (fst (fst r)) eqn:Hstop; try discriminate;
      intros [= <- <-]; exists (snd r);
      (split; [reflexivity|]);
      (split; [apply Hpass; discriminate|]);
      intros _; rewrite orb_false_r, Hb; cbn [orb]; apply Nat.ltb_lt.
Qed.

End Generic.

(** The loop body, one step. *)
Lemma dispatch_unfold {value_type WorkListTy World Item : Type}
    {W : WorkList WorkListTy value_type} traits tp function
    (fuel : nat) (limit num : N)
    (lwl : Source value_type WorkListTy World Item) s :
  runQueueDispatch traits tp function (S fuel) limit lwl num s
  = if ((limit =? 0) || (num <? limit))%N then
      match src_pop lwl s with
      | (None, s) => (PopFailed, num, s)
      | (Some item, s) =>
          match doProcess traits tp function (src_value lwl item) s with
          | (Returned, s) =>
              runQueueDispatch traits tp function fuel limit lwl
                (N.succ num mod 2 ^ 32)%N s
          | (Conflict, s) =>
              (Aborted, (N.succ num mod 2 ^ 32)%N,
               abortIteration traits (src_push_aborted lwl) item
                 (call ClearConflictLock s))
          end
      end
    else (LimitReached, num, s).
Proof. reflexivity. Qed.

(** A worklist of [n] items that push nothing: a batch without limit runs
    [n] iterations. *)
Lemma quiet_batch (n : nat) : forall num s,
  wl s = {| sFIFO.wl := replicate n 0 |} ->
  let r := runQueueDispatch plain_traits AbortHandler.two_sockets
             sample_function (S n) 0%N
             (main_worklist AbortHandler.two_sockets) num s in
  fst (fst r) = PopFailed /\ stat_iterations (snd r) = stat_iterations s + n.
Proof.
  induction n as [|n IH]; intros num s Hwl; rewrite dispatch_unfold;
    cbn [N.eqb orb src_pop main_worklist]; rewrite Hwl.
  - cbn. split; [reflexivity | lia].
  - cbn [replicate wl_pop sFIFO.worklist sFIFO.pop sFIFO.wl].
    set (s1 := set_wl {| sFIFO.wl := replicate n 0 |} s).
    assert (Hp : doProcess plain_traits AbortHandler.two_sockets
                   sample_function 0 s1
                 = (Returned,
                    set_facing
                      {| pushBuffer := pushBuffer (facing s) ++ [];
                         allocated := S (allocated (facing s));
                         breakFlag := breakFlag (facing s) |}
                      (inc_iterations s1))).
    { destruct s as [[pb al br] it co pu ab w [] tr]. reflexivity. }
    change (src_value (main_worklist AbortHandler.two_sockets) 0) with 0.
    rewrite Hp.
    match goal with
    | |- context [runQueueDispatch _ _ _ _ _ _ ?num' ?s'] =>
        destruct (IH num' s' eq_refl) as [Hs Hi]
    end.
    cbn zeta in Hs, Hi. rewrite Hs, Hi. cbn. split; [reflexivity | lia].
Qed.


(** C6: when the operator reports a conflict on the item a batch has just
    popped, the batch ends with [abortIteration]: [cancelIteration] is
    called on the conflict context, the conflict counter goes up by one,
    the item is handed to the abort handler (as a fresh value when it came
    from the main worklist, as a retry record when it came from the abort
    queue), the push buffer is cleared when pushes are enabled and the
    allocator is reset when per-iteration allocation is enabled.  Nothing
    is pushed on the worklist and the pushes counter does not move. *)
Theorem abort_iteration_rolls_back
    {value_type WorkListTy World Item : Type}
    {W : WorkList WorkListTy value_type}
    (traits : Traits) (tp : AbortHandler.ThreadPool)
    (function : value_type -> World -> UserContext value_type
                -> Outcome * World * UserContext value_type)
    (lwl : Source value_type WorkListTy World Item)
    (fuel : nat) (limit num : N) (item : Item)
    (s s1 : State value_type WorkListTy World) :
  src_pop lwl s = (Some item, s1) ->
  ((limit =? 0) || (num <? limit))%N = true ->
  fst (doProcess traits tp function (src_value lwl item) s1) = Conflict ->
  let s2 := snd (doProcess traits tp function (src_value lwl item) s1) in
  let s' := abortIteration traits (src_push_aborted lwl) item
              (call ClearConflictLock s2) in
  runQueueDispatch traits tp function (S fuel) limit lwl num s
  = (Aborted, (N.succ num mod 2 ^ 32)%N, s') /\
  trace s'
  = trace s1 ++ (if needsAborts traits then [StartIteration] else [])
    ++ [ClearConflictLock; CancelIteration] /\
  stat_conflicts s' = S (stat_conflicts s1) /\
  aborted s' = src_push_aborted lwl item (aborted s1) /\
  pushBuffer (facing s')
  = (if needsPush traits then [] else pushBuffer (facing s2)) /\
  allocated (facing s')
  = (if needsPia traits then 0 else allocated (facing s2)) /\
  wl s' = wl s1 /\
  stat_pushes s' = stat_pushes s1 /\
  src_push_aborted (main_worklist (value_type := value_type)
                      (WorkListTy := WorkListTy) (World := World) tp)
  = AbortHandler.push_value tp /\
  src_push_aborted (abort_queue (value_type := value_type)
                      (WorkListTy := WorkListTy) (World := World) tp)
  = AbortHandler.push_item tp.
Proof.
  intros Hpop Hlim Hc s2 s'.
  destruct (doProcess_spec traits tp function (src_value lwl item) s1)
    as (_ & Hab & Hco & _ & Hconf).
  destruct (Hconf Hc) as (Hwl & Hpu & Htr). fold s2 in Hab, Hco, Hwl, Hpu, Htr.
  destruct (abortIteration_spec traits (src_push_aborted lwl) item
              (call ClearConflictLock s2))
    as (Ha1 & Ha2 & Ha3 & Ha4 & Ha5 & Ha6 & Ha7 & _).
  fold s' in Ha1, Ha2, Ha3, Ha4, Ha5, Ha6, Ha7.
  cbn [call trace stat_conflicts aborted facing wl stat_pushes] in *.
  split.
  { rewrite dispatch_unfold, Hlim, Hpop.
    subst s' s2.
    destruct (doProcess traits tp function (src_value lwl item) s1)
      as [o s3]. cbn [fst snd] in *. now subst o. }
  split; [rewrite Ha1, Htr, <- !app_assoc; reflexivity|].
  split; [congruence|]. split; [congruence|].
  split; [assumption|]. split; [assumption|].
  split; [congruence|]. split; [congruence|].
  split; reflexivity.
Qed.

Lemma abort_iteration_rolls_back_witness :
  let tp := AbortHandler.two_sockets in
  let s := sample_state tp [1; 2] [] in
  let r := runQueueDispatch all_traits tp sample_function 1 64%N
             (main_worklist tp) 0%N s in
  fst r = (Aborted, 1%N) /\
  wl (snd r) = {| sFIFO.wl := [2] |} /\
  facing (snd r)
  = {| pushBuffer := []; allocated := 0; breakFlag := false |} /\
  AbortHandler.getQueue tp (aborted (snd r))
  = [{| AbortHandler.val := 1; AbortHandler.retries := 1%Z |}].
Proof.
  intros tp s r.
  pose (lwl := main_worklist (W := sFIFO.worklist (T := nat))
                 (World := unit) tp).
  pose (s1 := snd (src_pop lwl s)).
  assert (Hpop : src_pop lwl s = (Some 1, s1)) by reflexivity.
  assert (Hlim : ((64 =? 0) || (0 <? 64))%N = true) by reflexivity.
  assert (Hc : fst (doProcess all_traits tp sample_function
                      (src_value lwl 1) s1) = Conflict) by reflexivity.
  destruct (abort_iteration_rolls_back all_traits tp sample_function lwl
              0 64%N 0%N 1 s s1 Hpop Hlim Hc) as (Hr & _).
  change (runQueueDispatch all_traits tp sample_function 1 64%N lwl 0%N s)
    with r in Hr.
  rewrite Hr. vm_compute. repeat split.
Defined.

(** C7 (as stated, refuted): the subgraph search of the repository runs its
    loop with conflict detection and pushes disabled.  There a committed
    iteration makes no call at all on the conflict context, and a push
    buffer that holds an item is left as it is. *)
Lemma commit_without_conflict_detection :
  let tp := AbortHandler.two_sockets in
  let s := sample_state tp [] [] in
  fst (doProcess search_traits tp sample_function 0 s) = Returned /\
  trace (snd (doProcess search_traits tp sample_function 0 s)) = [] /\
  fst (doProcess search_traits tp sample_function 2 s) = Returned /\
  pushBuffer (facing (snd (doProcess search_traits tp sample_function 2 s)))
  = [0] /\
  wl (snd (doProcess search_traits tp sample_function 2 s)) = wl s.
Proof. vm_compute. repeat split. Qed.

(** C7 (amended): an iteration whose operator returns is committed.  The
    commit moves, when pushes are enabled, all the items of the push buffer
    into the worklist by one bulk push, clears the buffer and adds their
    number to the pushes counter; it resets the per-iteration allocator
    when that is enabled, and calls [commitIteration] on the conflict
    context when conflict detection is enabled.  All of this comes before
    the worker signals its work status to the termination detector: in a
    pass of the loop of [go] the signal is the last call, after every bulk
    push; when pushes are enabled no item is left in the push buffer at
    the signal; and the worklist then holds what it held before the pass
    and every item pushed in bulk during the pass, but for the items that
    the iterations of the pass have popped themselves. *)
Theorem commit_iteration_publishes
    {value_type WorkListTy World : Type}
    {W : WorkList WorkListTy value_type}
    (traits : Traits) (tp : AbortHandler.ThreadPool)
    (function : value_type -> World -> UserContext value_type
                -> Outcome * World * UserContext value_type)
    (fuel : nat) (couldAbort isLeader : bool)
    (s : State value_type WorkListTy World) :
  let s' := commitIteration traits tp s in
  let pb := pushBuffer (facing s) in
  wl s' = (if needsPush traits then push_range (tid tp) pb (wl s) else wl s) /\
  pushBuffer (facing s') = (if needsPush traits then [] else pb) /\
  stat_pushes s'
  = (if needsPush traits then stat_pushes s + length pb else stat_pushes s) /\
  allocated (facing s')
  = (if needsPia traits then 0 else allocated (facing s)) /\
  trace s'
  = trace s
    ++ (if needsPush traits && negb (length pb =? 0) then [BulkPush pb] else [])
    ++ (if needsAborts traits then [CommitIteration] else []) /\
  (forall val,
     let s0 := inc_iterations
                 (if needsAborts traits then call StartIteration s else s) in
     let r := function val (world s0) (facing s0) in
     fst (fst r) = Returned ->
     doProcess traits tp function val s
     = (Returned,
        commitIteration traits tp
          (set_facing (snd r) (set_world (snd (fst r)) s0))) /\
     doProcessFast traits tp function val s
     = (Returned,
        commitIteration traits tp
          (fast_pushes tp
             (set_facing (snd r) (set_world (snd (fst r)) s0))))) /\
  (forall didWork s'',
     go_body traits tp function fuel couldAbort isLeader s
     = Some (didWork, s'') ->
     exists evs,
       trace s'' = trace s ++ evs ++ [SignalWorked didWork] /\
       no_signal evs /\
       (needsPush traits = true -> pushBuffer (facing s) = [] ->
        pushBuffer (facing s'') = []) /\
       (forall inv items,
          Lawful (tid tp) inv items -> inv (wl s) ->
          inv (wl s'') /\
          exists popped,
            length popped <= stat_iterations s'' - stat_iterations s /\
            items (wl s'') ++ popped ≡ₚ items (wl s) ++ bulk_pushed evs)).
Proof.
  intros s' pb.
  destruct (commitIteration_spec traits tp s) as (H1 & H2 & H3 & H4 & H5 & _).
  repeat (split; [assumption|]).
  split; [intros val; apply doProcess_returned|].
  intros didWork s'' Hgo.
  destruct (go_body_pass traits tp function fuel couldAbort isLeader s
              didWork s'' Hgo)
    as (s1 & -> & (_ & Hpb & evs & Htr & Hns & Hcons) & _).
  exists evs. cbn [call trace facing wl stat_iterations].
  split; [rewrite Htr, <- app_assoc; reflexivity|].
  split; [assumption|]. split; assumption.
Qed.

(** The worklist holds 2, 4, 1 and 6; the operator pushes 0 for each of
    them and reports a conflict on odd items.  The pass commits 2 and 4
    and aborts on 1, twice; at the signal the worklist holds 6 and the two
    items pushed. *)
Lemma commit_iteration_publishes_witness :
  let tp := AbortHandler.two_sockets in
  let s := sample_state tp [2; 4; 1; 6] [] in
  match go_body all_traits tp sample_function 10 true false s with
  | Some (didWork, s'') =>
      wl s'' = {| sFIFO.wl := [6; 0; 0] |} /\
      pushBuffer (facing s'') = [] /\
      exists evs popped,
        trace s'' = trace s ++ evs ++ [SignalWorked didWork] /\
        no_signal evs /\
        length popped <= stat_iterations s'' - stat_iterations s /\
        sFIFO.items (wl s'') ++ popped ≡ₚ [2; 4; 1; 6] ++ bulk_pushed evs
  | None => False
  end.
Proof.
  intros tp s.
  destruct (go_body all_traits tp sample_function 10 true false s)
    as [[didWork s'']|] eqn:Hgo.
  - destruct (proj2 (proj2 (proj2 (proj2 (proj2 (proj2
               (commit_iteration_publishes all_traits tp sample_function 10
                  true false s)))))) didWork s'' Hgo)
      as (evs & Htr & Hns & Hpb & Hcons).
    destruct (Hcons (fun _ => True) sFIFO.items
                (sFIFOFacts.sfifo_lawful (tid tp)) I)
      as (_ & popped & Hlen & Hperm).
    split; [vm_compute in Hgo; now injection Hgo as _ <-|].
    split; [now apply Hpb|].
    exists evs, popped. repeat split; assumption.
  - vm_compute in Hgo. discriminate Hgo.
Defined.

(** C8 (as stated, refuted): the drain of the abort queue does not always
    go on until the queue's [pop] fails.  With the records of 3 and 4 on
    the queue, the operator reports a conflict on 3: the drain ends after
    this one iteration, and the next [pop] would return the record
    of 4. *)
Lemma drain_stops_on_abort :
  let tp := AbortHandler.two_sockets in
  let s := sample_state tp []
             [{| AbortHandler.val := 3; AbortHandler.retries := 1%Z |};
              {| AbortHandler.val := 4; AbortHandler.retries := 1%Z |}] in
  let r := handleAborts all_traits tp sample_function 10 s in
  fst r = (Aborted, 1%N) /\
  AbortHandler.getQueue tp (aborted (snd r))
  = [{| AbortHandler.val := 4; AbortHandler.retries := 1%Z |};
     {| AbortHandler.val := 3; AbortHandler.retries := 2%Z |}] /\
  fst (src_pop (abort_queue tp) (snd r))
  = Some {| AbortHandler.val := 4; AbortHandler.retries := 1%Z |}.
Proof. vm_compute. repeat split. Qed.

(** C8 (amended): a batch from the main worklist runs at most 64 iterations
    when the worker is the leader or a break flag is needed, and has no
    limit otherwise: it never ends for having run enough, and runs as many
    iterations as the worklist gives it items.  The drain of the abort
    queue that follows has no limit either: it goes on until that queue's
    [pop] fails, which leaves the queue empty, or until an iteration
    aborts. *)
Theorem batch_limits
    {value_type WorkListTy World : Type}
    {W : WorkList WorkListTy value_type}
    (traits : Traits) (tp : AbortHandler.ThreadPool)
    (function : value_type -> World -> UserContext value_type
                -> Outcome * World * UserContext value_type)
    (fuel : nat) (isLeader : bool)
    (s : State value_type WorkListTy World) :
  (needsBreak traits || isLeader = true ->
   (snd (fst (main_batch traits tp function fuel isLeader s)) <= 64)%N /\
   stat_iterations (snd (main_batch traits tp function fuel isLeader s))
   <= stat_iterations s + 64) /\
  (needsBreak traits || isLeader = false ->
   fst (fst (main_batch traits tp function fuel isLeader s))
   <> LimitReached) /\
  (forall n,
     let r := main_batch plain_traits AbortHandler.two_sockets
                sample_function (S n) false
                (sample_state AbortHandler.two_sockets (replicate n 0) []) in
     fst (fst r) = PopFailed /\ stat_iterations (snd r) = n) /\
  fst (fst (handleAborts traits tp function fuel s)) <> LimitReached /\
  (length (AbortHandler.getQueue tp (aborted s)) < fuel ->
   (fst (fst (handleAborts traits tp function fuel s)) = PopFailed /\
    AbortHandler.getQueue tp
      (aborted (snd (handleAborts traits tp function fuel s))) = []) \/
   fst (fst (handleAborts traits tp function fuel s)) = Aborted).
Proof.
  unfold main_batch, handleAborts, runQueue, NUM.
  split; [|split; [|split; [|split]]].
  - intros ->.
    destruct (dispatch_limit traits tp function
                (main_worklist (W := W) (World := World) tp)
                (main_worklist_quiet tp) fuel 64%N ltac:(lia) 0%N s
                ltac:(lia)) as [Hn Hi].
    cbn zeta in Hn, Hi. split; [lia|]. rewrite Hi. lia.
  - intros ->. apply dispatch_no_limit.
  - intros n.
    exact (quiet_batch n 0%N
             (sample_state AbortHandler.two_sockets (replicate n 0) [])
             eq_refl).
  - apply dispatch_no_limit.
  - apply drain_ends.
Qed.

Lemma batch_limits_witness :
  let tp := AbortHandler.two_sockets in
  let s := sample_state tp (replicate 100 0) [] in
  (snd (fst (main_batch plain_traits tp sample_function 200 true s))
   <= 64)%N /\
  ((fst (fst (handleAborts plain_traits tp sample_function 1 s)) = PopFailed /\
    AbortHandler.getQueue tp
      (aborted (snd (handleAborts plain_traits tp sample_function 1 s))) = [])
   \/ fst (fst (handleAborts plain_traits tp sample_function 1 s)) = Aborted).
Proof.
  intros tp s.
  pose proof (batch_limits plain_traits tp sample_function 200 true s)
    as (Hmain & _).
  pose proof (batch_limits plain_traits tp sample_function 1 true s)
    as (_ & _ & _ & _ & Hdrain).
  split; [exact (proj1 (Hmain eq_refl))|].
  apply Hdrain. vm_compute. lia.
Defined.

End ForEachExecutorFacts.

(** ** The order in which the worklists return their items *)

Module OrderFacts.
Import WorkList.

(** A worklist whose [push] puts the item behind all the others and whose
    [pop] takes the one in front returns its items in the order they
    came. *)
Section Queue.
Context {Q T : Type} {W : WorkList Q T}.
Context (tid : nat) (inv : Q -> Prop) (items : Q -> list T).
Hypothesis new_law : inv wl_new /\ items wl_new = [].
Hypothesis push_law : forall v q,
  inv q -> inv (wl_push tid v q) /\ items (wl_push tid v q) = items q ++ [v].
Hypothesis pop_law : forall q,
  inv q ->
  inv (snd (wl_pop tid q)) /\
  match fst (wl_pop tid q) with
  | Some v => items q = v :: items (snd (wl_pop tid q))
  | None => items q = [] /\ items (snd (wl_pop tid q)) = []
  end.

Lemma run_ops_in_order (ops : list (Op T)) : forall q,
  inv q ->
  inv (snd (run_ops tid ops q)) /\
  fst (run_ops tid ops q) ++ items (snd (run_ops tid ops q))
  = items q ++ pushed ops.
Proof.
  induction ops as [|[v|] ops IH]; intros q Hq; simpl.
  - split; [assumption | now rewrite app_nil_r].
  - destruct (push_law v q Hq) as [Hi Hp].
    destruct (IH _ Hi) as [Hi' Hp']. split; [assumption|].
    rewrite Hp', Hp, <- app_assoc. reflexivity.
  - pose proof (pop_law q Hq) as [Hi Hp].
    destruct (wl_pop tid q) as [r q1]. simpl in Hi, Hp.
    destruct (IH _ Hi) as [Hi' Hp'].
    destruct (run_ops tid ops q1) as [out q2]. simpl in *.
    split; [assumption|].
    destruct r as [v|].
    + simpl. rewrite Hp', Hp. reflexivity.
    + destruct Hp as [Hp Hq1]. rewrite Hp', Hp, Hq1. reflexivity.
Qed.

Lemma drain_in_order fuel : forall q,
  inv q -> length (items q) < fuel ->
  fst (drain tid fuel q) = Some (items q).
Proof.
  induction fuel as [|fuel IH]; intros q Hq Hlen; [lia|]. simpl.
  pose proof (pop_law q Hq) as [Hi Hp].
  destruct (wl_pop tid q) as [[v|] q1]; simpl in Hi, Hp.
  - assert (Hl : length (items q1) < fuel) by (rewrite Hp in Hlen; simpl in Hlen; lia).
    pose proof (IH _ Hi Hl) as Ho.
    destruct (drain tid fuel q1) as [o q2]. simpl in *. subst o.
    now rewrite Hp.
  - destruct Hp as [Hp _]. now rewrite Hp.
Qed.

Lemma queue_order (ops : list (Op T)) : first_in_first_out (W := W) tid ops.
Proof.
  destruct new_law as [Hi0 He0].
  destruct (run_ops_in_order ops wl_new Hi0) as [Hi Hp].
  rewrite He0 in Hp. simpl in Hp.
  exists (items (snd (run_ops tid ops wl_new))). split; [|exact Hp].
  apply drain_in_order; [assumption|].
  rewrite <- Hp, length_app. lia.
Qed.

End Queue.

(** X1: [FIFO], the linked list of chunks of 128 items, and [sFIFO] return
    the items in the order they were pushed, however pushes and pops are
    interleaved: chunks that run empty are dropped and new ones appended
    without an item being lost, repeated or overtaken. *)
Theorem fifo_first_in_first_out {T : Type} (tid : nat) (ops : list (Op T)) :
  first_in_first_out (W := FIFO.worklist) tid ops /\
  first_in_first_out (W := sFIFO.worklist) tid ops.
Proof.
  split.
  - apply (queue_order tid FIFO.inv FIFO.items).
    + split; [done | reflexivity].
    + intros v [cs] Hne. unfold FIFO.inv, FIFO.items in *. simpl in *.
      exact (FIFOFacts.push_tail_items v cs Hne).
    + intros s Hs. exact (FIFOFacts.fifo_pop_spec s Hs).
  - apply (queue_order tid (fun _ => True) sFIFO.items).
    + split; [exact I | reflexivity].
    + intros v [l] _. split; [exact I | reflexivity].
    + intros [[|x l]] _; (split; [exact I|]); simpl; auto.
Qed.

(** X2: for one worker, [ChunkedFIFO] returns the items in the order they
    were pushed, however pushes and pops are interleaved and whatever the
    chunk size (at least 1): the consumer chunk is drained first, then the
    chunks of the shared list in the order they were filled, then the
    producer chunk. *)
Theorem chunked_fifo_first_in_first_out {T : Type} (chunksize tid : nat)
    (ops : list (Op T)) :
  0 < chunksize ->
  first_in_first_out (W := ChunkedFIFO.worklist chunksize) tid ops.
Proof.
  intros Hc.
  apply (queue_order (W := ChunkedFIFO.worklist chunksize) tid
           (ChunkedFIFO.inv tid) (ChunkedFIFO.items tid)).
  - split; [split; [constructor | discriminate] | reflexivity].
  - intros v s Hs.
    destruct (ChunkedFIFOFacts.push_slot_spec chunksize Hc v _ _ Hs)
      as (n' & hd' & He & Hi & Hit).
    cbn [wl_push ChunkedFIFO.worklist].
    unfold ChunkedFIFO.push, ChunkedFIFO.push', ChunkedFIFO.inv,
      ChunkedFIFO.items. rewrite He.
    cbn [fst snd ChunkedFIFO.data ChunkedFIFO.head].
    rewrite fn_lookup_insert. split; assumption.
  - intros s Hs.
    destruct (ChunkedFIFOFacts.pop_slot_spec _ _ Hs)
      as (r & n' & hd' & He & Hi & Hit).
    cbn [wl_pop ChunkedFIFO.worklist].
    unfold ChunkedFIFO.pop, ChunkedFIFO.inv, ChunkedFIFO.items.
    rewrite He. cbn [fst snd ChunkedFIFO.data ChunkedFIFO.head].
    rewrite fn_lookup_insert. split; assumption.
Qed.

Lemma chunked_fifo_first_in_first_out_witness :
  first_in_first_out (W := ChunkedFIFO.worklist 2) 0
    [Push 1; Push 2; Push 3; Pop; Push 4; Pop; Push 5].
Proof.
  refine (chunked_fifo_first_in_first_out 2 0 _ _). lia.
Defined.

Lemma lifo_push_all {T : Type} (tid : nat) (xs : list T) : forall l,
  push_all tid xs {| LIFO.wl := l |} = {| LIFO.wl := l ++ xs |}.
Proof.
  induction xs as [|x xs IH]; intros l; simpl.
  - now rewrite app_nil_r.
  - unfold LIFO.push. simpl. rewrite IH, <- app_assoc. reflexivity.
Qed.

Lemma lifo_drain {T : Type} (tid : nat) (l : list T) :
  drain tid (S (length l)) {| LIFO.wl := l |}
  = (Some (rev l), {| LIFO.wl := [] |}).
Proof.
  induction l as [|x l IH] using rev_ind; [reflexivity|].
  rewrite length_app, Nat.add_1_r, rev_unit.
  change (drain tid (S (S (length l))) {| LIFO.wl := l ++ [x] |})
    with (match LIFO.pop {| LIFO.wl := l ++ [x] |} with
          | (None, q) => (Some [], q)
          | (Some v, q) =>
              let (out, q) := drain tid (S (length l)) q in (cons v <$> out, q)
          end).
  rewrite LIFOFacts.pop_snoc, IH. reflexivity.
Qed.

(** X3: [LIFO] is a stack: after any pushes on a fresh worklist, popping
    until [pop] fails returns the items in the reverse of the order they
    were pushed. *)
Theorem lifo_drains_in_reverse {T : Type} (tid : nat) (xs : list T) :
  fst (drain tid (S (length xs)) (push_all tid xs (LIFO.new (T := T))))
  = Some (rev xs).
Proof.
  unfold LIFO.new. rewrite lifo_push_all. simpl app.
  now rewrite lifo_drain.
Qed.

End OrderFacts.

(** ** The answers of [empty()] *)

Module EmptyFacts.
Import WorkList.
Module O := OrderedByIntegerMetric.

Lemma lifo_empty_law {T : Type} (tid : nat) :
  LawfulEmpty (W := LIFO.worklist (T := T)) tid (fun _ => True) LIFO.items.
Proof.
  split. intros [l] _. split; [exact I|]. split; [reflexivity|].
  unfold LIFO.items. simpl. now destruct l.
Qed.

Lemma sfifo_empty_law {T : Type} (tid : nat) :
  LawfulEmpty (W := sFIFO.worklist (T := T)) tid (fun _ => True) sFIFO.items.
Proof.
  split. intros [l] _. split; [exact I|]. split; [reflexivity|].
  unfold sFIFO.items. simpl. now destruct l.
Qed.

Lemma fifo_empty_law {T : Type} (tid : nat) :
  LawfulEmpty (W := FIFO.worklist (T := T)) tid FIFO.inv FIFO.items.
Proof.
  split. intros [cs] Hne. unfold FIFO.inv, FIFO.items in *.
  cbn [wl_empty FIFO.worklist]. unfold FIFO.empty. simpl in *.
  destruct (FIFOFacts.popEmptyChunksLocked_spec cs Hne)
    as (hd & rest & He & Hc & Hr).
  rewrite He. split; [done|]. split; [exact Hc|].
  rewrite <- Hc. destruct hd as [|x hd]; simpl.
  - rewrite (Hr eq_refl). simpl. split; reflexivity.
  - split; discriminate.
Qed.

(** X4: [FIFO::empty()] answers true exactly when the worklist holds no
    item, also when empty chunks are still linked in front of a chunk that
    holds items: it drops them first, and loses no item in doing so. *)
Theorem fifo_empty_exact {T : Type} (s : FIFO.t T) :
  FIFO.inv s ->
  FIFO.inv (snd (FIFO.empty s)) /\
  FIFO.items (snd (FIFO.empty s)) = FIFO.items s /\
  (fst (FIFO.empty s) = true <-> FIFO.items s = []).
Proof. exact (law_empty _ _ _ (fifo_empty_law 0) s). Qed.

Lemma fifo_empty_exact_witness :
  let s := {| FIFO.chunks := [[]; []; [7]] |} in
  FIFO.items (snd (FIFO.empty s)) = [7] /\ fst (FIFO.empty s) <> true.
Proof.
  intros s.
  assert (Hinv : FIFO.inv s) by (vm_compute; discriminate).
  destruct (fifo_empty_exact s Hinv) as (_ & Hi & He).
  split; [exact Hi|]. intros Ht. apply He in Ht. vm_compute in Ht.
  discriminate Ht.
Defined.

(** The scan of [OrderedByIntegerMetric::empty()] over containers whose own
    [empty()] is exact. *)
Section Buckets.
Context {T CTy : Type} {W : WorkList CTy T}.
Context (tid : nat) (inv_c : CTy -> Prop) (items_c : CTy -> list T).
Hypothesis laws : Lawful tid inv_c items_c.
Hypothesis empty_laws : LawfulEmpty tid inv_c items_c.

Local Abbreviation bi := (O.bucket_items items_c).

Lemma empty_scan_spec n : forall i data,
  Forall inv_c data -> i + n = length data ->
  Forall inv_c (snd (O.empty_scan tid n i data)) /\
  length (snd (O.empty_scan tid n i data)) = length data /\
  (forall j, bi (snd (O.empty_scan tid n i data)) j = bi data j) /\
  (fst (O.empty_scan tid n i data) = true <->
   forall j, i <= j < i + n -> bi data j = []).
Proof.
  induction n as [|n IH]; intros i data Hd Hn; cbn [O.empty_scan].
  - cbn. repeat split; auto. intros; lia.
  - assert (Hi : i < length data) by lia.
    pose proof (law_empty _ _ _ empty_laws _
                  (OBIMFacts.bucket_inv tid inv_c items_c laws data i Hd))
      as (Hinv & Hit & Hans).
    destruct (wl_empty tid (default wl_new (data !! i))) as [e b'].
    cbn [fst snd] in *.
    assert (Hsame : forall j, bi (<[ i := b' ]> data) j = bi data j).
    { intros j. rewrite OBIMFacts.bucket_items_insert by assumption.
      destruct (decide (j = i)) as [->|]; [exact Hit | reflexivity]. }
    destruct e; cbn [negb].
    + destruct (IH (S i) (<[ i := b' ]> data)) as (Hd' & Hl' & Hs' & Ha').
      { now apply Forall_insert. }
      { rewrite length_insert. lia. }
      split; [assumption|]. split; [now rewrite Hl', length_insert|].
      split; [intros j; now rewrite Hs', Hsame|].
      rewrite Ha'. split.
      * intros Hall j Hj. destruct (decide (j = i)) as [->|Hne].
        -- now apply Hans.
        -- rewrite <- Hsame. apply Hall. lia.
      * intros Hall j Hj. rewrite Hsame. apply Hall. lia.
    + cbn [fst snd]. split; [now apply Forall_insert|].
      split; [apply length_insert|]. split; [exact Hsame|].
      split; [discriminate|]. intros Hall.
      assert (He : bi data i = []) by (apply Hall; lia).
      apply Hans in He. discriminate He.
Qed.

End Buckets.

(** X5: [OrderedByIntegerMetric::empty()], over its default container,
    answers true exactly when no bucket holds an item, wherever the cursors
    stand, and leaves the contents of every bucket as they were. *)
Theorem obim_empty_exact {T : Type} (tid : nat) (s : O.t (FIFO.t T)) :
  length (O.data s) = O.size s ->
  Forall FIFO.inv (O.data s) ->
  (fst (O.empty tid s) = true <->
   forall i, i < O.size s -> O.bucket_items FIFO.items (O.data s) i = []) /\
  (forall i, O.bucket_items FIFO.items (O.data (snd (O.empty tid s))) i
             = O.bucket_items FIFO.items (O.data s) i) /\
  O.cursor (snd (O.empty tid s)) = O.cursor s.
Proof.
  intros Hlen Hd.
  destruct (empty_scan_spec tid FIFO.inv FIFO.items (FIFOFacts.fifo_lawful tid)
              (fifo_empty_law tid) (O.size s) 0 (O.data s) Hd
              ltac:(lia)) as (_ & _ & Hs & Ha).
  unfold O.empty.
  destruct (O.empty_scan tid (O.size s) 0 (O.data s)) as [r data'].
  cbn [fst snd O.data O.cursor] in *.
  split; [|split; [exact Hs | reflexivity]].
  rewrite Ha. split; intros Hall i Hi; apply Hall; lia.
Qed.

Lemma obim_empty_exact_witness :
  let s := O.push (fun v => v) true 0 1
             (O.new (CTy := FIFO.t nat) 2) in
  fst (O.empty 0 s) <> true.
Proof.
  intros s.
  assert (Hlen : length (O.data s) = O.size s) by reflexivity.
  assert (Hd : Forall FIFO.inv (O.data s)).
  { vm_compute. repeat (constructor; [discriminate|]). constructor. }
  destruct (obim_empty_exact 0 s Hlen Hd) as (He & _).
  intros Ht. pose proof (proj1 He Ht 1 ltac:(vm_compute; lia)) as H1.
  vm_compute in H1. discriminate H1.
Defined.

(** X6: [OrderedByIntegerMetric] loses and repeats no item, whatever the
    indices: for one worker and any sequence of pushes and pops, popping
    until [pop] fails ends and the items of all the successful pops are, up
    to their order, the items pushed; this holds for the items whose index
    is clamped to the last bucket too. *)
Theorem obim_conserves_items {T : Type} (Indexer : T -> nat)
    (concurrent : bool) (tid range : nat) (ops : list (Op T)) :
  (N.of_nat range < 2 ^ 32 - 1)%N ->
  conserves
    (W := O.worklist (CTy := FIFO.t T) Indexer concurrent range) tid ops.
Proof.
  intros Hr.
  exact (SequentialFacts.conservation tid _ _
           (OBIMFacts.obim_lawful Indexer concurrent tid _ _
              (FIFOFacts.fifo_lawful tid) range Hr) ops).
Qed.

Lemma obim_conserves_items_witness :
  conserves (W := O.worklist (CTy := FIFO.t nat) (fun v => v) true 2) 0
    [Push 7; Push 5; Pop; Push 0; Push 9].
Proof.
  refine (obim_conserves_items (fun v => v) true 0 2 _ _).
  vm_compute. reflexivity.
Defined.

End EmptyFacts.

(** ** What the workers of a chunked FIFO see of each other *)

Module ChunkedFIFOSharingFacts.
Import WorkList.
Module C := ChunkedFIFO.

Section WithT.
Context {T : Type} (chunksize : nat).
Hypothesis chunksize_pos : 0 < chunksize.
Implicit Types (s : C.t T) (xs : list T).

Lemma pushed_by_new (a : nat) :
  C.pushed_by (T := T) chunksize a C.new [].
Proof.
  unfold C.pushed_by, C.new. cbn. repeat split; auto.
Qed.

Lemma pushed_by_push (a : nat) (v : T) s xs :
  C.pushed_by chunksize a s xs ->
  C.pushed_by chunksize a (C.push chunksize a v s) (xs ++ [v]).
Proof.
  intros (Hcur & Hoth & Hfull & Hnext).
  unfold C.push, C.push', C.push_slot, FixedSizeRing.push_back.
  destruct (C.data s a) as [c nx] eqn:Hslot. cbn [C.cur C.next] in *.
  subst c.
  assert (Hfresh : FixedSizeRing.full (T := T) chunksize [] = false)
    by (unfold FixedSizeRing.full; simpl; now apply Nat.leb_gt).
  assert (Hothers : forall n' j, j <> a ->
            (<[ a := n' ]> (C.data s)) j = {| C.cur := None; C.next := None |}).
  { intros n' j Hj. rewrite fn_lookup_insert_ne by congruence. now apply Hoth. }
  destruct nx as [c|].
  - destruct Hnext as [Hlen Hcat].
    destruct (FixedSizeRing.full chunksize c) eqn:Hf; cbn [C.next C.cur].
    + rewrite Hfresh. cbn [fst snd C.data C.head C.pushChunk].
      unfold C.pushed_by. cbn [C.data C.head].
      rewrite fn_lookup_insert. cbn [C.cur C.next].
      split; [reflexivity|]. split; [now apply Hothers|].
      unfold FixedSizeRing.full in Hf. apply Nat.leb_le in Hf.
      split; [apply Forall_app; split; [assumption|]; constructor;
              [lia | constructor]|].
      split; [simpl; lia|].
      rewrite concat_app. simpl. rewrite app_nil_r. now rewrite Hcat.
    + rewrite Hf. cbn [fst snd C.data C.head].
      unfold C.pushed_by. cbn [C.data C.head].
      rewrite fn_lookup_insert. cbn [C.cur C.next].
      split; [reflexivity|]. split; [now apply Hothers|].
      split; [assumption|].
      unfold FixedSizeRing.full in Hf. apply Nat.leb_gt in Hf.
      split; [rewrite length_app; simpl; lia|].
      now rewrite app_assoc, Hcat.
  - destruct Hnext as [Hhd ->]. cbn [C.next C.cur]. rewrite Hfresh.
    cbn [fst snd C.data C.head].
    unfold C.pushed_by. cbn [C.data C.head].
    rewrite fn_lookup_insert. cbn [C.cur C.next].
    split; [reflexivity|]. split; [now apply Hothers|].
    split; [assumption|]. split; [simpl; lia|].
    now rewrite Hhd.
Qed.

Lemma pushed_by_push_all (a : nat) xs : forall s ys,
  C.pushed_by chunksize a s ys ->
  C.pushed_by chunksize a
    (foldl (fun s val => C.push chunksize a val s) s xs) (ys ++ xs).
Proof.
  induction xs as [|x xs IH]; intros s ys Hs; simpl.
  - now rewrite app_nil_r.
  - replace (ys ++ x :: xs) with ((ys ++ [x]) ++ xs)
      by now rewrite <- app_assoc.
    apply IH. now apply pushed_by_push.
Qed.

(** The first chunk of the shared list, when there is one, starts with the
    first item pushed; there is one exactly when more items were pushed
    than a chunk holds. *)
Lemma pushed_by_head (a : nat) s xs :
  C.pushed_by chunksize a s xs ->
  (length xs <= chunksize -> C.head s = []) /\
  (chunksize < length xs ->
   exists x c rest, C.head s = (x :: c) :: rest /\ head xs = Some x).
Proof.
  intros (_ & _ & Hfull & Hnext).
  destruct (C.next (C.data s a)) as [c|].
  - destruct Hnext as [Hlen Hcat].
    destruct (C.head s) as [|c0 rest] eqn:Hhd.
    + split; [reflexivity|]. intros Hlt. simpl in Hcat. subst xs. lia.
    + apply Forall_cons in Hfull as [Hc0 _].
      split.
      * intros Hle. rewrite <- Hcat in Hle. simpl in Hle.
        rewrite !length_app in Hle. lia.
      * intros _. destruct c0 as [|x c0]; [simpl in Hc0; lia|].
        exists x, c0, rest. split; [reflexivity|]. now rewrite <- Hcat.
  - destruct Hnext as [-> ->]. split; [reflexivity|]. simpl. lia.
Qed.

Lemma pop_law (tid : nat) s :
  C.inv tid s ->
  C.inv tid (snd (C.pop tid s)) /\
  match fst (C.pop tid s) with
  | Some v => C.items tid s = v :: C.items tid (snd (C.pop tid s))
  | None => C.items tid s = [] /\ C.items tid (snd (C.pop tid s)) = []
  end.
Proof.
  intros Hs.
  destruct (ChunkedFIFOFacts.pop_slot_spec _ _ Hs)
    as (r & n' & hd' & He & Hi & Hit).
  unfold C.pop, C.inv, C.items.
  rewrite He. cbn [fst snd C.data C.head].
  rewrite fn_lookup_insert. split; assumption.
Qed.

End WithT.

(** X7: what one worker pushes stays private to it until a chunk is full.
    After worker [a] alone has pushed [xs] on a fresh worklist, the [pop] of
    another worker fails as long as [xs] fits in one chunk, and returns the
    first item pushed as soon as it does not. *)
Theorem chunk_is_private_until_full {T : Type} (chunksize a b : nat)
    (xs : list T) :
  0 < chunksize -> a <> b ->
  let s := push_all (W := C.worklist chunksize) a xs C.new in
  (length xs <= chunksize -> fst (C.pop b s) = None) /\
  (chunksize < length xs -> fst (C.pop b s) = head xs).
Proof.
  intros Hc Hab s.
  pose proof (pushed_by_push_all chunksize Hc a xs C.new []
                (pushed_by_new chunksize a)) as Hs.
  simpl app in Hs. change (C.pushed_by chunksize a s xs) in Hs.
  destruct (pushed_by_head chunksize Hc a s xs Hs) as [Hsmall Hbig].
  destruct Hs as (_ & Hoth & _).
  unfold C.pop, C.pop_slot. rewrite (Hoth b ltac:(congruence)).
  cbn [C.cur C.next]. split.
  - intros Hle. rewrite (Hsmall Hle). reflexivity.
  - intros Hlt. destruct (Hbig Hlt) as (x & c & rest & Hhd & Hx).
    rewrite Hhd, Hx. reflexivity.
Qed.

Lemma chunk_is_private_until_full_witness :
  let s := push_all (W := C.worklist 2) 0 [5; 6; 7] C.new in
  fst (C.pop 1 s) = Some 5.
Proof.
  intros s.
  exact (proj2 (chunk_is_private_until_full 2 0 1 [5; 6; 7]
                  ltac:(lia) ltac:(lia)) ltac:(simpl; lia)).
Defined.

(** X8: [fill_initial] publishes all it is given: after worker [a] has
    seeded a fresh worklist with [xs], any worker [b], [a] itself or
    another, that pops until [pop] fails gets all of [xs], in order. *)
Theorem fill_initial_publishes {T : Type} (chunksize a b : nat)
    (xs : list T) :
  0 < chunksize ->
  fst (drain (W := C.worklist chunksize) b (S (length xs))
         (C.fill_initial chunksize a xs C.new)) = Some xs.
Proof.
  intros Hc.
  pose proof (pushed_by_push_all chunksize Hc a xs C.new []
                (pushed_by_new chunksize a)) as Hs.
  simpl app in Hs.
  set (s0 := foldl (fun s val => C.push chunksize a val s) C.new xs) in *.
  set (s := C.fill_initial chunksize a xs C.new).
  destruct Hs as (Hcur & Hoth & Hfull & Hnext).
  assert (Hhead : C.head s = C.pushChunk (C.next (C.data s0 a)) (C.head s0))
    by reflexivity.
  assert (Hslot : C.data s b = {| C.cur := None; C.next := None |}).
  { unfold s, C.fill_initial. fold s0. cbn [C.data].
    destruct (decide (a = b)) as [->|Hab].
    - rewrite fn_lookup_insert, Hcur. reflexivity.
    - rewrite fn_lookup_insert_ne by assumption. now apply Hoth. }
  assert (Hcat : concat (C.head s) = xs /\ Forall (fun c => c <> []) (C.head s)).
  { rewrite Hhead. destruct (C.next (C.data s0 a)) as [c|]; simpl.
    - destruct Hnext as [Hlen Hcat].
      rewrite concat_app. simpl. rewrite app_nil_r. split; [assumption|].
      apply Forall_app. split.
      + eapply Forall_impl; [exact Hfull|]. simpl. intros c0 Hc0 ->.
        simpl in Hc0. lia.
      + constructor; [|constructor]. intros ->. simpl in Hlen. lia.
    - destruct Hnext as [-> ->]. split; constructor. }
  destruct Hcat as [Hcat Hne].
  assert (Hitems : C.items b s = xs).
  { unfold C.items, C.slot_items. rewrite Hslot. simpl.
    now rewrite app_nil_r. }
  assert (Hinv : C.inv b s).
  { unfold C.inv, C.slot_inv. rewrite Hslot. simpl. split; [assumption|].
    discriminate. }
  rewrite <- Hitems at 2.
  apply (OrderFacts.drain_in_order (W := C.worklist chunksize) b
           (C.inv b) (C.items b)).
  - intros q. apply pop_law.
  - assumption.
  - rewrite Hitems. lia.
Qed.

Lemma fill_initial_publishes_witness :
  fst (drain (W := C.worklist 2) 1 6
         (C.fill_initial 2 0 [1; 2; 3; 4; 5] C.new)) = Some [1; 2; 3; 4; 5].
Proof.
  exact (fill_initial_publishes 2 0 1 [1; 2; 3; 4; 5] ltac:(lia)).
Defined.

End ChunkedFIFOSharingFacts.

(** ** Local queues with a shared global queue *)

Module LocalQueuesFacts.
Import WorkList.
Module LQ := LocalQueues.

Section Generic.
Context {T GlobalQueueTy LocalQueueTy : Type}.
Context {WG : WorkList GlobalQueueTy T} {WL : WorkList LocalQueueTy T}.
Context (tid : nat).
Context (inv_l : LocalQueueTy -> Prop) (items_l : LocalQueueTy -> list T).
Context (inv_g : GlobalQueueTy -> Prop) (items_g : GlobalQueueTy -> list T).
Hypothesis laws_l : Lawful tid inv_l items_l.
Hypothesis laws_g : Lawful tid inv_g items_g.

Local Abbreviation linv := (LQ.inv inv_l inv_g tid).
Local Abbreviation litems := (LQ.items items_l items_g tid).

Lemma pop_contract (s : LQ.t GlobalQueueTy LocalQueueTy) :
  linv s ->
  linv (snd (LQ.pop tid s)) /\
  match fst (LQ.pop tid s) with
  | Some v => litems s ≡ₚ v :: litems (snd (LQ.pop tid s))
  | None => litems s = [] /\ litems (snd (LQ.pop tid s)) = []
  end.
Proof.
  intros [Hl Hg]. unfold LQ.pop, LQ.inv, LQ.items.
  pose proof (law_pop _ _ _ laws_l _ Hl) as [Hl' Hpl].
  destruct (wl_pop tid (LQ.local s tid)) as [[v|] q]; cbn [fst snd] in *.
  - cbn [LQ.local LQ.global]. rewrite fn_lookup_insert.
    split; [split; assumption|]. now rewrite Hpl.
  - destruct Hpl as [He He']. cbn [LQ.local LQ.global].
    pose proof (law_pop _ _ _ laws_g _ Hg) as [Hg' Hpg].
    destruct (wl_pop tid (LQ.global s)) as [r g]; cbn [fst snd] in *.
    cbn [LQ.local LQ.global]. rewrite fn_lookup_insert.
    split; [split; assumption|]. rewrite He, He'. simpl.
    exact Hpg.
Qed.

Lemma local_queues_lawful :
  Lawful (W := LQ.worklist) tid linv litems.
Proof.
  split.
  - destruct (law_new _ _ _ laws_l) as [Hl He].
    destruct (law_new _ _ _ laws_g) as [Hg He'].
    split; [split; assumption|]. unfold LQ.items. cbn.
    now rewrite He, He'.
  - intros v s [Hl Hg].
    destruct (law_push _ _ _ laws_l v _ Hl) as [Hl' Hp].
    cbn [wl_push LQ.worklist]. unfold LQ.push, LQ.inv, LQ.items.
    cbn [LQ.local LQ.global]. rewrite fn_lookup_insert.
    split; [split; assumption|]. now rewrite Hp.
  - intros s Hs. exact (pop_contract s Hs).
  - intros s Hs. exact (pop_contract s Hs).
Qed.

Hypothesis empty_l : LawfulEmpty tid inv_l items_l.
Hypothesis empty_g : LawfulEmpty tid inv_g items_g.

Lemma empty_contract (s : LQ.t GlobalQueueTy LocalQueueTy) :
  linv s ->
  linv (snd (LQ.empty tid s)) /\
  litems (snd (LQ.empty tid s)) = litems s /\
  (fst (LQ.empty tid s) = true <-> litems s = []).
Proof.
  intros [Hl Hg]. unfold LQ.empty, LQ.inv, LQ.items.
  pose proof (law_empty _ _ _ empty_l _ Hl) as (Hl' & Hil & Hal).
  destruct (wl_empty tid (LQ.local s tid)) as [e q]; cbn [fst snd] in *.
  destruct e; cbn [negb LQ.local LQ.global].
  - pose proof (law_empty _ _ _ empty_g _ Hg) as (Hg' & Hig & Hag).
    destruct (wl_empty tid (LQ.global s)) as [e g]; cbn [fst snd] in *.
    cbn [LQ.local LQ.global]. rewrite fn_lookup_insert.
    split; [split; assumption|]. split; [now rewrite Hil, Hig|].
    rewrite (proj1 Hal eq_refl). simpl. exact Hag.
  - cbn [fst snd LQ.local LQ.global]. rewrite fn_lookup_insert.
    split; [split; assumption|]. split; [now rewrite Hil|].
    split; [discriminate|]. intros He.
    apply app_eq_nil in He as [He _]. apply Hal in He. discriminate He.
Qed.

End Generic.

(** X9: [LocalQueues], here with a [LIFO] per worker and a global [FIFO],
    keeps what a worker pushes to that worker and shares what is handed to
    [aborted]: on any state, the push of worker [a] leaves what another
    worker [b] reaches as it was, while [aborted] adds its item to what
    every worker reaches; a worker whose own queue holds nothing pops the
    oldest item of the global queue. *)
Theorem local_queues_sharing {T : Type} (a b : nat) (v : T)
    (s : LQ.t (FIFO.t T) (LIFO.t T)) :
  a <> b ->
  FIFO.inv (LQ.global s) ->
  let reach := LQ.items LIFO.items FIFO.items in
  reach b (LQ.push a v s) = reach b s /\
  reach b (LQ.aborted a v s) = reach b s ++ [v] /\
  reach a (LQ.aborted a v s) = reach a s ++ [v] /\
  (LIFO.items (LQ.local s b) = [] ->
   fst (LQ.pop b (LQ.aborted a v s)) = head (FIFO.items (LQ.global s) ++ [v])).
Proof.
  intros Hab Hg reach. unfold reach, LQ.items, LQ.push, LQ.aborted.
  cbn [LQ.local LQ.global].
  destruct s as [loc [cs]]. cbn [LQ.local LQ.global] in *.
  unfold FIFO.inv, FIFO.items in *. cbn [FIFO.chunks] in *.
  destruct (FIFOFacts.push_tail_items v cs Hg) as [Hne Hc].
  cbn [wl_push FIFO.worklist]. unfold FIFO.push. cbn [FIFO.chunks].
  rewrite fn_lookup_insert_ne by assumption. rewrite Hc, !app_assoc.
  split; [reflexivity|]. split; [reflexivity|]. split; [reflexivity|].
  intros He. unfold LQ.pop. cbn [LQ.local LQ.global].
  unfold LIFO.items in He.
  cbn [wl_pop LIFO.worklist FIFO.worklist].
  unfold LIFO.pop. rewrite He. cbn [last fst snd LQ.local LQ.global].
  pose proof (FIFOFacts.fifo_pop_spec {| FIFO.chunks := FIFO.push_tail v cs |}
                Hne) as [_ Hp].
  unfold FIFO.items in Hp. cbn [FIFO.chunks] in Hp.
  destruct (FIFO.pop {| FIFO.chunks := FIFO.push_tail v cs |}) as [[w|] g];
    cbn [fst snd] in *.
  - rewrite <- Hc, Hp. reflexivity.
  - destruct Hp as [Hp _]. rewrite <- Hc, Hp. reflexivity.
Qed.

Lemma local_queues_sharing_witness :
  let s := LQ.push 0 5 (LQ.new (GlobalQueueTy := FIFO.t nat)
                          (LocalQueueTy := LIFO.t nat)) in
  fst (LQ.pop 1 (LQ.aborted 0 7 s)) = Some 7 /\
  LQ.items LIFO.items FIFO.items 1 (LQ.push 0 9 s) = [].
Proof.
  intros s.
  assert (Hg : FIFO.inv (LQ.global s)) by (vm_compute; discriminate).
  destruct (local_queues_sharing 0 1 7 s ltac:(lia) Hg) as (_ & _ & _ & Hp).
  destruct (local_queues_sharing 0 1 9 s ltac:(lia) Hg) as (Hq & _).
  split; [exact (Hp eq_refl) | exact Hq].
Defined.

(** X10: [LocalQueues] loses and repeats no item, and its [empty()] is
    exact for the worker that asks: for one worker and any sequence of
    pushes and pops, popping until [pop] fails ends with every pushed item
    popped once; and, on any state, [empty()] answers true exactly when
    neither the worker's own queue nor the global queue holds an item. *)
Theorem local_queues_conserve {T : Type} (tid : nat) (ops : list (Op T))
    (s : LQ.t (FIFO.t T) (LIFO.t T)) :
  conserves (W := LQ.worklist (GlobalQueueTy := FIFO.t T)
                    (LocalQueueTy := LIFO.t T)) tid ops /\
  (FIFO.inv (LQ.global s) ->
   (fst (LQ.empty tid s) = true <->
    LQ.items LIFO.items FIFO.items tid s = []) /\
   LQ.items LIFO.items FIFO.items tid (snd (LQ.empty tid s))
   = LQ.items LIFO.items FIFO.items tid s).
Proof.
  split.
  - exact (SequentialFacts.conservation tid _ _
             (local_queues_lawful tid _ _ _ _ (LIFOFacts.lifo_lawful tid)
                (FIFOFacts.fifo_lawful tid)) ops).
  - intros Hg.
    destruct (empty_contract tid _ _ _ _
                (EmptyFacts.lifo_empty_law tid) (EmptyFacts.fifo_empty_law tid)
                s (conj I Hg)) as (_ & Hi & Ha).
    split; assumption.
Qed.

Lemma local_queues_conserve_witness :
  let s := LQ.aborted 0 7 (LQ.new (GlobalQueueTy := FIFO.t nat)
                             (LocalQueueTy := LIFO.t nat)) in
  fst (LQ.empty 1 s) <> true.
Proof.
  intros s.
  assert (Hg : FIFO.inv (LQ.global s)) by (vm_compute; discriminate).
  destruct (proj2 (local_queues_conserve 1 [] s) Hg) as [He _].
  intros Ht. pose proof (proj1 He Ht) as Hn. vm_compute in Hn.
  discriminate Hn.
Defined.

End LocalQueuesFacts.

(** ** The bins of the logarithmic worklist *)

Module LogOrderByIntegerMetricFacts.
Import WorkList.
Module L := LogOrderByIntegerMetric.
Local Open Scope Z_scope.

Lemma clz_from_log2 (n : nat) : forall i,
  0 < i < 2 ^ Z.of_nat n ->
  L.clz_from n i = Z.of_nat n - 1 - Z.log2 i.
Proof.
  induction n as [|n IH]; intros i Hi.
  - simpl in Hi. lia.
  - rewrite Nat2Z.inj_succ, Z.pow_succ_r in Hi by lia.
    cbn [L.clz_from].
    destruct (Z.testbit i (Z.of_nat n)) eqn:Hb.
    + apply Z.testbit_true in Hb; [|lia].
      assert (Hge : 2 ^ Z.of_nat n <= i).
      { destruct (Z_lt_le_dec i (2 ^ Z.of_nat n)) as [Hlt|]; [|assumption].
        rewrite Z.div_small in Hb by lia. discriminate Hb. }
      rewrite (Z.log2_unique i (Z.of_nat n)); [lia | lia|].
      rewrite Z.pow_succ_r by lia. lia.
    + assert (Hlt : i < 2 ^ Z.of_nat n).
      { destruct (Z_lt_le_dec i (2 ^ Z.of_nat n)) as [|Hge]; [assumption|].
        assert (Hd : i / 2 ^ Z.of_nat n = 1).
        { symmetry. apply Z.div_unique with (i - 2 ^ Z.of_nat n); lia. }
        assert (Ht : Z.testbit i (Z.of_nat n) = true).
        { apply Z.testbit_true; [lia|]. now rewrite Hd. }
        congruence. }
      rewrite IH by lia. lia.
Qed.

Lemma getBin_log2 i : 0 < i < 2 ^ 32 -> L.getBin i = Z.log2 i + 1.
Proof.
  intros Hi. unfold L.getBin, L.builtin_clz.
  destruct (Z.eqb_spec i 0); [lia|].
  rewrite (clz_from_log2 32 i) by exact Hi. lia.
Qed.

(** X11: [getBin] is the bit length of the index: 0 goes to bin 0 and an
    index [i > 0] to the bin [b] with [2^(b-1) <= i < 2^b].  So every
    32-bit index has a bin inside the array of [num() = 33] buckets, and a
    smaller index never has a higher bin. *)
Theorem log_bins (i j : Z) :
  0 <= i <= j -> j < 2 ^ 32 ->
  0 <= L.getBin i <= L.getBin j /\ L.getBin j < L.num /\
  (L.getBin i = 0 <-> i = 0) /\
  (0 < i -> 2 ^ (L.getBin i - 1) <= i < 2 ^ L.getBin i).
Proof.
  intros Hij Hj.
  assert (Hbin : forall k, 0 <= k < 2 ^ 32 ->
            (k = 0 /\ L.getBin k = 0) \/
            (0 < k /\ L.getBin k = Z.log2 k + 1 /\ 0 <= Z.log2 k < 32)).
  { intros k Hk. destruct (Z.eq_dec k 0) as [->|Hne].
    - left. split; reflexivity.
    - right. split; [lia|]. split; [apply getBin_log2; lia|].
      split; [apply Z.log2_nonneg|]. apply Z.log2_lt_pow2; lia. }
  destruct (Hbin i ltac:(lia)) as [[-> Hi0] | (Hi & Hbi & Hli)];
    destruct (Hbin j ltac:(lia)) as [[-> Hj0] | (Hj' & Hbj & Hlj)];
    try lia.
  - rewrite Hi0. repeat split; try reflexivity; unfold L.num; lia.
  - rewrite Hi0, Hbj. unfold L.num. repeat split; try lia.
  - pose proof (Z.log2_le_mono i j ltac:(lia)) as Hmono.
    rewrite Hbi, Hbj. unfold L.num.
    split; [lia|]. split; [lia|]. split; [lia|]. intros _.
    replace (Z.log2 i + 1 - 1) with (Z.log2 i) by lia.
    pose proof (Z.log2_spec i Hi) as Hs.
    replace (Z.succ (Z.log2 i)) with (Z.log2 i + 1) in Hs by lia.
    exact Hs.
Qed.

Lemma log_bins_witness :
  L.getBin 1000 = 10 /\ L.getBin (2 ^ 32 - 1) < L.num.
Proof.
  pose proof (log_bins 1000 (2 ^ 32 - 1) ltac:(lia) ltac:(lia))
    as (_ & Hn & _ & Hp).
  split; [reflexivity | exact Hn].
Defined.

End LogOrderByIntegerMetricFacts.

(** ** The page allocator *)

Module PageAllocFacts.
Import PageAlloc.
Local Open Scope Z_scope.

(** Clearing the low [k] bits of a [size_t]. *)
Lemma land_page_mask (k x : Z) :
  0 <= k < 64 -> 0 <= x < 2 ^ 64 ->
  Z.land x (wrap_size_t (Z.lnot (wrap_size_t (2 ^ k - 1))))
  = 2 ^ k * (x / 2 ^ k).
Proof.
  intros Hk Hx. unfold wrap_size_t.
  assert (Hp : 0 < 2 ^ k) by (apply Z.pow_pos_nonneg; lia).
  assert (Hle : 2 ^ k <= 2 ^ 63) by (apply Z.pow_le_mono_r; lia).
  rewrite (Z.mod_small (2 ^ k - 1)) by lia.
  replace (2 ^ k - 1) with (Z.ones k) by (rewrite Z.ones_equiv; lia).
  rewrite <- (Z.land_ones _ 64) by lia.
  rewrite Z.land_assoc, <- Z.ldiff_land.
  rewrite Z.ldiff_ones_r by lia.
  rewrite Z.land_ones, Z.shiftr_div_pow2, Z.shiftl_mul_pow2 by lia.
  rewrite Z.mod_small; [lia|].
  pose proof (Z.mul_div_le x (2 ^ k) Hp).
  pose proof (Z.div_pos x (2 ^ k) ltac:(lia) Hp). nia.
Qed.

(** X12: the size that [largeAlloc] maps and [largeFree] unmaps is the
    length rounded up to a whole number of pages, for a page size that is a
    power of two: a multiple of the page size, at least the length and
    less than a page more; 0 for length 0.  A length within a page of
    2^64 wraps and gets size 0. *)
Theorem large_size_rounds_up (k len : Z) :
  0 <= k < 64 -> 0 <= len < 2 ^ 64 ->
  let pageSize := 2 ^ k in
  (len + pageSize - 1 < 2 ^ 64 ->
   rounded_size pageSize len mod pageSize = 0 /\
   len <= rounded_size pageSize len < len + pageSize) /\
  (2 ^ 64 - pageSize < len -> rounded_size pageSize len = 0).
Proof.
  intros Hk Hlen pageSize.
  assert (Hp : 0 < pageSize) by (apply Z.pow_pos_nonneg; lia).
  assert (Hle : pageSize <= 2 ^ 63) by (apply Z.pow_le_mono_r; lia).
  unfold rounded_size. split.
  - intros Hfit.
    assert (Hw : wrap_size_t (len + pageSize - 1) = len + pageSize - 1)
      by (apply Z.mod_small; lia).
    rewrite Hw. unfold pageSize.
    rewrite land_page_mask by (fold pageSize; lia). fold pageSize.
    pose proof (Z.div_mod (len + pageSize - 1) pageSize ltac:(lia)) as Hd.
    pose proof (Z.mod_pos_bound (len + pageSize - 1) pageSize Hp) as Hm.
    split; [|lia].
    rewrite Z.mul_comm. apply Z.mod_mul. lia.
  - intros Hbig.
    assert (Hw : wrap_size_t (len + pageSize - 1) = len + pageSize - 1 - 2 ^ 64).
    { unfold wrap_size_t. symmetry.
      apply Z.mod_unique with 1; lia. }
    rewrite Hw. unfold pageSize.
    rewrite land_page_mask by (fold pageSize; lia). fold pageSize.
    rewrite Z.div_small by lia. lia.
Qed.

Lemma large_size_rounds_up_witness :
  rounded_size (2 ^ 21) 1 = 2 ^ 21 /\ rounded_size (2 ^ 21) (2 ^ 64 - 1) = 0.
Proof.
  pose proof (large_size_rounds_up 21 1 ltac:(lia) ltac:(lia)) as [H1 _].
  pose proof (large_size_rounds_up 21 (2 ^ 64 - 1) ltac:(lia) ltac:(lia))
    as [_ H2].
  split; [reflexivity | exact (H2 ltac:(lia))].
Defined.

Lemma allocFromOS_inv tid s m s' :
  inv s -> allocFromOS tid s = Some (m, s') ->
  inv s' /\ handed_out m s' /\ (m ∉ os s') /\ ownerMap s' !! m = Some tid.
Proof.
  intros (Hl & Ho & Hnd & Hos & Hnum) Ha. unfold allocFromOS in Ha.
  destruct (os s) as [|ptr rest] eqn:Eos; [discriminate|].
  set (hs := match heads s !! tid with
             | None => <[ tid := [] ]> (heads s)
             | Some _ => heads s
             end) in Ha.
  injection Ha as -> <-.
  apply NoDup_cons in Hnd as [Hnin Hnd].
  assert (Hnone : ownerMap s !! m = None) by (apply Hos, list_elem_of_here).
  assert (Hheads : forall t l, hs !! t = Some l ->
            heads s !! t = Some l \/ l = []).
  { intros t l Ht. subst hs. destruct (heads s !! tid) eqn:Eh; [now left|].
    destruct (decide (t = tid)) as [->|Hne].
    - rewrite lookup_insert_eq in Ht. right. congruence.
    - rewrite lookup_insert_ne in Ht by congruence. now left. }
  assert (Hkeep : forall t, is_Some (heads s !! t) -> is_Some (hs !! t)).
  { intros t Ht. subst hs. destruct (heads s !! tid) eqn:Eh; [assumption|].
    destruct (decide (t = tid)) as [->|Hne].
    - rewrite lookup_insert_eq. eauto.
    - rewrite lookup_insert_ne by congruence. assumption. }
  assert (Hown : is_Some (hs !! tid)).
  { subst hs. destruct (heads s !! tid) eqn:Eh.
    - rewrite Eh. eauto.
    - rewrite lookup_insert_eq. eauto. }
  unfold inv, handed_out. cbn [heads num ownerMap os].
  split; [split; [|split; [|split; [|split]]]|split; [|split]].
  - intros t l Ht. destruct (Hheads t l Ht) as [Hold | ->].
    + destruct (Hl t l Hold) as [Hn Hp]. split; [assumption|].
      intros p Hin. rewrite lookup_insert_ne; [now apply Hp|].
      intros <-. rewrite (Hp m Hin) in Hnone. discriminate.
    + split; [apply NoDup_nil_2|]. intros p Hin.
      now apply elem_of_nil in Hin.
  - intros p t Hp. destruct (decide (p = m)) as [->|Hne].
    + rewrite lookup_insert_eq in Hp. injection Hp as <-. assumption.
    + rewrite lookup_insert_ne in Hp by congruence. eapply Hkeep, Ho, Hp.
  - assumption.
  - intros p Hin. rewrite lookup_insert_ne.
    + apply Hos. now apply list_elem_of_further.
    + intros <-. contradiction.
  - apply Z.mod_pos_bound. lia.
  - intros t l Ht Hin. destruct (Hheads t l Ht) as [Hold | ->].
    + destruct (Hl t l Hold) as [_ Hp]. rewrite (Hp m Hin) in Hnone.
      discriminate.
    + now apply elem_of_nil in Hin.
  - assumption.
  - apply lookup_insert_eq.
Qed.

Lemma pageAlloc_inv a s m s' :
  inv s -> pageAlloc a s = Some (m, s') ->
  inv s' /\ handed_out m s' /\ (m ∉ os s') /\ ownerMap s' !! m = Some a.
Proof.
  intros Hinv Ha. unfold pageAlloc in Ha.
  destruct (heads s !! a) as [[|h rest]|] eqn:Eh;
    try (now apply allocFromOS_inv with s).
  destruct Hinv as (Hl & Ho & Hnd & Hos & Hnum).
  injection Ha as -> <-.
  destruct (Hl a _ Eh) as [Hn Hp].
  apply NoDup_cons in Hn as [Hnin Hn].
  assert (Hm : ownerMap s !! m = Some a) by apply Hp, list_elem_of_here.
  unfold inv, handed_out. cbn [heads num ownerMap os].
  split; [split; [|split; [|split; [|split]]]|split; [|split]];
    try assumption.
  - intros t l Ht. destruct (decide (t = a)) as [->|Hne].
    + rewrite lookup_insert_eq in Ht. injection Ht as <-.
      split; [assumption|]. intros p Hin.
      now apply Hp, list_elem_of_further.
    + rewrite lookup_insert_ne in Ht by congruence. now apply Hl.
  - intros p t Hpt. apply lookup_insert_is_Some.
    destruct (decide (a = t)) as [->|Hne]; [now left|].
    right. split; [assumption|]. eapply Ho, Hpt.
  - intros t l Ht Hin. destruct (decide (t = a)) as [->|Hne].
    + rewrite lookup_insert_eq in Ht. injection Ht as <-. contradiction.
    + rewrite lookup_insert_ne in Ht by congruence.
      destruct (Hl t l Ht) as [_ Hp']. rewrite (Hp' m Hin) in Hm. congruence.
  - intros Hin. rewrite (Hos m Hin) in Hm. discriminate.
Qed.

Lemma pageFree_inv m a s :
  inv s -> handed_out m s -> ownerMap s !! m = Some a ->
  exists l s', heads s !! a = Some l /\ pageFree m s = Some s' /\
    heads s' = <[ a := m :: l ]> (heads s) /\ num s' = num s /\
    ownerMap s' = ownerMap s /\ os s' = os s /\ inv s'.
Proof.
  intros (Hl & Ho & Hnd & Hos & Hnum) Hout Hm.
  destruct (Ho m a Hm) as [l El]. exists l. eexists.
  split; [exact El|]. unfold pageFree. rewrite Hm, El. cbn [default].
  split; [reflexivity|]. cbn [heads num ownerMap os].
  split; [reflexivity|]. split; [reflexivity|]. split; [reflexivity|].
  split; [reflexivity|].
  unfold inv. cbn [heads num ownerMap os].
  split; [|split; [|split; [|split]]]; try assumption.
  - intros t l' Ht. destruct (decide (t = a)) as [->|Hne].
    + rewrite lookup_insert_eq in Ht. injection Ht as <-.
      destruct (Hl a l El) as [Hn Hp]. split.
      * apply NoDup_cons. split; [now apply (Hout a)|assumption].
      * intros p Hin. apply elem_of_cons in Hin as [->|Hin];
          [assumption|now apply Hp].
    + rewrite lookup_insert_ne in Ht by congruence. now apply Hl.
  - intros p t Hpt. apply lookup_insert_is_Some.
    destruct (decide (a = t)) as [->|Hne]; [now left|].
    right. split; [assumption|]. eapply Ho, Hpt.
Qed.

Lemma init_inv pages : NoDup pages -> inv (init pages).
Proof.
  intros Hn. unfold inv, init. cbn [heads num ownerMap os].
  split; [|split; [|split; [|split]]].
  - intros t l Ht. now rewrite lookup_empty in Ht.
  - intros p t Ht. now rewrite lookup_empty in Ht.
  - assumption.
  - intros p _. apply lookup_empty.
  - lia.
Qed.

(** X13: freeing a page gives it back to the thread that first got it from
    the system, whoever frees it, and that thread's next [pageAlloc] hands
    out this very page without a system call: the two calls together leave
    the allocator exactly as it was.  The page is one that is in use (it
    has an owner and is on no free list). *)
Theorem free_then_alloc_round_trip (m : Z) (a : nat) (s : t) :
  inv s -> handed_out m s -> ownerMap s !! m = Some a ->
  exists s', pageFree m s = Some s' /\ inv s' /\
    pageAlloc a s' = Some (m, s).
Proof.
  intros Hinv Hout Hm.
  destruct (pageFree_inv m a s Hinv Hout Hm)
    as (l & s' & El & Hf & Hh & Hn & Hom & Hos & Hinv').
  exists s'. split; [assumption|]. split; [assumption|].
  unfold pageAlloc. rewrite Hh, lookup_insert_eq, insert_insert_eq.
  rewrite (insert_id _ _ _ El), Hn, Hom, Hos. now destruct s.
Qed.

Lemma free_then_alloc_round_trip_witness :
  exists s1 s',
    pageAlloc 0%nat (init [4096]) = Some (4096, s1) /\
    pageFree 4096 s1 = Some s' /\ pageAlloc 0%nat s' = Some (4096, s1).
Proof.
  assert (Hn : NoDup [4096]) by apply NoDup_singleton.
  destruct (pageAlloc 0%nat (init [4096])) as [[m s1]|] eqn:H1;
    [|vm_compute in H1; discriminate H1].
  assert (Hm : m = 4096) by (vm_compute in H1; congruence).
  subst m.
  destruct (pageAlloc_inv _ _ _ _ (init_inv _ Hn) H1) as (Hi & Ho & _ & Hm).
  destruct (free_then_alloc_round_trip 4096 0%nat s1 Hi Ho Hm)
    as (s' & Hf & _ & Ha).
  exists s1, s'. split; [reflexivity|]. split; assumption.
Defined.

(** X14: no page is handed out twice: two allocations in a row, by the
    same thread or by two threads, return different pages, and after them
    neither page is on a free list or still with the system. *)
Theorem no_page_handed_out_twice (a b : nat) (m1 m2 : Z) (s s1 s2 : t) :
  inv s ->
  pageAlloc a s = Some (m1, s1) -> pageAlloc b s1 = Some (m2, s2) ->
  m1 <> m2 /\ inv s2 /\
  handed_out m1 s2 /\ handed_out m2 s2 /\ (m1 ∉ os s2) /\ (m2 ∉ os s2).
Proof.
  intros Hinv H1 H2.
  destruct (pageAlloc_inv _ _ _ _ Hinv H1) as (Hi1 & Ho1 & Hn1 & Hm1).
  destruct (pageAlloc_inv _ _ _ _ Hi1 H2) as (Hi2 & Ho2 & Hn2 & Hm2).
  unfold pageAlloc in H2.
  assert (Hos : forall x rest, os s1 = x :: rest -> m1 <> x /\ m1 ∉ rest).
  { intros x rest E. rewrite E in Hn1.
    apply not_elem_of_cons in Hn1. exact Hn1. }
  assert (Hfrom_os : allocFromOS b s1 = Some (m2, s2) ->
            m1 <> m2 /\ handed_out m1 s2 /\ m1 ∉ os s2).
  { unfold allocFromOS. intros H.
    destruct (os s1) as [|x rest] eqn:E; [discriminate|].
    destruct (Hos x rest eq_refl) as [Hne Hnin].
    injection H as -> <-. cbn [os].
    split; [assumption|]. split; [|assumption].
    intros t l Ht. cbn [heads] in Ht.
    destruct (heads s1 !! b) eqn:Eb; [now apply (Ho1 t)|].
    destruct (decide (t = b)) as [->|Hneq].
    - rewrite lookup_insert_eq in Ht. injection Ht as <-.
      apply not_elem_of_nil.
    - rewrite lookup_insert_ne in Ht by congruence. now apply (Ho1 t). }
  destruct (heads s1 !! b) as [[|h rest]|] eqn:Eh.
  - destruct (Hfrom_os H2) as (? & ? & ?). tauto.
  - injection H2 as -> <-. cbn [os] in *.
    assert (Hne : m1 <> m2).
    { intros <-. apply (Ho1 b _ Eh), list_elem_of_here. }
    split; [assumption|]. split; [assumption|].
    split; [|tauto].
    intros t l Ht. cbn [heads] in Ht.
    destruct (decide (t = b)) as [->|Hneq].
    + rewrite lookup_insert_eq in Ht. injection Ht as <-.
      intros Hin. apply (Ho1 b _ Eh). now apply list_elem_of_further.
    + rewrite lookup_insert_ne in Ht by congruence. now apply (Ho1 t).
  - destruct (Hfrom_os H2) as (? & ? & ?). tauto.
Qed.

Lemma no_page_handed_out_twice_witness :
  exists m1 s1 m2 s2,
    pageAlloc 0%nat (init [4096; 8192]) = Some (m1, s1) /\
    pageAlloc 1%nat s1 = Some (m2, s2) /\ m1 <> m2 /\ inv s2.
Proof.
  assert (Hn : NoDup [4096; 8192]).
  { apply NoDup_cons. split; [|apply NoDup_singleton].
    intros Hin. apply list_elem_of_singleton in Hin. discriminate Hin. }
  destruct (pageAlloc 0%nat (init [4096; 8192])) as [[m1 s1]|] eqn:H1;
    [|vm_compute in H1; discriminate H1].
  destruct (pageAlloc 1%nat s1) as [[m2 s2]|] eqn:H2.
  - destruct (no_page_handed_out_twice 0%nat 1%nat m1 m2 _ s1 s2
                (init_inv _ Hn) H1 H2) as (Hne & Hi & _).
    exists m1, s1, m2, s2.
    split; [reflexivity|]. split; [assumption|]. split; assumption.
  - vm_compute in H1. injection H1 as _ <-. vm_compute in H2.
    discriminate H2.
Defined.

Lemma wrap_unsigned_succ (x k : Z) :
  MachineInt.wrap_unsigned (MachineInt.wrap_unsigned (x + 1) + k)
  = MachineInt.wrap_unsigned (x + (1 + k)).
Proof.
  unfold MachineInt.wrap_unsigned.
  rewrite Z.add_mod_idemp_l by lia. f_equal. lia.
Qed.

(** One turn of the loop of [pagePreAlloc]. *)
Lemma prealloc_step tid s p rest :
  inv s -> os s = p :: rest ->
  exists s1 s2, allocFromOS tid s = Some (p, s1) /\
    pageFree p s1 = Some s2 /\
    heads s2 = <[ tid := p :: default [] (heads s !! tid) ]> (heads s) /\
    num s2 = MachineInt.wrap_unsigned (num s + 1) /\
    os s2 = rest /\ inv s2.
Proof.
  intros Hinv Hos.
  destruct (allocFromOS tid s) as [[m s1]|] eqn:Ha;
    [|unfold allocFromOS in Ha; rewrite Hos in Ha; discriminate Ha].
  destruct (allocFromOS_inv _ _ _ _ Hinv Ha) as (Hi1 & Ho1 & _ & Hm1).
  destruct (pageFree_inv m tid s1 Hi1 Ho1 Hm1)
    as (l & s2 & El & Hf & Hh & Hn & _ & Hos2 & Hi2).
  unfold allocFromOS in Ha. rewrite Hos in Ha. injection Ha as <- <-.
  cbn [heads num os] in *.
  exists ({| heads := match heads s !! tid with
                      | None => <[ tid := [] ]> (heads s)
                      | Some _ => heads s
                      end;
             num := MachineInt.wrap_unsigned (num s + 1);
             ownerMap := <[ p := tid ]> (ownerMap s);
             os := rest |}), s2.
  split; [reflexivity|]. split; [assumption|].
  split; [|split; [assumption|split; assumption]].
  rewrite Hh. destruct (heads s !! tid) as [l0|] eqn:E0.
  - rewrite E0 in El. injection El as <-. reflexivity.
  - rewrite lookup_insert_eq in El. injection El as <-.
    apply insert_insert_eq.
Qed.

(** X15: [pagePreAlloc(n)] takes the next [n] pages of the system and puts
    them on the calling thread's free list, the last one taken in front,
    and counts them ([num] is [unsigned] and wraps); the other threads'
    lists stay as they are.  When the system has fewer than [n] pages left
    the call dies. *)
Theorem prealloc_fills_free_list (tid : nat) (s : t) :
  inv s ->
  (forall ps rest, os s = ps ++ rest ->
     exists s', pagePreAlloc tid (length ps) s = Some s' /\
       default [] (heads s' !! tid)
       = rev ps ++ default [] (heads s !! tid) /\
       (forall t, t <> tid -> heads s' !! t = heads s !! t) /\
       pageAllocInfo s'
       = MachineInt.wrap_unsigned (pageAllocInfo s + Z.of_nat (length ps)) /\
       os s' = rest /\ inv s') /\
  (forall n, (length (os s) < n)%nat -> pagePreAlloc tid n s = None).
Proof.
  intros Hinv. split.
  - intros ps. revert s Hinv.
    induction ps as [|p ps IH]; intros s Hinv rest Hos.
    + exists s. cbn [pagePreAlloc length rev app].
      split; [reflexivity|]. split; [reflexivity|].
      split; [reflexivity|]. split; [|split; assumption].
      unfold pageAllocInfo, MachineInt.wrap_unsigned.
      destruct Hinv as (_ & _ & _ & _ & Hnum).
      rewrite Z.add_0_r, Z.mod_small; [reflexivity | exact Hnum].
    + destruct (prealloc_step tid s p (ps ++ rest) Hinv Hos)
        as (s1 & s2 & Ha & Hf & Hh & Hn & Hos2 & Hi2).
      destruct (IH s2 Hi2 rest Hos2) as (s' & Hp & Hl & Hoth & Hnum & Hr & Hi).
      exists s'. cbn [pagePreAlloc length]. rewrite Ha, Hf.
      split; [assumption|]. split; [|split; [|split; [|split; assumption]]].
      * rewrite Hl, Hh, lookup_insert_eq. cbn [default rev].
        now rewrite <- app_assoc.
      * intros t Hne. rewrite (Hoth t Hne), Hh.
        apply lookup_insert_ne. congruence.
      * rewrite Hnum. unfold pageAllocInfo. rewrite Hn, wrap_unsigned_succ.
        f_equal. lia.
  - intros n. revert s Hinv. induction n as [|n IH]; intros s Hinv Hlen;
      [lia|].
    cbn [pagePreAlloc]. destruct (os s) as [|p r] eqn:Eos.
    + unfold allocFromOS. now rewrite Eos.
    + destruct (prealloc_step tid s p r Hinv Eos)
        as (s1 & s2 & Ha & Hf & _ & _ & Hos2 & Hi2).
      rewrite Ha, Hf. apply IH; [assumption|].
      rewrite Hos2. cbn [length] in Hlen. lia.
Qed.

Lemma prealloc_fills_free_list_witness :
  exists s', pagePreAlloc 0%nat 2 (init [4096; 8192; 12288]) = Some s' /\
    heads s' !! 0%nat = Some [8192; 4096] /\ pageAllocInfo s' = 2 /\
    os s' = [12288] /\
    pagePreAlloc 0%nat 2 s' = None.
Proof.
  assert (Hn : NoDup [4096; 8192; 12288])
    by (apply (bool_decide_unpack _); vm_compute; exact I).
  destruct (prealloc_fills_free_list 0%nat _ (init_inv _ Hn)) as [Hfill _].
  destruct (Hfill [4096; 8192] [12288] eq_refl)
    as (s' & Hp & _ & _ & _ & Hos & Hinv).
  destruct (prealloc_fills_free_list 0%nat s' Hinv) as [_ Hdie].
  exists s'. split; [exact Hp|].
  split; [vm_compute in Hp; injection Hp as <-; reflexivity|].
  split; [vm_compute in Hp; injection Hp as <-; reflexivity|].
  split; [exact Hos|]. apply Hdie. rewrite Hos. cbn [length]. lia.
Defined.

End PageAllocFacts.

(** ** The subgraph isomorphism application *)

Module SubgraphIsomorphismFacts.
Import SubgraphIsomorphism.
Local Open Scope Z_scope.

Lemma existsb_false {A} (f : A -> bool) (l : list A) :
  existsb f l = false <-> forall x, In x l -> f x = false.
Proof.
  induction l as [|a l IH]; cbn [existsb In].
  - split; [intros _ x []|reflexivity].
  - rewrite orb_false_iff, IH. split.
    + intros [Ha Hl] x [<-|Hx]; [assumption|now apply Hl].
    + intros H. split; [apply H; now left|]. intros x Hx. apply H. now right.
Qed.

Lemma fresh_in_take {A} (l : list A) (k : nat) (x : A) :
  NoDup l -> l !! k = Some x -> ~ In x (take k l).
Proof.
  intros Hn Hk Hin. rewrite <- (take_drop_middle l k x Hk) in Hn.
  apply NoDup_app in Hn as (_ & Hdis & _).
  apply (Hdis x); [now apply list_elem_of_In|]. apply list_elem_of_here.
Qed.

Section Ullmann.
Context {QGNode DGNode : Type}.
Context {QGNode_eq : EqDecision QGNode} {DGNode_eq : EqDecision DGNode}.
Variable gD : Graph DGNode.
Variable gQ : Graph QGNode.
Variable undirected : bool.
Variable kFound : Z.

Local Abbreviation Pair := (NodeMatch QGNode DGNode).
Local Abbreviation State := (@SearchState QGNode DGNode).
Local Abbreviation verify := (verifyMatching gD gQ).
Local Abbreviation joinable := (isJoinable gD gQ undirected).
Local Abbreviation search := (doSearch gD gQ undirected kFound).

Lemma verifyMatching_spec (m : list Pair) :
  verify m = true <->
  forall nm1, In nm1 m ->
    label gQ (nQ nm1) = label gD (nD nm1) /\
    forall nm2, In nm2 m ->
      (nQ nm1 = nQ nm2 <-> nD nm1 = nD nm2) /\
      (has_edge gQ (nQ nm1) (nQ nm2) = true ->
       has_edge gD (nD nm1) (nD nm2) = true).
Proof.
  unfold verifyMatching. rewrite negb_true_iff, existsb_false.
  apply forall_proper. intros nm1.
  split; intros H Hin; specialize (H Hin).
  - apply orb_false_iff in H as [Hl Hp].
    apply negb_false_iff, Z.eqb_eq in Hl. split; [assumption|].
    intros nm2 Hin2. pose proof (proj1 (existsb_false _ _) Hp nm2 Hin2) as Hc.
    cbv beta in Hc. repeat case_bool_decide;
      destruct (has_edge gQ (nQ nm1) (nQ nm2)),
               (has_edge gD (nD nm1) (nD nm2));
      cbn in Hc; try discriminate Hc; tauto.
  - destruct H as [Hl Hp]. apply orb_false_iff. split.
    + now apply negb_false_iff, Z.eqb_eq.
    + apply existsb_false. intros nm2 Hin2.
      destruct (Hp nm2 Hin2) as [Hiff He].
      repeat case_bool_decide;
        destruct (has_edge gQ (nQ nm1) (nQ nm2)),
                 (has_edge gD (nD nm1) (nD nm2));
        cbn; try reflexivity; try tauto; discriminate (He eq_refl).
Qed.

Lemma isJoinable_spec d q (m : list Pair) :
  joinable d q m = true ->
  forall nm, In nm m ->
    d <> nD nm /\
    (has_edge gQ q (nQ nm) = true -> has_edge gD d (nD nm) = true) /\
    (undirected = false ->
     has_edge gQ (nQ nm) q = true -> has_edge gD (nD nm) d = true).
Proof.
  induction m as [|a m IH]; intros Hj nm Hin; [destruct Hin|].
  cbn [isJoinable] in Hj.
  case_bool_decide as Hd; [discriminate Hj|].
  destruct (has_edge gQ q (nQ a) && negb (has_edge gD d (nD a))) eqn:E1;
    [discriminate Hj|].
  destruct (negb undirected
            && (has_edge gQ (nQ a) q && negb (has_edge gD (nD a) d))) eqn:E2;
    [discriminate Hj|].
  destruct Hin as [<-|Hin]; [|now apply IH].
  split; [assumption|]. split.
  - intros He. rewrite He in E1. now destruct (has_edge gD d (nD a)).
  - intros Hu He. rewrite Hu, He in E2. now destruct (has_edge gD (nD a) d).
Qed.

Lemma candidate_spec q d :
  In d (candidate gD gQ q) ->
  label gQ q = label gD d /\
  (has_edge gQ q q = true -> has_edge gD d d = true).
Proof.
  unfold candidate. rewrite filter_In. intros [_ H].
  destruct (label gQ q =? label gD d) eqn:El; [|discriminate H].
  apply Z.eqb_eq in El. split; [assumption|]. intros He.
  rewrite He in H. now destruct (has_edge gD d d).
Qed.

Lemma refineCandidates_candidate q r :
  In r (refineCandidates gD gQ q) -> In r (candidate gD gQ q).
Proof. unfold refineCandidates. rewrite filter_In. now intros [H _]. Qed.

(** What [doSearch] maintains: for a property [R] of matchings that
    survives the addition of a joinable candidate of the next query node,
    any property [P] of the shared state that survives the report of an
    [R]-matching of as many pairs as there are query nodes, made while fewer
    than [kFound] are found. *)
Section Invariant.
Variable R : list Pair -> Prop.
Variable P : State -> Prop.
Hypothesis R_extend : forall (m : list Pair) q r,
  R m -> nodes gQ !! length m = Some q ->
  In r (candidate gD gQ q) -> joinable r q m = true ->
  R (m ++ [{| nQ := q; nD := r |}]).
Hypothesis P_report : forall st (m : list Pair),
  P st -> currentlyFound st < kFound ->
  R m -> length m = length (nodes gQ) ->
  P {| report := report st ++ [m];
       currentlyFound := MachineInt.wrap_unsigned (currentlyFound st + 1) |}.

Lemma doSearch_invariant fuel : forall (m : list Pair) st st',
  R m -> P st -> search fuel m st = Some st' -> P st'.
Proof.
  induction fuel as [|fuel IH]; intros m st st' Hm HP Hs; [discriminate Hs|].
  cbn [doSearch] in Hs.
  destruct (kFound <=? currentlyFound st) eqn:Hk; [now injection Hs as <-|].
  apply Z.leb_gt in Hk.
  destruct (length m =? length (nodes gQ))%nat eqn:Hlen.
  - injection Hs as <-. apply Nat.eqb_eq in Hlen. now apply P_report.
  - unfold nextQueryNode in Hs.
    destruct (nodes gQ !! length m) as [q|] eqn:Hq; [|discriminate Hs].
    assert (Hsub : forall r, In r (refineCandidates gD gQ q) ->
              In r (candidate gD gQ q))
      by apply refineCandidates_candidate.
    revert st HP Hk Hs Hsub.
    induction (refineCandidates gD gQ q) as [|r rs IHrs];
      intros st HP Hk Hs Hsub; cbn [search_refined] in Hs.
    + now injection Hs as <-.
    + destruct (joinable r q m) eqn:Hj; cbn [negb] in Hs.
      * destruct (search fuel (m ++ [{| nQ := q; nD := r |}]) st)
          as [st1|] eqn:Hrec; [|discriminate Hs].
        assert (HP1 : P st1).
        { apply (IH _ _ _ (R_extend m q r Hm Hq
                             (Hsub r (or_introl eq_refl)) Hj) HP Hrec). }
        destruct (kFound <=? currentlyFound st1) eqn:Hk1;
          [now injection Hs as <-|].
        apply Z.leb_gt in Hk1.
        apply (IHrs st1 HP1 Hk1 Hs). intros r' Hr'. apply Hsub. now right.
      * apply (IHrs st HP Hk Hs). intros r' Hr'. apply Hsub. now right.
Qed.

Lemma for_each_invariant fuel : forall (works : list Pair) st st',
  (forall seed, In seed works -> R [seed]) ->
  P st -> for_each gD gQ undirected kFound fuel works st = Some st' -> P st'.
Proof.
  induction works as [|seed works IHw]; intros st st' Hseeds HP Hs;
    cbn [for_each] in Hs.
  - now injection Hs as <-.
  - unfold search_from in Hs.
    destruct (search fuel [seed] st) as [st1|] eqn:Hrec; [|discriminate Hs].
    assert (HP1 : P st1).
    { apply (doSearch_invariant fuel _ _ _
               (Hseeds seed (or_introl eq_refl)) HP Hrec). }
    destruct (kFound <=? currentlyFound st1); [now injection Hs as <-|].
    apply (IHw st1 st'); try assumption.
    intros seed' Hin. apply Hseeds. now right.
Qed.

Lemma subgraphSearch_invariant fuel st st' :
  R [] -> P st ->
  subgraphSearch gD gQ undirected kFound fuel st = Some st' -> P st'.
Proof.
  intros HR HP Hs.
  pose proof (for_each_invariant fuel) as Hfe.
  pose proof (R_extend []) as Hseed.
  unfold subgraphSearch in Hs.
  destruct (nodes gQ) as [|q rest] eqn:Hn; [discriminate Hs|].
  apply (Hfe _ _ _) with (3 := Hs); [|assumption].
  intros seed Hin. apply in_map_iff in Hin as (c & <- & Hc).
  now apply (Hseed q c).
Qed.

End Invariant.

(** The search returns: the recursion is as deep as there are query nodes
    left. *)
Lemma doSearch_total fuel : forall (m : list Pair) st,
  (length (nodes gQ) < length m + fuel)%nat ->
  (length m <= length (nodes gQ))%nat ->
  is_Some (search fuel m st).
Proof.
  induction fuel as [|fuel IH]; intros m st Hf Hm; [lia|].
  cbn [doSearch].
  destruct (kFound <=? currentlyFound st); [eauto|].
  destruct (length m =? length (nodes gQ))%nat eqn:Hlen; [eauto|].
  apply Nat.eqb_neq in Hlen. unfold nextQueryNode.
  destruct (lookup_lt_is_Some_2 (nodes gQ) (length m) ltac:(lia)) as [q ->].
  revert st. induction (refineCandidates gD gQ q) as [|r rs IHrs]; intros st;
    cbn [search_refined]; [eauto|].
  destruct (joinable r q m); cbn [negb]; [|apply IHrs].
  destruct (IH (m ++ [{| nQ := q; nD := r |}]) st) as [st1 ->].
  - rewrite length_app. cbn [length]. lia.
  - rewrite length_app. cbn [length]. lia.
  - destruct (kFound <=? currentlyFound st1); [eauto|apply IHrs].
Qed.

Lemma subgraphSearch_total fuel st :
  nodes gQ <> [] -> (length (nodes gQ) <= fuel)%nat ->
  is_Some (subgraphSearch gD gQ undirected kFound fuel st).
Proof.
  intros Hne Hf. unfold subgraphSearch.
  destruct (nodes gQ) as [|q rest] eqn:Hn; [contradiction|].
  revert st. induction (candidate gD gQ q) as [|c cs IHcs]; intros st;
    cbn [map for_each]; [eauto|].
  unfold search_from.
  destruct (doSearch_total fuel [{| nQ := q; nD := c |}] st) as [st1 ->].
  - rewrite Hn. cbn [length] in *. lia.
  - rewrite Hn. cbn [length]. lia.
  - destruct (kFound <=? currentlyFound st1); [eauto|apply IHcs].
Qed.

Hypothesis nodes_distinct : NoDup (nodes gQ).
Hypothesis symmetric :
  undirected = true ->
  (forall a b, has_edge gQ a b = has_edge gQ b a) /\
  (forall a b, has_edge gD a b = has_edge gD b a).

Local Abbreviation partial := (partial_matching gD gQ).

Lemma reverse_edge d q (m : list Pair) nm :
  joinable d q m = true -> In nm m ->
  has_edge gQ (nQ nm) q = true -> has_edge gD (nD nm) d = true.
Proof.
  intros Hj Hin He. destruct (isJoinable_spec d q m Hj nm Hin) as (_ & Hf & Hb).
  destruct undirected eqn:Hu; [|now apply Hb].
  destruct (symmetric eq_refl) as [HsQ HsD].
  rewrite HsD. apply Hf. now rewrite HsQ.
Qed.

Lemma extend_verify (m : list Pair) q r :
  verify m = true ->
  (forall nm, In nm m -> nQ nm <> q) ->
  label gQ q = label gD r ->
  (has_edge gQ q q = true -> has_edge gD r r = true) ->
  joinable r q m = true ->
  verify (m ++ [{| nQ := q; nD := r |}]) = true.
Proof.
  intros Hver Hfresh Hl Hself Hj.
  pose proof (proj1 (verifyMatching_spec m) Hver) as Hold.
  apply verifyMatching_spec. intros nm1 Hin1.
  apply in_app_or in Hin1 as [Hin1|[<-|[]]]; cbn [nQ nD].
  - destruct (Hold nm1 Hin1) as [Hl1 Hp1]. split; [assumption|].
    intros nm2 Hin2. apply in_app_or in Hin2 as [Hin2|[<-|[]]]; cbn [nQ nD].
    + now apply Hp1.
    + destruct (isJoinable_spec r q m Hj nm1 Hin1) as (Hne & _ & _).
      split.
      * split; intros Heq; exfalso;
          [now apply (Hfresh nm1 Hin1) | now apply Hne].
      * now apply reverse_edge with m.
  - split; [assumption|].
    intros nm2 Hin2. apply in_app_or in Hin2 as [Hin2|[<-|[]]]; cbn [nQ nD].
    + destruct (isJoinable_spec r q m Hj nm2 Hin2) as (Hne & Hf & _).
      split; [|assumption].
      split; intros Heq; exfalso;
        [now apply (Hfresh nm2 Hin2) | now apply Hne].
    + split; [tauto|assumption].
Qed.

Lemma extend_partial (m : list Pair) q r :
  partial m -> nodes gQ !! length m = Some q ->
  In r (candidate gD gQ q) -> joinable r q m = true ->
  partial (m ++ [{| nQ := q; nD := r |}]).
Proof.
  intros [Hmap Hver] Hq Hc Hj. split.
  - rewrite map_app, length_app, Hmap. cbn [map length nQ].
    rewrite Nat.add_1_r. symmetry. now apply take_S_r.
  - destruct (candidate_spec q r Hc) as [Hl Hself].
    apply extend_verify; try assumption.
    intros nm Hin Heq. apply (fresh_in_take _ _ _ nodes_distinct Hq).
    rewrite <- Hmap, <- Heq. now apply in_map.
Qed.

End Ullmann.

(** X16: the Ullmann search run by one worker never fails its own
    verification: every matching it reports pairs all the query nodes, in
    the order of the query graph, with data nodes of the same label, no
    two with the same data node, and every query edge with a data edge.
    The nodes of the query graph are distinct, and with [-undirected] both
    graphs have every edge in both directions.  With as much fuel as there
    are query nodes the run ends. *)
Theorem ullmann_run_verifies {QGNode DGNode : Type}
    {QGNode_eq : EqDecision QGNode} {DGNode_eq : EqDecision DGNode}
    (gD : Graph DGNode) (gQ : Graph QGNode) (undirected : bool) (kFound : Z)
    (fuel : nat) :
  NoDup (nodes gQ) ->
  (undirected = true ->
   (forall a b, has_edge gQ a b = has_edge gQ b a) /\
   (forall a b, has_edge gD a b = has_edge gD b a)) ->
  run gD gQ undirected kFound fuel <> Some VerificationFailed /\
  (forall found ms,
     run gD gQ undirected kFound fuel = Some (Verified found ms) ->
     forall m, In m ms ->
       map nQ m = nodes gQ /\ verifyMatching gD gQ m = true) /\
  (nodes gQ <> [] -> (length (nodes gQ) <= fuel)%nat ->
   is_Some (run gD gQ undirected kFound fuel)).
Proof.
  intros Hnd Hsym.
  set (P := fun st : @SearchState QGNode DGNode =>
              forall m, In m (report st) ->
                map nQ m = nodes gQ /\ verifyMatching gD gQ m = true).
  assert (Hinv : forall st,
            subgraphSearch gD gQ undirected kFound fuel
              {| report := []; currentlyFound := 0 |} = Some st -> P st).
  { intros st Hs.
    apply (subgraphSearch_invariant gD gQ undirected kFound
             (partial_matching gD gQ) P) with (5 := Hs).
    - intros m q r. now apply extend_partial.
    - intros st0 m HP _ [Hmap Hver] Hlen m' Hin. cbn [report] in Hin.
      apply in_app_or in Hin as [Hin|[<-|[]]]; [now apply HP|].
      split; [|assumption]. rewrite Hmap, Hlen. apply firstn_all.
    - split; reflexivity.
    - intros m []. }
  unfold run. destruct (filterCandidates gD gQ).
  { split; [discriminate|]. split; [discriminate|]. eauto. }
  destruct (subgraphSearch gD gQ undirected kFound fuel
              {| report := []; currentlyFound := 0 |}) as [st|] eqn:Hs.
  - pose proof (Hinv st eq_refl) as HP.
    assert (Hall : forallb (verifyMatching gD gQ) (report st) = true).
    { apply forallb_forall. intros m Hin. now apply HP. }
    rewrite Hall, orb_true_r.
    split; [discriminate|]. split; [|eauto].
    intros found ms [= _ <-]. exact HP.
  - split; [discriminate|]. split; [discriminate|].
    intros Hne Hf.
    destruct (subgraphSearch_total gD gQ undirected kFound fuel
                {| report := []; currentlyFound := 0 |} Hne Hf) as [st Hst].
    rewrite Hst in Hs. discriminate Hs.
Qed.

Lemma ullmann_run_verifies_witness :
  run sample_data sample_query false 10 2
  = Some (Verified 2 [[{| nQ := 0%nat; nD := 0%nat |};
                       {| nQ := 1%nat; nD := 1%nat |}];
                      [{| nQ := 0%nat; nD := 1%nat |};
                       {| nQ := 1%nat; nD := 2%nat |}]]) /\
  run sample_data sample_query false 10 2 <> Some VerificationFailed.
Proof.
  split; [vm_compute; reflexivity|].
  apply (ullmann_run_verifies sample_data sample_query false 10 2).
  - apply (bool_decide_unpack _). vm_compute. exact I.
  - intros H. discriminate H.
Defined.

(** X17: run by one worker, the Ullmann search reports at most [kFound]
    matchings, as many as [currentlyFound] counts. *)
Theorem ullmann_reports_at_most_k {QGNode DGNode : Type}
    {QGNode_eq : EqDecision QGNode} {DGNode_eq : EqDecision DGNode}
    (gD : Graph DGNode) (gQ : Graph QGNode) (undirected : bool) (kFound : Z)
    (fuel : nat) (found : Z) (ms : list (Matching QGNode DGNode)) :
  0 <= kFound < 2 ^ 32 ->
  run gD gQ undirected kFound fuel = Some (Verified found ms) ->
  found = Z.of_nat (length ms) /\ found <= kFound.
Proof.
  intros Hk. unfold run. destruct (filterCandidates gD gQ); [discriminate|].
  destruct (subgraphSearch gD gQ undirected kFound fuel
              {| report := []; currentlyFound := 0 |}) as [st|] eqn:Hs;
    [|discriminate].
  set (P := fun st : @SearchState QGNode DGNode =>
              currentlyFound st = Z.of_nat (length (report st)) /\
              currentlyFound st <= kFound).
  assert (HP : P st).
  { apply (subgraphSearch_invariant gD gQ undirected kFound
             (fun _ => True) P) with (5 := Hs).
    - trivial.
    - intros st0 m [Hc Hle] Hlt _ _. unfold P. cbn [report currentlyFound].
      rewrite length_app. cbn [length].
      unfold MachineInt.wrap_unsigned. rewrite Z.mod_small by lia. lia.
    - trivial.
    - unfold P. cbn [report currentlyFound length]. lia. }
  destruct (_ || _); [|discriminate].
  intros [= <- <-]. exact HP.
Qed.

Lemma ullmann_reports_at_most_k_witness :
  1 = Z.of_nat (length [[{| nQ := 0%nat; nD := 0%nat |};
                         {| nQ := 1%nat; nD := 1%nat |}]]) /\ 1 <= 1.
Proof.
  apply (ullmann_reports_at_most_k sample_data sample_query false 1 2).
  - lia.
  - vm_compute. reflexivity.
Defined.

End SubgraphIsomorphismFacts.

(** ** What a pass of the executor's loop accounts for *)

Module ForEachAccountingFacts.
Import WorkList ForEachExecutor.

(** X18: the flag a worker passes to the termination detector at the end
    of a pass of the loop of [go] says whether the pass ran an iteration,
    in all three forms of the pass; [s.num], from which the flag is taken,
    is [unsigned], so this is for a pass of fewer than 2^32 iterations. *)
Theorem signal_tells_work
    {value_type WorkListTy World : Type}
    {W : WorkList WorkListTy value_type}
    (traits : Traits) (tp : AbortHandler.ThreadPool)
    (function : value_type -> World -> UserContext value_type
                -> Outcome * World * UserContext value_type)
    (fuel : nat) (couldAbort isLeader : bool)
    (s s' : State value_type WorkListTy World) (didWork : bool) :
  go_body traits tp function fuel couldAbort isLeader s = Some (didWork, s') ->
  (N.of_nat (stat_iterations s' - stat_iterations s) < 2 ^ 32)%N ->
  stat_iterations s <= stat_iterations s' /\
  (didWork = true <-> stat_iterations s < stat_iterations s').
Proof.
  intros Hgo Hsmall.
  destruct (ForEachExecutorFacts.go_body_pass traits tp function fuel
              couldAbort isLeader s didWork s' Hgo)
    as (s1 & -> & Hpass & Hdw).
  cbn [call stat_iterations] in *.
  split; [exact (proj1 Hpass) | now apply Hdw].
Qed.

Lemma signal_tells_work_witness :
  let tp := AbortHandler.two_sockets in
  let s := sample_state tp [2; 4; 1; 6] [] in
  match go_body all_traits tp sample_function 10 true false s with
  | Some (didWork, s') =>
      didWork = true <-> stat_iterations s < stat_iterations s'
  | None => False
  end.
Proof.
  intros tp s.
  destruct (go_body all_traits tp sample_function 10 true false s)
    as [[didWork s']|] eqn:Hgo.
  - apply (signal_tells_work all_traits tp sample_function 10 true false
             s s' didWork Hgo).
    vm_compute in Hgo. injection Hgo as _ <-. vm_compute. reflexivity.
  - vm_compute in Hgo. discriminate Hgo.
Defined.

Section Aborts.
Context {value_type WorkListTy World : Type} {W : WorkList WorkListTy value_type}.
Context (traits : Traits) (tp : AbortHandler.ThreadPool).
Context (function : value_type -> World -> UserContext value_type
                    -> Outcome * World * UserContext value_type).
Implicit Types (s : State value_type WorkListTy World).
Implicit Types (h : AbortHandler.AbortHandler value_type).

Local Abbreviation process := (doProcess traits tp function).
Local Abbreviation dispatch := (runQueueDispatch traits tp function).

(** A batch from the main worklist touches the abort handler only to hand
    it the item of the iteration that aborted. *)
Lemma main_dispatch_aborts fuel limit : forall num s,
  let r := dispatch fuel limit (main_worklist tp) num s in
  (fst (fst r) = Aborted ->
   exists n s0 v s1,
     after_iterations traits tp function n (main_worklist tp) s = Some s0 /\
     src_pop (main_worklist tp) s0 = (Some v, s1) /\
     fst (process v s1) = Conflict /\
     snd r = abortIteration traits (AbortHandler.push_value tp) v
               (call ClearConflictLock (snd (process v s1))) /\
     stat_iterations (snd r) = stat_iterations s + S n /\
     aborted (snd r) = AbortHandler.push_value tp v (aborted s) /\
     stat_conflicts (snd r) = S (stat_conflicts s)) /\
  (fst (fst r) <> Aborted ->
   aborted (snd r) = aborted s /\ stat_conflicts (snd r) = stat_conflicts s).
Proof.
  induction fuel as [|fuel IH]; intros num s; cbn [runQueueDispatch].
  - cbn [fst snd]. split; [discriminate|]. split; reflexivity.
  - destruct ((limit =? 0) || (num <? limit))%N.
    2: { cbn [fst snd]. split; [discriminate|]. split; reflexivity. }
    destruct (src_pop (main_worklist tp) s) as [[item|] s1] eqn:Hpop.
    2: { cbn [src_pop main_worklist] in Hpop.
         destruct (wl_pop (tid tp) (wl s)) as [r0 w]. injection Hpop as _ <-.
         cbn [fst snd]. split; [discriminate|]. split; reflexivity. }
    assert (H1 : aborted s1 = aborted s /\
                 stat_conflicts s1 = stat_conflicts s /\
                 stat_iterations s1 = stat_iterations s).
    { cbn [src_pop main_worklist] in Hpop.
      destruct (wl_pop (tid tp) (wl s)) as [r0 w]. injection Hpop as _ <-.
      repeat split. }
    destruct H1 as (Hab1 & Hco1 & Hit1).
    destruct (ForEachExecutorFacts.doProcess_spec traits tp function
                item s1) as (Hit & Hab & Hco & _).
    cbn [src_value main_worklist].
    destruct (process item s1) as [[|] s2] eqn:Hp;
      cbn [snd] in Hit, Hab, Hco.
    + destruct (IH (N.succ num mod 2 ^ 32)%N s2) as [Ha Hn].
      cbn zeta in *. split.
      * intros Hs. destruct (Ha Hs)
          as (n & s0 & v & s1' & Hreach & Hpop' & Hc & Hr & Hi & Hq & Hcf).
        exists (S n), s0, v, s1'. cbn [after_iterations].
        rewrite Hpop. cbn [src_value main_worklist]. rewrite Hp.
        split; [exact Hreach|]. split; [exact Hpop'|]. split; [exact Hc|].
        split; [exact Hr|]. split; [lia|].
        split; [now rewrite Hq, Hab, Hab1 | now rewrite Hcf, Hco, Hco1].
      * intros Hs. destruct (Hn Hs) as [Hq Hcf].
        split; [now rewrite Hq, Hab, Hab1 | now rewrite Hcf, Hco, Hco1].
    + cbn [fst snd src_push_aborted main_worklist].
      destruct (ForEachExecutorFacts.abortIteration_spec traits
                  (AbortHandler.push_value tp) item
                  (call ClearConflictLock s2))
        as (_ & Hc & Ha & _ & _ & _ & _ & Hi).
      cbn zeta in Hc, Ha, Hi.
      cbn [call aborted stat_conflicts stat_iterations] in Hc, Ha, Hi.
      split; [|congruence]. intros _. exists 0, s, item, s1.
      rewrite Hp. cbn [fst snd after_iterations].
      split; [reflexivity|]. split; [exact Hpop|]. split; [reflexivity|].
      split; [reflexivity|]. split; [lia|].
      split; [now rewrite Ha, Hab, Hab1 | now rewrite Hc, Hco, Hco1].
Qed.

Lemma push_item_ext (item : AbortHandler.Item value_type) h1 h2 :
  (forall n, AbortHandler.queues h1 n = AbortHandler.queues h2 n) ->
  AbortHandler.useBasicPolicy h1 = AbortHandler.useBasicPolicy h2 ->
  forall n,
    AbortHandler.queues (AbortHandler.push_item tp item h1) n
    = AbortHandler.queues (AbortHandler.push_item tp item h2) n.
Proof.
  intros Hq Hb n. unfold AbortHandler.push_item.
  cbn [AbortHandler.queues]. rewrite Hb.
  unfold AbortHandler.basicPolicy, AbortHandler.doublePolicy,
    AbortHandler.push_local.
  repeat match goal with |- context [if ?b then _ else _] => destruct b end;
    rewrite !AbortHandlerFacts.push_remote_lookup;
    match goal with |- context [decide ?P] => destruct (decide P) end;
    now rewrite ?Hq.
Qed.

(** The drain of the worker's retry records, record by record. *)
Lemma drain_records fuel : forall num s,
  length (AbortHandler.getQueue tp (aborted s)) < fuel ->
  let q := AbortHandler.getQueue tp (aborted s) in
  let r := dispatch fuel 0%N (abort_queue tp) num s in
  AbortHandler.useBasicPolicy (aborted (snd r))
  = AbortHandler.useBasicPolicy (aborted s) /\
  ((fst (fst r) = PopFailed /\
    stat_iterations (snd r) = stat_iterations s + length q /\
    stat_conflicts (snd r) = stat_conflicts s /\
    forall n, AbortHandler.queues (aborted (snd r)) n
              = <[ AbortHandler.getTID tp := [] ]>
                  (AbortHandler.queues (aborted s)) n) \/
   (fst (fst r) = Aborted /\
    exists k item,
      q !! k = Some item /\
      stat_iterations (snd r) = stat_iterations s + S k /\
      stat_conflicts (snd r) = S (stat_conflicts s) /\
      forall n,
        AbortHandler.queues (aborted (snd r)) n
        = AbortHandler.queues
            (AbortHandler.push_item tp item
               {| AbortHandler.queues :=
                    <[ AbortHandler.getTID tp := drop (S k) q ]>
                      (AbortHandler.queues (aborted s));
                  AbortHandler.useBasicPolicy :=
                    AbortHandler.useBasicPolicy (aborted s) |}) n)).
Proof.
  induction fuel as [|fuel IH]; intros num s Hlen; [lia|].
  cbn [runQueueDispatch N.eqb orb]. cbn [src_pop abort_queue].
  destruct (AbortHandler.getQueue tp (aborted s)) as [|item rest] eqn:Hq.
  - cbn [fst snd length]. split; [reflexivity|]. left.
    split; [reflexivity|]. split; [lia|]. split; [reflexivity|].
    intros n. destruct (decide (AbortHandler.getTID tp = n)) as [<-|Hne].
    + rewrite fn_lookup_insert. exact Hq.
    + now rewrite fn_lookup_insert_ne.
  - set (h1 := {| AbortHandler.queues :=
                    <[ AbortHandler.getTID tp := rest ]>
                      (AbortHandler.queues (aborted s));
                  AbortHandler.useBasicPolicy :=
                    AbortHandler.useBasicPolicy (aborted s) |}).
    cbn [src_value abort_queue].
    destruct (ForEachExecutorFacts.doProcess_spec traits tp function
                (AbortHandler.value item) (set_aborted h1 s))
      as (Hit & Hab & Hco & _).
    destruct (process (AbortHandler.value item) (set_aborted h1 s))
      as [[|] s2];
      cbn [snd set_aborted aborted stat_conflicts stat_iterations]
        in Hit, Hab, Hco.
    + assert (Hq2 : AbortHandler.getQueue tp (aborted s2) = rest).
      { unfold AbortHandler.getQueue. rewrite Hab. subst h1.
        cbn [AbortHandler.queues]. apply fn_lookup_insert. }
      cbn [length] in Hlen.
      destruct (IH (N.succ num mod 2 ^ 32)%N s2 ltac:(rewrite Hq2; lia))
        as [Hb Hcases].
      cbn zeta in Hb, Hcases. rewrite Hq2, Hab, Hit, Hco in *.
      split; [exact Hb|].
      destruct Hcases as [(Hs & Hi & Hc & Hqs) | (Hs & k & it & Hk & Hi & Hc & Hqs)].
      * left. split; [assumption|]. cbn [length].
        split; [lia|]. split; [assumption|].
        intros n. rewrite Hqs. subst h1. cbn [AbortHandler.queues].
        destruct (decide (AbortHandler.getTID tp = n)) as [<-|Hne].
        -- now rewrite !fn_lookup_insert.
        -- now rewrite !fn_lookup_insert_ne.
      * right. split; [assumption|]. exists (S k), it.
        split; [exact Hk|]. split; [lia|]. split; [assumption|].
        intros n. rewrite Hqs. apply push_item_ext; [|reflexivity].
        intros m. subst h1. cbn [AbortHandler.queues drop].
        destruct (decide (AbortHandler.getTID tp = m)) as [<-|Hne].
        -- now rewrite !fn_lookup_insert.
        -- now rewrite !fn_lookup_insert_ne.
    + cbn [fst snd src_push_aborted abort_queue].
      destruct (ForEachExecutorFacts.abortIteration_spec traits
                  (AbortHandler.push_item tp) item
                  (call ClearConflictLock s2))
        as (_ & Hc & Ha & _ & _ & _ & _ & Hi).
      cbn zeta in Hc, Ha, Hi.
      cbn [call aborted stat_conflicts stat_iterations] in Hc, Ha, Hi.
      rewrite Ha, Hc, Hi, Hab, Hit, Hco.
      split; [reflexivity|]. right. split; [reflexivity|].
      exists 0, item. split; [reflexivity|]. split; [lia|].
      split; [reflexivity|]. intros n. reflexivity.
Qed.

End Aborts.

(** X19: a batch from the main worklist hands the abort handler at most
    one item, that of the iteration that aborted and ended the batch: the
    item the batch popped after its iterations that returned, and on which
    the operator reported the conflict.  The item goes to the back of the
    worker's own queue with retry count 1, the other queues stay as they
    are, and the conflicts counter rises by one.  A batch that ends
    otherwise leaves the abort handler and the counter alone. *)
Theorem main_batch_abort_accounting
    {value_type WorkListTy World : Type}
    {W : WorkList WorkListTy value_type}
    (traits : Traits) (tp : AbortHandler.ThreadPool)
    (function : value_type -> World -> UserContext value_type
                -> Outcome * World * UserContext value_type)
    (fuel : nat) (isLeader : bool)
    (s : State value_type WorkListTy World) :
  let r := main_batch traits tp function fuel isLeader s in
  (fst (fst r) = Aborted ->
   exists n s0 v s1,
     after_iterations traits tp function n (main_worklist tp) s = Some s0 /\
     src_pop (main_worklist tp) s0 = (Some v, s1) /\
     fst (doProcess traits tp function v s1) = Conflict /\
     snd r = abortIteration traits (AbortHandler.push_value tp) v
               (call ClearConflictLock
                  (snd (doProcess traits tp function v s1))) /\
     stat_iterations (snd r) = stat_iterations s + S n /\
     AbortHandler.getQueue tp (aborted (snd r))
     = AbortHandler.getQueue tp (aborted s)
       ++ [{| AbortHandler.val := v; AbortHandler.retries := 1 |}] /\
     (forall n, n <> AbortHandler.getTID tp ->
        AbortHandler.queues (aborted (snd r)) n
        = AbortHandler.queues (aborted s) n) /\
     stat_conflicts (snd r) = S (stat_conflicts s)) /\
  (fst (fst r) <> Aborted ->
   aborted (snd r) = aborted s /\ stat_conflicts (snd r) = stat_conflicts s).
Proof.
  intros r.
  destruct (main_dispatch_aborts traits tp function fuel
              (NUM traits isLeader) 0%N s) as [Ha Hn].
  fold (runQueue traits tp function fuel (NUM traits isLeader)
          (main_worklist tp) s) in Ha, Hn.
  fold (main_batch traits tp function fuel isLeader s) in Ha, Hn.
  fold r in Ha, Hn. cbn zeta in Ha, Hn.
  split; [|exact Hn].
  intros Hs.
  destruct (Ha Hs) as (n & s0 & v & s1 & Hreach & Hpop & Hc & Hr & Hi & Hab & Hcf).
  exists n, s0, v, s1.
  split; [exact Hreach|]. split; [exact Hpop|]. split; [exact Hc|].
  split; [exact Hr|]. split; [exact Hi|].
  unfold AbortHandler.getQueue. rewrite Hab.
  unfold AbortHandler.push_value, AbortHandler.push_local.
  cbn [AbortHandler.queues].
  split; [|split; [|assumption]].
  - rewrite AbortHandlerFacts.push_remote_lookup.
    destruct (decide (AbortHandler.getTID tp = AbortHandler.getTID tp));
      [reflexivity|contradiction].
  - intros m Hne. rewrite AbortHandlerFacts.push_remote_lookup.
    destruct (decide (AbortHandler.getTID tp = m)); [congruence|reflexivity].
Qed.

(** The worklist holds 2, 4, 1 and 6 and the operator reports a conflict
    on odd items: the batch commits 2 and 4 and aborts on 1, which is the
    item the abort handler gets. *)
Lemma main_batch_abort_accounting_witness :
  let tp := AbortHandler.two_sockets in
  let s := sample_state tp [2; 4; 1; 6] [] in
  let r := main_batch all_traits tp sample_function 10 false s in
  fst (fst r) = Aborted /\
  stat_iterations (snd r) = 3 /\
  AbortHandler.getQueue tp (aborted (snd r))
  = [{| AbortHandler.val := 1; AbortHandler.retries := 1%Z |}] /\
  exists n s0 s1,
    after_iterations all_traits tp sample_function n (main_worklist tp) s
    = Some s0 /\
    src_pop (main_worklist tp) s0 = (Some 1, s1) /\
    fst (doProcess all_traits tp sample_function 1 s1) = Conflict.
Proof.
  intros tp s r.
  assert (Hs : fst (fst r) = Aborted) by reflexivity.
  destruct (proj1 (main_batch_abort_accounting all_traits tp sample_function
                     10 false s) Hs)
    as (n & s0 & v & s1 & Hreach & Hpop & Hc & _ & _ & Hq & _).
  fold r in Hq.
  assert (Hv : v = 1).
  { assert (Hq' : AbortHandler.getQueue tp (aborted (snd r))
                  = [{| AbortHandler.val := 1; AbortHandler.retries := 1%Z |}])
      by reflexivity.
    rewrite Hq' in Hq. cbn in Hq. now injection Hq as <-. }
  subst v.
  split; [exact Hs|]. split; [reflexivity|]. split; [reflexivity|].
  exists n, s0, s1. split; [exact Hreach|]. split; [exact Hpop|]. exact Hc.
Defined.

(** X20: the drain of the worker's queue of retry records loses none of
    them.  Either every record is retried and committed, and the queue is
    left empty; or the retry of one record aborts, the records before it
    are committed, the records after it stay on the queue in their order,
    and the record itself is pushed again, with one more retry, where the
    policy of the handler sends it.  The queues of the other workers
    change by that push only. *)
Theorem drain_loses_no_record
    {value_type WorkListTy World : Type}
    {W : WorkList WorkListTy value_type}
    (traits : Traits) (tp : AbortHandler.ThreadPool)
    (function : value_type -> World -> UserContext value_type
                -> Outcome * World * UserContext value_type)
    (fuel : nat) (s : State value_type WorkListTy World) :
  length (AbortHandler.getQueue tp (aborted s)) < fuel ->
  let q := AbortHandler.getQueue tp (aborted s) in
  let r := handleAborts traits tp function fuel s in
  (fst (fst r) = PopFailed /\
   stat_iterations (snd r) = stat_iterations s + length q /\
   stat_conflicts (snd r) = stat_conflicts s /\
   forall n, AbortHandler.queues (aborted (snd r)) n
             = <[ AbortHandler.getTID tp := [] ]>
                 (AbortHandler.queues (aborted s)) n) \/
  (fst (fst r) = Aborted /\
   exists k item,
     q !! k = Some item /\
     stat_iterations (snd r) = stat_iterations s + S k /\
     stat_conflicts (snd r) = S (stat_conflicts s) /\
     forall n,
       AbortHandler.queues (aborted (snd r)) n
       = AbortHandler.queues
           (AbortHandler.push_item tp item
              {| AbortHandler.queues :=
                   <[ AbortHandler.getTID tp := drop (S k) q ]>
                     (AbortHandler.queues (aborted s));
                 AbortHandler.useBasicPolicy :=
                   AbortHandler.useBasicPolicy (aborted s) |}) n).
Proof.
  intros Hlen q r.
  exact (proj2 (drain_records traits tp function fuel 0%N s Hlen)).
Qed.

Lemma drain_loses_no_record_witness :
  let tp := AbortHandler.two_sockets in
  let rec v := {| AbortHandler.val := v; AbortHandler.retries := 1 |} in
  let s := sample_state tp [] [rec 2; rec 1; rec 4] in
  let r := handleAborts all_traits tp sample_function 10 s in
  fst (fst r) = Aborted /\
  AbortHandler.getQueue tp (aborted (snd r))
  = [rec 4; {| AbortHandler.val := 1; AbortHandler.retries := 2 |}] /\
  (fst (fst r) = PopFailed \/ fst (fst r) = Aborted).
Proof.
  intros tp rec s r.
  split; [reflexivity|]. split; [reflexivity|].
  destruct (drain_loses_no_record all_traits tp sample_function 10 s)
    as [(H & _) | (H & _)].
  - vm_compute. lia.
  - left. exact H.
  - right. exact H.
Defined.

End ForEachAccountingFacts.

(** ** The heavy-edge matcher *)

Module HEMMatcherFacts.
Import HEMMatcher.
Local Open Scope Z_scope.

Section Match.
Context {GNode : Type} {GNode_eq : EqDecision GNode}.
Variable isMatched : GNode -> bool.
Variable getWeight : GNode -> Z.
Variable neighbors : GNode -> list (GNode * Z).
Variable maxVertexWeight : Z.

Local Abbreviation choose := (select isMatched getWeight maxVertexWeight).

(** The weight of a pair, as [match] computes it. *)
Local Abbreviation pair_weight node n :=
  (MachineInt.wrap_int (getWeight node + getWeight n)).

(** A neighbour the loop may take: not matched yet and light enough. *)
Local Abbreviation fits node n :=
  (isMatched n = false /\ pair_weight node n <= maxVertexWeight).

Lemma select_spec node : forall nbrs maxwgt matchNode,
  let r := choose node nbrs maxwgt matchNode in
  (forall n w, In (n, w) nbrs -> fits node n -> w <= fst r) /\
  ((r = (maxwgt, matchNode)) \/
   (In (snd r, fst r) nbrs /\ maxwgt < fst r /\ fits node (snd r))).
Proof.
  induction nbrs as [|[n w] nbrs IH]; intros maxwgt matchNode; cbn [select].
  - cbn zeta. split; [intros n w []|now left].
  - destruct (negb (isMatched n) && (maxwgt <? w)
              && (pair_weight node n <=? maxVertexWeight)) eqn:E.
    + apply andb_true_iff in E as [E Hw]. apply andb_true_iff in E as [Hm Hlt].
      apply negb_true_iff in Hm. apply Z.ltb_lt in Hlt. apply Z.leb_le in Hw.
      destruct (IH w n) as [Hmax Hsel]. cbn zeta in *.
      assert (Hge : w <= fst (choose node nbrs w n)).
      { destruct Hsel as [-> | (_ & Hlt' & _)]; cbn [fst]; lia. }
      split.
      * intros n' w' [[= <- <-]|Hin] Hf; [assumption|now apply (Hmax n')].
      * right. destruct Hsel as [-> | (Hin & Hlt' & Hf)]; cbn [fst snd].
        -- split; [now left|]. split; [lia|]. split; assumption.
        -- split; [now right|]. split; [lia|assumption].
    + destruct (IH maxwgt matchNode) as [Hmax Hsel]. cbn zeta in *.
      assert (Hge : maxwgt <= fst (choose node nbrs maxwgt matchNode)).
      { destruct Hsel as [-> | (_ & Hlt' & _)]; cbn [fst]; lia. }
      split.
      * intros n' w' [[= <- <-]|Hin] [Hm Hw]; [|now apply (Hmax n')].
        rewrite Hm in E. cbn [negb andb] in E.
        apply Z.leb_le in Hw. rewrite Hw, andb_true_r in E.
        apply Z.ltb_ge in E. lia.
      * destruct Hsel as [Heq | (Hin & Hlt' & Hf)]; [now left|].
        right. split; [now right|]. split; assumption.
Qed.

End Match.

(** X21: [match] pairs an unmatched node with the neighbour of the heaviest
    edge among its neighbours that are unmatched and light enough for the
    pair to weigh at most [maxVertexWeight]; an edge of negative weight is
    never taken.  The pair is recorded in both directions and both nodes
    are mapped to one new coarse node that weighs as much as the two.
    When no neighbour can be taken, or the heaviest edge that can is a loop
    at the node, the node is matched with itself and its coarse node has
    its own weight.  A node that is matched already is left alone.  The
    weight of a pair is the [int] sum of the two weights: it is their sum
    when that fits an [int], and wraps round when it does not. *)
Theorem heavy_edge_match {GNode : Type} {GNode_eq : EqDecision GNode}
    (isMatched : GNode -> bool) (getWeight : GNode -> Z)
    (neighbors : GNode -> list (GNode * Z)) (maxVertexWeight : Z)
    (node : GNode) :
  let calls := match_node isMatched getWeight neighbors maxVertexWeight node in
  let pair_weight n := MachineInt.wrap_int (getWeight node + getWeight n) in
  (isMatched node = true -> calls = []) /\
  (isMatched node = false ->
   exists maxwgt m,
     (forall n w, In (n, w) (neighbors node) ->
        isMatched n = false ->
        pair_weight n <= maxVertexWeight -> w <= maxwgt) /\
     ((maxwgt = -1 /\ m = node) \/
      (In (m, maxwgt) (neighbors node) /\ 0 <= maxwgt /\
       isMatched m = false /\
       pair_weight m <= maxVertexWeight)) /\
     calls
     = if decide (m = node)
       then [SetMatch node node; CreateNode (getWeight node); AddNode;
             SetCoarseGraphMap node]
       else [SetMatch node m; SetMatch m node;
             CreateNode (pair_weight m); AddNode;
             SetCoarseGraphMap node; SetCoarseGraphMap m]) /\
  (forall n,
     - 2 ^ 31 <= getWeight node + getWeight n < 2 ^ 31 ->
     pair_weight n = getWeight node + getWeight n) /\
  (forall n,
     2 ^ 31 <= getWeight node + getWeight n < 2 ^ 32 ->
     pair_weight n = getWeight node + getWeight n - 2 ^ 32).
Proof.
  intros calls pair_weight. subst calls. unfold match_node.
  split; [|split; [|split]].
  - now intros ->.
  - intros ->.
    destruct (select_spec isMatched getWeight maxVertexWeight node
                (neighbors node) (-1) node) as [Hmax Hsel].
    cbn zeta in Hmax, Hsel.
    destruct (select isMatched getWeight maxVertexWeight node
                (neighbors node) (-1) node) as [maxwgt m] eqn:Hs.
    cbn [fst snd] in *. exists maxwgt, m.
    split; [intros n w Hin Hm Hw; now apply (Hmax n)|].
    split.
    + destruct Hsel as [[= -> ->] | (Hin & Hlt & Hm & Hw)]; [now left|].
      right. split; [assumption|]. split; [lia|]. split; assumption.
    + destruct (decide (m = node)) as [->|Hne].
      * rewrite !bool_decide_eq_true_2 by reflexivity. reflexivity.
      * rewrite !bool_decide_eq_false_2 by congruence. reflexivity.
  - intros n Hn. unfold pair_weight, MachineInt.wrap_int.
    rewrite Z.mod_small; lia.
  - intros n Hn. unfold pair_weight, MachineInt.wrap_int.
    rewrite <- (Z.mod_unique (getWeight node + getWeight n + 2 ^ 31) (2 ^ 32) 1
                  (getWeight node + getWeight n - 2 ^ 31)); lia.
Qed.

(** The two nodes of weight 2^30 are paired although together they weigh
    more than the bound: their [int] sum has wrapped round to -2^31, which
    is the weight of the coarse node. *)
Lemma heavy_edge_match_witness :
  match_node (fun _ => false) heavy_pair_weight heavy_pair_neighbors
    (2 ^ 31 - 1) true
  = [SetMatch true false; SetMatch false true; CreateNode (- 2 ^ 31); AddNode;
     SetCoarseGraphMap true; SetCoarseGraphMap false] /\
  MachineInt.wrap_int (heavy_pair_weight true + heavy_pair_weight false)
  = heavy_pair_weight true + heavy_pair_weight false - 2 ^ 32.
Proof.
  split; [vm_compute; reflexivity|].
  apply (proj2 (proj2 (proj2
           (heavy_edge_match (fun _ => false) heavy_pair_weight
              heavy_pair_neighbors (2 ^ 31 - 1) true)))).
  unfold heavy_pair_weight. lia.
Defined.

End HEMMatcherFacts.

(** ** Stealing from the next worker *)

Module StealingFacts.
Import WorkList.
Module SL := StealingLocalWL.

Section Generic.
Context {T ContainerTy : Type} {W : WorkList ContainerTy T}.
Context (tid : nat).
Context (inv_c : ContainerTy -> Prop) (items_c : ContainerTy -> list T).
Hypothesis laws : Lawful tid inv_c items_c.
Implicit Types (s : SL.t ContainerTy).

Local Abbreviation sinv := (SL.inv inv_c tid).
Local Abbreviation sitems := (SL.items items_c tid).

(** One attempt on the caller's queue and, when it fails, one on the next
    worker's, for [take] either [pop] or [try_pop] of the container. *)
Lemma steal_contract
    (take : nat -> ContainerTy -> option T * ContainerTy)
    (take_law : forall q, inv_c q ->
       inv_c (snd (take tid q)) /\
       match fst (take tid q) with
       | Some v => items_c q ≡ₚ v :: items_c (snd (take tid q))
       | None => items_c q = [] /\ items_c (snd (take tid q)) = []
       end) s :
  sinv s ->
  let r :=
    let (ret, q) := take tid (SL.data s tid) in
    let s1 := {| SL.data := <[ tid := q ]> (SL.data s);
                 SL.workers := SL.workers s |} in
    match ret with
    | Some v => (Some v, s1)
    | None =>
        let nxt := SL.getNext s1 tid in
        let (ret', q') := take tid (SL.data s1 nxt) in
        (ret', {| SL.data := <[ nxt := q' ]> (SL.data s1);
                  SL.workers := SL.workers s1 |})
    end in
  sinv (snd r) /\
  (forall j, j <> tid -> j <> SL.getNext s tid ->
     SL.data (snd r) j = SL.data s j) /\
  match fst r with
  | Some v => sitems s ≡ₚ v :: sitems (snd r)
  | None => sitems s = [] /\ sitems (snd r) = []
  end.
Proof.
  intros [Hown Hnext]. unfold SL.inv, SL.items.
  pose proof (take_law _ Hown) as [Hq Hpq].
  destruct (take tid (SL.data s tid)) as [[v|] q]; cbn [fst snd] in *.
  - unfold SL.getNext. cbn [SL.data SL.workers].
    fold (SL.getNext s tid). rewrite fn_lookup_insert.
    destruct (decide (SL.getNext s tid = tid)) as [Heq|Hne].
    + rewrite Heq, fn_lookup_insert.
      split; [split; assumption|].
      split; [intros j Hj _; now apply fn_lookup_insert_ne|].
      now rewrite !app_nil_r.
    + rewrite fn_lookup_insert_ne by congruence.
      split; [split; assumption|].
      split; [intros j Hj _; now apply fn_lookup_insert_ne|].
      now rewrite Hpq.
  - destruct Hpq as [He He'].
    unfold SL.getNext. cbn [SL.data SL.workers]. fold (SL.getNext s tid).
    destruct (decide (SL.getNext s tid = tid)) as [Heq|Hne].
    + rewrite Heq, fn_lookup_insert.
      pose proof (take_law _ Hq) as [Hq' Hpq'].
      destruct (take tid q) as [[v|] q']; cbn [fst snd] in *.
      * exfalso. rewrite He' in Hpq'. now apply Permutation_nil_cons in Hpq'.
      * cbn [SL.data SL.workers]. unfold SL.getNext. cbn [SL.workers].
        fold (SL.getNext s tid). rewrite Heq, !fn_lookup_insert.
        destruct (decide (tid = tid)); [|contradiction].
        split; [split; assumption|].
        split; [intros j Hj _; now rewrite !fn_lookup_insert_ne|].
        rewrite He, (proj2 Hpq'). split; reflexivity.
    + rewrite fn_lookup_insert_ne by congruence.
      pose proof (take_law _ Hnext) as [Hq' Hpq'].
      destruct (take tid (SL.data s (SL.getNext s tid))) as [r q'];
        cbn [fst snd] in *.
      cbn [SL.data SL.workers]. unfold SL.getNext at 1 2 3.
      cbn [SL.workers]. fold (SL.getNext s tid).
      rewrite fn_lookup_insert, fn_lookup_insert_ne, fn_lookup_insert
        by congruence.
      destruct (decide (SL.getNext s tid = tid)); [contradiction|].
      split; [split; assumption|].
      split; [intros j Hj Hj'; now rewrite !fn_lookup_insert_ne|].
      rewrite He, He'. cbn [app]. exact Hpq'.
Qed.

Lemma stealing_lawful workers :
  Lawful (W := SL.worklist workers) tid sinv sitems.
Proof.
  split.
  - destruct (law_new _ _ _ laws) as [Hn He]. split; [split; exact Hn|].
    unfold SL.items. cbn. rewrite He. now destruct (decide _).
  - intros v s [Hown Hnext].
    destruct (law_push _ _ _ laws v _ Hown) as [Hq Hp].
    cbn [wl_push SL.worklist]. unfold SL.push, SL.inv, SL.items, SL.getNext.
    cbn [SL.data SL.workers]. fold (SL.getNext s tid).
    rewrite fn_lookup_insert.
    destruct (decide (SL.getNext s tid = tid)) as [Heq|Hne].
    + rewrite Heq, fn_lookup_insert. split; [split; assumption|].
      now rewrite !app_nil_r.
    + rewrite fn_lookup_insert_ne by congruence.
      split; [split; assumption|]. now rewrite Hp.
  - intros s Hs.
    destruct (steal_contract wl_pop (law_pop _ _ _ laws) s Hs) as (H1 & _ & H2).
    split; [exact H1 | exact H2].
  - intros s Hs.
    destruct (steal_contract wl_try_pop (law_try_pop _ _ _ laws) s Hs)
      as (H1 & _ & H2).
    split; [exact H1 | exact H2].
Qed.

End Generic.

(** X22: [pop] of the stealing worklist takes from the calling worker's
    own queue and leaves all the other queues alone when that queue gives
    an item; only when it gives nothing does [pop] go to the queue of the
    next worker, and then the item it returns is taken out of that queue.
    It leaves every other queue as it is, and fails only when both queues
    hold nothing.  So for one worker at work no item is lost or
    duplicated, whatever lawful container the queues are. *)
Theorem stealing_pop_steals_from_next {T ContainerTy : Type}
    {W : WorkList ContainerTy T} (tid workers : nat)
    (inv_c : ContainerTy -> Prop) (items_c : ContainerTy -> list T)
    (s : StealingLocalWL.t ContainerTy) (ops : list (Op T)) :
  Lawful tid inv_c items_c ->
  inv_c (StealingLocalWL.data s tid) ->
  inv_c (StealingLocalWL.data s (StealingLocalWL.getNext s tid)) ->
  let r := StealingLocalWL.pop tid s in
  let nxt := StealingLocalWL.getNext s tid in
  (forall j, j <> tid -> j <> nxt ->
     StealingLocalWL.data (snd r) j = StealingLocalWL.data s j) /\
  (items_c (StealingLocalWL.data s tid) <> [] ->
   exists v, fst r = Some v /\
     items_c (StealingLocalWL.data s tid)
     ≡ₚ v :: items_c (StealingLocalWL.data (snd r) tid) /\
     forall j, j <> tid ->
       StealingLocalWL.data (snd r) j = StealingLocalWL.data s j) /\
  (items_c (StealingLocalWL.data s tid) = [] -> nxt <> tid ->
   items_c (StealingLocalWL.data (snd r) tid) = [] /\
   match fst r with
   | Some v =>
       items_c (StealingLocalWL.data s nxt)
       ≡ₚ v :: items_c (StealingLocalWL.data (snd r) nxt)
   | None =>
       items_c (StealingLocalWL.data s nxt) = [] /\
       items_c (StealingLocalWL.data (snd r) nxt) = []
   end) /\
  (items_c (StealingLocalWL.data s tid) = [] -> nxt = tid -> fst r = None) /\
  (fst r = None ->
   items_c (StealingLocalWL.data s tid) = [] /\
   items_c (StealingLocalWL.data s nxt) = []) /\
  conserves (W := StealingLocalWL.worklist (ContainerTy := ContainerTy)
                     workers) tid ops.
Proof.
  intros laws Hown Hnext r nxt.
  assert (Hc : (forall j, j <> tid -> j <> StealingLocalWL.getNext s tid ->
                  StealingLocalWL.data (snd r) j = StealingLocalWL.data s j) /\
               match fst r with
               | Some v => StealingLocalWL.items items_c tid s
                           ≡ₚ v :: StealingLocalWL.items items_c tid (snd r)
               | None => StealingLocalWL.items items_c tid s = [] /\
                         StealingLocalWL.items items_c tid (snd r) = []
               end)
    by exact (proj2 (steal_contract tid inv_c items_c wl_pop
                       (law_pop _ _ _ laws) s (conj Hown Hnext))).
  destruct Hc as [Hfar Hit].
  split; [exact Hfar|]. split; [|split; [|split; [|split]]].
  - intros Hne. subst r. unfold StealingLocalWL.pop in *.
    pose proof (law_pop _ _ _ laws _ Hown) as [_ Hp].
    destruct (wl_pop tid (StealingLocalWL.data s tid)) as [[v|] q];
      cbn [fst snd] in *.
    + exists v. split; [reflexivity|].
      cbn [StealingLocalWL.data]. rewrite fn_lookup_insert.
      split; [assumption|]. intros j Hj. now rewrite fn_lookup_insert_ne.
    + now destruct Hp.
  - intros He Hnt. subst r. unfold StealingLocalWL.pop in *.
    pose proof (law_pop _ _ _ laws _ Hown) as [_ Hp].
    destruct (wl_pop tid (StealingLocalWL.data s tid)) as [[v|] q];
      cbn [fst snd] in *.
    + rewrite He in Hp. now apply Permutation_nil_cons in Hp.
    + destruct Hp as [_ Hq].
      change (StealingLocalWL.getNext
                {| StealingLocalWL.data := <[ tid := q ]> (StealingLocalWL.data s);
                   StealingLocalWL.workers := StealingLocalWL.workers s |} tid)
        with nxt.
      cbn [StealingLocalWL.data].
      rewrite (fn_lookup_insert_ne _ tid nxt) by congruence.
      pose proof (law_pop _ _ _ laws _ Hnext) as [_ Hp']. fold nxt in Hp'.
      destruct (wl_pop tid (StealingLocalWL.data s nxt)) as [r' q'];
        cbn [fst snd StealingLocalWL.data] in *.
      rewrite fn_lookup_insert, fn_lookup_insert_ne, fn_lookup_insert
        by congruence.
      split; assumption.
  - intros He Hnt. subst r. unfold StealingLocalWL.pop in *.
    pose proof (law_pop _ _ _ laws _ Hown) as [Hq Hp].
    destruct (wl_pop tid (StealingLocalWL.data s tid)) as [[v|] q];
      cbn [fst snd] in *.
    + rewrite He in Hp. now apply Permutation_nil_cons in Hp.
    + destruct Hp as [_ Hq'].
      change (StealingLocalWL.getNext
                {| StealingLocalWL.data := <[ tid := q ]> (StealingLocalWL.data s);
                   StealingLocalWL.workers := StealingLocalWL.workers s |} tid)
        with nxt.
      cbn [StealingLocalWL.data]. rewrite Hnt, fn_lookup_insert.
      pose proof (law_pop _ _ _ laws _ Hq) as [_ Hp'].
      destruct (wl_pop tid q) as [[v|] q']; cbn [fst snd] in *;
        [|reflexivity].
      rewrite Hq' in Hp'. now apply Permutation_nil_cons in Hp'.
  - intros Hnone. rewrite Hnone in Hit. destruct Hit as [He _].
    unfold StealingLocalWL.items in He.
    apply app_eq_nil in He as [He1 He2]. split; [assumption|].
    fold nxt in He2. destruct (decide (nxt = tid)) as [Heq|];
      [now rewrite Heq | assumption].
  - exact (SequentialFacts.conservation tid _ _
             (stealing_lawful tid inv_c items_c laws workers) ops).
Qed.

(** Worker 1 has pushed 42 and worker 0 nothing: the [pop] of worker 0
    returns 42, which it takes out of the queue of worker 1. *)
Lemma stealing_pop_steals_from_next_witness :
  let s := StealingLocalWL.stolen_from in
  let r := StealingLocalWL.pop 0 s in
  fst r = Some 42 /\
  FIFO.items (StealingLocalWL.data s 1) = [42] /\
  FIFO.items (StealingLocalWL.data s 1)
  ≡ₚ 42 :: FIFO.items (StealingLocalWL.data (snd r) 1) /\
  conserves (W := StealingLocalWL.worklist (ContainerTy := FIFO.t nat) 2) 0
    [Push 1; Push 2; Pop; Push 3].
Proof.
  intros s r.
  assert (Ho : FIFO.inv (StealingLocalWL.data s 0))
    by (vm_compute; discriminate).
  assert (Hn : FIFO.inv (StealingLocalWL.data s (StealingLocalWL.getNext s 0)))
    by (vm_compute; discriminate).
  pose proof (stealing_pop_steals_from_next 0 2 FIFO.inv FIFO.items s
                [Push 1; Push 2; Pop; Push 3] (FIFOFacts.fifo_lawful 0) Ho Hn)
    as (_ & _ & Hsteal & _ & _ & Hcons).
  cbn zeta in Hsteal.
  destruct (Hsteal eq_refl ltac:(vm_compute; discriminate)) as [_ Hfrom].
  change (StealingLocalWL.pop 0 s) with r in Hfrom.
  assert (Hr : fst r = Some 42) by reflexivity.
  rewrite Hr in Hfrom.
  split; [exact Hr|]. split; [reflexivity|]. split; [exact Hfrom|].
  exact Hcons.
Defined.

End StealingFacts.

(** ** Arrays of containers *)

Module SlotFacts.
Import WorkList.

Section Slots.
Context {T CTy : Type}.
Context (items_c : CTy -> list T).
Implicit Types (data : nat -> CTy).

Local Abbreviation all := (Slots.all_items items_c).

Lemma slots_ext size data data' :
  (forall i, i < size -> items_c (data i) = items_c (data' i)) ->
  all size data = all size data'.
Proof.
  intros H. unfold Slots.all_items. f_equal. apply map_ext_in.
  intros i Hi. apply in_seq in Hi. apply H. lia.
Qed.

Lemma slots_split size data i :
  i < size ->
  all size data
  = concat (map (fun j => items_c (data j)) (seq 0 i))
    ++ items_c (data i)
    ++ concat (map (fun j => items_c (data j)) (seq (S i) (size - S i))).
Proof.
  intros Hi. unfold Slots.all_items.
  replace size with (i + S (size - S i)) at 1 by lia.
  rewrite seq_app, map_app, concat_app. cbn [seq map concat Nat.add].
  reflexivity.
Qed.

Lemma slots_update size data i b :
  i < size ->
  all size (<[ i := b ]> data)
  = concat (map (fun j => items_c (data j)) (seq 0 i))
    ++ items_c b
    ++ concat (map (fun j => items_c (data j)) (seq (S i) (size - S i))).
Proof.
  intros Hi. rewrite (slots_split size _ i Hi), fn_lookup_insert.
  f_equal; [|f_equal]; f_equal; apply map_ext_in; intros j Hj;
    apply in_seq in Hj; rewrite fn_lookup_insert_ne by lia; reflexivity.
Qed.

Lemma slots_take size data i b v :
  i < size -> items_c (data i) ≡ₚ v :: items_c b ->
  all size data ≡ₚ v :: all size (<[ i := b ]> data).
Proof.
  intros Hi Hp.
  rewrite (slots_split size data i Hi), (slots_update size data i b Hi).
  rewrite Hp. symmetry. apply Permutation_middle.
Qed.

Lemma slots_put size data i b v :
  i < size -> items_c b ≡ₚ v :: items_c (data i) ->
  all size (<[ i := b ]> data) ≡ₚ v :: all size data.
Proof.
  intros Hi Hp.
  rewrite (slots_split size data i Hi), (slots_update size data i b Hi).
  rewrite Hp. symmetry. apply Permutation_middle.
Qed.

Lemma slots_same size data i b :
  items_c b = items_c (data i) ->
  all size (<[ i := b ]> data) = all size data.
Proof.
  intros He. apply slots_ext. intros j _.
  destruct (decide (i = j)) as [<-|Hne].
  - now rewrite fn_lookup_insert.
  - now rewrite fn_lookup_insert_ne.
Qed.

Lemma slots_nil size data :
  (forall i, i < size -> items_c (data i) = []) -> all size data = [].
Proof.
  intros H. unfold Slots.all_items.
  assert (Hs : forall l, (forall i, In i l -> i < size) ->
            concat (map (fun i => items_c (data i)) l) = []).
  { induction l as [|i l IH]; intros Hl; [reflexivity|].
    cbn [map concat]. rewrite (H i) by (apply Hl; now left).
    apply IH. intros j Hj. apply Hl. now right. }
  apply Hs. intros i Hi. apply in_seq in Hi. lia.
Qed.

Lemma slots_nil_inv size data i :
  all size data = [] -> i < size -> items_c (data i) = [].
Proof.
  intros Ha Hi. rewrite (slots_split size data i Hi) in Ha.
  apply app_eq_nil in Ha as [_ Ha]. now apply app_eq_nil in Ha as [Ha _].
Qed.

End Slots.

End SlotFacts.

(** ** The approximately ordered worklist *)

Module ApproxOBIMFacts.
Import WorkList SlotFacts.
Module A := ApproxOrderByIntegerMetric.

Lemma approx_slot_lt (z : Z) :
  (0 <= z < A.num)%Z -> A.slot z < Z.to_nat A.num.
Proof. unfold A.slot, A.num. lia. Qed.

Lemma approx_next_cursor (cur : Z) :
  (0 <= cur < A.num)%Z ->
  (MachineInt.wrap_unsigned (cur + 1) mod A.num = (cur + 1) mod A.num)%Z.
Proof.
  unfold A.num, MachineInt.wrap_unsigned. intros H.
  rewrite (Z.mod_small (cur + 1) (2 ^ 32)) by lia. reflexivity.
Qed.

Lemma mod_num_range (z : Z) : (0 <= z mod A.num < A.num)%Z.
Proof. apply Z.mod_pos_bound. unfold A.num. lia. Qed.

Section Generic.
Context {T CTy : Type} {W : WorkList CTy T}.
Context (Indexer : T -> Z) (concurrent : bool) (tid : nat).
Context (inv_c : CTy -> Prop) (items_c : CTy -> list T).
Hypothesis laws : Lawful tid inv_c items_c.
Implicit Types (data : nat -> CTy) (s : A.t CTy).

Local Abbreviation N := (Z.to_nat A.num).
Local Abbreviation all := (Slots.all_items items_c N).
Local Abbreviation keyed data :=
  (forall i, i < N ->
     Forall (fun v => A.bucket_of Indexer v = i) (items_c (data i))).

(** One attempt on slot [i], for [take] either [pop] or [try_pop] of the
    container. *)
Lemma take_slot
    (take : nat -> CTy -> option T * CTy)
    (take_law : forall q, inv_c q ->
       inv_c (snd (take tid q)) /\
       match fst (take tid q) with
       | Some v => items_c q ≡ₚ v :: items_c (snd (take tid q))
       | None => items_c q = [] /\ items_c (snd (take tid q)) = []
       end) data i :
  (forall j, j < N -> inv_c (data j)) -> keyed data -> i < N ->
  let r := take tid (data i) in
  let data' := <[ i := snd r ]> data in
  (forall j, j < N -> inv_c (data' j)) /\ keyed data' /\
  match fst r with
  | Some v => all data ≡ₚ v :: all data' /\ A.bucket_of Indexer v = i
  | None => items_c (data i) = [] /\ all data' = all data
  end.
Proof.
  intros Hinv Hkey Hi r data'.
  destruct (take_law _ (Hinv i Hi)) as [Hq Hp]. fold r in Hq, Hp.
  assert (Hk' : Forall (fun v => A.bucket_of Indexer v = i) (items_c (snd r))).
  { destruct (fst r) as [v|].
    - pose proof (Permutation_Forall Hp (Hkey i Hi)) as Hf.
      now apply Forall_cons in Hf as [_ Hf].
    - rewrite (proj2 Hp). constructor. }
  split; [|split].
  - intros j Hj. subst data'. destruct (decide (i = j)) as [<-|Hne].
    + now rewrite fn_lookup_insert.
    + rewrite fn_lookup_insert_ne by assumption. now apply Hinv.
  - intros j Hj. subst data'. destruct (decide (i = j)) as [<-|Hne].
    + now rewrite fn_lookup_insert.
    + rewrite fn_lookup_insert_ne by assumption. now apply Hkey.
  - destruct (fst r) as [v|].
    + split; [now apply slots_take|].
      pose proof (Permutation_Forall Hp (Hkey i Hi)) as Hf.
      now apply Forall_cons in Hf as [Hv _].
    + destruct Hp as [He He']. split; [assumption|].
      apply slots_same. congruence.
Qed.

(** The turns of the loop of [pop]: an item of the first bucket after the
    cursor, going round, that holds one. *)
Lemma approx_scan_spec n : forall cur data,
  (forall j, j < N -> inv_c (data j)) -> keyed data ->
  (0 <= cur < A.num)%Z ->
  let r := A.scan tid n cur data in
  (forall j, j < N -> inv_c (snd r j)) /\ keyed (snd r) /\
  (0 <= snd (fst r) < A.num)%Z /\
  match fst (fst r) with
  | Some v =>
      all data ≡ₚ v :: all (snd r) /\
      A.bucket_of Indexer v = A.slot (snd (fst r)) /\
      exists k, (1 <= k <= Z.of_nat n)%Z /\
        snd (fst r) = ((cur + k) mod A.num)%Z /\
        forall k', (1 <= k' < k)%Z ->
          items_c (data (A.slot ((cur + k') mod A.num))) = []
  | None =>
      all (snd r) = all data /\
      forall k, (1 <= k <= Z.of_nat n)%Z ->
        items_c (data (A.slot ((cur + k) mod A.num))) = []
  end.
Proof.
  induction n as [|n IH]; intros cur data Hinv Hkey Hcur; cbn [A.scan].
  - cbn [fst snd]. split; [assumption|]. split; [assumption|].
    split; [assumption|]. split; [reflexivity|]. intros k Hk. lia.
  - rewrite approx_next_cursor by assumption.
    set (c1 := ((cur + 1) mod A.num)%Z).
    assert (Hc1 : (0 <= c1 < A.num)%Z) by apply mod_num_range.
    pose proof (take_slot wl_try_pop (law_try_pop _ _ _ laws) data
                  (A.slot c1) Hinv Hkey (approx_slot_lt c1 Hc1)) as (Hi1 & Hk1 & Hp1).
    cbn zeta in Hi1, Hk1, Hp1.
    destruct (wl_try_pop tid (data (A.slot c1))) as [[v|] b'];
      cbn [fst snd] in *.
    + split; [assumption|]. split; [assumption|]. split; [assumption|].
      destruct Hp1 as [Hp1 Hb]. split; [assumption|]. split; [assumption|].
      exists 1%Z. split; [lia|]. split; [reflexivity|]. intros k' Hk'. lia.
    + destruct Hp1 as [He Hall].
      destruct (IH c1 _ Hi1 Hk1 Hc1) as (Hi2 & Hk2 & Hc2 & Hr).
      cbn zeta in Hi2, Hk2, Hc2, Hr.
      set (d1 := <[ A.slot c1 := b' ]> data) in *.
      assert (Hstep : forall k, ((c1 + k) mod A.num
                                 = (cur + (1 + k)) mod A.num)%Z).
      { intros k. subst c1. rewrite Z.add_mod_idemp_l by (unfold A.num; lia).
        f_equal. lia. }
      assert (Hsame : forall j, items_c (d1 j) = [] -> items_c (data j) = []).
      { intros j. subst d1. destruct (decide (A.slot c1 = j)) as [<-|Hne].
        - intros _. exact He.
        - now rewrite fn_lookup_insert_ne. }
      split; [assumption|]. split; [assumption|]. split; [assumption|].
      destruct (fst (fst (A.scan tid n c1 d1))) as [v|].
      * destruct Hr as (Hp & Hb & k & Hk & Hcur' & Hbefore).
        split; [now rewrite <- Hall|]. split; [assumption|].
        exists (1 + k)%Z. split; [lia|]. split; [now rewrite <- Hstep|].
        intros k' Hk'. destruct (Z.eq_dec k' 1%Z) as [->|Hne]; [exact He|].
        apply Hsame. replace k' with (1 + (k' - 1))%Z by lia.
        rewrite <- Hstep. apply Hbefore. lia.
      * destruct Hr as [Hall' Hempty]. split; [congruence|].
        intros k Hk. destruct (Z.eq_dec k 1%Z) as [->|Hne]; [exact He|].
        apply Hsame. replace k with (1 + (k - 1))%Z by lia.
        rewrite <- Hstep. apply Hempty. lia.
Qed.

Lemma approx_every_slot_visited (cur : Z) (i : nat) :
  (0 <= cur < A.num)%Z -> i < N ->
  exists k, (1 <= k <= Z.of_nat N)%Z /\ A.slot ((cur + k) mod A.num) = i.
Proof.
  unfold A.slot, A.num. intros Hc Hi.
  set (z := Z.of_nat i).
  assert (Hz : (0 <= z < 2048)%Z) by lia.
  destruct (Z.eq_dec ((z - cur) mod 2048)%Z 0%Z) as [H0|Hn0].
  - exists 2048%Z. split; [lia|].
    assert (Hzc : z = cur).
    { apply Z.mod_divide in H0; [|lia]. destruct H0 as [q Hq]. lia. }
    replace (cur + 2048)%Z with (cur + 1 * 2048)%Z by lia.
    rewrite Z.mod_add, Z.mod_small by lia. lia.
  - exists ((z - cur) mod 2048)%Z.
    pose proof (Z.mod_pos_bound (z - cur)%Z 2048%Z ltac:(lia)).
    split; [lia|].
    rewrite Z.add_mod_idemp_r by lia.
    replace (cur + (z - cur))%Z with z by lia.
    rewrite Z.mod_small by lia. lia.
Qed.

Local Abbreviation ainv := (A.inv Indexer concurrent inv_c items_c tid).
Local Abbreviation aitems := (A.items items_c).

Lemma approx_pop_spec s :
  ainv s ->
  let cur := A.cursor s (A.cursor_slot concurrent tid) in
  let r := A.pop concurrent tid s in
  ainv (snd r) /\
  match fst r with
  | Some v =>
      aitems s ≡ₚ v :: aitems (snd r) /\
      exists k, (0 <= k <= A.num)%Z /\
        A.bucket_of Indexer v = A.slot ((cur + k) mod A.num) /\
        forall k', (0 <= k' < k)%Z ->
          items_c (A.data s (A.slot ((cur + k') mod A.num))) = []
  | None => aitems s = [] /\ aitems (snd r) = []
  end.
Proof.
  intros (Hinv & Hkey & Hcur) cur r. subst r. unfold A.pop. fold cur.
  pose proof (take_slot wl_pop (law_pop _ _ _ laws) (A.data s)
                (A.slot cur) Hinv Hkey (approx_slot_lt cur Hcur)) as (Hi1 & Hk1 & Hp1).
  cbn zeta in Hi1, Hk1, Hp1.
  destruct (wl_pop tid (A.data s (A.slot cur))) as [[v|] b'];
    cbn [fst snd] in *.
  - split; [split; [|split]; assumption|].
    destruct Hp1 as [Hp1 Hb]. split; [exact Hp1|].
    exists 0%Z. split; [unfold A.num; lia|].
    rewrite Z.add_0_r, Z.mod_small by assumption.
    split; [assumption|]. intros k' Hk'. lia.
  - destruct Hp1 as [He Hall].
    set (d1 := <[ A.slot cur := b' ]> (A.data s)) in *.
    destruct (approx_scan_spec (Z.to_nat A.num) cur d1 Hi1 Hk1 Hcur)
      as (Hi2 & Hk2 & Hc2 & Hr).
    cbn zeta in Hi2, Hk2, Hc2, Hr.
    assert (Hsame : forall j, items_c (d1 j) = [] ->
              items_c (A.data s j) = []).
    { intros j. subst d1. destruct (decide (A.slot cur = j)) as [<-|Hne].
      - intros _. exact He.
      - now rewrite fn_lookup_insert_ne. }
    destruct (A.scan tid (Z.to_nat A.num) cur d1) as [[ret cur'] d2];
      cbn [fst snd] in *.
    unfold A.inv, A.items. cbn [A.data A.cursor].
    rewrite fn_lookup_insert.
    split; [split; [|split]; assumption|].
    destruct ret as [v|].
    + destruct Hr as (Hp & Hb & k & Hk & Hcur' & Hbefore).
      split; [now rewrite <- Hall|].
      exists k. split; [unfold A.num in *; lia|].
      split; [now rewrite <- Hcur'|].
      intros k' Hk'. destruct (Z.eq_dec k' 0%Z) as [->|Hne].
      * rewrite Z.add_0_r, Z.mod_small by assumption. exact He.
      * apply Hsame, Hbefore. lia.
    + destruct Hr as [Hall' Hempty].
      assert (Hnil : Slots.all_items items_c N d1 = []).
      { apply slots_nil. intros i Hi.
        destruct (approx_every_slot_visited cur i Hcur Hi) as (k & Hk & <-).
        apply Hempty. exact Hk. }
      split; [now rewrite <- Hall|]. now rewrite Hall'.
Qed.

Lemma approx_lawful :
  Lawful (W := A.worklist Indexer concurrent) tid ainv aitems.
Proof.
  split.
  - destruct (law_new _ _ _ laws) as [Hn He]. split.
    + split; [|split].
      * intros i _. exact Hn.
      * intros i _. cbn [wl_new A.worklist A.new A.data]. rewrite He.
        constructor.
      * cbn. unfold A.num. lia.
    + apply slots_nil. intros i _. exact He.
  - intros v s (Hinv & Hkey & Hcur).
    cbn [wl_push A.worklist]. unfold A.push, A.inv, A.items.
    cbn [A.data A.cursor].
    set (i := A.slot (MachineInt.wrap_unsigned (Indexer v) mod A.num)).
    assert (Hi : i < N) by apply approx_slot_lt, mod_num_range.
    destruct (law_push _ _ _ laws v _ (Hinv i Hi)) as [Hq Hp].
    split; [split; [|split]|].
    + intros j Hj. destruct (decide (i = j)) as [<-|Hne].
      * now rewrite fn_lookup_insert.
      * rewrite fn_lookup_insert_ne by assumption. now apply Hinv.
    + intros j Hj. destruct (decide (i = j)) as [<-|Hne].
      * rewrite fn_lookup_insert.
        apply (Permutation_Forall (Permutation_sym Hp)).
        constructor; [reflexivity|now apply Hkey].
      * rewrite fn_lookup_insert_ne by assumption. now apply Hkey.
    + assumption.
    + now apply slots_put.
  - intros s Hs. destruct (approx_pop_spec s Hs) as [Hi Hr].
    cbn zeta in Hi, Hr. split; [exact Hi|].
    cbn [wl_pop A.worklist].
    destruct (fst (A.pop concurrent tid s)); [exact (proj1 Hr)|exact Hr].
  - intros s Hs. destruct (approx_pop_spec s Hs) as [Hi Hr].
    cbn zeta in Hi, Hr. split; [exact Hi|].
    cbn [wl_try_pop A.worklist]. unfold A.try_pop.
    destruct (fst (A.pop concurrent tid s)); [exact (proj1 Hr)|exact Hr].
Qed.

End Generic.

(** X23: [ApproxOrderByIntegerMetric] keeps every item in the bucket of its
    index taken modulo 2048 as an [unsigned int], and its [pop] goes round
    the buckets: the item it returns comes from the first bucket that
    holds one, starting at the cursor of the calling worker and wrapping
    from bucket 2047 to bucket 0, and [pop] fails only when all 2048
    buckets are empty.  So for one worker no item is lost or repeated,
    whatever lawful container the buckets are. *)
Theorem approx_pop_goes_round {T CTy : Type} {W : WorkList CTy T}
    (Indexer : T -> Z) (concurrent : bool) (tid : nat)
    (inv_c : CTy -> Prop) (items_c : CTy -> list T)
    (s : ApproxOrderByIntegerMetric.t CTy) (ops : list (Op T)) :
  Lawful tid inv_c items_c ->
  ApproxOrderByIntegerMetric.inv Indexer concurrent inv_c items_c tid s ->
  let cur := ApproxOrderByIntegerMetric.cursor s
               (ApproxOrderByIntegerMetric.cursor_slot concurrent tid) in
  let r := ApproxOrderByIntegerMetric.pop concurrent tid s in
  ApproxOrderByIntegerMetric.inv Indexer concurrent inv_c items_c tid (snd r) /\
  match fst r with
  | Some v =>
      ApproxOrderByIntegerMetric.items items_c s
      ≡ₚ v :: ApproxOrderByIntegerMetric.items items_c (snd r) /\
      exists k, (0 <= k <= 2048)%Z /\
        ApproxOrderByIntegerMetric.bucket_of Indexer v
        = Z.to_nat ((cur + k) mod 2048) /\
        Z.of_nat (ApproxOrderByIntegerMetric.bucket_of Indexer v)
        = (MachineInt.wrap_unsigned (Indexer v) mod 2048)%Z /\
        forall k', (0 <= k' < k)%Z ->
          items_c (ApproxOrderByIntegerMetric.data s
                     (Z.to_nat ((cur + k') mod 2048))) = []
  | None => ApproxOrderByIntegerMetric.items items_c s = []
  end /\
  conserves (W := ApproxOrderByIntegerMetric.worklist (CTy := CTy)
                    Indexer concurrent) tid ops.
Proof.
  intros laws Hinv cur r.
  destruct (approx_pop_spec Indexer concurrent tid inv_c items_c laws s Hinv)
    as [Hi Hr].
  cbn zeta in Hi, Hr. fold r in Hi, Hr. fold cur in Hr.
  split; [exact Hi|]. split.
  - destruct (fst r) as [v|]; [|exact (proj1 Hr)].
    destruct Hr as (Hp & k & Hk & Hb & Hbefore).
    split; [exact Hp|]. exists k. split; [exact Hk|].
    split; [exact Hb|]. split; [|exact Hbefore].
    unfold ApproxOrderByIntegerMetric.bucket_of,
      ApproxOrderByIntegerMetric.slot.
    pose proof (mod_num_range (MachineInt.wrap_unsigned (Indexer v))) as Hm.
    unfold A.num in Hm. unfold ApproxOrderByIntegerMetric.num. lia.
  - exact (SequentialFacts.conservation tid _ _
             (approx_lawful Indexer concurrent tid inv_c items_c laws) ops).
Qed.

Lemma approx_pop_goes_round_witness :
  let W := ApproxOrderByIntegerMetric.worklist (CTy := FIFO.t Z)
             (fun v => v) true in
  let s := wl_push (WorkList := W) 0 5000%Z
             (wl_push (WorkList := W) 0 7%Z (wl_new (WorkList := W))) in
  fst (wl_pop (WorkList := W) 0 s) = Some 7%Z /\
  fst (wl_pop (WorkList := W) 0 (snd (wl_pop (WorkList := W) 0 s)))
  = Some 5000%Z /\
  conserves (W := W) 0 [Push 3%Z; Push 2051%Z; Pop; Push 1%Z; Pop; Pop].
Proof.
  intros W s.
  split; [vm_compute; reflexivity|]. split; [vm_compute; reflexivity|].
  assert (Hinv : ApproxOrderByIntegerMetric.inv (fun v => v) true
                   FIFO.inv FIFO.items 0 s).
  { apply (law_push _ _ _
             (approx_lawful (fun v => v) true 0 FIFO.inv FIFO.items
                (FIFOFacts.fifo_lawful 0))).
    apply (law_push _ _ _
             (approx_lawful (fun v => v) true 0 FIFO.inv FIFO.items
                (FIFOFacts.fifo_lawful 0))).
    apply (law_new _ _ _
             (approx_lawful (fun v => v) true 0 FIFO.inv FIFO.items
                (FIFOFacts.fifo_lawful 0))). }
  exact (proj2 (proj2 (approx_pop_goes_round (fun v => v) true 0
                         FIFO.inv FIFO.items s _
                         (FIFOFacts.fifo_lawful 0) Hinv))).
Defined.

End ApproxOBIMFacts.

(** ** The queue per writer with one reader *)

Module MPSCFacts.
Import WorkList SlotFacts.
Module M := MP_SC_FIFO.

Section Generic.
Context {T : Type} (size : nat).
Hypothesis size_pos : 0 < size.
Hypothesis size_int : (Z.of_nat size < 2 ^ 31)%Z.
Implicit Types (data : nat -> FIFO.t T) (s : M.t T).

Local Abbreviation all := (Slots.all_items (FIFO.items (T := T)) size).
Local Abbreviation zsize := (Z.of_nat size).

Lemma mp_next_cursor (cur : Z) :
  (0 <= cur < zsize)%Z ->
  Z.rem (MachineInt.wrap_int (cur + 1)) zsize = ((cur + 1) mod zsize)%Z.
Proof.
  intros H. rewrite MachineIntFacts.wrap_int_small by lia.
  apply Z.rem_mod_nonneg; lia.
Qed.

Lemma mp_slot_lt (z : Z) : (0 <= z < zsize)%Z -> M.slot z < size.
Proof. unfold M.slot. lia. Qed.

Lemma mp_every_slot_visited (cur : Z) (i : nat) :
  (0 <= cur < zsize)%Z -> i < size ->
  exists k, (1 <= k <= zsize)%Z /\ M.slot ((cur + k) mod zsize) = i.
Proof.
  unfold M.slot. intros Hc Hi.
  set (z := Z.of_nat i).
  assert (Hz : (0 <= z < zsize)%Z) by lia.
  destruct (Z.eq_dec ((z - cur) mod zsize)%Z 0%Z) as [H0|Hn0].
  - exists zsize. split; [lia|].
    assert (Hzc : z = cur).
    { destruct (Z_lt_le_dec z cur) as [Hlt|Hge].
      - rewrite <- (Z.mod_unique (z - cur) zsize (-1) (z - cur + zsize))
          in H0 by lia. lia.
      - rewrite Z.mod_small in H0 by lia. lia. }
    replace (cur + zsize)%Z with (cur + 1 * zsize)%Z by lia.
    rewrite Z.mod_add, Z.mod_small by lia. lia.
  - exists ((z - cur) mod zsize)%Z.
    pose proof (Z.mod_pos_bound (z - cur)%Z zsize ltac:(lia)).
    split; [lia|].
    rewrite Z.add_mod_idemp_r by lia.
    replace (cur + (z - cur))%Z with z by lia.
    rewrite Z.mod_small by lia. lia.
Qed.

(** The turns of the loop of [pop]: the oldest item of the first queue
    after the cursor, going round, that holds one. *)
Lemma mp_scan_spec n : forall cur data,
  (forall j, j < size -> FIFO.inv (data j)) ->
  (0 <= cur < zsize)%Z ->
  let r := M.scan size n cur data in
  (forall j, j < size -> FIFO.inv (snd r j)) /\
  (0 <= snd (fst r) < zsize)%Z /\
  match fst (fst r) with
  | Some v =>
      let i := M.slot (snd (fst r)) in
      FIFO.items (data i) = v :: FIFO.items (snd r i) /\
      (forall j, j <> i -> FIFO.items (snd r j) = FIFO.items (data j)) /\
      exists k, (1 <= k <= Z.of_nat n)%Z /\
        snd (fst r) = ((cur + k) mod zsize)%Z /\
        forall k', (1 <= k' < k)%Z ->
          FIFO.items (data (M.slot ((cur + k') mod zsize))) = []
  | None =>
      (forall j, FIFO.items (snd r j) = FIFO.items (data j)) /\
      forall k, (1 <= k <= Z.of_nat n)%Z ->
        FIFO.items (data (M.slot ((cur + k) mod zsize))) = []
  end.
Proof.
  induction n as [|n IH]; intros cur data Hinv Hcur; cbn [M.scan].
  - cbn [fst snd]. split; [assumption|]. split; [assumption|].
    split; [reflexivity|]. intros k Hk. lia.
  - rewrite mp_next_cursor by assumption.
    set (c1 := ((cur + 1) mod zsize)%Z).
    assert (Hc1 : (0 <= c1 < zsize)%Z) by (apply Z.mod_pos_bound; lia).
    pose proof (FIFOFacts.fifo_pop_spec (data (M.slot c1))
                  (Hinv _ (mp_slot_lt c1 Hc1))) as [Hq Hp].
    destruct (FIFO.pop (data (M.slot c1))) as [[v|] q]; cbn [fst snd] in *.
    + split.
      { intros j Hj. destruct (decide (M.slot c1 = j)) as [<-|Hne].
        - now rewrite fn_lookup_insert.
        - rewrite fn_lookup_insert_ne by assumption. now apply Hinv. }
      split; [assumption|]. cbn zeta. rewrite fn_lookup_insert.
      split; [assumption|]. split.
      { intros j Hj. now rewrite fn_lookup_insert_ne by congruence. }
      exists 1%Z. split; [lia|]. split; [reflexivity|]. intros k' Hk'. lia.
    + destruct Hp as [He He'].
      set (d1 := <[ M.slot c1 := q ]> data).
      assert (Hi1 : forall j, j < size -> FIFO.inv (d1 j)).
      { intros j Hj. subst d1. destruct (decide (M.slot c1 = j)) as [<-|Hne].
        - now rewrite fn_lookup_insert.
        - rewrite fn_lookup_insert_ne by assumption. now apply Hinv. }
      assert (Hsame : forall j, FIFO.items (d1 j) = FIFO.items (data j)).
      { intros j. subst d1. destruct (decide (M.slot c1 = j)) as [<-|Hne].
        - rewrite fn_lookup_insert. congruence.
        - now rewrite fn_lookup_insert_ne. }
      destruct (IH c1 d1 Hi1 Hc1) as (Hi2 & Hc2 & Hr).
      cbn zeta in Hi2, Hc2, Hr.
      assert (Hstep : forall k, ((c1 + k) mod zsize
                                 = (cur + (1 + k)) mod zsize)%Z).
      { intros k. subst c1. rewrite Z.add_mod_idemp_l by lia. f_equal. lia. }
      split; [assumption|]. split; [assumption|].
      destruct (fst (fst (M.scan size n c1 d1))) as [v|].
      * destruct Hr as (Hhd & Hoth & k & Hk & Hcur' & Hbefore).
        cbn zeta. split; [now rewrite <- Hsame|].
        split; [intros j Hj; now rewrite Hoth, Hsame|].
        exists (1 + k)%Z. split; [lia|]. split; [now rewrite <- Hstep|].
        intros k' Hk'. destruct (Z.eq_dec k' 1%Z) as [->|Hne]; [exact He|].
        rewrite <- Hsame. replace k' with (1 + (k' - 1))%Z by lia.
        rewrite <- Hstep. apply Hbefore. lia.
      * destruct Hr as [Hall' Hempty].
        split; [intros j; now rewrite Hall', Hsame|].
        intros k Hk. destruct (Z.eq_dec k 1%Z) as [->|Hne]; [exact He|].
        rewrite <- Hsame. replace k with (1 + (k - 1))%Z by lia.
        rewrite <- Hstep. apply Hempty. lia.
Qed.

Lemma mp_pop_spec s :
  M.inv size s ->
  let r := M.pop size s in
  M.inv size (snd r) /\
  match fst r with
  | Some v =>
      exists k, (0 <= k <= zsize)%Z /\
        M.cursor (snd r) = ((M.cursor s + k) mod zsize)%Z /\
        let i := M.slot (M.cursor (snd r)) in
        FIFO.items (M.data s i) = v :: FIFO.items (M.data (snd r) i) /\
        (forall j, j <> i ->
           FIFO.items (M.data (snd r) j) = FIFO.items (M.data s j)) /\
        forall k', (0 <= k' < k)%Z ->
          FIFO.items (M.data s (M.slot ((M.cursor s + k') mod zsize))) = []
  | None =>
      (forall j, j < size -> FIFO.items (M.data s j) = []) /\
      forall j, FIFO.items (M.data (snd r) j) = FIFO.items (M.data s j)
  end.
Proof.
  intros [Hinv Hcur] r. subst r. unfold M.pop.
  pose proof (FIFOFacts.fifo_pop_spec (M.data s (M.slot (M.cursor s)))
                (Hinv _ (mp_slot_lt _ Hcur))) as [Hq Hp].
  destruct (FIFO.pop (M.data s (M.slot (M.cursor s)))) as [[v|] q];
    cbn [fst snd] in *.
  - split.
    { split; [|assumption]. cbn [M.data]. intros j Hj.
      destruct (decide (M.slot (M.cursor s) = j)) as [<-|Hne].
      - now rewrite fn_lookup_insert.
      - rewrite fn_lookup_insert_ne by assumption. now apply Hinv. }
    exists 0%Z. split; [lia|]. cbn [M.cursor M.data].
    rewrite Z.add_0_r, Z.mod_small by assumption.
    split; [reflexivity|]. cbn zeta. rewrite fn_lookup_insert.
    split; [assumption|]. split.
    { intros j Hj. now rewrite fn_lookup_insert_ne by congruence. }
    intros k' Hk'. lia.
  - destruct Hp as [He He'].
    set (d1 := <[ M.slot (M.cursor s) := q ]> (M.data s)).
    assert (Hi1 : forall j, j < size -> FIFO.inv (d1 j)).
    { intros j Hj. subst d1.
      destruct (decide (M.slot (M.cursor s) = j)) as [<-|Hne].
      - now rewrite fn_lookup_insert.
      - rewrite fn_lookup_insert_ne by assumption. now apply Hinv. }
    assert (Hsame : forall j, FIFO.items (d1 j) = FIFO.items (M.data s j)).
    { intros j. subst d1.
      destruct (decide (M.slot (M.cursor s) = j)) as [<-|Hne].
      - rewrite fn_lookup_insert. congruence.
      - now rewrite fn_lookup_insert_ne. }
    destruct (mp_scan_spec size (M.cursor s) d1 Hi1 Hcur) as (Hi2 & Hc2 & Hr).
    cbn zeta in Hi2, Hc2, Hr.
    destruct (M.scan size size (M.cursor s) d1) as [[ret cur'] d2];
      cbn [fst snd] in *.
    split; [split; assumption|]. cbn [M.data M.cursor].
    destruct ret as [v|].
    + destruct Hr as (Hhd & Hoth & k & Hk & Hcur' & Hbefore).
      exists k. split; [lia|]. split; [assumption|]. cbn zeta.
      split; [now rewrite <- Hsame|].
      split; [intros j Hj; now rewrite Hoth, Hsame|].
      intros k' Hk'. destruct (Z.eq_dec k' 0%Z) as [->|Hne].
      * rewrite Z.add_0_r, Z.mod_small by assumption. exact He.
      * rewrite <- Hsame. apply Hbefore. lia.
    + destruct Hr as [Hall' Hempty]. split.
      * intros j Hj.
        destruct (mp_every_slot_visited (M.cursor s) j Hcur Hj) as (k & Hk & <-).
        rewrite <- Hsame. now apply Hempty.
      * intros j. now rewrite Hall', Hsame.
Qed.

Lemma mp_pop_law s :
  M.inv size s ->
  M.inv size (snd (M.pop size s)) /\
  match fst (M.pop size s) with
  | Some v => M.items size s ≡ₚ v :: M.items size (snd (M.pop size s))
  | None => M.items size s = [] /\ M.items size (snd (M.pop size s)) = []
  end.
Proof.
  intros Hs. destruct (mp_pop_spec s Hs) as [Hi Hr]. cbn zeta in Hi, Hr.
  split; [exact Hi|]. unfold M.items.
  destruct (fst (M.pop size s)) as [v|].
  - destruct Hr as (k & _ & _ & Hhd & Hoth & _).
    set (s' := snd (M.pop size s)) in *.
    set (i := M.slot (M.cursor s')) in *.
    assert (Hi' : i < size) by (apply mp_slot_lt, Hi).
    rewrite (slots_ext _ size (M.data s')
               (<[ i := M.data s' i ]> (M.data s))).
    + apply slots_take; [assumption|]. now rewrite Hhd.
    + intros j _. destruct (decide (i = j)) as [<-|Hne].
      * now rewrite fn_lookup_insert.
      * rewrite fn_lookup_insert_ne by assumption. now apply Hoth.
  - destruct Hr as [Hnil Hsame].
    split; [now apply slots_nil|].
    apply slots_nil. intros j Hj. rewrite Hsame. now apply Hnil.
Qed.

Lemma mp_lawful (tid : nat) :
  tid < size ->
  Lawful (T := T) (W := M.worklist size) tid (M.inv size) (M.items size).
Proof.
  intros Htid. split.
  - split.
    + split; [|cbn; lia]. intros i _. cbn. discriminate.
    + apply slots_nil. intros i _. reflexivity.
  - intros v s [Hinv Hcur].
    destruct (law_push _ _ _ (FIFOFacts.fifo_lawful tid) v _ (Hinv tid Htid))
      as [Hq Hp].
    cbn [wl_push M.worklist FIFO.worklist] in *.
    unfold M.push, M.inv, M.items. cbn [M.data M.cursor].
    split; [split; [|assumption]|].
    + intros j Hj. destruct (decide (tid = j)) as [<-|Hne].
      * now rewrite fn_lookup_insert.
      * rewrite fn_lookup_insert_ne by assumption. now apply Hinv.
    + now apply slots_put.
  - intros s Hs. exact (mp_pop_law s Hs).
  - intros s Hs. exact (mp_pop_law s Hs).
Qed.

End Generic.

(** X24: the reader of [MP_SC_FIFO] goes round the writers' queues: [pop]
    returns the oldest item of the first queue that holds one, starting at
    the queue the cursor points at and wrapping from the last worker to
    worker 0, leaves the cursor on that queue and the other queues as they
    are, and fails only when the queues of all the workers are empty.  So
    the items of one writer come out in the order it pushed them, and for
    one worker no item is lost or repeated.  There is at least one worker,
    and their number is an [int]. *)
Theorem mp_sc_reader_cycles {T : Type} (size tid : nat)
    (s : MP_SC_FIFO.t T) (ops : list (Op T)) :
  0 < size -> (Z.of_nat size < 2 ^ 31)%Z -> tid < size ->
  MP_SC_FIFO.inv size s ->
  let r := MP_SC_FIFO.pop size s in
  MP_SC_FIFO.inv size (snd r) /\
  match fst r with
  | Some v =>
      exists k, (0 <= k <= Z.of_nat size)%Z /\
        MP_SC_FIFO.cursor (snd r)
        = ((MP_SC_FIFO.cursor s + k) mod Z.of_nat size)%Z /\
        let i := Z.to_nat (MP_SC_FIFO.cursor (snd r)) in
        FIFO.items (MP_SC_FIFO.data s i)
        = v :: FIFO.items (MP_SC_FIFO.data (snd r) i) /\
        (forall j, j <> i ->
           FIFO.items (MP_SC_FIFO.data (snd r) j)
           = FIFO.items (MP_SC_FIFO.data s j)) /\
        forall k', (0 <= k' < k)%Z ->
          FIFO.items
            (MP_SC_FIFO.data s
               (Z.to_nat ((MP_SC_FIFO.cursor s + k') mod Z.of_nat size)))
          = []
  | None => forall j, j < size -> FIFO.items (MP_SC_FIFO.data s j) = []
  end /\
  conserves (W := MP_SC_FIFO.worklist (T := T) size) tid ops.
Proof.
  intros Hpos Hint Htid Hinv r.
  destruct (mp_pop_spec size Hpos Hint s Hinv) as [Hi Hr].
  cbn zeta in Hi, Hr. fold r in Hi, Hr.
  split; [exact Hi|]. split.
  - destruct (fst r) as [v|]; [exact Hr | exact (proj1 Hr)].
  - exact (SequentialFacts.conservation tid _ _
             (mp_lawful size Hpos Hint tid Htid) ops).
Qed.

Lemma mp_sc_reader_cycles_witness :
  let s := MP_SC_FIFO.push 1 8 (MP_SC_FIFO.push 2 9
             (MP_SC_FIFO.push 1 7 MP_SC_FIFO.new)) in
  fst (MP_SC_FIFO.pop 3 s) = Some 7 /\
  MP_SC_FIFO.cursor (snd (MP_SC_FIFO.pop 3 s)) = 1%Z /\
  conserves (W := MP_SC_FIFO.worklist (T := nat) 3) 0
    [Push 1; Push 2; Pop; Push 3; Pop].
Proof.
  intros s.
  split; [reflexivity|]. split; [reflexivity|].
  assert (Hinv : MP_SC_FIFO.inv 3 s).
  { pose proof (mp_lawful (T := nat) 3 ltac:(lia) ltac:(lia) 1 ltac:(lia))
      as L1.
    pose proof (mp_lawful (T := nat) 3 ltac:(lia) ltac:(lia) 2 ltac:(lia))
      as L2.
    apply (law_push _ _ _ L1). apply (law_push _ _ _ L2).
    apply (law_push _ _ _ L1). apply (law_new _ _ _ L1). }
  exact (proj2 (proj2 (mp_sc_reader_cycles 3 0 s _ ltac:(lia) ltac:(lia)
                         ltac:(lia) Hinv))).
Defined.

End MPSCFacts.

(** ** The logarithmically ordered worklist *)

Module LogOBIMFacts.
Import WorkList SlotFacts.
Module LO := LogOrderByIntegerMetric.
Local Open Scope Z_scope.

(** Items whose bins are in order have indices in order, up to a factor
    of two. *)
Lemma bins_within_factor_two (a b : Z) :
  0 <= a < 2 ^ 32 -> 0 <= b < 2 ^ 32 ->
  LO.getBin a <= LO.getBin b -> a = 0 \/ a < 2 * b.
Proof.
  intros Ha Hb Hbin.
  destruct (Z.eq_dec a 0) as [->|Hna]; [now left|]. right.
  rewrite (LogOrderByIntegerMetricFacts.getBin_log2 a) in Hbin by lia.
  destruct (Z.eq_dec b 0) as [->|Hnb].
  - cbn in Hbin. pose proof (Z.log2_nonneg a). lia.
  - rewrite (LogOrderByIntegerMetricFacts.getBin_log2 b) in Hbin by lia.
    pose proof (Z.log2_spec a ltac:(lia)) as [_ Hua].
    pose proof (Z.log2_spec b ltac:(lia)) as [Hlb _].
    assert (Hpow : 2 ^ Z.succ (Z.log2 a) <= 2 ^ Z.succ (Z.log2 b))
      by (apply Z.pow_le_mono_r; lia).
    rewrite (Z.pow_succ_r 2 (Z.log2 b)) in Hpow by apply Z.log2_nonneg.
    lia.
Qed.

Lemma bin_range (i : Z) : 0 <= LO.getBin (MachineInt.wrap_unsigned i) < LO.num.
Proof.
  assert (Hw : 0 <= MachineInt.wrap_unsigned i < 2 ^ 32)
    by (apply Z.mod_pos_bound; lia).
  destruct (LogOrderByIntegerMetricFacts.log_bins
              (MachineInt.wrap_unsigned i) (MachineInt.wrap_unsigned i)
              ltac:(lia) ltac:(lia)) as (H1 & H2 & _).
  lia.
Qed.

Section Generic.
Context {T CTy : Type} {W : WorkList CTy T}.
Context (Indexer : T -> Z) (concurrent : bool) (tid : nat).
Context (inv_c : CTy -> Prop) (items_c : CTy -> list T).
Hypothesis laws : Lawful tid inv_c items_c.
Implicit Types (data : nat -> CTy) (s : LO.t CTy).

Local Abbreviation N := (Z.to_nat LO.num).
Local Abbreviation all := (Slots.all_items items_c N).
Local Abbreviation keyed data :=
  (forall i, (i < N)%nat ->
     Forall (fun v => LO.slot (LO.bin_of Indexer v) = i) (items_c (data i))).

Lemma pop_slot data (i : nat) :
  (forall j, (j < N)%nat -> inv_c (data j)) -> keyed data -> (i < N)%nat ->
  let r := wl_pop tid (data i) in
  let data' := <[ i := snd r ]> data in
  (forall j, (j < N)%nat -> inv_c (data' j)) /\ keyed data' /\
  match fst r with
  | Some v =>
      all data ≡ₚ v :: all data' /\ LO.slot (LO.bin_of Indexer v) = i /\
      items_c (data i) <> []
  | None => items_c (data i) = [] /\ all data' = all data
  end.
Proof.
  intros Hinv Hkey Hi r data'.
  destruct (law_pop _ _ _ laws _ (Hinv i Hi)) as [Hq Hp]. fold r in Hq, Hp.
  assert (Hk' : Forall (fun v => LO.slot (LO.bin_of Indexer v) = i)
                  (items_c (snd r))).
  { destruct (fst r) as [v|].
    - pose proof (Permutation_Forall Hp (Hkey i Hi)) as Hf.
      now apply Forall_cons in Hf as [_ Hf].
    - rewrite (proj2 Hp). constructor. }
  split; [|split].
  - intros j Hj. subst data'. destruct (decide (i = j)) as [<-|Hne].
    + now rewrite fn_lookup_insert.
    + rewrite fn_lookup_insert_ne by assumption. now apply Hinv.
  - intros j Hj. subst data'. destruct (decide (i = j)) as [<-|Hne].
    + now rewrite fn_lookup_insert.
    + rewrite fn_lookup_insert_ne by assumption. now apply Hkey.
  - destruct (fst r) as [v|].
    + split; [now apply slots_take|]. split.
      * pose proof (Permutation_Forall Hp (Hkey i Hi)) as Hf.
        now apply Forall_cons in Hf as [Hv _].
      * intros He. rewrite He in Hp. now apply Permutation_nil_cons in Hp.
    + destruct Hp as [He He']. split; [assumption|].
      apply slots_same. congruence.
Qed.

(** The loop of [pop]: an item of the lowest bin, from [cur] on, that
    holds one. *)
Lemma log_scan_spec n : forall cur data,
  (forall j, (j < N)%nat -> inv_c (data j)) -> keyed data ->
  0 <= cur -> cur + Z.of_nat n <= LO.num ->
  let r := LO.scan tid n cur data in
  (forall j, (j < N)%nat -> inv_c (snd r j)) /\ keyed (snd r) /\
  match fst (fst r) with
  | Some v =>
      all data ≡ₚ v :: all (snd r) /\
      LO.bin_of Indexer v = snd (fst r) /\
      cur <= snd (fst r) < cur + Z.of_nat n /\
      forall c, cur <= c < snd (fst r) -> items_c (data (LO.slot c)) = []
  | None =>
      all (snd r) = all data /\
      forall c, cur <= c < cur + Z.of_nat n -> items_c (data (LO.slot c)) = []
  end.
Proof.
  induction n as [|n IH]; intros cur data Hinv Hkey Hcur Hn; cbn [LO.scan].
  - cbn [fst snd]. split; [assumption|]. split; [assumption|].
    split; [reflexivity|]. intros c Hc. lia.
  - assert (Hslot : (LO.slot cur < N)%nat) by (unfold LO.slot; lia).
    pose proof (pop_slot data (LO.slot cur) Hinv Hkey Hslot)
      as (Hi1 & Hk1 & Hp1).
    cbn zeta in Hi1, Hk1, Hp1.
    destruct (wl_pop tid (data (LO.slot cur))) as [[v|] b'];
      cbn [fst snd] in *.
    + split; [assumption|]. split; [assumption|].
      destruct Hp1 as (Hp1 & Hb & _). split; [assumption|].
      split.
      { pose proof (bin_range (Indexer v)) as Hr.
        unfold LO.bin_of, LO.slot in *. lia. }
      split; [lia|]. intros c Hc. lia.
    + destruct Hp1 as [He Hall].
      set (d1 := <[ LO.slot cur := b' ]> data) in *.
      destruct (IH (cur + 1) d1 Hi1 Hk1 ltac:(lia) ltac:(lia))
        as (Hi2 & Hk2 & Hr).
      cbn zeta in Hi2, Hk2, Hr.
      assert (Hsame : forall j, items_c (d1 j) = [] -> items_c (data j) = []).
      { intros j. subst d1. destruct (decide (LO.slot cur = j)) as [<-|Hne].
        - intros _. exact He.
        - now rewrite fn_lookup_insert_ne. }
      split; [assumption|]. split; [assumption|].
      destruct (fst (fst (LO.scan tid n (cur + 1) d1))) as [v|].
      * destruct Hr as (Hp & Hb & Hrange & Hbefore).
        split; [now rewrite <- Hall|]. split; [assumption|].
        split; [lia|]. intros c Hc.
        destruct (Z.eq_dec c cur) as [->|Hne]; [exact He|].
        apply Hsame, Hbefore. lia.
      * destruct Hr as [Hall' Hempty]. split; [congruence|].
        intros c Hc. destruct (Z.eq_dec c cur) as [->|Hne]; [exact He|].
        apply Hsame, Hempty. lia.
Qed.

Local Abbreviation linv := (LO.inv Indexer concurrent inv_c items_c tid).
Local Abbreviation litems := (LO.items items_c).

Lemma log_pop_spec s :
  linv s ->
  let cur := LO.cursor s (LO.cursor_slot concurrent tid) in
  let r := LO.pop concurrent tid s in
  linv (snd r) /\
  match fst r with
  | Some v =>
      litems s ≡ₚ v :: litems (snd r) /\
      (items_c (LO.data s (LO.slot cur)) <> [] ->
       LO.bin_of Indexer v = cur) /\
      (items_c (LO.data s (LO.slot cur)) = [] ->
       forall c, 0 <= c < LO.bin_of Indexer v ->
         items_c (LO.data s (LO.slot c)) = [])
  | None => litems s = [] /\ litems (snd r) = []
  end.
Proof.
  intros (Hinv & Hkey & Hcur) cur r. subst r. unfold LO.pop. fold cur.
  assert (Hslot : (LO.slot cur < N)%nat) by (unfold LO.slot; lia).
  pose proof (pop_slot (LO.data s) (LO.slot cur) Hinv Hkey Hslot)
    as (Hi1 & Hk1 & Hp1).
  cbn zeta in Hi1, Hk1, Hp1.
  destruct (wl_pop tid (LO.data s (LO.slot cur))) as [[v|] b'];
    cbn [fst snd] in *.
  - split; [split; [|split]; assumption|].
    destruct Hp1 as (Hp1 & Hb & Hne). split; [exact Hp1|]. split.
    + intros _. pose proof (bin_range (Indexer v)) as Hr.
      unfold LO.bin_of, LO.slot in *. lia.
    + intros He. contradiction.
  - destruct Hp1 as [He Hall].
    set (d1 := <[ LO.slot cur := b' ]> (LO.data s)) in *.
    destruct (log_scan_spec (Z.to_nat LO.num) 0 d1 Hi1 Hk1 ltac:(lia)
                ltac:(unfold LO.num; lia)) as (Hi2 & Hk2 & Hr).
    cbn zeta in Hi2, Hk2, Hr.
    assert (Hsame : forall j, items_c (d1 j) = [] ->
              items_c (LO.data s j) = []).
    { intros j. subst d1. destruct (decide (LO.slot cur = j)) as [<-|Hne].
      - intros _. exact He.
      - now rewrite fn_lookup_insert_ne. }
    destruct (LO.scan tid (Z.to_nat LO.num) 0 d1) as [[[v|] cur'] d2];
      cbn [fst snd] in *.
    + destruct Hr as (Hp & Hb & Hrange & Hbefore).
      unfold LO.inv, LO.items. cbn [LO.data LO.cursor].
      rewrite fn_lookup_insert.
      split; [split; [|split]; [assumption|assumption|unfold LO.num in *; lia]|].
      split; [now rewrite <- Hall|]. split; [intros Hne; contradiction|].
      intros _ c Hc. apply Hsame, Hbefore. lia.
    + destruct Hr as [Hall' Hempty].
      unfold LO.inv, LO.items. cbn [LO.data LO.cursor].
      rewrite fn_lookup_insert.
      split; [split; [|split]; [assumption|assumption|unfold LO.num; lia]|].
      assert (Hnil : Slots.all_items items_c N d1 = []).
      { apply slots_nil. intros i Hi.
        replace i with (LO.slot (Z.of_nat i)) by (unfold LO.slot; lia).
        apply Hempty. lia. }
      split; [now rewrite <- Hall|]. now rewrite Hall'.
Qed.

Lemma log_lawful :
  Lawful (W := LO.worklist Indexer concurrent) tid linv litems.
Proof.
  split.
  - destruct (law_new _ _ _ laws) as [Hn He]. split.
    + split; [|split].
      * intros i _. exact Hn.
      * intros i _. cbn [wl_new LO.worklist LO.new LO.data]. rewrite He.
        constructor.
      * cbn. unfold LO.num. lia.
    + apply slots_nil. intros i _. exact He.
  - intros v s (Hinv & Hkey & Hcur).
    cbn [wl_push LO.worklist]. unfold LO.push, LO.inv, LO.items.
    cbn [LO.data LO.cursor].
    fold (LO.bin_of Indexer v).
    set (i := LO.slot (LO.bin_of Indexer v)).
    assert (Hi : (i < N)%nat).
    { subst i. pose proof (bin_range (Indexer v)).
      unfold LO.slot, LO.bin_of. lia. }
    destruct (law_push _ _ _ laws v _ (Hinv i Hi)) as [Hq Hp].
    split; [split; [|split]|].
    + intros j Hj. destruct (decide (i = j)) as [<-|Hne].
      * now rewrite fn_lookup_insert.
      * rewrite fn_lookup_insert_ne by assumption. now apply Hinv.
    + intros j Hj. destruct (decide (i = j)) as [<-|Hne].
      * rewrite fn_lookup_insert.
        apply (Permutation_Forall (Permutation_sym Hp)).
        constructor; [reflexivity|now apply Hkey].
      * rewrite fn_lookup_insert_ne by assumption. now apply Hkey.
    + assumption.
    + now apply slots_put.
  - intros s Hs. destruct (log_pop_spec s Hs) as [Hi Hr].
    cbn zeta in Hi, Hr. split; [exact Hi|].
    cbn [wl_pop LO.worklist].
    destruct (fst (LO.pop concurrent tid s)); [exact (proj1 Hr)|exact Hr].
  - intros s Hs. destruct (log_pop_spec s Hs) as [Hi Hr].
    cbn zeta in Hi, Hr. split; [exact Hi|].
    cbn [wl_try_pop LO.worklist]. unfold LO.try_pop.
    destruct (fst (LO.pop concurrent tid s)); [exact (proj1 Hr)|exact Hr].
Qed.

End Generic.

Lemma all_items_in {T CTy : Type} (items_c : CTy -> list T) (size : nat)
    (data : nat -> CTy) (w : T) :
  In w (Slots.all_items items_c size data) ->
  exists i, (i < size)%nat /\ In w (items_c (data i)).
Proof.
  unfold Slots.all_items. intros Hin.
  apply in_concat in Hin as (l & Hl & Hw).
  apply in_map_iff in Hl as (i & <- & Hi). apply in_seq in Hi.
  exists i. split; [lia|assumption].
Qed.

(** X25: [LogOrderByIntegerMetric] keeps every item in the bin of the bit
    length of its index, and its [pop] takes from the bin of the calling
    worker's cursor while that bin holds an item; when it does not, [pop]
    takes from the lowest bin that holds one, so that the index of the item
    it returns is 0 or less than twice the index of any item in the
    worklist.  [pop] fails only when all 33 bins are empty, and for one
    worker no item is lost or repeated, whatever lawful container the bins
    are. *)
Theorem log_pop_lowest_bin {T CTy : Type} {W : WorkList CTy T}
    (Indexer : T -> Z) (concurrent : bool) (tid : nat)
    (inv_c : CTy -> Prop) (items_c : CTy -> list T)
    (s : LogOrderByIntegerMetric.t CTy) (ops : list (Op T)) :
  Lawful tid inv_c items_c ->
  LogOrderByIntegerMetric.inv Indexer concurrent inv_c items_c tid s ->
  let index v := MachineInt.wrap_unsigned (Indexer v) in
  let cur := LogOrderByIntegerMetric.cursor s
               (LogOrderByIntegerMetric.cursor_slot concurrent tid) in
  let r := LogOrderByIntegerMetric.pop concurrent tid s in
  LogOrderByIntegerMetric.inv Indexer concurrent inv_c items_c tid (snd r) /\
  match fst r with
  | Some v =>
      LogOrderByIntegerMetric.items items_c s
      ≡ₚ v :: LogOrderByIntegerMetric.items items_c (snd r) /\
      (items_c (LogOrderByIntegerMetric.data s (Z.to_nat cur)) <> [] ->
       LogOrderByIntegerMetric.getBin (index v) = cur) /\
      (items_c (LogOrderByIntegerMetric.data s (Z.to_nat cur)) = [] ->
       forall w, In w (LogOrderByIntegerMetric.items items_c s) ->
         LogOrderByIntegerMetric.getBin (index v)
         <= LogOrderByIntegerMetric.getBin (index w) /\
         (index v = 0 \/ index v < 2 * index w))
  | None => LogOrderByIntegerMetric.items items_c s = []
  end /\
  conserves (W := LogOrderByIntegerMetric.worklist (CTy := CTy)
                    Indexer concurrent) tid ops.
Proof.
  intros laws Hinv index cur r.
  destruct (log_pop_spec Indexer concurrent tid inv_c items_c laws s Hinv)
    as [Hi Hr].
  cbn zeta in Hi, Hr. fold r in Hi, Hr. fold cur in Hr.
  split; [exact Hi|]. split.
  - destruct (fst r) as [v|]; [|exact (proj1 Hr)].
    destruct Hr as (Hp & Hcursor & Hlow).
    split; [exact Hp|]. split; [exact Hcursor|].
    intros He w Hw.
    assert (Hle : LO.getBin (index v) <= LO.getBin (index w)).
    { destruct (Z_le_gt_dec (LO.getBin (index v)) (LO.getBin (index w)))
        as [Hle|Hgt]; [assumption|exfalso].
      destruct Hinv as (_ & Hkey & _).
      apply all_items_in in Hw as (i & Hi' & Hw).
      pose proof (proj1 (List.Forall_forall _ _) (Hkey i Hi') w Hw) as Hbin.
      pose proof (bin_range (Indexer w)) as Hrange.
      cbv beta in Hbin. rewrite <- Hbin in Hw.
      rewrite (Hlow He (LO.bin_of Indexer w)) in Hw.
      - destruct Hw.
      - unfold LO.bin_of. subst index. cbv beta in Hgt. lia. }
    split; [assumption|].
    apply bins_within_factor_two; try assumption;
      apply Z.mod_pos_bound; lia.
  - exact (SequentialFacts.conservation tid _ _
             (log_lawful Indexer concurrent tid inv_c items_c laws) ops).
Qed.

Lemma log_pop_lowest_bin_witness :
  let W := LogOrderByIntegerMetric.worklist (CTy := FIFO.t Z)
             (fun v => v) true in
  let s := wl_push (WorkList := W) 0 5
             (wl_push (WorkList := W) 0 100 (wl_new (WorkList := W))) in
  fst (wl_pop (WorkList := W) 0 s) = Some 5 /\
  conserves (W := W) 0 [Push 9; Push 2; Pop; Push 0; Pop; Pop].
Proof.
  intros W s. split; [vm_compute; reflexivity|].
  pose proof (log_lawful (fun v => v) true 0 FIFO.inv FIFO.items
                (FIFOFacts.fifo_lawful 0)) as L.
  assert (Hinv : LogOrderByIntegerMetric.inv (fun v => v) true
                   FIFO.inv FIFO.items 0 s).
  { apply (law_push _ _ _ L). apply (law_push _ _ _ L).
    apply (law_new _ _ _ L). }
  exact (proj2 (proj2 (log_pop_lowest_bin (fun v => v) true 0
                         FIFO.inv FIFO.items s _
                         (FIFOFacts.fifo_lawful 0) Hinv))).
Defined.

End LogOBIMFacts.

(** ** The worklist with a filtered local queue *)

Module LocalFilterFacts.
Import WorkList.
Module LF := LocalFilter.

Section Generic.
Context {T LocalTy GlobalTy : Type}.
Context {WL : WorkList LocalTy T} {WG : WorkList GlobalTy T}.
Context (Indexer : T -> Z) (tid : nat).
Context (inv_l : LocalTy -> Prop) (items_l : LocalTy -> list T).
Context (inv_g : GlobalTy -> Prop) (items_g : GlobalTy -> list T).
Hypothesis laws_l : Lawful tid inv_l items_l.
Hypothesis laws_g : Lawful tid inv_g items_g.
Implicit Types (s : LF.t LocalTy GlobalTy).

Local Abbreviation finv := (LF.inv Indexer inv_l items_l inv_g tid).
Local Abbreviation fitems := (LF.items items_l items_g tid).
Local Abbreviation mine s := (LF.Q (LF.localQs s tid)).
Local Abbreviation cur s := (LF.current (LF.localQs s tid)).

Lemma filter_push_spec v s :
  finv s ->
  let s' := LF.push Indexer tid v s in
  finv s' /\ cur s' = cur s /\
  if (LF.index_of Indexer v <=? cur s)%Z
  then items_l (mine s') ≡ₚ v :: items_l (mine s) /\
       LF.globalQ s' = LF.globalQ s
  else items_g (LF.globalQ s') ≡ₚ v :: items_g (LF.globalQ s) /\
       LF.localQs s' = LF.localQs s.
Proof.
  intros (Hl & Hg & Hf) s'. subst s'. unfold LF.push, LF.inv.
  destruct (Z.leb_spec (LF.index_of Indexer v) (cur s)) as [Hle|Hgt].
  - destruct (law_push _ _ _ laws_l v _ Hl) as [Hl' Hp].
    cbn [LF.globalQ LF.localQs]. rewrite fn_lookup_insert.
    cbn [LF.Q LF.current].
    split; [|split; [reflexivity|split; [assumption|reflexivity]]].
    split; [assumption|]. split; [assumption|].
    apply (Permutation_Forall (Permutation_sym Hp)).
    constructor; assumption.
  - destruct (law_push _ _ _ laws_g v _ Hg) as [Hg' Hp].
    cbn [LF.globalQ LF.localQs].
    split; [|split; [reflexivity|split; [assumption|reflexivity]]].
    split; [assumption|]. split; assumption.
Qed.

Lemma filter_pop_spec s :
  finv s ->
  let r := LF.pop Indexer tid s in
  finv (snd r) /\
  match fst r with
  | Some v =>
      (items_l (mine s) <> [] ->
       items_l (mine s) ≡ₚ v :: items_l (mine (snd r)) /\
       items_g (LF.globalQ (snd r)) = items_g (LF.globalQ s) /\
       cur (snd r) = cur s /\ (LF.index_of Indexer v <= cur s)%Z) /\
      (items_l (mine s) = [] ->
       items_g (LF.globalQ s) ≡ₚ v :: items_g (LF.globalQ (snd r)) /\
       items_l (mine (snd r)) = [] /\
       cur (snd r) = LF.index_of Indexer v)
  | None =>
      items_l (mine s) = [] /\ items_g (LF.globalQ s) = [] /\
      items_l (mine (snd r)) = [] /\ items_g (LF.globalQ (snd r)) = []
  end.
Proof.
  intros (Hl & Hg & Hf) r. subst r. unfold LF.pop, LF.inv.
  pose proof (law_pop _ _ _ laws_l _ Hl) as [Hl' Hp].
  destruct (wl_pop tid (mine s)) as [[v|] q]; cbn [fst snd] in *.
  - cbn [LF.globalQ LF.localQs]. rewrite fn_lookup_insert.
    cbn [LF.Q LF.current].
    pose proof (Permutation_Forall Hp Hf) as Hf'.
    apply Forall_cons in Hf' as [Hv Hf'].
    split; [split; [|split]; assumption|]. split.
    + intros _. split; [assumption|]. split; [reflexivity|].
      split; [reflexivity|assumption].
    + intros He. rewrite He in Hp. now apply Permutation_nil_cons in Hp.
  - destruct Hp as [He He']. cbn [LF.globalQ LF.localQs].
    pose proof (law_pop _ _ _ laws_g _ Hg) as [Hg' Hpg].
    destruct (wl_pop tid (LF.globalQ s)) as [[v|] g]; cbn [fst snd] in *.
    + cbn [LF.globalQ LF.localQs]. rewrite !fn_lookup_insert.
      cbn [LF.Q LF.current].
      split.
      { split; [assumption|]. split; [assumption|]. rewrite He'.
        constructor. }
      split; [intros Hne; contradiction|].
      intros _. split; [assumption|]. split; [assumption|reflexivity].
    + cbn [LF.globalQ LF.localQs]. rewrite fn_lookup_insert.
      cbn [LF.Q LF.current]. destruct Hpg as [Hge Hge'].
      split.
      { split; [assumption|]. split; [assumption|]. rewrite He'.
        constructor. }
      split; [assumption|]. split; [assumption|]. split; assumption.
Qed.

Lemma filter_lawful :
  Lawful (W := LF.worklist Indexer) tid finv fitems.
Proof.
  assert (Hpop : forall s, finv s ->
            finv (snd (LF.pop Indexer tid s)) /\
            match fst (LF.pop Indexer tid s) with
            | Some v => fitems s ≡ₚ v :: fitems (snd (LF.pop Indexer tid s))
            | None => fitems s = [] /\
                      fitems (snd (LF.pop Indexer tid s)) = []
            end).
  { intros s Hs. destruct (filter_pop_spec s Hs) as [Hi Hr].
    cbn zeta in Hi, Hr. split; [exact Hi|]. unfold LF.items.
    destruct (fst (LF.pop Indexer tid s)) as [v|].
    - destruct Hr as [Hloc Hglob].
      destruct (items_l (mine s)) as [|x l] eqn:El.
      + destruct (Hglob eq_refl) as (Hp & He & _). rewrite He. exact Hp.
      + destruct (Hloc ltac:(discriminate)) as (Hp & Hg & _).
        rewrite Hg, Hp. reflexivity.
    - destruct Hr as (H1 & H2 & H3 & H4). rewrite H1, H2, H3, H4.
      split; reflexivity. }
  split.
  - destruct (law_new _ _ _ laws_l) as [Hl He].
    destruct (law_new _ _ _ laws_g) as [Hg He'].
    split.
    + split; [exact Hl|]. split; [exact Hg|].
      cbn [wl_new LF.worklist LF.new LF.localQs LF.Q]. rewrite He.
      constructor.
    + unfold LF.items. cbn [wl_new LF.worklist LF.new LF.localQs LF.Q
                              LF.globalQ]. now rewrite He, He'.
  - intros v s Hs. destruct (filter_push_spec v s Hs) as (Hi & _ & Hr).
    cbn zeta in Hi, Hr. split; [exact Hi|].
    cbn [wl_push LF.worklist]. unfold LF.items.
    destruct (LF.index_of Indexer v <=? cur s)%Z.
    + destruct Hr as [Hp ->]. now rewrite Hp.
    + destruct Hr as [Hp ->]. rewrite Hp. symmetry.
      apply Permutation_middle.
  - exact Hpop.
  - exact Hpop.
Qed.

End Generic.

(** X26: [LocalFilter] keeps in a worker's local queue only items whose
    index is not beyond [current], the index of the last item the worker
    took from the global queue: [push] puts an item there when its index
    is at most [current] and on the global queue otherwise; [pop] takes
    from the local queue while it holds an item, and else from the global
    queue, making the index of that item the new [current]; it fails only
    when both hold nothing.  So for one worker no item is lost or
    repeated, whatever lawful containers the two queues are. *)
Theorem local_filter_keeps_low_items
    {T LocalTy GlobalTy : Type}
    {WL : WorkList LocalTy T} {WG : WorkList GlobalTy T}
    (Indexer : T -> Z) (tid : nat)
    (inv_l : LocalTy -> Prop) (items_l : LocalTy -> list T)
    (inv_g : GlobalTy -> Prop) (items_g : GlobalTy -> list T)
    (s : LocalFilter.t LocalTy GlobalTy) (val : T) (ops : list (Op T)) :
  Lawful tid inv_l items_l -> Lawful tid inv_g items_g ->
  LocalFilter.inv Indexer inv_l items_l inv_g tid s ->
  let local s := LocalFilter.Q (LocalFilter.localQs s tid) in
  let current s := LocalFilter.current (LocalFilter.localQs s tid) in
  let pushed := LocalFilter.push Indexer tid val s in
  let r := LocalFilter.pop Indexer tid s in
  Forall (fun v => (LocalFilter.index_of Indexer v <= current s)%Z)
         (items_l (local s)) /\
  (LocalFilter.inv Indexer inv_l items_l inv_g tid pushed /\
   current pushed = current s /\
   if (LocalFilter.index_of Indexer val <=? current s)%Z
   then items_l (local pushed) ≡ₚ val :: items_l (local s) /\
        LocalFilter.globalQ pushed = LocalFilter.globalQ s
   else items_g (LocalFilter.globalQ pushed)
        ≡ₚ val :: items_g (LocalFilter.globalQ s) /\
        LocalFilter.localQs pushed = LocalFilter.localQs s) /\
  (LocalFilter.inv Indexer inv_l items_l inv_g tid (snd r) /\
   match fst r with
   | Some v =>
       (items_l (local s) <> [] ->
        items_l (local s) ≡ₚ v :: items_l (local (snd r)) /\
        items_g (LocalFilter.globalQ (snd r))
        = items_g (LocalFilter.globalQ s) /\
        current (snd r) = current s /\
        (LocalFilter.index_of Indexer v <= current s)%Z) /\
       (items_l (local s) = [] ->
        items_g (LocalFilter.globalQ s)
        ≡ₚ v :: items_g (LocalFilter.globalQ (snd r)) /\
        items_l (local (snd r)) = [] /\
        current (snd r) = LocalFilter.index_of Indexer v)
   | None =>
       items_l (local s) = [] /\ items_g (LocalFilter.globalQ s) = []
   end) /\
  conserves (W := LocalFilter.worklist (LocalTy := LocalTy)
                    (GlobalTy := GlobalTy) Indexer) tid ops.
Proof.
  intros laws_l laws_g Hinv local current pushed r.
  split; [exact (proj2 (proj2 Hinv))|]. split; [|split].
  - exact (filter_push_spec Indexer tid inv_l items_l inv_g items_g
             laws_l laws_g val s Hinv).
  - destruct (filter_pop_spec Indexer tid inv_l items_l inv_g items_g
                laws_l laws_g s Hinv) as [Hi Hr].
    cbn zeta in Hi, Hr. fold r in Hi, Hr. split; [exact Hi|].
    destruct (fst r) as [v|]; [exact Hr|].
    destruct Hr as (H1 & H2 & _). split; assumption.
  - exact (SequentialFacts.conservation tid _ _
             (filter_lawful Indexer tid inv_l items_l inv_g items_g
                laws_l laws_g) ops).
Qed.

Lemma local_filter_keeps_low_items_witness :
  let W := LocalFilter.worklist (LocalTy := LIFO.t Z) (GlobalTy := FIFO.t Z)
             (fun v => v) in
  fst (run_ops (W := W) 0 [Push 5%Z; Pop; Push 3%Z; Push 9%Z; Pop; Pop]
         wl_new) = [5%Z; 3%Z; 9%Z] /\
  conserves (W := W) 0 [Push 5%Z; Pop; Push 3%Z; Push 9%Z; Pop].
Proof.
  intros W. split; [vm_compute; reflexivity|].
  pose proof (filter_lawful (fun v => v) 0 (fun _ => True) LIFO.items
                FIFO.inv FIFO.items (LIFOFacts.lifo_lawful 0)
                (FIFOFacts.fifo_lawful 0)) as L.
  exact (proj2 (proj2 (proj2
           (local_filter_keeps_low_items (fun v => v) 0
              (fun _ => True) LIFO.items FIFO.inv FIFO.items wl_new 0%Z _
              (LIFOFacts.lifo_lawful 0) (FIFOFacts.fifo_lawful 0)
              (proj1 (law_new _ _ _ L)))))).
Defined.

End LocalFilterFacts.

(** ** The VF2 search *)

Module VF2Facts.
Import SubgraphIsomorphism.
Local Open Scope Z_scope.

Lemma in_order_elem (s : gset nat) (x : nat) : x ∈ VF2.in_order s <-> x ∈ s.
Proof.
  unfold VF2.in_order. rewrite merge_sort_Permutation. apply elem_of_elements.
Qed.

Lemma insertTracked_spec (M : gset nat) (nghs : list nat) :
  forall (F : gset nat) (A : list nat),
    let r := VF2.insertTracked M nghs (F, A) in
    F ⊆ fst r /\
    (forall x, x ∈ fst r -> x ∈ F \/ (x ∈ nghs /\ x ∉ M)).
Proof.
  induction nghs as [|n nghs IH]; intros F A; cbn [VF2.insertTracked foldl].
  - cbn [fst]. split; [reflexivity|]. intros x Hx. now left.
  - fold (VF2.insertTracked M nghs).
    destruct (negb (bool_decide (n ∈ M)) && negb (bool_decide (n ∈ F))) eqn:E.
    + apply andb_true_iff in E as [E1 _].
      apply negb_true_iff, bool_decide_eq_false in E1.
      destruct (IH ({[ n ]} ∪ F) (A ++ [n])) as [Hsub Hin]. cbn zeta in *.
      split; [intros x Hx; apply Hsub, elem_of_union; now right|].
      intros x Hx. destruct (Hin x Hx) as [Hx'|[Hx' Hm]].
      * apply elem_of_union in Hx' as [Hx'|Hx']; [|now left].
        apply elem_of_singleton in Hx' as ->. right.
        split; [apply list_elem_of_here|assumption].
      * right. split; [now apply list_elem_of_further|assumption].
    + destruct (IH F A) as [Hsub Hin]. cbn zeta in *.
      split; [assumption|].
      intros x Hx. destruct (Hin x Hx) as [Hx'|[Hx' Hm]]; [now left|].
      right. split; [now apply list_elem_of_further|assumption].
Qed.

Lemma insertUntracked_spec (M : gset nat) (nghs : list nat) :
  forall (F : gset nat) x,
    x ∈ VF2.insertUntracked M nghs F -> x ∈ F \/ (x ∈ nghs /\ x ∉ M).
Proof.
  induction nghs as [|n nghs IH]; intros F x; cbn [VF2.insertUntracked foldl].
  - intros Hx. now left.
  - fold (VF2.insertUntracked M nghs).
    destruct (bool_decide (n ∈ M)) eqn:E; cbn [negb]; intros Hx.
    + destruct (IH F x Hx) as [Hx'|[Hx' Hm]]; [now left|].
      right. split; [now apply list_elem_of_further|assumption].
    + apply bool_decide_eq_false in E.
      destruct (IH _ x Hx) as [Hx'|[Hx' Hm]].
      * apply elem_of_union in Hx' as [Hx'|Hx']; [|now left].
        apply elem_of_singleton in Hx' as ->. right.
        split; [apply list_elem_of_here|assumption].
      * right. split; [now apply list_elem_of_further|assumption].
Qed.

Lemma erase_all_subseteq (A : list nat) : forall (F : gset nat),
  VF2.erase_all A F ⊆ F.
Proof.
  induction A as [|a A IH]; intros F; cbn [VF2.erase_all foldl].
  - reflexivity.
  - fold (VF2.erase_all A). etransitivity; [apply IH|].
    intros x Hx. now apply elem_of_difference in Hx as [Hx _].
Qed.

Section Search.
Variable gD gQ : Graph nat.
Variable edgesD in_edgesD edgesQ in_edgesQ : nat -> list nat.
Variable undirected : bool.
Variable kFound : Z.

Local Abbreviation Pair := (NodeMatch nat nat).
Local Abbreviation State := (@SearchState nat nat).
Local Abbreviation closedQ := (VF2.closed gQ edgesQ in_edgesQ).
Local Abbreviation J := (VF2.matching_inv gD gQ edgesQ in_edgesQ).
Local Abbreviation K := (VF2.state_inv gQ edgesQ in_edgesQ).
Local Abbreviation joinable := (isJoinable gD gQ undirected).
Local Abbreviation search :=
  (VF2.doSearch gD gQ edgesD in_edgesD edgesQ in_edgesQ undirected kFound).
Local Abbreviation loop :=
  (VF2.search_refined gD gQ edgesD in_edgesD undirected kFound).

Lemma vf2_candidate_spec q d :
  d ∈ VF2.candidate gD gQ q ->
  label gQ q = label gD d /\
  (has_edge gQ q q = true -> has_edge gD d d = true).
Proof.
  unfold VF2.candidate. rewrite merge_sort_Permutation.
  rewrite list_elem_of_In, filter_In. intros [_ H].
  destruct (label gQ q =? label gD d) eqn:El; [|discriminate H].
  apply Z.eqb_eq in El. split; [assumption|]. intros He.
  rewrite He in H. now destruct (has_edge gD d d).
Qed.

Lemma vf2_refine_candidate q ls r :
  In r (VF2.refineCandidates gD gQ edgesD in_edgesD edgesQ in_edgesQ
          undirected q ls) ->
  r ∈ VF2.candidate gD gQ q.
Proof.
  unfold VF2.refineCandidates. rewrite filter_In. intros [_ H].
  unfold VF2.binary_search in H.
  destruct (bool_decide (r ∈ VF2.candidate gD gQ q)) eqn:E;
    [now apply bool_decide_eq_true in E | discriminate H].
Qed.

Lemma next_fresh ls (m : list Pair) q :
  K ls m -> VF2.nextQueryNode gQ ls m = Some q ->
  ~ In q (map nQ m) /\ (closedQ -> In q (nodes gQ)).
Proof.
  intros (HM & Hdis & Hnodes). unfold VF2.nextQueryNode.
  destruct (VF2.in_order (VF2.qFrontier ls)) as [|x l] eqn:E.
  - intros Hf. apply find_some in Hf as [Hin Hf]. split; [|now intros _].
    apply negb_true_iff in Hf. intros Hq.
    apply in_map_iff in Hq as (mi & <- & Hmi).
    pose proof (proj1 (SubgraphIsomorphismFacts.existsb_false _ _) Hf mi Hmi)
      as Hb.
    cbv beta in Hb. now apply bool_decide_eq_false in Hb.
  - intros [= ->].
    assert (Hq : q ∈ VF2.qFrontier ls).
    { apply in_order_elem. rewrite E. apply list_elem_of_here. }
    split; [|intros Hc; now apply Hnodes].
    intros Hin. apply (Hdis q Hq). rewrite HM.
    apply elem_of_list_to_set. now apply list_elem_of_In.
Qed.

Lemma K_ext ls (m1 m2 : list Pair) :
  map nQ m1 = map nQ m2 -> K ls m1 -> K ls m2.
Proof. unfold VF2.state_inv. now intros ->. Qed.

Lemma K_query ls1 ls2 (m : list Pair) :
  VF2.qFrontier ls2 = VF2.qFrontier ls1 ->
  VF2.qMatched ls2 = VF2.qMatched ls1 ->
  K ls1 m -> K ls2 m.
Proof. unfold VF2.state_inv. now intros -> ->. Qed.

Lemma matched_snoc (m : list Pair) q r (M : gset nat) :
  M = list_to_set (map nQ m) ->
  {[ q ]} ∪ M = list_to_set (map nQ (m ++ [{| nQ := q; nD := r |}])).
Proof.
  intros ->. rewrite map_app, list_to_set_app_L. cbn [map nQ list_to_set].
  rewrite union_empty_r_L. apply union_comm_L.
Qed.

Hypothesis symmetric :
  undirected = true ->
  (forall a b, has_edge gQ a b = has_edge gQ b a) /\
  (forall a b, has_edge gD a b = has_edge gD b a).

Lemma extend_J (m : list Pair) q r :
  J m -> ~ In q (map nQ m) -> (closedQ -> In q (nodes gQ)) ->
  r ∈ VF2.candidate gD gQ q -> joinable r q m = true ->
  J (m ++ [{| nQ := q; nD := r |}]).
Proof.
  intros (Hnd & Hver & Hnodes) Hq Hqn Hc Hj.
  destruct (vf2_candidate_spec q r Hc) as [Hl Hself].
  split; [|split].
  - rewrite map_app. cbn [map nQ]. apply NoDup_app.
    split; [assumption|]. split; [|apply NoDup_singleton].
    intros x Hx Hx'. apply list_elem_of_singleton in Hx' as ->.
    now apply Hq, list_elem_of_In.
  - apply (SubgraphIsomorphismFacts.extend_verify gD gQ undirected symmetric);
      try assumption.
    intros nm Hin Heq. apply Hq. rewrite <- Heq. now apply in_map.
  - intros Hcl nm Hin. apply in_app_or in Hin as [Hin|[<-|[]]].
    + now apply Hnodes.
    + now apply Hqn.
Qed.

(** The query state as [doSearch] sets it up for its loop. *)
Lemma enter_K ls (m : list Pair) q :
  K ls m -> ~ In q (map nQ m) -> (closedQ -> In q (nodes gQ)) ->
  forall F A,
    (if negb undirected
     then VF2.insertTracked ({[ q ]} ∪ VF2.qMatched ls) (in_edgesQ q)
            (VF2.insertTracked ({[ q ]} ∪ VF2.qMatched ls) (edgesQ q)
               (VF2.qFrontier ls ∖ {[ q ]}, []))
     else VF2.insertTracked ({[ q ]} ∪ VF2.qMatched ls) (edgesQ q)
            (VF2.qFrontier ls ∖ {[ q ]}, [])) = (F, A) ->
    forall dF dM r,
      K {| VF2.qFrontier := F; VF2.qMatched := {[ q ]} ∪ VF2.qMatched ls;
           VF2.dFrontier := dF; VF2.dMatched := dM |}
        (m ++ [{| nQ := q; nD := r |}]).
Proof.
  intros (HM & Hdis & Hnodes) Hq Hqn F A HF dF dM r.
  set (M := {[ q ]} ∪ VF2.qMatched ls) in *.
  set (F0 := VF2.qFrontier ls ∖ {[ q ]}) in *.
  assert (Hin : forall x, x ∈ F ->
            x ∈ F0 \/ ((x ∈ edgesQ q \/ x ∈ in_edgesQ q) /\ x ∉ M)).
  { intros x Hx.
    destruct (VF2.insertTracked M (edgesQ q) (F0, [])) as [F1 A1] eqn:E1.
    pose proof (insertTracked_spec M (edgesQ q) F0 []) as [_ H1].
    cbn zeta in H1. rewrite E1 in H1. cbn [fst] in H1.
    destruct undirected; cbn [negb] in HF.
    - injection HF as <- <-. destruct (H1 x Hx) as [?|[? ?]]; [now left|].
      right. split; [now left|assumption].
    - pose proof (insertTracked_spec M (in_edgesQ q) F1 A1) as [_ H2].
      cbn zeta in H2. rewrite HF in H2. cbn [fst] in H2.
      destruct (H2 x Hx) as [Hx1|[? ?]].
      + destruct (H1 x Hx1) as [?|[? ?]]; [now left|].
        right. split; [now left|assumption].
      + right. split; [now right|assumption]. }
  split; [|split]; cbn [VF2.qFrontier VF2.qMatched].
  - now apply matched_snoc.
  - intros x Hx HxM. destruct (Hin x Hx) as [Hx0|[_ Hn]]; [|contradiction].
    subst F0 M. apply elem_of_difference in Hx0 as [HxF Hne].
    apply elem_of_union in HxM as [HxM|HxM]; [contradiction|].
    now apply (Hdis x).
  - intros Hcl x Hx. destruct (Hin x Hx) as [Hx0|[He _]].
    + subst F0. apply elem_of_difference in Hx0 as [HxF _].
      now apply Hnodes.
    + now apply (Hcl q).
Qed.

(** The query state as [doSearch] leaves it after its loop. *)
Lemma leave_K ls (m : list Pair) q r A :
  K ls (m ++ [{| nQ := q; nD := r |}]) ->
  ~ In q (map nQ m) -> (closedQ -> In q (nodes gQ)) ->
  K {| VF2.qFrontier := VF2.erase_all A ({[ q ]} ∪ VF2.qFrontier ls);
       VF2.qMatched := VF2.qMatched ls ∖ {[ q ]};
       VF2.dFrontier := VF2.dFrontier ls;
       VF2.dMatched := VF2.dMatched ls |} m.
Proof.
  intros (HM & Hdis & Hnodes) Hq Hqn.
  rewrite <- (matched_snoc m q r _ eq_refl) in HM.
  assert (Hqm : q ∉ (list_to_set (map nQ m) : gset nat)).
  { intros Hin. apply elem_of_list_to_set in Hin.
    now apply Hq, list_elem_of_In. }
  assert (Hsub : forall x,
            x ∈ VF2.erase_all A ({[ q ]} ∪ VF2.qFrontier ls) ->
            x = q \/ x ∈ VF2.qFrontier ls).
  { intros x Hx. apply erase_all_subseteq in Hx.
    apply elem_of_union in Hx as [Hx|Hx]; [|now right].
    left. now apply elem_of_singleton in Hx. }
  split; [|split]; cbn [VF2.qFrontier VF2.qMatched].
  - rewrite HM. apply set_eq. intros x.
    rewrite elem_of_difference, elem_of_union, elem_of_singleton.
    split; [intros [[->|Hx] Hne]; [contradiction|assumption]|].
    intros Hx. split; [now right|]. intros ->. contradiction.
  - intros x Hx HxM. apply elem_of_difference in HxM as [HxM Hne].
    destruct (Hsub x Hx) as [->|HxF].
    + apply Hne. now apply elem_of_singleton.
    + now apply (Hdis x).
  - intros Hcl x Hx. destruct (Hsub x Hx) as [->|HxF].
    + now apply Hqn.
    + now apply Hnodes.
Qed.

Section Invariant.
Variable P : State -> Prop.
Hypothesis P_report : forall st (m : list Pair),
  P st -> currentlyFound st < kFound ->
  J m -> length m = length (nodes gQ) ->
  P {| report := report st ++ [m];
       currentlyFound := MachineInt.wrap_unsigned (currentlyFound st + 1) |}.

(** The loop of [doSearch], for a recursive call that keeps [P] and the
    state. *)
Lemma loop_invariant
    (again : Matching nat nat -> State -> VF2.LocalState
             -> option (State * VF2.LocalState))
    (m : list Pair) q :
  (forall m' st ls st' ls',
     J m' -> K ls m' -> P st -> again m' st ls = Some (st', ls') ->
     P st' /\ (kFound <= currentlyFound st' \/ K ls' m')) ->
  J m -> ~ In q (map nQ m) -> (closedQ -> In q (nodes gQ)) ->
  forall refined st ls flag st' ls',
    (forall r, In r refined -> r ∈ VF2.candidate gD gQ q) ->
    (forall r, K ls (m ++ [{| nQ := q; nD := r |}])) ->
    P st ->
    loop again q m refined st ls = Some (flag, st', ls') ->
    P st' /\
    (flag = true -> kFound <= currentlyFound st') /\
    (flag = false -> forall r, K ls' (m ++ [{| nQ := q; nD := r |}])).
Proof.
  intros Hagain Hm Hq Hqn.
  induction refined as [|r refined IH];
    intros st ls flag st' ls' Hcand HK HP Hs; cbn [VF2.search_refined] in Hs.
  - injection Hs as <- <- <-. split; [assumption|].
    split; [discriminate|]. intros _. exact HK.
  - assert (Hrest : forall r', In r' refined -> r' ∈ VF2.candidate gD gQ q)
      by (intros r' Hr'; apply Hcand; now right).
    destruct (joinable r q m) eqn:Hj; cbn [negb] in Hs;
      [|now apply (IH st ls)].
    destruct (VF2.insertTracked ({[ r ]} ∪ VF2.dMatched ls) (edgesD r)
                (VF2.dFrontier ls ∖ {[ r ]}, [])) as [dF1 dA1].
    destruct (if negb undirected
              then VF2.insertTracked ({[ r ]} ∪ VF2.dMatched ls)
                     (in_edgesD r) (dF1, dA1)
              else (dF1, dA1)) as [dF2 dA2].
    match type of Hs with
    | match again ?m' ?st0 ?ls0 with _ => _ end = _ =>
        destruct (again m' st0 ls0) as [[st1 ls1]|] eqn:Hrec;
          [|discriminate Hs];
        destruct (Hagain m' st0 ls0 st1 ls1) as [HP1 HK1];
          [now apply extend_J; try assumption; apply Hcand; left
          |exact (K_query ls _ _ eq_refl eq_refl (HK r))
          |assumption|assumption|]
    end.
    destruct (Z.leb_spec kFound (currentlyFound st1)) as [Hge|Hlt].
    + injection Hs as <- <- <-. split; [assumption|].
      split; [now intros _|discriminate].
    + destruct HK1 as [Hge|HK1]; [lia|].
      apply (IH _ _ _ _ _ Hrest) with (3 := Hs); [|assumption].
      intros r'. apply (K_query ls1 _ _ eq_refl eq_refl).
      apply (K_ext _ (m ++ [{| nQ := q; nD := r |}])); [|assumption].
      now rewrite !map_app.
Qed.

Lemma vf2_doSearch_invariant fuel : forall (m : list Pair) st ls st' ls',
  J m -> K ls m -> P st -> search fuel m st ls = Some (st', ls') ->
  P st' /\ (kFound <= currentlyFound st' \/ K ls' m).
Proof.
  induction fuel as [|fuel IH]; intros m st ls st' ls' Hm HK HP Hs;
    [discriminate Hs|].
  cbn [VF2.doSearch] in Hs.
  destruct (Z.leb_spec kFound (currentlyFound st)) as [Hge|Hlt].
  { injection Hs as <- <-. split; [assumption|now right]. }
  destruct (length m =? length (nodes gQ))%nat eqn:Hlen.
  { injection Hs as <- <-. apply Nat.eqb_eq in Hlen.
    split; [now apply P_report|now right]. }
  destruct (VF2.nextQueryNode gQ ls m) as [q|] eqn:Hnext; [|discriminate Hs].
  destruct (next_fresh ls m q HK Hnext) as [Hq Hqn].
  pose proof (enter_K ls m q HK Hq Hqn) as Henter.
  destruct (VF2.insertTracked ({[ q ]} ∪ VF2.qMatched ls) (edgesQ q)
              (VF2.qFrontier ls ∖ {[ q ]}, [])) as [qF1 qA1].
  destruct (if negb undirected
            then VF2.insertTracked ({[ q ]} ∪ VF2.qMatched ls)
                   (in_edgesQ q) (qF1, qA1)
            else (qF1, qA1)) as [qF2 qA2] eqn:E2.
  specialize (Henter qF2 qA2 eq_refl).
  match type of Hs with
  | match loop ?ag ?q0 ?m0 ?rf ?st0 ?ls0 with _ => _ end = _ =>
      destruct (loop ag q0 m0 rf st0 ls0) as [[[flag st1] ls1]|] eqn:Hloop;
        [|discriminate Hs];
      destruct (loop_invariant ag m q IH Hm Hq Hqn rf st0 ls0 flag st1 ls1)
        as (HP1 & Htrue & Hfalse);
        [intros r Hr; now apply vf2_refine_candidate in Hr
        |intros r; apply Henter
        |assumption|assumption|]
  end.
  destruct flag.
  - injection Hs as <- <-. split; [assumption|]. left. now apply Htrue.
  - injection Hs as <- <-. split; [assumption|]. right.
    apply (leave_K ls1 m q q);
      [apply Hfalse; reflexivity | assumption | assumption].
Qed.

(** The state [operator()] starts the search in. *)
Lemma seed_invariants q rest c :
  nodes gQ = q :: rest -> c ∈ VF2.candidate gD gQ q ->
  let seed := {| nQ := q; nD := c |} in
  let qF := VF2.insertUntracked {[ q ]} (edgesQ q) ∅ in
  let qF := if negb undirected
            then VF2.insertUntracked {[ q ]} (in_edgesQ q) qF else qF in
  forall dF dM,
    J [seed] /\
    K {| VF2.qFrontier := qF; VF2.qMatched := {[ q ]};
         VF2.dFrontier := dF; VF2.dMatched := dM |} [seed].
Proof.
  intros Hn Hc seed qF0 qF dF dM. split.
  - apply (extend_J [] q c); try assumption.
    + split; [constructor|]. split; [reflexivity|]. intros _ nm [].
    + intros [].
    + intros _. rewrite Hn. now left.
    + reflexivity.
  - assert (Hin : forall x, x ∈ qF ->
              (x ∈ edgesQ q \/ x ∈ in_edgesQ q) /\ x ∉ ({[ q ]} : gset nat)).
    { intros x Hx. subst qF qF0.
      destruct undirected; cbn [negb] in Hx.
      - apply insertUntracked_spec in Hx as [Hx|[Hx Hm]];
          [now apply elem_of_empty in Hx|].
        split; [now left|assumption].
      - apply insertUntracked_spec in Hx as [Hx|[Hx Hm]].
        + apply insertUntracked_spec in Hx as [Hx|[Hx Hm]];
            [now apply elem_of_empty in Hx|].
          split; [now left|assumption].
        + split; [now right|assumption]. }
    split; [|split]; cbn [VF2.qFrontier VF2.qMatched].
    + cbn [map nQ list_to_set]. now rewrite union_empty_r_L.
    + intros x Hx HxM. now apply (Hin x Hx).
    + intros Hcl x Hx. apply (Hcl q). now apply Hin.
Qed.

Lemma vf2_for_each_invariant fuel q rest :
  nodes gQ = q :: rest ->
  forall cs st st',
    (forall c, In c cs -> c ∈ VF2.candidate gD gQ q) ->
    P st ->
    VF2.for_each gD gQ edgesD in_edgesD edgesQ in_edgesQ undirected kFound
      fuel (map (fun c => {| nQ := q; nD := c |}) cs) st = Some st' ->
    P st'.
Proof.
  intros Hn. induction cs as [|c cs IH]; intros st st' Hcs HP Hs;
    cbn [map VF2.for_each] in Hs.
  - now injection Hs as <-.
  - unfold VF2.search_from in Hs. cbn [nQ nD] in Hs.
    destruct (seed_invariants q rest c Hn (Hcs c (or_introl eq_refl))
                (if negb undirected
                 then VF2.insertUntracked {[ c ]} (in_edgesD c)
                        (VF2.insertUntracked {[ c ]} (edgesD c) ∅)
                 else VF2.insertUntracked {[ c ]} (edgesD c) ∅)
                {[ c ]}) as [HJ HK].
    cbn zeta in HJ, HK.
    match type of Hs with
    | match match search ?f ?m0 ?st0 ?ls0 with _ => _ end with _ => _ end = _ =>
        destruct (search f m0 st0 ls0) as [[st1 ls1]|] eqn:Hrec;
          [|discriminate Hs];
        destruct (vf2_doSearch_invariant f m0 st0 ls0 st1 ls1 HJ HK HP Hrec)
          as [HP1 _]
    end.
    destruct (kFound <=? currentlyFound st1); [now injection Hs as <-|].
    apply (IH st1 st'); try assumption.
    intros c' Hc'. apply Hcs. now right.
Qed.

Lemma vf2_subgraphSearch_invariant fuel st st' :
  P st ->
  VF2.subgraphSearch gD gQ edgesD in_edgesD edgesQ in_edgesQ undirected
    kFound fuel st = Some st' ->
  P st'.
Proof.
  intros HP Hs. unfold VF2.subgraphSearch in Hs.
  pose proof (vf2_for_each_invariant fuel) as Hfe.
  destruct (nodes gQ) as [|q rest] eqn:Hn; [discriminate Hs|].
  apply (Hfe q rest eq_refl (VF2.candidate gD gQ q) st st');
    [|assumption|assumption].
  intros c Hc. now apply list_elem_of_In.
Qed.

End Invariant.

(** A matching of distinct query nodes is no longer than the query graph. *)
Lemma matching_length_le (m : list Pair) :
  closedQ -> J m -> (length m <= length (nodes gQ))%nat.
Proof.
  intros Hcl (Hnd & _ & Hn).
  rewrite <- (length_map nQ m).
  apply NoDup_incl_length; [now apply NoDup_ListNoDup|].
  intros x Hx. apply in_map_iff in Hx as (nm & <- & Hin). now apply Hn.
Qed.

(** [nextQueryNode] does not [abort()] while a query node is unmatched. *)
Lemma next_exists ls (m : list Pair) :
  closedQ -> NoDup (nodes gQ) -> J m -> length m <> length (nodes gQ) ->
  is_Some (VF2.nextQueryNode gQ ls m).
Proof.
  intros Hcl Hnd HJ Hlen. unfold VF2.nextQueryNode.
  destruct (VF2.in_order (VF2.qFrontier ls)); [|eauto].
  destruct (find _ (nodes gQ)) eqn:Hf; [eauto|]. exfalso. apply Hlen.
  apply Nat.le_antisymm; [now apply matching_length_le|].
  rewrite <- (length_map nQ m).
  apply NoDup_incl_length; [now apply NoDup_ListNoDup|].
  intros x Hx. pose proof (find_none _ _ Hf x Hx) as Hb. cbv beta in Hb.
  apply negb_false_iff, existsb_exists in Hb as (mi & Hmi & Hb).
  apply bool_decide_eq_true in Hb as ->. now apply in_map.
Qed.

Lemma loop_total
    (again : Matching nat nat -> State -> VF2.LocalState
             -> option (State * VF2.LocalState))
    (m : list Pair) q :
  (forall m' st ls st' ls',
     J m' -> K ls m' -> again m' st ls = Some (st', ls') ->
     kFound <= currentlyFound st' \/ K ls' m') ->
  (forall m' st ls,
     J m' -> K ls m' -> length m' = S (length m) ->
     is_Some (again m' st ls)) ->
  J m -> ~ In q (map nQ m) -> (closedQ -> In q (nodes gQ)) ->
  forall refined st ls,
    (forall r, In r refined -> r ∈ VF2.candidate gD gQ q) ->
    (forall r, K ls (m ++ [{| nQ := q; nD := r |}])) ->
    is_Some (loop again q m refined st ls).
Proof.
  intros Hkeep Hagain Hm Hq Hqn.
  induction refined as [|r refined IH]; intros st ls Hcand HK;
    cbn [VF2.search_refined]; [eauto|].
  assert (Hrest : forall r', In r' refined -> r' ∈ VF2.candidate gD gQ q)
    by (intros r' Hr'; apply Hcand; now right).
  destruct (joinable r q m) eqn:Hj; cbn [negb]; [|now apply IH].
  destruct (VF2.insertTracked ({[ r ]} ∪ VF2.dMatched ls) (edgesD r)
              (VF2.dFrontier ls ∖ {[ r ]}, [])) as [dF1 dA1].
  destruct (if negb undirected
            then VF2.insertTracked ({[ r ]} ∪ VF2.dMatched ls)
                   (in_edgesD r) (dF1, dA1)
            else (dF1, dA1)) as [dF2 dA2].
  assert (HJ' : J (m ++ [{| nQ := q; nD := r |}])).
  { apply extend_J; try assumption. apply Hcand. now left. }
  match goal with
  | |- is_Some (match again ?m' ?st0 ?ls0 with _ => _ end) =>
      assert (HK' : K ls0 m')
        by exact (K_query ls _ _ eq_refl eq_refl (HK r));
      destruct (Hagain m' st0 ls0 HJ' HK') as [[st1 ls1] Hrec];
        [rewrite length_app; cbn [length]; lia|];
      rewrite Hrec;
      pose proof (Hkeep m' st0 ls0 st1 ls1 HJ' HK' Hrec) as HK1
  end.
  destruct (Z.leb_spec kFound (currentlyFound st1)) as [Hge|Hlt]; [eauto|].
  destruct HK1 as [Hge|HK1]; [lia|].
  apply IH; [assumption|].
  intros r'. apply (K_query ls1 _ _ eq_refl eq_refl).
  apply (K_ext _ (m ++ [{| nQ := q; nD := r |}])); [|assumption].
  now rewrite !map_app.
Qed.

Lemma vf2_doSearch_total :
  closedQ -> NoDup (nodes gQ) ->
  forall fuel (m : list Pair) st ls,
    J m -> K ls m -> (length (nodes gQ) < length m + fuel)%nat ->
    is_Some (search fuel m st ls).
Proof.
  intros Hcl Hnd. induction fuel as [|fuel IH]; intros m st ls HJ HK Hlt.
  { pose proof (matching_length_le m Hcl HJ). lia. }
  cbn [VF2.doSearch].
  destruct (kFound <=? currentlyFound st); [eauto|].
  destruct (length m =? length (nodes gQ))%nat eqn:Hlen; [eauto|].
  apply Nat.eqb_neq in Hlen.
  destruct (next_exists ls m Hcl Hnd HJ Hlen) as [q Hnext]. rewrite Hnext.
  destruct (next_fresh ls m q HK Hnext) as [Hq Hqn].
  pose proof (enter_K ls m q HK Hq Hqn) as Henter.
  destruct (VF2.insertTracked ({[ q ]} ∪ VF2.qMatched ls) (edgesQ q)
              (VF2.qFrontier ls ∖ {[ q ]}, [])) as [qF1 qA1].
  destruct (if negb undirected
            then VF2.insertTracked ({[ q ]} ∪ VF2.qMatched ls)
                   (in_edgesQ q) (qF1, qA1)
            else (qF1, qA1)) as [qF2 qA2] eqn:E2.
  specialize (Henter qF2 qA2 eq_refl).
  match goal with
  | |- is_Some (match loop ?ag ?q0 ?m0 ?rf ?st0 ?ls0 with _ => _ end) =>
      destruct (loop_total ag m0 q0) with (refined := rf) (st := st0)
        (ls := ls0) as [[[flag st1] ls1] Hloop]
  end.
  - intros m' st0 ls0 st' ls' HJ' HK' Hrec.
    now apply (vf2_doSearch_invariant (fun _ => True) ltac:(trivial)
                 fuel m' st0 ls0 st' ls' HJ' HK' I Hrec).
  - intros m' st0 ls0 HJ' HK' Hlen'. apply IH; try assumption. lia.
  - assumption.
  - assumption.
  - assumption.
  - intros r Hr. now apply vf2_refine_candidate in Hr.
  - intros r. apply Henter.
  - rewrite Hloop. destruct flag; eauto.
Qed.

Lemma vf2_for_each_total fuel q rest :
  closedQ -> NoDup (nodes gQ) ->
  nodes gQ = q :: rest -> (length (nodes gQ) <= fuel)%nat ->
  forall cs st,
    (forall c, In c cs -> c ∈ VF2.candidate gD gQ q) ->
    is_Some (VF2.for_each gD gQ edgesD in_edgesD edgesQ in_edgesQ undirected
               kFound fuel (map (fun c => {| nQ := q; nD := c |}) cs) st).
Proof.
  intros Hcl Hnd Hn Hf. induction cs as [|c cs IHcs]; intros st Hcs;
    cbn [map VF2.for_each]; [eauto|].
  unfold VF2.search_from. cbn [nQ nD].
  destruct (seed_invariants q rest c Hn (Hcs c (or_introl eq_refl))
              (if negb undirected
               then VF2.insertUntracked {[ c ]} (in_edgesD c)
                      (VF2.insertUntracked {[ c ]} (edgesD c) ∅)
               else VF2.insertUntracked {[ c ]} (edgesD c) ∅)
              {[ c ]}) as [HJ HK].
  cbn zeta in HJ, HK.
  match goal with
  | |- is_Some (match match search ?f ?m0 ?st0 ?ls0 with _ => _ end
                with _ => _ end) =>
      destruct (vf2_doSearch_total Hcl Hnd f m0 st0 ls0 HJ HK)
        as [[st1 ls1] ->]
  end.
  - cbn [length]. lia.
  - destruct (kFound <=? currentlyFound st1); [eauto|].
    apply IHcs. intros c' Hc'. apply Hcs. now right.
Qed.

Lemma vf2_subgraphSearch_total fuel st :
  closedQ -> NoDup (nodes gQ) ->
  nodes gQ <> [] -> (length (nodes gQ) <= fuel)%nat ->
  is_Some (VF2.subgraphSearch gD gQ edgesD in_edgesD edgesQ in_edgesQ
             undirected kFound fuel st).
Proof.
  intros Hcl Hnd Hne Hf. unfold VF2.subgraphSearch.
  pose proof (vf2_for_each_total fuel) as Hfe.
  destruct (nodes gQ) as [|q rest] eqn:Hn; [contradiction|].
  apply (Hfe q rest Hcl Hnd eq_refl Hf).
  intros c Hc. now apply list_elem_of_In.
Qed.

End Search.

(** X27: the VF2 search run by one worker never fails its own
    verification: every matching it reports has as many pairs as the query
    graph has nodes, no query node twice, and passes [verifyMatching]; when
    the edges of the query graph lead to its nodes, the matching pairs
    every query node.  With [-undirected] both graphs have every edge in
    both directions.  When moreover the nodes of the query graph are
    distinct, the run ends with as much fuel as there are query nodes, so
    [nextQueryNode] never reaches its [abort()]. *)
Theorem vf2_run_verifies (gD gQ : Graph nat)
    (edgesD in_edgesD edgesQ in_edgesQ : nat -> list nat)
    (undirected : bool) (kFound : Z) (fuel : nat) :
  (undirected = true ->
   (forall a b, has_edge gQ a b = has_edge gQ b a) /\
   (forall a b, has_edge gD a b = has_edge gD b a)) ->
  VF2.run gD gQ edgesD in_edgesD edgesQ in_edgesQ undirected kFound fuel
  <> Some VerificationFailed /\
  (forall found ms,
     VF2.run gD gQ edgesD in_edgesD edgesQ in_edgesQ undirected kFound fuel
     = Some (Verified found ms) ->
     forall m, In m ms ->
       length m = length (nodes gQ) /\
       NoDup (map nQ m) /\
       verifyMatching gD gQ m = true /\
       (VF2.closed gQ edgesQ in_edgesQ -> map nQ m ≡ₚ nodes gQ)) /\
  (VF2.closed gQ edgesQ in_edgesQ -> NoDup (nodes gQ) ->
   nodes gQ <> [] -> (length (nodes gQ) <= fuel)%nat ->
   is_Some (VF2.run gD gQ edgesD in_edgesD edgesQ in_edgesQ undirected
              kFound fuel)).
Proof.
  intros Hsym.
  set (P := fun st : @SearchState nat nat =>
              forall m, In m (report st) ->
                VF2.matching_inv gD gQ edgesQ in_edgesQ m /\
                length m = length (nodes gQ)).
  assert (Hinv : forall st,
            VF2.subgraphSearch gD gQ edgesD in_edgesD edgesQ in_edgesQ
              undirected kFound fuel {| report := []; currentlyFound := 0 |}
            = Some st -> P st).
  { intros st Hs.
    apply (vf2_subgraphSearch_invariant gD gQ edgesD in_edgesD edgesQ
             in_edgesQ undirected kFound Hsym P) with (3 := Hs).
    - intros st0 m HP _ HJ Hlen m' Hin. cbn [report] in Hin.
      apply in_app_or in Hin as [Hin|[<-|[]]]; [now apply HP|].
      now split.
    - intros m []. }
  unfold VF2.run. destruct (VF2.filterCandidates gD gQ).
  { split; [discriminate|]. split; [discriminate|]. eauto. }
  destruct (VF2.subgraphSearch gD gQ edgesD in_edgesD edgesQ in_edgesQ
              undirected kFound fuel {| report := []; currentlyFound := 0 |})
    as [st|] eqn:Hs.
  - pose proof (Hinv st eq_refl) as HP.
    assert (Hall : forallb (verifyMatching gD gQ) (report st) = true).
    { apply forallb_forall. intros m Hin. now apply HP. }
    rewrite Hall, orb_true_r.
    split; [discriminate|]. split; [|eauto].
    intros found ms [= _ <-] m Hin.
    destruct (HP m Hin) as [(Hnd & Hver & Hn) Hlen].
    split; [assumption|]. split; [assumption|]. split; [assumption|].
    intros Hcl. apply submseteq_length_Permutation.
    + apply NoDup_submseteq; [assumption|].
      intros x Hx. apply list_elem_of_In, in_map_iff in Hx as (nm & <- & Hnm).
      apply list_elem_of_In. now apply Hn.
    + rewrite length_map. lia.
  - split; [discriminate|]. split; [discriminate|].
    intros Hcl Hnd Hne Hf.
    destruct (vf2_subgraphSearch_total gD gQ edgesD in_edgesD edgesQ
                in_edgesQ undirected kFound Hsym fuel
                {| report := []; currentlyFound := 0 |} Hcl Hnd Hne Hf)
      as [st Hst].
    rewrite Hst in Hs. discriminate Hs.
Qed.

Lemma vf2_run_verifies_witness :
  VF2.run sample_data sample_query sample_data_edges sample_data_in_edges
    sample_query_edges sample_query_in_edges false 10 2
  = Some (Verified 2 [[{| nQ := 0%nat; nD := 0%nat |};
                       {| nQ := 1%nat; nD := 1%nat |}];
                      [{| nQ := 0%nat; nD := 1%nat |};
                       {| nQ := 1%nat; nD := 2%nat |}]]) /\
  VF2.closed sample_query sample_query_edges sample_query_in_edges /\
  VF2.run sample_data sample_query sample_data_edges sample_data_in_edges
    sample_query_edges sample_query_in_edges false 10 2
  <> Some VerificationFailed.
Proof.
  split; [vm_compute; reflexivity|]. split.
  - intros n ngh [H|H]; destruct n as [|[|n]]; cbn in H;
      try (now apply elem_of_nil in H);
      apply list_elem_of_singleton in H as ->; cbn; tauto.
  - apply (vf2_run_verifies sample_data sample_query sample_data_edges
             sample_data_in_edges sample_query_edges sample_query_in_edges
             false 10 2).
    intros H. discriminate H.
Defined.

(** X28: run by one worker, the VF2 search reports at most [kFound]
    matchings, as many as [currentlyFound] counts. *)
Theorem vf2_reports_at_most_k (gD gQ : Graph nat)
    (edgesD in_edgesD edgesQ in_edgesQ : nat -> list nat)
    (undirected : bool) (kFound : Z) (fuel : nat)
    (found : Z) (ms : list (Matching nat nat)) :
  (undirected = true ->
   (forall a b, has_edge gQ a b = has_edge gQ b a) /\
   (forall a b, has_edge gD a b = has_edge gD b a)) ->
  0 <= kFound < 2 ^ 32 ->
  VF2.run gD gQ edgesD in_edgesD edgesQ in_edgesQ undirected kFound fuel
  = Some (Verified found ms) ->
  found = Z.of_nat (length ms) /\ found <= kFound.
Proof.
  intros Hsym Hk. unfold VF2.run.
  destruct (VF2.filterCandidates gD gQ); [discriminate|].
  destruct (VF2.subgraphSearch gD gQ edgesD in_edgesD edgesQ in_edgesQ
              undirected kFound fuel {| report := []; currentlyFound := 0 |})
    as [st|] eqn:Hs; [|discriminate].
  set (P := fun st : @SearchState nat nat =>
              currentlyFound st = Z.of_nat (length (report st)) /\
              currentlyFound st <= kFound).
  assert (HP : P st).
  { apply (vf2_subgraphSearch_invariant gD gQ edgesD in_edgesD edgesQ
             in_edgesQ undirected kFound Hsym P) with (3 := Hs).
    - intros st0 m [Hc Hle] Hlt _ _. unfold P. cbn [report currentlyFound].
      rewrite length_app. cbn [length].
      unfold MachineInt.wrap_unsigned. rewrite Z.mod_small by lia. lia.
    - unfold P. cbn [report currentlyFound length]. lia. }
  destruct (_ || _); [|discriminate].
  intros [= <- <-]. exact HP.
Qed.

Lemma vf2_reports_at_most_k_witness :
  1 = Z.of_nat (length [[{| nQ := 0%nat; nD := 0%nat |};
                         {| nQ := 1%nat; nD := 1%nat |}]]) /\ 1 <= 1.
Proof.
  apply (vf2_reports_at_most_k sample_data sample_query sample_data_edges
           sample_data_in_edges sample_query_edges sample_query_in_edges
           false 1 2).
  - intros H. discriminate H.
  - lia.
  - vm_compute. reflexivity.
Defined.

End VF2Facts.
